(** * Slang front end: type interning, expression binding, compilation root and lexer

    A shallow embedding of the parts of the SystemVerilog front end that the
    specification's testable properties talk about, and of the code around
    them:

    - [Compilation::getType], [Compilation::getScalarType],
      [Compilation::addSyntaxTree], [Compilation::getRoot],
      [Compilation::addDefinition], [Compilation::getParamDecls],
      [Compilation::getDefinition], [Compilation::findInstantiations]
      (source/compilation/Compilation.cpp);
    - [binaryOperatorType], [forceFourState], [singleBitType],
      [Expression::isLValue], [Expression::convertAssignment] and the binders
      of the literal, unary, binary, assignment, element select, conditional,
      concatenation and replication expressions
      (source/binding/Expressions.cpp);
    - [Lexer::Lexer], [Lexer::lex], [Lexer::lexToken], [Lexer::lexTrivia],
      the sub-lexers of strings, names, numbers, escapes, directives and
      include file names, the scanners they call and the arithmetic of real
      values (source/lexing/Lexer.cpp);
    - [SmallVector] and [SmallVectorSized] (source/util/SmallVector.h).

    Conventions.  A C++ object that has an identity (a type allocated in the
    compilation's arena) carries its arena address; pointer equality is Rocq
    equality of such objects.  A function that can fail an [ASSERT], read
    outside its buffer or hit [THROW_UNREACHABLE] returns [option]; [None] is
    "the call does not return normally".  A function that throws
    [std::logic_error] returns an [Outcome].  Unsigned 32-bit arithmetic is
    written out with [mod 2^32]. *)

From stdpp Require Import gmap strings list.
From Stdlib Require Import ZArith Lia Sorted Ascii.
From Stdlib Require Floats Uint63.

Set Warnings "-register-all,-clear-no-such-hyp,-inexact-float".

Local Open Scope Z_scope.

(** ** Diagnostics *)

Inductive DiagCode :=
| ExpressionNotConstant | NotAValue | MemberAccessNotStructUnion | UnknownMember
| NoImplicitConversion | BadAssignment | ExpressionNotAssignable
| BadUnaryExpression | BadBinaryExpression | BadIndexExpression
| CannotIndexScalar | IndexMustBeIntegral | BadConcatExpression
| ValueExceedsMaxBitWidth | ReplicationZeroOutsideConcat
| ValueMustNotBeUnknown | ValueMustBePositive | ExpectedExpression
| ExpressionNotCallable | NotASubroutine | TooManyArguments
| NetTypeNotAllowed | BodyParamNoInitializer | LocalParamNoInitializer
| NonPrintableChar | UTF8Char | UnicodeBOM | EmbeddedNull
| ExpectedClosingQuote | OctalEscapeCodeTooBig | InvalidHexEscapeCode
| UnknownEscapeCode | EscapedWhitespace | UnterminatedBlockComment
| NestedBlockComment | SplitBlockCommentInDirective | MisplacedDirectiveChar
| IncludeNotFirstOnLine | ExpectedIncludeFileName
| ExpectedIntegerBaseAfterSigned | ExpectedVectorDigits
| MissingFractionalDigits | MissingExponentDigits | RealExponentOverflow
| SignedIntegerOverflow | LiteralSizeIsZero | LiteralSizeTooLarge
| TooManyLexerErrors | UnknownDirective | ExpectedToken
| NotEnoughMacroArgs | TooManyActualMacroArgs | ExpectedMacroArgs
| ColonShouldBeDot | ExpectedClassScope | ExpectedMacroStringifyEnd.

#[global] Instance DiagCode_eq_dec : EqDecision DiagCode.
Proof. solve_decision. Defined.

(** A source location is a buffer and a byte offset in it; a range is a pair
    of locations. *)
Record SourceLocation := { locBuffer : nat; locOffset : nat }.

Record SourceRange := { rangeStart : SourceLocation; rangeEnd : SourceLocation }.

(** A diagnostic as the stores keep it: its code and its primary location
    (for the overload taking a range, where the range starts). *)
Record Diagnostic := { diagCode : DiagCode; diagLocation : SourceLocation }.

Definition diagCodes (ds : list Diagnostic) : list DiagCode := map diagCode ds.

(** ** Types (symbols/TypeSymbols) *)

Inductive ScalarKind := Bit | Logic | Reg.

Inductive PredefinedIntegerKind := ShortInt | Int | LongInt | Byte | Integer | Time.

Inductive FloatingKind := Real | ShortReal | RealTime.

(** [ConstantRange { left, right }], both ends 32-bit signed. *)
Record ConstantRange := { rangeLeft : Z; rangeRight : Z }.

(** Modelled from the spec: the class [Type] and its subclasses are declared
    outside the translated sources.  The variants are the spec's: error, void,
    null, chandle, string, event, integer scalar (bit/logic/reg, optionally
    signed), packed array over an element type with a closed integer range,
    predefined integer, floating, struct/union, enum and named alias.  The
    built-in types are members of the compilation, one object each, so a
    constructor without an address is that one object; a type allocated with
    [emplace] carries the arena address it was given. *)
Inductive TypeSymbol :=
| ErrorType
| VoidType
| NullType
| CHandleType
| StringType
| EventType
| ScalarType (scalarKind : ScalarKind) (signed : bool)
| PredefinedIntegerType (integerKind : PredefinedIntegerKind)
| FloatingType (floatKind : FloatingKind)
| PackedArrayType (addr : nat) (elementType : TypeSymbol) (range : ConstantRange)
| StructUnionType (addr : nat)
| EnumType (addr : nat)
| TypeAliasType (addr : nat) (name : string) (targetType : TypeSymbol).

#[global] Instance ScalarKind_eq_dec : EqDecision ScalarKind.
Proof. solve_decision. Defined.

#[global] Instance PredefinedIntegerKind_eq_dec : EqDecision PredefinedIntegerKind.
Proof. solve_decision. Defined.

#[global] Instance FloatingKind_eq_dec : EqDecision FloatingKind.
Proof. solve_decision. Defined.

#[global] Instance ConstantRange_eq_dec : EqDecision ConstantRange.
Proof. solve_decision. Defined.

#[global] Instance TypeSymbol_eq_dec : EqDecision TypeSymbol.
Proof. solve_decision. Defined.

(** [bitmask<IntegralFlags>]: the three flag bits. *)
Record IntegralFlags := { Signed : bool; FourState : bool; RegFlag : bool }.

#[global] Instance IntegralFlags_eq_dec : EqDecision IntegralFlags.
Proof. solve_decision. Defined.

(** [IntegralFlags::Unsigned], which is also [IntegralFlags::TwoState]. *)
Definition NoFlags : IntegralFlags :=
  {| Signed := false; FourState := false; RegFlag := false |}.

(** Modelled from the spec: "Scalar types are tabulated by three flag bits
    (Signed, FourState, Reg)"; the enumerators' values are declared outside
    the translated sources and are taken as 1, 2 and 4. *)
Definition flagBits (f : IntegralFlags) : Z :=
  (if Signed f then 1 else 0) + (if FourState f then 2 else 0) +
  (if RegFlag f then 4 else 0).

(** Modelled from the spec: [ConstantRange::width], the number of elements of
    a closed range. *)
Definition rangeWidth (r : ConstantRange) : Z :=
  Z.abs (rangeLeft r - rangeRight r) + 1.

Definition uint32 (z : Z) : Z := z mod 2 ^ 32.

(** Modelled from the spec: a named alias stands for the type it wraps. *)
Fixpoint getCanonicalType (t : TypeSymbol) : TypeSymbol :=
  match t with
  | TypeAliasType _ _ target => getCanonicalType target
  | _ => t
  end.

(** Modelled from the spec: "isIntegral: any integer scalar or packed array
    of one"; the predefined integers (byte ... time) are integers too: the
    integer literal's type is [int]. *)
Definition isIntegral (t : TypeSymbol) : bool :=
  match getCanonicalType t with
  | ScalarType _ _ | PredefinedIntegerType _ | PackedArrayType _ _ _ => true
  | _ => false
  end.

Definition isFloating (t : TypeSymbol) : bool :=
  match getCanonicalType t with
  | FloatingType _ => true
  | _ => false
  end.

(** Modelled from the spec: "isNumeric: integral or floating". *)
Definition isNumeric (t : TypeSymbol) : bool := isIntegral t || isFloating t.

(** Modelled from the spec: "isScalar: a single-bit integer scalar (not a
    1-wide packed array)". *)
Definition isScalar (t : TypeSymbol) : bool :=
  match getCanonicalType t with
  | ScalarType _ _ => true
  | _ => false
  end.

Definition isError (t : TypeSymbol) : bool :=
  match getCanonicalType t with ErrorType => true | _ => false end.

Definition isVoid (t : TypeSymbol) : bool :=
  match getCanonicalType t with VoidType => true | _ => false end.

(** Modelled from the spec: the bit width of a type; a packed array has the
    width of its element times the width of its range, in 32-bit unsigned
    arithmetic. *)
Fixpoint getBitWidth (t : TypeSymbol) : Z :=
  match t with
  | ScalarType _ _ => 1
  | PredefinedIntegerType Byte => 8
  | PredefinedIntegerType ShortInt => 16
  | PredefinedIntegerType Int => 32
  | PredefinedIntegerType Integer => 32
  | PredefinedIntegerType LongInt => 64
  | PredefinedIntegerType Time => 64
  | FloatingType ShortReal => 32
  | FloatingType Real => 64
  | FloatingType RealTime => 64
  | PackedArrayType _ e r => uint32 (getBitWidth e * rangeWidth r)
  | TypeAliasType _ _ target => getBitWidth target
  | _ => 0
  end.

Fixpoint isSigned (t : TypeSymbol) : bool :=
  match t with
  | ScalarType _ s => s
  | PredefinedIntegerType Time => false
  | PredefinedIntegerType _ => true
  | PackedArrayType _ e _ => isSigned e
  | TypeAliasType _ _ target => isSigned target
  | _ => false
  end.

(** Modelled from the spec: "isFourState: integer scalars logic/reg, and
    derivatives thereof"; of the predefined integers, [integer] and [time]. *)
Fixpoint isFourState (t : TypeSymbol) : bool :=
  match t with
  | ScalarType Bit _ => false
  | ScalarType _ _ => true
  | PredefinedIntegerType Integer => true
  | PredefinedIntegerType Time => true
  | PackedArrayType _ e _ => isFourState e
  | TypeAliasType _ _ target => isFourState target
  | _ => false
  end.

Fixpoint isDeclaredReg (t : TypeSymbol) : bool :=
  match t with
  | ScalarType Reg _ => true
  | PackedArrayType _ e _ => isDeclaredReg e
  | TypeAliasType _ _ target => isDeclaredReg target
  | _ => false
  end.

Definition getIntegralFlags (t : TypeSymbol) : IntegralFlags :=
  if isIntegral t
  then {| Signed := isSigned t; FourState := isFourState t; RegFlag := isDeclaredReg t |}
  else NoFlags.

(** Modelled from the spec: "isMatching(a,b): structurally identical
    including widths and flags", looking through aliases ("if lt or rt matches
    the computed result, return that alias").  The structure of a type is the
    type without its alias names and without the addresses of its packed
    arrays; a struct, union or enum is the declaration it was allocated
    for. *)
Fixpoint structureOf (t : TypeSymbol) : TypeSymbol :=
  match t with
  | PackedArrayType _ e r => PackedArrayType 0 (structureOf e) r
  | TypeAliasType _ _ target => structureOf target
  | _ => t
  end.

Definition isMatching (a b : TypeSymbol) : bool :=
  bool_decide (structureOf a = structureOf b).

(** ** Syntax trees, as far as the compilation manager reads them *)

Inductive DefinitionKind := ModuleDeclaration | InterfaceDeclaration | ProgramDeclaration.

#[global] Instance DefinitionKind_eq_dec : EqDecision DefinitionKind.
Proof. solve_decision. Defined.

Inductive ParameterKeyword := ParameterKeyword_ | LocalParamKeyword.

(** [VariableDeclaratorSyntax]: the declared name (its text and location) and
    the initializer, a handle to its expression syntax when there is one. *)
Record VariableDeclaratorSyntax := {
  declaratorName : string;
  declaratorLocation : SourceLocation;
  declaratorInitializer : option nat
}.

(** [ParameterDeclarationSyntax]: the keyword token if one was written, a
    handle to the data type syntax, and the declarators. *)
Record ParameterDeclarationSyntax := {
  paramKeyword : option ParameterKeyword;
  paramTypeSyntax : nat;
  paramDeclarators : list VariableDeclaratorSyntax
}.

(** [ModuleHeaderSyntax]: the name token and the parameter port list. *)
Record ModuleHeaderSyntax := {
  headerName : string;
  headerNameLocation : SourceLocation;
  headerParameters : option (list ParameterDeclarationSyntax)
}.

Inductive CaseItemSyntax (M : Type) :=
| DefaultCaseItem (clause : M)
| StandardCaseItem (clause : M)
| PatternCaseItem.

Arguments DefaultCaseItem {M} clause.
Arguments StandardCaseItem {M} clause.
Arguments PatternCaseItem {M}.

(** [MemberSyntax]: the member kinds [findInstantiations] and
    [addDefinition] tell apart; every other kind is [OtherMember]. *)
Inductive MemberSyntax :=
| ModuleDeclarationSyntax (kind : DefinitionKind) (header : ModuleHeaderSyntax)
    (members : list MemberSyntax)
| HierarchyInstantiation (type : string)
| GenerateRegion (members : list MemberSyntax)
| GenerateBlock (members : list MemberSyntax)
| LoopGenerate (block : MemberSyntax)
| CaseGenerate (items : list (CaseItemSyntax MemberSyntax))
| IfGenerate (block : MemberSyntax) (elseClause : option MemberSyntax)
| ParameterDeclarationStatement (parameter : ParameterDeclarationSyntax)
| OtherMember.

(** The root node of a syntax tree: a compilation unit or a single node. *)
Inductive SyntaxNode :=
| CompilationUnitSyntax (members : list MemberSyntax)
| SingleNode (node : MemberSyntax).

Record SyntaxTree := {
  treeRoot : SyntaxNode;
  treeSourceManager : nat;
  treeDiagnostics : list Diagnostic
}.

(** ** The compilation (compilation/Compilation) *)

Abbreviation NameSet := (gset string).

(** A scope as the definition map keys it: the address of the scope's symbol
    and that symbol's kind. *)
Inductive SymbolKind := RootKind | CompilationUnitKind | ModuleInstanceKind | OtherSymbolKind.

Record Scope := { scopeAddr : nat; scopeKind : SymbolKind }.

(** The root symbol lives outside the arena, at an address no [emplace]
    returns; the arena's first address is 1. *)
Definition rootAddr : nat := 0%nat.

Record ParameterDecl := {
  paramName : string;
  paramLocation : SourceLocation;
  paramType : nat;
  paramInitializer : option nat;
  paramIsLocal : bool;
  paramIsPort : bool
}.

(** [Definition]: the declaration syntax it was made from, its name and its
    parameters. *)
Record DefinitionEntry := {
  definitionKind : DefinitionKind;
  definitionName : string;
  definitionNameLocation : SourceLocation;
  definitionMembers : list MemberSyntax;
  definitionParameters : list ParameterDecl
}.

Record ModuleInstanceSymbol := {
  instanceAddr : nat;
  instanceName : string;
  instanceLocation : SourceLocation;
  instanceDefinition : string * nat
}.

Record CompilationUnitSymbol := {
  unitAddr : nat;
  unitMembers : list MemberSyntax
}.

Inductive RootMember :=
| UnitMember (unit : CompilationUnitSymbol)
| InstanceMember (instance : ModuleInstanceSymbol).

Record RootSymbol := {
  rootMembers : list RootMember;
  topInstances : list ModuleInstanceSymbol;
  rootCompilationUnits : list CompilationUnitSymbol
}.

Record Compilation := {
  nextAddr : nat;
  vectorTypeCache : gmap Z TypeSymbol;
  diags : list Diagnostic;
  finalized : bool;
  sourceManager : option nat;
  definitionMap : gmap (string * nat) DefinitionEntry;
  instantiatedNames : gset string;
  compilationUnits : list CompilationUnitSymbol;
  syntaxTrees : list SyntaxTree;
  root : RootSymbol;
  forcedDiagnostics : bool
}.

(** The state the constructor leaves: empty caches and maps, an empty root,
    nothing finalized. *)
Definition newCompilation : Compilation := {|
  nextAddr := 1%nat;
  vectorTypeCache := ∅;
  diags := [];
  finalized := false;
  sourceManager := None;
  definitionMap := ∅;
  instantiatedNames := ∅;
  compilationUnits := [];
  syntaxTrees := [];
  root := {| rootMembers := []; topInstances := []; rootCompilationUnits := [] |};
  forcedDiagnostics := false
|}.

(** What a call that may throw leaves: its result and the compilation, or the
    exception's message and the compilation as it was when it was thrown. *)
Inductive Outcome (A : Type) :=
| Returned (result : A) (compilation : Compilation)
| Thrown (what : string) (compilation : Compilation).

Arguments Returned {A} result compilation.
Arguments Thrown {A} what compilation.

Definition addError (c : Compilation) (code : DiagCode) (location : SourceLocation)
  : Compilation :=
  {| nextAddr := nextAddr c;
     vectorTypeCache := vectorTypeCache c;
     diags := diags c ++ [{| diagCode := code; diagLocation := location |}];
     finalized := finalized c;
     sourceManager := sourceManager c;
     definitionMap := definitionMap c;
     instantiatedNames := instantiatedNames c;
     compilationUnits := compilationUnits c;
     syntaxTrees := syntaxTrees c;
     root := root c;
     forcedDiagnostics := forcedDiagnostics c |}.

(** [emplace<T>]: the next arena address, and the compilation with the arena
    advanced past the new object. *)
Definition emplace (c : Compilation) : nat * Compilation :=
  (nextAddr c,
   {| nextAddr := S (nextAddr c);
      vectorTypeCache := vectorTypeCache c;
      diags := diags c;
      finalized := finalized c;
      sourceManager := sourceManager c;
      definitionMap := definitionMap c;
      instantiatedNames := instantiatedNames c;
      compilationUnits := compilationUnits c;
      syntaxTrees := syntaxTrees c;
      root := root c;
      forcedDiagnostics := forcedDiagnostics c |}).

Definition setVectorTypeCache (c : Compilation) (m : gmap Z TypeSymbol) : Compilation :=
  {| nextAddr := nextAddr c;
     vectorTypeCache := m;
     diags := diags c;
     finalized := finalized c;
     sourceManager := sourceManager c;
     definitionMap := definitionMap c;
     instantiatedNames := instantiatedNames c;
     compilationUnits := compilationUnits c;
     syntaxTrees := syntaxTrees c;
     root := root c;
     forcedDiagnostics := forcedDiagnostics c |}.

(** The built-in types, one object each. *)
Definition getErrorType : TypeSymbol := ErrorType.
Definition getVoidType : TypeSymbol := VoidType.
Definition getNullType : TypeSymbol := NullType.
Definition getBitType : TypeSymbol := ScalarType Bit false.
Definition getLogicType : TypeSymbol := ScalarType Logic false.
Definition getRegType : TypeSymbol := ScalarType Reg false.
Definition getIntType : TypeSymbol := PredefinedIntegerType Int.
Definition getRealType : TypeSymbol := FloatingType Real.
Definition getShortRealType : TypeSymbol := FloatingType ShortReal.

(** [scalarTypeTable[flags.bits() & 0x7]] as the constructor fills it: the six
    scalar types register under their own flags (bit, logic, reg and their
    signed versions); the two slots for Reg without FourState stay null. *)
Definition scalarTypeTable (f : IntegralFlags) : option TypeSymbol :=
  match FourState f, RegFlag f with
  | false, false => Some (ScalarType Bit (Signed f))
  | true, false => Some (ScalarType Logic (Signed f))
  | true, true => Some (ScalarType Reg (Signed f))
  | false, true => None
  end.

(** [Compilation::getScalarType]; [None] when [ASSERT(ptr)] fails. *)
Definition getScalarType (flags : IntegralFlags) : option TypeSymbol :=
  scalarTypeTable flags.

(** [SVInt::BITWIDTH_BITS] is declared outside the translated sources: the
    number of low bits of the cache key that hold the width.  The development
    is parametric in it. *)
Class SVIntConstants := { BITWIDTH_BITS : Z }.

Section TypeInterning.
Context {svint : SVIntConstants}.

(** The cache key of [getType]: [key = width; key |= uint32_t(flags.bits())
    << SVInt::BITWIDTH_BITS]. *)
Definition vectorTypeKey (width : Z) (flags : IntegralFlags) : Z :=
  Z.lor width (uint32 (Z.shiftl (flagBits flags) BITWIDTH_BITS)).

(** [Compilation::getType(bitwidth_t width, bitmask<IntegralFlags> flags)].
    [None] when [ASSERT(width > 0)] or the assertion of [getScalarType]
    fails. *)
Definition getType (c : Compilation) (width : Z) (flags : IntegralFlags)
  : option (TypeSymbol * Compilation) :=
  if bool_decide (width > 0) then
    let key := vectorTypeKey width flags in
    match vectorTypeCache c !! key with
    | Some t => Some (t, c)
    | None =>
        scalar ← getScalarType flags;
        let '(a, c1) := emplace c in
        let type := PackedArrayType a scalar
                      {| rangeLeft := width - 1; rangeRight := 0 |} in
        Some (type, setVectorTypeCache c1 (<[key := type]> (vectorTypeCache c1)))
    end
  else None.

(** The flags [binaryOperatorType] gives the result: Signed when both
    operands are signed, FourState when forced or when either is four-state,
    Reg when both are reg. *)
Definition operatorFlags (lf rf : IntegralFlags) (force : bool) : IntegralFlags :=
  {| Signed := Signed lf && Signed rf;
     FourState := force || FourState lf || FourState rf;
     RegFlag := RegFlag lf && RegFlag rf |}.

(** [binaryOperatorType] (Expressions.cpp). *)
Definition binaryOperatorType (compilation : Compilation) (lt rt : TypeSymbol)
    (force : bool) : option (TypeSymbol * Compilation) :=
  if negb (isNumeric lt) || negb (isNumeric rt) then
    Some (getErrorType, compilation)
  else
    '(result, compilation) ←
      (if isFloating lt || isFloating rt then
         if (isFloating lt && bool_decide (getBitWidth lt = 64)) ||
            (isFloating rt && bool_decide (getBitWidth rt = 64))
         then Some (getRealType, compilation)
         else Some (getShortRealType, compilation)
       else
         let width := Z.max (getBitWidth lt) (getBitWidth rt) in
         let lf := getIntegralFlags lt in
         let rf := getIntegralFlags rt in
         let flags := operatorFlags lf rf force in
         if bool_decide (width = 1) && (isScalar lt || isScalar rt) then
           scalar ← getScalarType flags; Some (scalar, compilation)
         else getType compilation width flags);
    if isMatching lt result then Some (lt, compilation)
    else if isMatching rt result then Some (rt, compilation)
    else Some (result, compilation).

(** [forceFourState] (Expressions.cpp). *)
Definition forceFourState (compilation : Compilation) (type : TypeSymbol)
  : option (TypeSymbol * Compilation) :=
  if isFloating type || isFourState type then Some (type, compilation)
  else binaryOperatorType compilation type type true.

(** A run of [getType] calls, for statements about every later call; a call
    whose assertion fails leaves the compilation as it was. *)
Definition getTypeCalls (c : Compilation) (calls : list (Z * IntegralFlags)) : Compilation :=
  fold_left
    (λ (c : Compilation) (call : Z * IntegralFlags),
       match getType c call.1 call.2 with
       | Some (_, c') => c'
       | None => c
       end)
    calls c.

(** [singleBitType] (Expressions.cpp). *)
Definition singleBitType (lt rt : TypeSymbol) : TypeSymbol :=
  if isFourState lt || isFourState rt then getLogicType else getBitType.

End TypeInterning.

(** ** Bound expressions (binding/Expressions) *)

(** [ExpressionKind]: one enumerator per expression class of
    Expressions.cpp. *)
Inductive ExpressionKind :=
| Invalid | IntegerLiteral | RealLiteral | UnbasedUnsizedIntegerLiteral
| NullLiteral | StringLiteral | NamedValue | UnaryOp | BinaryOp
| ConditionalOp | Assignment | Concatenation | Replication | ElementSelect
| RangeSelect | MemberAccess | Call | Conversion | DataType.

#[global] Instance ExpressionKind_eq_dec : EqDecision ExpressionKind.
Proof. solve_decision. Defined.

Inductive ConversionKind :=
| IntToFloat | FloatToInt | IntExtension | IntTruncation
| FloatExtension | FloatTruncation.

#[global] Instance ConversionKind_eq_dec : EqDecision ConversionKind.
Proof. solve_decision. Defined.

(** Modelled from the spec: the integer constant, "carrying width,
    signedness, and per-bit unknown/high-Z flags": its bits read as an
    unsigned number, and whether any bit is unknown. *)
Record SVInt := {
  svBitWidth : Z;
  svSigned : bool;
  svBits : Z;
  svHasUnknown : bool
}.

(** Negative: the top bit of the width is set. *)
Definition svIsNegative (v : SVInt) : bool :=
  Z.testbit (svBits v) (svBitWidth v - 1).

(** [value == 0]: the comparison is true only for a value without unknown
    bits. *)
Definition svIsZero (v : SVInt) : bool :=
  negb (svHasUnknown v) && bool_decide (svBits v = 0).

(** Modelled from the spec: "Constant value: sum of integer, real, string,
    null, or undefined" (a real is kept as its bit pattern). *)
Inductive ConstantValue :=
| IntegerValue (v : SVInt)
| RealValue (bits : Z)
| StringValue (s : string)
| NullValue
| UndefinedValue.

(** An expression node: the header every expression class shares (kind, type,
    folded constant, source range), its operand expressions, and the
    conversion kind of a conversion.  Expressions are values here: nothing
    below depends on the address of an expression object. *)
Inductive Expression := mkExpression {
  kind : ExpressionKind;
  type : TypeSymbol;
  constant : option ConstantValue;
  sourceRange : SourceRange;
  operands : list Expression;
  conversionKind : option ConversionKind
}.

(** [Expression::bad]. *)
Definition bad (e : Expression) : bool :=
  bool_decide (kind e = Invalid) || isError (type e).

(** [Expression::isLValue]. *)
Definition isLValue (e : Expression) : bool :=
  match kind e with
  | NamedValue | ElementSelect | RangeSelect | MemberAccess => true
  | _ => false
  end.

Definition noRange : SourceRange :=
  {| rangeStart := {| locBuffer := 0; locOffset := 0 |};
     rangeEnd := {| locBuffer := 0; locOffset := 0 |} |}.

(** [Expression::badExpr]: an [InvalidExpression] of the error type that
    keeps the expression it replaces, if any. *)
Definition badExpr (expr : option Expression) : Expression :=
  {| kind := Invalid; type := getErrorType; constant := None;
     sourceRange := noRange;
     operands := match expr with Some e => [e] | None => [] end;
     conversionKind := None |}.

(** [Expression::convert]. *)
Definition convert (conversionKind : ConversionKind) (type : TypeSymbol)
    (expr : Expression) : Expression :=
  {| kind := Conversion; type := type; constant := None;
     sourceRange := sourceRange expr; operands := [expr];
     conversionKind := Some conversionKind |}.

(** [bitmask<BindFlags>]. *)
Record BindFlags := {
  Constant : bool;
  InsideConcatenation : bool;
  IntegralConstant : bool;
  AllowDataType : bool;
  ProceduralAssignmentContext : bool;
  EventExpressionContext : bool;
  AllowPatternMatch : bool
}.

Definition BindFlags_None : BindFlags :=
  {| Constant := false; InsideConcatenation := false; IntegralConstant := false;
     AllowDataType := false; ProceduralAssignmentContext := false;
     EventExpressionContext := false; AllowPatternMatch := false |}.

Definition BindFlags_InsideConcatenation : BindFlags :=
  {| Constant := false; InsideConcatenation := true; IntegralConstant := false;
     AllowDataType := false; ProceduralAssignmentContext := false;
     EventExpressionContext := false; AllowPatternMatch := false |}.

Definition BindFlags_IntegralConstant : BindFlags :=
  {| Constant := false; InsideConcatenation := false; IntegralConstant := true;
     AllowDataType := false; ProceduralAssignmentContext := false;
     EventExpressionContext := false; AllowPatternMatch := false |}.

Record BindContext := {
  contextScope : Scope;
  lookupLocation : nat;
  flags : BindFlags
}.

(** Expression syntax: the kinds whose binders are embedded below, and
    [OtherExpressionSyntax] for every other kind, with a handle to the
    node. *)
Inductive ExpressionSyntax :=
| ParenthesizedExpressionSyntax (expression : ExpressionSyntax)
| ConditionalExpressionSyntax (range : SourceRange)
    (conditions : list ExpressionSyntax) (left right : ExpressionSyntax)
| ConcatenationExpressionSyntax (range : SourceRange)
    (expressions : list ExpressionSyntax)
| MultipleConcatenationExpressionSyntax (range : SourceRange)
    (expression : ExpressionSyntax) (concatenation : ExpressionSyntax)
| OtherExpressionSyntax (node : nat).

(** [argSyntax->kind == SyntaxKind::MultipleConcatenationExpression]. *)
Definition isMultipleConcatenation (s : ExpressionSyntax) : bool :=
  match s with
  | MultipleConcatenationExpressionSyntax _ _ _ => true
  | _ => false
  end.

(** [Compilation::checkNoUnknowns]. *)
Definition checkNoUnknowns (c : Compilation) (value : SVInt) (range : SourceRange)
  : bool * Compilation :=
  if svHasUnknown value then (false, addError c ValueMustNotBeUnknown (rangeStart range))
  else (true, c).

(** [Compilation::checkPositive]. *)
Definition checkPositive (c : Compilation) (value : SVInt) (range : SourceRange)
  : bool * Compilation :=
  if svSigned value && svIsNegative value
  then (false, addError c ValueMustBePositive (rangeStart range))
  else (true, c).

(** [Compilation::checkValidBitWidth]: the value as a [bitwidth_t], with a
    diagnostic when it does not fit. *)
Definition checkValidBitWidth (c : Compilation) (value : Z) (range : SourceRange)
  : option Z * Compilation :=
  if bool_decide (0 <= value < 2 ^ 32) then (Some value, c)
  else (None, addError c ValueExceedsMaxBitWidth (rangeStart range)).

(** The loop of [ConcatenationExpression::fromSyntax] keeps these. *)
Record ConcatState := {
  errored : bool;
  concatFlags : IntegralFlags;
  totalWidth : Z;
  buffer : list Expression;
  concatCompilation : Compilation
}.

Section Binder.
Context {svint : SVIntConstants}.

(** The parts of the binder that are declared outside the translated sources
    are parameters: [BindContext::resetFlags], the binders of the expression
    kinds not embedded here (the other cases of [Expression::create]), the
    context-determined propagation, and the two compatibility predicates of
    [Type]. *)
Variable resetFlags : BindContext -> BindFlags -> BindContext.
Variable createOther : Compilation -> nat -> BindContext -> option (Expression * Compilation).
Variable contextDetermined :
  Compilation -> Expression -> TypeSymbol -> option (Expression * Compilation).
Variable isAssignmentCompatible : TypeSymbol -> TypeSymbol -> bool.
Variable isCastCompatible : TypeSymbol -> TypeSymbol -> bool.

(** The type of the binder the expression binders call back into:
    [selfDetermined(compilation, syntax, context, extraFlags)]. *)
Definition SubBinder : Type :=
  Compilation -> ExpressionSyntax -> BindContext -> BindFlags ->
  option (Expression * Compilation).

(** [ConditionalExpression::fromSyntax]. *)
Definition ConditionalExpression_fromSyntax (create : SubBinder)
    (compilation : Compilation) (range : SourceRange)
    (conditions : list ExpressionSyntax) (leftSyntax rightSyntax : ExpressionSyntax)
    (context : BindContext) : option (Expression * Compilation) :=
  match conditions with
  | [condition] =>
      '(pred, compilation) ← create compilation condition context BindFlags_None;
      '(lhs, compilation) ← create compilation leftSyntax context BindFlags_None;
      '(rhs, compilation) ← create compilation rightSyntax context BindFlags_None;
      '(type, compilation) ← binaryOperatorType compilation (type lhs) (type rhs) true;
      Some ({| kind := ConditionalOp; type := type; constant := None;
               sourceRange := range; operands := [pred; lhs; rhs];
               conversionKind := None |}, compilation)
  | _ => None
  end.

(** One round of the loop of [ConcatenationExpression::fromSyntax]: the
    state after the argument, and whether the loop goes on ([false] after a
    [break]). *)
Definition concatArgument (selfDetermined : SubBinder) (range : SourceRange)
    (context : BindContext) (st : ConcatState) (argSyntax : ExpressionSyntax)
  : option (ConcatState * bool) :=
  '(arg, compilation) ←
    (if isMultipleConcatenation argSyntax
     then selfDetermined (concatCompilation st) argSyntax context BindFlags_InsideConcatenation
     else selfDetermined (concatCompilation st) argSyntax context BindFlags_None);
  let buffer := buffer st ++ [arg] in
  if bad arg then
    Some ({| errored := true; concatFlags := concatFlags st;
             totalWidth := totalWidth st; buffer := buffer;
             concatCompilation := compilation |}, false)
  else if isVoid (type arg) && isMultipleConcatenation argSyntax then
    Some ({| errored := errored st; concatFlags := concatFlags st;
             totalWidth := totalWidth st; buffer := buffer;
             concatCompilation := compilation |}, true)
  else if negb (isIntegral (type arg)) then
    Some ({| errored := true; concatFlags := concatFlags st;
             totalWidth := totalWidth st; buffer := buffer;
             concatCompilation :=
               addError compilation BadConcatExpression (rangeStart (sourceRange arg)) |},
          true)
  else
    let newWidth := uint32 (totalWidth st + getBitWidth (type arg)) in
    if bool_decide (newWidth < totalWidth st) then
      Some ({| errored := true; concatFlags := concatFlags st;
               totalWidth := totalWidth st; buffer := buffer;
               concatCompilation :=
                 addError compilation ValueExceedsMaxBitWidth (rangeStart range) |},
            false)
    else
      Some ({| errored := errored st;
               concatFlags :=
                 {| Signed := Signed (concatFlags st);
                    FourState := FourState (concatFlags st) || isFourState (type arg);
                    RegFlag := RegFlag (concatFlags st) |};
               totalWidth := newWidth; buffer := buffer;
               concatCompilation := compilation |}, true).

(** The loop over [syntax.expressions]. *)
Fixpoint concatLoop (selfDetermined : SubBinder) (range : SourceRange)
    (context : BindContext) (st : ConcatState) (args : list ExpressionSyntax)
  : option ConcatState :=
  match args with
  | [] => Some st
  | argSyntax :: rest =>
      next ← concatArgument selfDetermined range context st argSyntax;
      if (next.2 : bool) then concatLoop selfDetermined range context next.1 rest
      else Some next.1
  end.

(** [ConcatenationExpression::fromSyntax]. *)
Definition ConcatenationExpression_fromSyntax (selfDetermined : SubBinder)
    (compilation : Compilation) (range : SourceRange)
    (expressions : list ExpressionSyntax) (context : BindContext)
  : option (Expression * Compilation) :=
  st ← concatLoop selfDetermined range context
         {| errored := false; concatFlags := NoFlags; totalWidth := 0;
            buffer := []; concatCompilation := compilation |} expressions;
  if errored st then
    Some (badExpr (Some {| kind := Concatenation; type := getErrorType;
                           constant := None; sourceRange := range;
                           operands := []; conversionKind := None |}),
          concatCompilation st)
  else
    '(type, compilation) ← getType (concatCompilation st) (totalWidth st) (concatFlags st);
    Some ({| kind := Concatenation; type := type; constant := None;
             sourceRange := range; operands := buffer st;
             conversionKind := None |}, compilation).

(** [left.constant && left.constant->isInteger()], with the integer. *)
Definition integerConstant (e : Expression) : option SVInt :=
  match constant e with
  | Some (IntegerValue v) => Some v
  | _ => None
  end.

(** [ReplicationExpression::fromSyntax]. *)
Definition ReplicationExpression_fromSyntax (selfDetermined : SubBinder)
    (compilation : Compilation) (range : SourceRange)
    (expression concatenation : ExpressionSyntax) (context : BindContext)
  : option (Expression * Compilation) :=
  '(lhs, compilation) ←
    selfDetermined compilation expression context BindFlags_IntegralConstant;
  '(rhs, compilation) ←
    selfDetermined compilation concatenation context BindFlags_None;
  let result (t : TypeSymbol) :=
    {| kind := Replication; type := t; constant := None; sourceRange := range;
       operands := [lhs; rhs]; conversionKind := None |} in
  match integerConstant lhs with
  | Some value =>
      if bad lhs || bad rhs then
        Some (badExpr (Some (result getErrorType)), compilation)
      else
        let '(known, compilation) := checkNoUnknowns compilation value (sourceRange lhs) in
        if negb known then Some (badExpr (Some (result getErrorType)), compilation)
        else
        let '(positive, compilation) := checkPositive compilation value (sourceRange lhs) in
        if negb positive then Some (badExpr (Some (result getErrorType)), compilation)
        else if svIsZero value then
          if negb (InsideConcatenation (flags context)) then
            Some (badExpr (Some (result getErrorType)),
                  addError compilation ReplicationZeroOutsideConcat
                    (rangeStart (sourceRange lhs)))
          else
            Some (result getVoidType, compilation)
        else
          let '(width, compilation) :=
            checkValidBitWidth compilation (svBits value * getBitWidth (type rhs)) range in
          match width with
          | None => Some (badExpr (Some (result getErrorType)), compilation)
          | Some width =>
              '(type, compilation) ←
                getType compilation width
                  (if isFourState (type rhs)
                   then {| Signed := false; FourState := true; RegFlag := false |}
                   else NoFlags);
              Some (result type, compilation)
          end
  | None => Some (badExpr (Some (result getErrorType)), compilation)
  end.

(** [Expression::create], for the syntax kinds embedded here; the other
    cases of its switch are [createOther]. *)
Fixpoint create (compilation : Compilation) (syntax : ExpressionSyntax)
    (ctx : BindContext) (extraFlags : BindFlags) {struct syntax}
  : option (Expression * Compilation) :=
  let context := resetFlags ctx extraFlags in
  match syntax with
  | ParenthesizedExpressionSyntax expression =>
      create compilation expression context extraFlags
  | ConditionalExpressionSyntax range conditions leftSyntax rightSyntax =>
      ConditionalExpression_fromSyntax create compilation range conditions
        leftSyntax rightSyntax context
  | ConcatenationExpressionSyntax range expressions =>
      ConcatenationExpression_fromSyntax create compilation range expressions context
  | MultipleConcatenationExpressionSyntax range expression concatenation =>
      ReplicationExpression_fromSyntax create compilation range expression concatenation context
  | OtherExpressionSyntax node => createOther compilation node context
  end.

(** Modelled from the spec: [Expression::selfDetermined(compilation, syntax,
    context, extraFlags)] creates the expression and propagates its own type
    to it; "a self-determined operand [is] an operand whose type is fixed by
    itself alone", so the created expression is the result. *)
Definition selfDetermined : SubBinder := create.

(** [Expression::convertAssignment].  A diagnostic is kept as its code and
    location; its arguments (the two types, [lhsRange], the range of the
    expression) are not. *)
Definition convertAssignment (compilation : Compilation) (type_ : TypeSymbol)
    (expr : Expression) (location : SourceLocation)
  : option (Expression * Compilation) :=
  let rt := type expr in
  if negb (isAssignmentCompatible type_ rt) then
    let code := if isCastCompatible type_ rt then NoImplicitConversion else BadAssignment in
    Some (badExpr (Some expr), addError compilation code location)
  else
    '(rt, compilation) ← binaryOperatorType compilation type_ rt false;
    '(result, compilation) ← contextDetermined compilation expr rt;
    if bool_decide (getBitWidth rt > getBitWidth type_) then
      Some (convert IntTruncation type_ result, compilation)
    else Some (result, compilation).

End Binder.

(** ** The lexer (lexing/Lexer) *)

Module TokenKind.
(** The token kinds [Lexer::lexToken] returns by name; a keyword token is
    [Keyword] with its number in the keyword table. *)
Inductive t :=
| Unknown | EndOfFile | EndOfDirective | Identifier | StringLiteral
| IntegerLiteral | IntegerBase | UnbasedUnsizedLiteral | RealLiteral
| TimeLiteral | OneStep | Directive | IncludeFileName
| MacroQuote | MacroPaste | MacroEscapedQuote | EmptyMacroArgument
| Keyword (k : nat)
| ExclamationDoubleEquals | ExclamationEqualsQuestion | ExclamationEquals
| Exclamation | DoubleHash | HashMinusHash | HashEqualsHash | Hash | Dollar
| PercentEqual | Percent | TripleAnd | DoubleAnd | AndEqual | And
| ApostropheOpenBrace | Apostrophe | OpenParenthesis
| OpenParenthesisStarCloseParenthesis | OpenParenthesisStar
| CloseParenthesis | DoubleStar | StarEqual | StarArrow
| StarCloseParenthesis | StarDoubleColonStar | Star | DoublePlus | PlusEqual
| PlusColon | Plus | Comma | DoubleMinus | MinusEqual | MinusColon
| MinusDoubleArrow | MinusArrow | Minus | DotStar | Dot | SlashEqual | Slash
| ColonEquals | ColonSlash | DoubleColon | Colon | Semicolon
| LessThanEquals | LessThanMinusArrow | LessThan | TripleLeftShiftEqual
| TripleLeftShift | LeftShiftEqual | LeftShift | TripleEquals
| DoubleEqualsQuestion | DoubleEquals | EqualsArrow | Equals
| GreaterThanEquals | TripleRightShiftEqual | TripleRightShift
| RightShiftEqual | RightShift | GreaterThan | Question | DoubleAt | AtStar
| At | OpenBracket | CloseBracket | XorTilde | XorEqual | Xor | OpenBrace
| DoubleOr | OrMinusDoubleArrow | OrMinusArrow | OrEqualsArrow | OrEqual | Or
| CloseBrace | TildeAnd | TildeOr | TildeXor | Tilde.

#[global] Instance eq_dec : EqDecision t.
Proof. solve_decision. Defined.
End TokenKind.

Module TriviaKind.
Inductive t :=
| Whitespace | EndOfLine | LineContinuation | LineComment | BlockComment
| DisabledText | SkippedTokens | Directive.

#[global] Instance eq_dec : EqDecision t.
Proof. solve_decision. Defined.
End TriviaKind.

Module LexerMode.
Inductive t := Normal | Directive | IncludeFileName.

#[global] Instance eq_dec : EqDecision t.
Proof. solve_decision. Defined.
End LexerMode.

(** A piece of trivia: its kind and the source text it covers. *)
Record Trivia := { triviaKind : TriviaKind.t; triviaText : list ascii }.

(** [Token::Info]: leading trivia, raw text, location, whether the token is
    marked missing, and the payload ([extra]), which the sub-lexers set. *)
Record TokenInfo (Extra : Type) := {
  trivia : list Trivia;
  rawText : list ascii;
  location : SourceLocation;
  missing : bool;
  extra : option Extra
}.

Arguments trivia {Extra} _.
Arguments rawText {Extra} _.
Arguments location {Extra} _.
Arguments missing {Extra} _.
Arguments extra {Extra} _.

Record Token (Extra : Type) := {
  tokenKind : TokenKind.t;
  tokenInfo : TokenInfo Extra
}.

Arguments tokenKind {Extra} _.
Arguments tokenInfo {Extra} _.

(** The lexer's state: the buffer [originalBegin .. sourceEnd) it reads, the
    read pointer [sourceBuffer] and the [marker] as offsets from
    [originalBegin], and the diagnostics it reports to. *)
Record Lexer := {
  source : list ascii;
  bufferId : nat;
  sourceBuffer : nat;
  marker : nat;
  onNewLine : bool;
  errorCount : nat;
  diagnostics : list Diagnostic;
  maxErrors : nat
}.

Definition sourceEnd (lx : Lexer) : nat := length (source lx).

Definition setSourceBuffer (lx : Lexer) (p : nat) : Lexer :=
  {| source := source lx; bufferId := bufferId lx; sourceBuffer := p;
     marker := marker lx; onNewLine := onNewLine lx; errorCount := errorCount lx;
     diagnostics := diagnostics lx; maxErrors := maxErrors lx |}.

Definition setOnNewLine (lx : Lexer) (b : bool) : Lexer :=
  {| source := source lx; bufferId := bufferId lx; sourceBuffer := sourceBuffer lx;
     marker := marker lx; onNewLine := b; errorCount := errorCount lx;
     diagnostics := diagnostics lx; maxErrors := maxErrors lx |}.

(** Modelled from the spec: the inline helpers of the lexer's header, which is
    outside the translated sources.  [mark] remembers the read pointer,
    [advance] moves it, [peek] reads the character under it or further on
    ([None]: a read outside the buffer), [consume] steps over an expected
    character, [lexeme] is the text between the marker and the read pointer,
    and [reallyAtEnd] tells the buffer's final NUL from an embedded one. *)
Definition mark (lx : Lexer) : Lexer :=
  {| source := source lx; bufferId := bufferId lx; sourceBuffer := sourceBuffer lx;
     marker := sourceBuffer lx; onNewLine := onNewLine lx; errorCount := errorCount lx;
     diagnostics := diagnostics lx; maxErrors := maxErrors lx |}.

Definition advance (n : nat) (lx : Lexer) : Lexer :=
  setSourceBuffer lx (sourceBuffer lx + n)%nat.

Definition peekAt (offset : nat) (lx : Lexer) : option ascii :=
  source lx !! (sourceBuffer lx + offset)%nat.

Definition peek (lx : Lexer) : option ascii := peekAt 0 lx.

Definition consume (c : ascii) (lx : Lexer) : option (bool * Lexer) :=
  p ← peek lx;
  if bool_decide (p = c) then Some (true, advance 1 lx) else Some (false, lx).

Definition lexemeLength (lx : Lexer) : nat := (sourceBuffer lx - marker lx)%nat.

Definition lexeme (lx : Lexer) : list ascii :=
  take (lexemeLength lx) (drop (marker lx) (source lx)).

Definition reallyAtEnd (lx : Lexer) : bool :=
  bool_decide (sourceEnd lx - 1 <= sourceBuffer lx)%nat.

(** [Lexer::currentOffset]. *)
Definition currentOffset (lx : Lexer) : nat := sourceBuffer lx.

(** [Lexer::addError]. *)
Definition lexerAddError (code : DiagCode) (offset : nat) (lx : Lexer) : Lexer :=
  {| source := source lx; bufferId := bufferId lx; sourceBuffer := sourceBuffer lx;
     marker := marker lx; onNewLine := onNewLine lx;
     errorCount := S (errorCount lx);
     diagnostics :=
       diagnostics lx ++
       [{| diagCode := code;
           diagLocation := {| locBuffer := bufferId lx; locOffset := offset |} |}];
     maxErrors := maxErrors lx |}.

(** [Lexer::addTrivia]. *)
Definition addTrivia (kind : TriviaKind.t) (triviaBuffer : list Trivia) (lx : Lexer)
  : list Trivia :=
  triviaBuffer ++ [{| triviaKind := kind; triviaText := lexeme lx |}].

Definition NUL : ascii := "000"%char.
Definition TAB : ascii := "009"%char.
Definition LF : ascii := "010"%char.
Definition VT : ascii := "011"%char.
Definition FF : ascii := "012"%char.
Definition CR : ascii := "013"%char.
Definition QUOTE : ascii := Ascii.ascii_of_nat 34.

(** Modelled from the spec: [isNewline] of the character tables, which are
    outside the translated sources ("Line endings produce EndOfLine"). *)
Definition isNewline (c : ascii) : bool :=
  bool_decide (c = CR) || bool_decide (c = LF).

(** The horizontal whitespace of [lexTrivia] and [scanWhitespace]: space,
    tab, vertical tab, form feed. *)
Definition isHorizontalWhitespace (c : ascii) : bool :=
  bool_decide (c = " "%char) || bool_decide (c = TAB) ||
  bool_decide (c = VT) || bool_decide (c = FF).

(** [Lexer::scanWhitespace]; [fuel] bounds the loop, one unit a character. *)
Fixpoint scanWhitespace (fuel : nat) (triviaBuffer : list Trivia) (lx : Lexer)
  : option (list Trivia * Lexer) :=
  match fuel with
  | O => None
  | S fuel =>
      c ← peek lx;
      if isHorizontalWhitespace c then scanWhitespace fuel triviaBuffer (advance 1 lx)
      else Some (addTrivia TriviaKind.Whitespace triviaBuffer lx, lx)
  end.

(** [Lexer::scanLineComment]. *)
Fixpoint scanLineComment (fuel : nat) (triviaBuffer : list Trivia)
    (directiveMode : bool) (lx : Lexer) : option (list Trivia * Lexer) :=
  match fuel with
  | O => None
  | S fuel =>
      c ← peek lx;
      let done := Some (addTrivia TriviaKind.LineComment triviaBuffer lx, lx) in
      if isNewline c then done
      else
        continuation ←
          (if bool_decide (c = "\"%char) && directiveMode
           then n ← peekAt 1 lx; Some (isNewline n)
           else Some false);
        if (continuation : bool) then done
        else if bool_decide (c = NUL) then
          if reallyAtEnd lx then done
          else scanLineComment fuel triviaBuffer directiveMode
                 (advance 1 (lexerAddError EmbeddedNull (currentOffset lx) lx))
        else scanLineComment fuel triviaBuffer directiveMode (advance 1 lx)
  end.

(** [Lexer::scanBlockComment]; [eod] is carried through the loop. *)
Fixpoint scanBlockComment (fuel : nat) (triviaBuffer : list Trivia)
    (directiveMode : bool) (eod : bool) (lx : Lexer)
  : option (bool * list Trivia * Lexer) :=
  match fuel with
  | O => None
  | S fuel =>
      c ← peek lx;
      let done lx := Some (eod, addTrivia TriviaKind.BlockComment triviaBuffer lx, lx) in
      if bool_decide (c = NUL) then
        if reallyAtEnd lx then
          done (lexerAddError UnterminatedBlockComment (currentOffset lx) lx)
        else scanBlockComment fuel triviaBuffer directiveMode eod
               (advance 1 (lexerAddError EmbeddedNull (currentOffset lx) lx))
      else
        closing ←
          (if bool_decide (c = "*"%char)
           then n ← peekAt 1 lx; Some (bool_decide (n = "/"%char))
           else Some false);
        if (closing : bool) then done (advance 2 lx)
        else
        nested ←
          (if bool_decide (c = "/"%char)
           then n ← peekAt 1 lx; Some (bool_decide (n = "*"%char))
           else Some false);
        if (nested : bool) then
          scanBlockComment fuel triviaBuffer directiveMode eod
            (advance 2 (lexerAddError NestedBlockComment (currentOffset lx) lx))
        else if directiveMode && isNewline c then
          scanBlockComment fuel triviaBuffer directiveMode true
            (advance 1 (lexerAddError SplitBlockCommentInDirective (currentOffset lx) lx))
        else scanBlockComment fuel triviaBuffer directiveMode eod (advance 1 lx)
  end.

(** The payload of a token ([Token::Info::extra] and the numeric fields), as
    far as the lexer's own code sets it; the sub-lexers choose among these. *)
Inductive TokenExtra :=
| ExtraText (text : list ascii)
| ExtraIdentifierType (identifierType : nat)
| ExtraSyntaxKind (directiveKind : nat)
| ExtraNumeric (value : Z) (numericFlags : nat)
| ExtraBit (bit : nat).

Definition emptyInfo : TokenInfo TokenExtra :=
  {| trivia := []; rawText := [];
     location := {| locBuffer := 0; locOffset := 0 |};
     missing := false; extra := None |}.

Definition setTrivia (info : TokenInfo TokenExtra) (t : list Trivia) : TokenInfo TokenExtra :=
  {| trivia := t; rawText := rawText info; location := location info;
     missing := missing info; extra := extra info |}.

Definition setRawText (info : TokenInfo TokenExtra) (text : list ascii) : TokenInfo TokenExtra :=
  {| trivia := trivia info; rawText := text; location := location info;
     missing := missing info; extra := extra info |}.

Definition setLocation (info : TokenInfo TokenExtra) (l : SourceLocation) : TokenInfo TokenExtra :=
  {| trivia := trivia info; rawText := rawText info; location := l;
     missing := missing info; extra := extra info |}.

(** The bound every loop of the lexer gets: each round reads at least one
    character of the buffer. *)
Definition lexerFuel (lx : Lexer) : nat := S (sourceEnd lx).

(** [Lexer::lexTrivia]. *)
Fixpoint lexTrivia (fuel : nat) (triviaBuffer : list Trivia) (directiveMode : bool)
    (lx : Lexer) : option (bool * list Trivia * Lexer) :=
  match fuel with
  | O => None
  | S fuel =>
      let lx := mark lx in
      c ← peek lx;
      if isHorizontalWhitespace c then
        '(triviaBuffer, lx) ← scanWhitespace (lexerFuel lx) triviaBuffer (advance 1 lx);
        lexTrivia fuel triviaBuffer directiveMode lx
      else if bool_decide (c = "/"%char) then
        n ← peekAt 1 lx;
        if bool_decide (n = "/"%char) then
          '(triviaBuffer, lx) ←
            scanLineComment (lexerFuel lx) triviaBuffer directiveMode (advance 2 lx);
          lexTrivia fuel triviaBuffer directiveMode lx
        else if bool_decide (n = "*"%char) then
          '(eod, triviaBuffer, lx) ←
            scanBlockComment (lexerFuel lx) triviaBuffer directiveMode false (advance 2 lx);
          if (eod : bool) then Some (true, triviaBuffer, lx)
          else lexTrivia fuel triviaBuffer directiveMode lx
        else Some (false, triviaBuffer, lx)
      else if bool_decide (c = CR) then
        '(_, lx) ← consume LF (advance 1 lx);
        let lx := setOnNewLine lx true in
        let triviaBuffer := addTrivia TriviaKind.EndOfLine triviaBuffer lx in
        if directiveMode then Some (true, triviaBuffer, lx)
        else lexTrivia fuel triviaBuffer directiveMode lx
      else if bool_decide (c = LF) then
        let lx := setOnNewLine (advance 1 lx) true in
        let triviaBuffer := addTrivia TriviaKind.EndOfLine triviaBuffer lx in
        if directiveMode then Some (true, triviaBuffer, lx)
        else lexTrivia fuel triviaBuffer directiveMode lx
      else if bool_decide (c = "\"%char) then
        n ← peekAt 1 lx;
        if negb directiveMode || negb (isNewline n) then Some (false, triviaBuffer, lx)
        else
          lx ← (if bool_decide (n = CR)
                then '(_, lx) ← consume LF (advance 2 lx); Some lx
                else Some (advance 2 lx));
          let lx := setOnNewLine lx true in
          lexTrivia fuel (addTrivia TriviaKind.LineContinuation triviaBuffer lx)
            directiveMode lx
      else if bool_decide (c = NUL) then Some (directiveMode, triviaBuffer, lx)
      else Some (false, triviaBuffer, lx)
  end.

Section LexerBody.

(** The sub-lexers [lexToken] hands over to are parameters of this section,
    and nothing proved in it depends on what they do; those of Lexer.cpp are
    defined below, under Sub-lexers.  Each gets the lexer after the first
    character of the token was read (for a number: standing on it again) and
    the token's [Info], and gives the token kind, the [Info] and the lexer it
    leaves; [None] is a read outside the buffer. *)
Definition SubLexer : Type :=
  TokenInfo TokenExtra -> Lexer -> option (TokenKind.t * TokenInfo TokenExtra * Lexer).

Variable lexStringLiteral : SubLexer.
Variable lexDollarSign : SubLexer.
Variable lexApostrophe : SubLexer.
Variable lexNumericLiteral : SubLexer.
Variable lexEscapeSequence : SubLexer.
Variable lexDirective : SubLexer.
(** The identifier case: [scanIdentifier] and the lookup in the keyword table
    of the given keyword version. *)
Variable lexIdentifier : nat -> SubLexer.
(** The two character tables the [default] case reads, [isASCII] and
    [utf8SeqBytes], are declared outside the translated sources
    (text/CharInfo.h). *)
Variable isASCII : ascii -> bool.
Variable utf8SeqBytes : ascii -> nat.

Definition token (kind : TokenKind.t) (info : TokenInfo TokenExtra) (lx : Lexer)
  : option (TokenKind.t * TokenInfo TokenExtra * Lexer) := Some (kind, info, lx).

(** The [default] case of [lexToken], for the character [c] read at
    [offset]: a character outside ASCII is taken for the start of a UTF-8
    sequence, and the read pointer is moved on by [utf8SeqBytes c] without a
    look at what is there. *)
Definition lexUnknownCharacter (c : ascii) (offset : nat) : SubLexer :=
  λ info lx,
    if isASCII c then
      token TokenKind.Unknown info (lexerAddError NonPrintableChar offset lx)
    else
      token TokenKind.Unknown info
        (lexerAddError UTF8Char offset (advance (utf8SeqBytes c) lx)).

(** [switch (peek())] with one case that steps over the character. *)
Definition peekCase (info : TokenInfo TokenExtra) (lx : Lexer)
    (cases : list (ascii * TokenKind.t)) (otherwise : TokenKind.t)
  : option (TokenKind.t * TokenInfo TokenExtra * Lexer) :=
  p ← peek lx;
  match list_find (λ case, case.1 = p) cases with
  | Some (_, (_, kind)) => token kind info (advance 1 lx)
  | None => token otherwise info lx
  end.

(** [Lexer::lexToken]: the token that starts with the character [c] read at
    [offset]; [lx] is the lexer after [advance()]. *)
Definition lexTokenSwitch (c : ascii) (offset : nat) (info : TokenInfo TokenExtra)
    (directiveMode : bool) (keywordVersion : nat) (lx : Lexer)
  : option (TokenKind.t * TokenInfo TokenExtra * Lexer) :=
  if bool_decide (c = QUOTE) then lexStringLiteral info lx else
  match c with
  | "000"%char =>
      let lx := setSourceBuffer lx (sourceBuffer lx - 1) in
      if negb (reallyAtEnd lx) then
        token TokenKind.Unknown info (lexerAddError EmbeddedNull offset (advance 1 lx))
      else if directiveMode then token TokenKind.EndOfDirective info lx
      else token TokenKind.EndOfFile info lx
  | "!"%char =>
      '(eq, lx) ← consume "="%char lx;
      if (eq : bool) then
        peekCase info lx [("="%char, TokenKind.ExclamationDoubleEquals);
                          ("?"%char, TokenKind.ExclamationEqualsQuestion)]
          TokenKind.ExclamationEquals
      else token TokenKind.Exclamation info lx
  | "#"%char =>
      p ← peek lx;
      if bool_decide (p = "#"%char) then token TokenKind.DoubleHash info (advance 1 lx)
      else if bool_decide (p = "-"%char) then
        q ← peekAt 1 lx;
        if bool_decide (q = "#"%char) then token TokenKind.HashMinusHash info (advance 2 lx)
        else token TokenKind.Hash info lx
      else if bool_decide (p = "="%char) then
        q ← peekAt 1 lx;
        if bool_decide (q = "#"%char) then token TokenKind.HashEqualsHash info (advance 2 lx)
        else token TokenKind.Hash info lx
      else token TokenKind.Hash info lx
  | "$"%char => lexDollarSign info lx
  | "%"%char =>
      '(eq, lx) ← consume "="%char lx;
      token (if (eq : bool) then TokenKind.PercentEqual else TokenKind.Percent) info lx
  | "&"%char =>
      p ← peek lx;
      if bool_decide (p = "&"%char) then
        '(third, lx) ← consume "&"%char (advance 1 lx);
        token (if (third : bool) then TokenKind.TripleAnd else TokenKind.DoubleAnd) info lx
      else if bool_decide (p = "="%char) then token TokenKind.AndEqual info (advance 1 lx)
      else token TokenKind.And info lx
  | "'"%char =>
      '(brace, lx) ← consume "{"%char lx;
      if (brace : bool) then token TokenKind.ApostropheOpenBrace info lx
      else lexApostrophe info lx
  | "("%char =>
      '(star, lx) ← consume "*"%char lx;
      if negb star then token TokenKind.OpenParenthesis info lx
      else
        '(close, lx) ← consume ")"%char lx;
        token (if (close : bool) then TokenKind.OpenParenthesisStarCloseParenthesis
               else TokenKind.OpenParenthesisStar) info lx
  | ")"%char => token TokenKind.CloseParenthesis info lx
  | "*"%char =>
      p ← peek lx;
      if bool_decide (p = ":"%char) then
        q ← peekAt 1 lx;
        r ← (if bool_decide (q = ":"%char) then peekAt 2 lx else Some NUL);
        if bool_decide (q = ":"%char) && bool_decide (r = "*"%char)
        then token TokenKind.StarDoubleColonStar info (advance 3 lx)
        else token TokenKind.Star info lx
      else
        peekCase info lx [("*"%char, TokenKind.DoubleStar); ("="%char, TokenKind.StarEqual);
                          (">"%char, TokenKind.StarArrow);
                          (")"%char, TokenKind.StarCloseParenthesis)] TokenKind.Star
  | "+"%char =>
      peekCase info lx [("+"%char, TokenKind.DoublePlus); ("="%char, TokenKind.PlusEqual);
                        (":"%char, TokenKind.PlusColon)] TokenKind.Plus
  | ","%char => token TokenKind.Comma info lx
  | "-"%char =>
      p ← peek lx;
      if bool_decide (p = ">"%char) then
        '(second, lx) ← consume ">"%char (advance 1 lx);
        token (if (second : bool) then TokenKind.MinusDoubleArrow else TokenKind.MinusArrow)
          info lx
      else
        peekCase info lx [("-"%char, TokenKind.DoubleMinus); ("="%char, TokenKind.MinusEqual);
                          (":"%char, TokenKind.MinusColon)] TokenKind.Minus
  | "."%char =>
      '(star, lx) ← consume "*"%char lx;
      token (if (star : bool) then TokenKind.DotStar else TokenKind.Dot) info lx
  | "/"%char =>
      '(eq, lx) ← consume "="%char lx;
      token (if (eq : bool) then TokenKind.SlashEqual else TokenKind.Slash) info lx
  | "0"%char | "1"%char | "2"%char | "3"%char | "4"%char
  | "5"%char | "6"%char | "7"%char | "8"%char | "9"%char =>
      lexNumericLiteral info (setSourceBuffer lx (sourceBuffer lx - 1))
  | ":"%char =>
      peekCase info lx [("="%char, TokenKind.ColonEquals); ("/"%char, TokenKind.ColonSlash);
                        (":"%char, TokenKind.DoubleColon)] TokenKind.Colon
  | ";"%char => token TokenKind.Semicolon info lx
  | "<"%char =>
      p ← peek lx;
      if bool_decide (p = "="%char) then token TokenKind.LessThanEquals info (advance 1 lx)
      else if bool_decide (p = "-"%char) then
        q ← peekAt 1 lx;
        if bool_decide (q = ">"%char)
        then token TokenKind.LessThanMinusArrow info (advance 2 lx)
        else token TokenKind.LessThan info lx
      else if bool_decide (p = "<"%char) then
        let lx := advance 1 lx in
        p ← peek lx;
        if bool_decide (p = "<"%char) then
          q ← peekAt 1 lx;
          if bool_decide (q = "="%char)
          then token TokenKind.TripleLeftShiftEqual info (advance 2 lx)
          else token TokenKind.TripleLeftShift info (advance 1 lx)
        else if bool_decide (p = "="%char)
        then token TokenKind.LeftShiftEqual info (advance 1 lx)
        else token TokenKind.LeftShift info lx
      else token TokenKind.LessThan info lx
  | "="%char =>
      p ← peek lx;
      if bool_decide (p = "="%char) then
        peekCase info (advance 1 lx)
          [("="%char, TokenKind.TripleEquals); ("?"%char, TokenKind.DoubleEqualsQuestion)]
          TokenKind.DoubleEquals
      else if bool_decide (p = ">"%char) then token TokenKind.EqualsArrow info (advance 1 lx)
      else token TokenKind.Equals info lx
  | ">"%char =>
      p ← peek lx;
      if bool_decide (p = "="%char) then token TokenKind.GreaterThanEquals info (advance 1 lx)
      else if bool_decide (p = ">"%char) then
        let lx := advance 1 lx in
        p ← peek lx;
        if bool_decide (p = ">"%char) then
          q ← peekAt 1 lx;
          if bool_decide (q = "="%char)
          then token TokenKind.TripleRightShiftEqual info (advance 2 lx)
          else token TokenKind.TripleRightShift info (advance 1 lx)
        else if bool_decide (p = "="%char)
        then token TokenKind.RightShiftEqual info (advance 1 lx)
        else token TokenKind.RightShift info lx
      else token TokenKind.GreaterThan info lx
  | "?"%char => token TokenKind.Question info lx
  | "@"%char =>
      peekCase info lx [("@"%char, TokenKind.DoubleAt); ("*"%char, TokenKind.AtStar)]
        TokenKind.At
  | "["%char => token TokenKind.OpenBracket info lx
  | "\"%char => lexEscapeSequence info lx
  | "]"%char => token TokenKind.CloseBracket info lx
  | "^"%char =>
      peekCase info lx [("~"%char, TokenKind.XorTilde); ("="%char, TokenKind.XorEqual)]
        TokenKind.Xor
  | "`"%char =>
      p ← peek lx;
      if bool_decide (p = QUOTE) then token TokenKind.MacroQuote info (advance 1 lx)
      else if bool_decide (p = "`"%char) then token TokenKind.MacroPaste info (advance 1 lx)
      else if bool_decide (p = "\"%char) then
        q ← peekAt 1 lx;
        r ← (if bool_decide (q = "`"%char) then peekAt 2 lx else Some NUL);
        if bool_decide (q = "`"%char) && bool_decide (r = QUOTE)
        then token TokenKind.MacroEscapedQuote info (advance 3 lx)
        else lexDirective info lx
      else lexDirective info lx
  | "{"%char => token TokenKind.OpenBrace info lx
  | "|"%char =>
      p ← peek lx;
      if bool_decide (p = "|"%char) then token TokenKind.DoubleOr info (advance 1 lx)
      else if bool_decide (p = "-"%char) then
        q ← peekAt 1 lx;
        if bool_decide (q = ">"%char) then
          '(second, lx) ← consume ">"%char (advance 2 lx);
          token (if (second : bool) then TokenKind.OrMinusDoubleArrow
                 else TokenKind.OrMinusArrow) info lx
        else token TokenKind.Or info lx
      else if bool_decide (p = "="%char) then
        q ← peekAt 1 lx;
        if bool_decide (q = ">"%char) then token TokenKind.OrEqualsArrow info (advance 2 lx)
        else token TokenKind.OrEqual info (advance 1 lx)
      else token TokenKind.Or info lx
  | "}"%char => token TokenKind.CloseBrace info lx
  | "~"%char =>
      peekCase info lx [("&"%char, TokenKind.TildeAnd); ("|"%char, TokenKind.TildeOr);
                        ("^"%char, TokenKind.TildeXor)] TokenKind.Tilde
  | _ =>
      if bool_decide (c = "_"%char) ||
         (Nat.leb 65 (nat_of_ascii c) && Nat.leb (nat_of_ascii c) 90) ||
         (Nat.leb 97 (nat_of_ascii c) && Nat.leb (nat_of_ascii c) 122)
      then lexIdentifier keywordVersion info lx
      else lexUnknownCharacter c offset info lx
  end.

(** [Lexer::lexToken]. *)
Definition lexToken (info : TokenInfo TokenExtra) (directiveMode : bool)
    (keywordVersion : nat) (lx : Lexer)
  : option (TokenKind.t * TokenInfo TokenExtra * Lexer) :=
  let offset := currentOffset lx in
  let info := setLocation info {| locBuffer := bufferId lx; locOffset := offset |} in
  c ← peek lx;
  lexTokenSwitch c offset info directiveMode keywordVersion (advance 1 lx).

(** The [do ... while (c != delim)] loop of [lexIncludeFileName]. *)
Fixpoint scanIncludeFileName (fuel : nat) (delim : ascii) (offset : nat) (lx : Lexer)
  : option Lexer :=
  match fuel with
  | O => None
  | S fuel =>
      c ← peek lx;
      if bool_decide (c = NUL) || isNewline c then
        Some (lexerAddError ExpectedIncludeFileName offset lx)
      else if bool_decide (c = delim) then Some (advance 1 lx)
      else scanIncludeFileName fuel delim offset (advance 1 lx)
  end.

(** [Lexer::lexIncludeFileName]. *)
Definition lexIncludeFileName (lx : Lexer) : option (Token TokenExtra * Lexer) :=
  first ← peek lx;
  '(triviaBuffer, lx) ←
    (if isHorizontalWhitespace first then scanWhitespace (lexerFuel lx) [] (mark lx)
     else Some ([], lx));
  let offset := currentOffset lx in
  let location := {| locBuffer := bufferId lx; locOffset := offset |} in
  let lx := mark lx in
  delim ← peek lx;
  if bool_decide (delim = "`"%char) then
    '(kind, info, lx) ← lexDirective emptyInfo (advance 1 lx);
    Some ({| tokenKind := kind;
             tokenInfo := {| trivia := triviaBuffer; rawText := lexeme lx;
                             location := location; missing := missing info;
                             extra := extra info |} |}, lx)
  else if negb (bool_decide (delim = QUOTE)) && negb (bool_decide (delim = "<"%char)) then
    Some ({| tokenKind := TokenKind.IncludeFileName;
             tokenInfo := {| trivia := triviaBuffer; rawText := [];
                             location := location; missing := true;
                             extra := None |} |},
          lexerAddError ExpectedIncludeFileName offset lx)
  else
    let delim := if bool_decide (delim = "<"%char) then ">"%char else delim in
    lx ← scanIncludeFileName (lexerFuel lx) delim offset (advance 1 lx);
    Some ({| tokenKind := TokenKind.IncludeFileName;
             tokenInfo := {| trivia := triviaBuffer; rawText := lexeme lx;
                             location := location; missing := false;
                             extra := Some (ExtraText (lexeme lx)) |} |}, lx).

(** [Lexer::lex]. *)
Definition lex (mode : LexerMode.t) (keywordVersion : nat) (lx : Lexer)
  : option (Token TokenExtra * Lexer) :=
  if bool_decide (mode = LexerMode.IncludeFileName) then lexIncludeFileName lx
  else
    let info := emptyInfo in
    let directiveMode := bool_decide (mode = LexerMode.Directive) in
    '(eod, triviaBuffer, lx) ← lexTrivia (lexerFuel lx) [] directiveMode lx;
    if (eod : bool) then
      Some ({| tokenKind := TokenKind.EndOfDirective;
               tokenInfo := setTrivia info triviaBuffer |}, lx)
    else
      let lx := mark lx in
      '(kind, info, lx) ← lexToken info directiveMode keywordVersion lx;
      let lx := setOnNewLine lx false in
      let info := setRawText info (lexeme lx) in
      if negb (bool_decide (kind = TokenKind.EndOfFile)) &&
         bool_decide (maxErrors lx < length (diagnostics lx))%nat then
        let lx := lexerAddError TooManyLexerErrors (currentOffset lx) lx in
        let lx := setSourceBuffer lx (sourceEnd lx - 1) in
        let triviaBuffer :=
          triviaBuffer ++ [{| triviaKind := TriviaKind.DisabledText;
                              triviaText := lexeme lx |}] in
        Some ({| tokenKind := TokenKind.EndOfFile;
                 tokenInfo := setTrivia info triviaBuffer |}, lx)
      else
        Some ({| tokenKind := kind; tokenInfo := setTrivia info triviaBuffer |}, lx).

(** [n] calls of [lex] in a row: the kinds of the tokens they return and the
    lexer they leave. *)
Fixpoint lexMany (n : nat) (mode : LexerMode.t) (keywordVersion : nat) (lx : Lexer)
  : option (list (Token TokenExtra) * Lexer) :=
  match n with
  | O => Some ([], lx)
  | S n =>
      '(tok, lx) ← lex mode keywordVersion lx;
      '(toks, lx) ← lexMany n mode keywordVersion lx;
      Some (tok :: toks, lx)
  end.

End LexerBody.

(** ** The compilation manager: definitions, syntax trees, the root *)

Definition setDefinitions (c : Compilation) (m : gmap (string * nat) DefinitionEntry)
  : Compilation :=
  {| nextAddr := nextAddr c;
     vectorTypeCache := vectorTypeCache c;
     diags := diags c;
     finalized := finalized c;
     sourceManager := sourceManager c;
     definitionMap := m;
     instantiatedNames := instantiatedNames c;
     compilationUnits := compilationUnits c;
     syntaxTrees := syntaxTrees c;
     root := root c;
     forcedDiagnostics := forcedDiagnostics c |}.

Definition setSourceManager (c : Compilation) (sm : nat) : Compilation :=
  {| nextAddr := nextAddr c;
     vectorTypeCache := vectorTypeCache c;
     diags := diags c;
     finalized := finalized c;
     sourceManager := Some sm;
     definitionMap := definitionMap c;
     instantiatedNames := instantiatedNames c;
     compilationUnits := compilationUnits c;
     syntaxTrees := syntaxTrees c;
     root := root c;
     forcedDiagnostics := forcedDiagnostics c |}.

Definition setRoot (c : Compilation) (r : RootSymbol) : Compilation :=
  {| nextAddr := nextAddr c;
     vectorTypeCache := vectorTypeCache c;
     diags := diags c;
     finalized := finalized c;
     sourceManager := sourceManager c;
     definitionMap := definitionMap c;
     instantiatedNames := instantiatedNames c;
     compilationUnits := compilationUnits c;
     syntaxTrees := syntaxTrees c;
     root := r;
     forcedDiagnostics := forcedDiagnostics c |}.

(** [RootSymbol::addMember]. *)
Definition rootAddMember (c : Compilation) (m : RootMember) : Compilation :=
  setRoot c {| rootMembers := rootMembers (root c) ++ [m];
               topInstances := topInstances (root c);
               rootCompilationUnits := rootCompilationUnits (root c) |}.

(** [Compilation::getParamDecls]. *)
Definition getParamDecls (c : Compilation) (syntax : ParameterDeclarationSyntax)
    (isPort isLocal : bool) (parameters : list ParameterDecl)
  : list ParameterDecl * Compilation :=
  fold_left
    (λ (acc : list ParameterDecl * Compilation) (decl : VariableDeclaratorSyntax),
       let param :=
         {| paramName := declaratorName decl;
            paramLocation := declaratorLocation decl;
            paramType := paramTypeSyntax syntax;
            paramInitializer := declaratorInitializer decl;
            paramIsLocal := isLocal;
            paramIsPort := isPort |} in
       let c :=
         match declaratorInitializer decl with
         | Some _ => acc.2
         | None =>
             if negb isPort then addError acc.2 BodyParamNoInitializer (declaratorLocation decl)
             else if isLocal then addError acc.2 LocalParamNoInitializer (declaratorLocation decl)
             else acc.2
         end in
       (acc.1 ++ [param], c))
    (paramDeclarators syntax) (parameters, c).

Definition isLocalParamKeyword (k : option ParameterKeyword) : bool :=
  match k with Some LocalParamKeyword => true | _ => false end.

(** The first loop of [addDefinition], over the parameter port list: a
    declaration without a keyword inherits the one before it. *)
Definition portParamDecls (c : Compilation) (declarations : list ParameterDeclarationSyntax)
  : list ParameterDecl * Compilation :=
  let r :=
    fold_left
      (λ (acc : bool * (list ParameterDecl * Compilation))
         (declaration : ParameterDeclarationSyntax),
         let lastLocal :=
           match paramKeyword declaration with
           | Some k => isLocalParamKeyword (Some k)
           | None => acc.1
           end in
         (lastLocal, getParamDecls acc.2.2 declaration true lastLocal acc.2.1))
      declarations (false, ([], c)) in
  r.2.

(** The second loop of [addDefinition], over the immediate members of the
    body. *)
Definition bodyParamDecls (hasPortParams : bool) (members : list MemberSyntax)
    (acc : list ParameterDecl * Compilation) : list ParameterDecl * Compilation :=
  fold_left
    (λ (acc : list ParameterDecl * Compilation) (member : MemberSyntax),
       match member with
       | ParameterDeclarationStatement declaration =>
           let isLocal := hasPortParams || isLocalParamKeyword (paramKeyword declaration) in
           getParamDecls acc.2 declaration false isLocal acc.1
       | _ => acc
       end)
    members acc.

(** [emplace] of a map: the entry is added only when the key is free. *)
Definition mapEmplace (key : string * nat) (d : DefinitionEntry)
    (m : gmap (string * nat) DefinitionEntry) : gmap (string * nat) DefinitionEntry :=
  match m !! key with
  | Some _ => m
  | None => <[key := d]> m
  end.

(** [Compilation::addDefinition]. *)
Definition addDefinition (c : Compilation) (kind : DefinitionKind)
    (header : ModuleHeaderSyntax) (members : list MemberSyntax) (scope : Scope)
  : Compilation :=
  let hasPortParams := bool_decide (is_Some (headerParameters header)) in
  let ports :=
    match headerParameters header with
    | Some declarations => portParamDecls c declarations
    | None => ([], c)
    end in
  let '(parameters, c) := bodyParamDecls hasPortParams members ports in
  let definition :=
    {| definitionKind := kind;
       definitionName := headerName header;
       definitionNameLocation := headerNameLocation header;
       definitionMembers := members;
       definitionParameters := parameters |} in
  match scopeKind scope with
  | CompilationUnitKind =>
      setDefinitions c (mapEmplace (definitionName definition, rootAddr) definition
                          (definitionMap c))
  | _ =>
      setDefinitions c (mapEmplace (definitionName definition, scopeAddr scope) definition
                          (definitionMap c))
  end.

(** Modelled from the spec: [Scope::addMembers] for a compilation unit, which
    is declared outside the translated sources: "walks top-level members,
    registers module/interface/program definitions"; the unit keeps the
    member's syntax for its lazy members. *)
Definition addMembers (c : Compilation) (unit : CompilationUnitSymbol)
    (member : MemberSyntax) : CompilationUnitSymbol * Compilation :=
  let c :=
    match member with
    | ModuleDeclarationSyntax kind header members =>
        addDefinition c kind header members
          {| scopeAddr := unitAddr unit; scopeKind := CompilationUnitKind |}
    | _ => c
    end in
  ({| unitAddr := unitAddr unit; unitMembers := unitMembers unit ++ [member] |}, c).

(** [containsName]. *)
Definition containsName (scopeStack : list NameSet) (name : string) : bool :=
  existsb (λ set : NameSet, bool_decide (name ∈ set)) scopeStack.

Definition isEmptyName (name : string) : bool := bool_decide (name = EmptyString).

(** The first loop of [findInstantiations(const ModuleDeclarationSyntax&)]:
    the names of the nested module, interface and program declarations; the
    scope entry is made when the first such name is met. *)
Definition localDefinitions (members : list MemberSyntax) : option NameSet :=
  fold_left
    (λ (localDefs : option NameSet) (member : MemberSyntax),
       match member with
       | ModuleDeclarationSyntax _ header _ =>
           if negb (isEmptyName (headerName header)) then
             match localDefs with
             | None => Some ({[ headerName header ]} : NameSet)
             | Some set => Some ({[ headerName header ]} ∪ set)
             end
           else localDefs
       | _ => localDefs
       end)
    members None.

(** [Compilation::findInstantiations], both overloads: the names found are
    added to [found]; [scopeStack] is the stack as the call receives it (what
    the call pushes it pops before it returns). *)
Fixpoint findInstantiations (node : MemberSyntax) (scopeStack : list NameSet)
    (found : NameSet) {struct node} : NameSet :=
  match node with
  | HierarchyInstantiation name =>
      if negb (isEmptyName name) && negb (containsName scopeStack name)
      then {[ name ]} ∪ found
      else found
  | ModuleDeclarationSyntax _ _ members =>
      let scopeStack :=
        match localDefinitions members with
        | Some localDefs => scopeStack ++ [localDefs]
        | None => scopeStack
        end in
      (fix children (members : list MemberSyntax) (found : NameSet) : NameSet :=
         match members with
         | [] => found
         | member :: rest => children rest (findInstantiations member scopeStack found)
         end) members found
  | GenerateRegion members | GenerateBlock members =>
      (fix children (members : list MemberSyntax) (found : NameSet) : NameSet :=
         match members with
         | [] => found
         | member :: rest => children rest (findInstantiations member scopeStack found)
         end) members found
  | LoopGenerate block => findInstantiations block scopeStack found
  | CaseGenerate items =>
      (fix each (items : list (CaseItemSyntax MemberSyntax)) (found : NameSet) : NameSet :=
         match items with
         | [] => found
         | DefaultCaseItem clause :: rest =>
             each rest (findInstantiations clause scopeStack found)
         | StandardCaseItem clause :: rest =>
             each rest (findInstantiations clause scopeStack found)
         | PatternCaseItem :: rest => each rest found
         end) items found
  | IfGenerate block elseClause =>
      let found := findInstantiations block scopeStack found in
      match elseClause with
      | Some clause => findInstantiations clause scopeStack found
      | None => found
      end
  | _ => found
  end.

Definition isModuleDeclaration (member : MemberSyntax) : bool :=
  match member with
  | ModuleDeclarationSyntax ModuleDeclaration _ _ => true
  | _ => false
  end.

(** The body of the loops of [addSyntaxTree] for one member. *)
Definition addTreeMember (acc : CompilationUnitSymbol * Compilation * NameSet)
    (member : MemberSyntax) : CompilationUnitSymbol * Compilation * NameSet :=
  let '(unit, c, instances) := acc in
  let '(unit, c) := addMembers c unit member in
  if isModuleDeclaration member
  then (unit, c, findInstantiations member [] instances)
  else (unit, c, instances).

(** The last statements of [addSyntaxTree]. *)
Definition recordSyntaxTree (c : Compilation) (unit : CompilationUnitSymbol)
    (instances : NameSet) (tree : SyntaxTree) : Compilation :=
  {| nextAddr := nextAddr c;
     vectorTypeCache := vectorTypeCache c;
     diags := diags c;
     finalized := finalized c;
     sourceManager := sourceManager c;
     definitionMap := definitionMap c;
     instantiatedNames := instances ∪ instantiatedNames c;
     compilationUnits := compilationUnits c ++ [unit];
     syntaxTrees := syntaxTrees c ++ [tree];
     root := {| rootMembers := rootMembers (root c) ++ [UnitMember unit];
                topInstances := topInstances (root c);
                rootCompilationUnits := rootCompilationUnits (root c) |};
     forcedDiagnostics := false |}.

(** [Compilation::addSyntaxTree]. *)
Definition addSyntaxTree (c : Compilation) (tree : SyntaxTree) : Outcome unit :=
  if finalized c then Thrown "The compilation has already been finalized" c
  else
    let managed :=
      if bool_decide (sourceManager c = Some (treeSourceManager tree)) then Some c
      else match sourceManager c with
           | None => Some (setSourceManager c (treeSourceManager tree))
           | Some _ => None
           end in
    match managed with
    | None =>
        Thrown "All syntax trees added to the compilation must use the same source manager" c
    | Some c =>
        let '(a, c) := emplace c in
        let unit := {| unitAddr := a; unitMembers := [] |} in
        let '(unit, c, instances) :=
          match treeRoot tree with
          | CompilationUnitSyntax members => fold_left addTreeMember members (unit, c, ∅)
          | SingleNode node => addTreeMember (unit, c, ∅) node
          end in
        Returned tt (recordSyntaxTree c unit instances tree)
    end.

(** Modelled from the spec: [ModuleInstanceSymbol::instantiate], declared
    outside the translated sources: a new instance symbol of the definition,
    with the given name and location. *)
Definition instantiate (c : Compilation) (name : string) (location : SourceLocation)
    (definition : string * nat) : ModuleInstanceSymbol * Compilation :=
  let '(a, c) := emplace c in
  ({| instanceAddr := a; instanceName := name; instanceLocation := location;
      instanceDefinition := definition |}, c).

(** The comparator of the sort in [getRoot]: [a->name < b->name]. *)
Definition nameLess (a b : ModuleInstanceSymbol) : bool :=
  String.ltb (instanceName a) (instanceName b).

(** [std::sort] with that comparator.  The standard leaves the algorithm and
    the order of equal elements open; insertion into a sorted list stands for
    it. *)
Fixpoint sortInsert (x : ModuleInstanceSymbol) (l : list ModuleInstanceSymbol)
  : list ModuleInstanceSymbol :=
  match l with
  | [] => [x]
  | y :: rest => if nameLess y x then y :: sortInsert x rest else x :: y :: rest
  end.

Definition sortByName (l : list ModuleInstanceSymbol) : list ModuleInstanceSymbol :=
  foldr sortInsert [] l.

(** The body of the loop of [getRoot] for one entry of the definition map. *)
Definition addTopInstance (acc : list ModuleInstanceSymbol * Compilation)
    (entry : string * nat * DefinitionEntry) : list ModuleInstanceSymbol * Compilation :=
  let '(topList, c) := acc in
  let '(key, definition) := entry in
  if bool_decide (definitionKind definition = ModuleDeclaration) &&
     bool_decide (definitionName definition ∉ instantiatedNames c)
  then
    let '(instance, c) :=
      instantiate c (definitionName definition) (definitionNameLocation definition) key in
    (topList ++ [instance], rootAddMember c (InstanceMember instance))
  else (topList, c).

Definition finalize (c : Compilation) (topList : list ModuleInstanceSymbol) : Compilation :=
  {| nextAddr := nextAddr c;
     vectorTypeCache := vectorTypeCache c;
     diags := diags c;
     finalized := true;
     sourceManager := sourceManager c;
     definitionMap := definitionMap c;
     instantiatedNames := instantiatedNames c;
     compilationUnits := compilationUnits c;
     syntaxTrees := syntaxTrees c;
     root := {| rootMembers := rootMembers (root c);
                topInstances := topList;
                rootCompilationUnits := compilationUnits c |};
     forcedDiagnostics := forcedDiagnostics c |}.

(** [Compilation::getRoot].  The loop visits the definition map in the order
    the hash table gives, which is the order of [map_to_list] here. *)
Definition getRoot (c : Compilation) : RootSymbol * Compilation :=
  if finalized c then (root c, c)
  else
    let '(topList, c) := fold_left addTopInstance (map_to_list (definitionMap c)) ([], c) in
    let c := finalize c (sortByName topList) in
    (root c, c).

(** A run of calls on a compilation, for statements about every later
    call. *)
Inductive CompilationCall :=
| CallAddSyntaxTree (tree : SyntaxTree)
| CallGetRoot.

Definition runCall (c : Compilation) (call : CompilationCall) : Compilation :=
  match call with
  | CallAddSyntaxTree tree =>
      match addSyntaxTree c tree with
      | Returned _ c => c
      | Thrown _ c => c
      end
  | CallGetRoot => (getRoot c).2
  end.

(** Adding the trees of a list one after the other; [None] when one of the
    calls throws. *)
Fixpoint addSyntaxTrees (c : Compilation) (trees : list SyntaxTree) : option Compilation :=
  match trees with
  | [] => Some c
  | tree :: rest =>
      match addSyntaxTree c tree with
      | Returned _ c => addSyntaxTrees c rest
      | Thrown _ _ => None
      end
  end.

(** Every name that stands as the type of a hierarchy instantiation anywhere
    in a member: what "referenced as an instantiation" means. *)
Fixpoint instantiationNames (node : MemberSyntax) : list string :=
  match node with
  | HierarchyInstantiation name => [name]
  | ModuleDeclarationSyntax _ _ members
  | GenerateRegion members | GenerateBlock members =>
      (fix children (members : list MemberSyntax) : list string :=
         match members with
         | [] => []
         | member :: rest => instantiationNames member ++ children rest
         end) members
  | LoopGenerate block => instantiationNames block
  | CaseGenerate items =>
      (fix each (items : list (CaseItemSyntax MemberSyntax)) : list string :=
         match items with
         | [] => []
         | DefaultCaseItem clause :: rest => instantiationNames clause ++ each rest
         | StandardCaseItem clause :: rest => instantiationNames clause ++ each rest
         | PatternCaseItem :: rest => each rest
         end) items
  | IfGenerate block elseClause =>
      instantiationNames block ++
      match elseClause with
      | Some clause => instantiationNames clause
      | None => []
      end
  | _ => []
  end.

Definition treeInstantiationNames (tree : SyntaxTree) : list string :=
  match treeRoot tree with
  | CompilationUnitSyntax members => concat (map instantiationNames members)
  | SingleNode node => instantiationNames node
  end.

(** ** The top-level instances, as a function of the definitions *)

(** The test of the loop of [getRoot]: a module declaration whose name is not
    among the instantiated names. *)
Definition isTopLevel (names : NameSet) (definition : DefinitionEntry) : bool :=
  bool_decide (definitionKind definition = ModuleDeclaration) &&
  bool_decide (definitionName definition ∉ names).

(** The instances the loop of [getRoot] makes for a list of entries, the
    first of them at the arena address [next]. *)
Fixpoint instantiateAll (names : NameSet) (next : nat)
    (entries : list (string * nat * DefinitionEntry)) : list ModuleInstanceSymbol :=
  match entries with
  | [] => []
  | (key, definition) :: rest =>
      if isTopLevel names definition then
        {| instanceAddr := next; instanceName := definitionName definition;
           instanceLocation := definitionNameLocation definition;
           instanceDefinition := key |} :: instantiateAll names (S next) rest
      else instantiateAll names next rest
  end.

(** Sorted by name: no instance is followed by one with a smaller name. *)
Definition nameLeq (a b : ModuleInstanceSymbol) : Prop :=
  String.leb (instanceName a) (instanceName b) = true.

(** The instances of a definition in a list of instances, and among the
    members of the root. *)
Definition instancesOf (key : string * nat) (l : list ModuleInstanceSymbol)
  : list ModuleInstanceSymbol :=
  filter (λ i, instanceDefinition i = key) l.

Definition memberDefinition (m : RootMember) : option (string * nat) :=
  match m with
  | UnitMember _ => None
  | InstanceMember i => Some (instanceDefinition i)
  end.

Definition memberInstancesOf (key : string * nat) (l : list RootMember) : list RootMember :=
  filter (λ m, memberDefinition m = Some key) l.

Definition isUnitMember (m : RootMember) : Prop :=
  match m with UnitMember _ => True | InstanceMember _ => False end.

(** The answers of a type that the binder reads. *)
Definition typeFacts (t : TypeSymbol) : Z * bool * bool * bool * bool * bool * bool :=
  (getBitWidth t, isSigned t, isFourState t, isDeclaredReg t,
   isIntegral t, isFloating t, isScalar t).

(** ** Well-formed states *)

Section Invariants.
Context {svint : SVIntConstants}.

(** A width [getType]'s key has room for: positive and below
    [2 ^ BITWIDTH_BITS], that is at most [SVInt::MAX_BITS]. *)
Definition validWidth (w : Z) : Prop := 0 < w < 2 ^ BITWIDTH_BITS.

(** An integral type is well formed when its width is such a width. *)
Definition wfType (t : TypeSymbol) : Prop :=
  isIntegral t = true -> validWidth (getBitWidth t).

(** The vector type cache is consistent when every entry is the packed array
    [getType] makes for the width and flags of its key. *)
Definition cacheOk (c : Compilation) : Prop :=
  forall key t, vectorTypeCache c !! key = Some t ->
    exists a w f s,
      validWidth w /\ key = vectorTypeKey w f /\ getScalarType f = Some s /\
      t = PackedArrayType a s {| rangeLeft := w - 1; rangeRight := 0 |}.

End Invariants.

(** ** More of the binder: unary, binary, assignment, select and literal expressions *)

(** The syntax kinds [Expression::create] hands to the two
    [UnaryExpression::fromSyntax] overloads. *)
Inductive UnarySyntaxKind :=
| UnaryPlusExpression | UnaryMinusExpression | UnaryBitwiseNotExpression
| UnaryBitwiseAndExpression | UnaryBitwiseOrExpression | UnaryBitwiseXorExpression
| UnaryBitwiseNandExpression | UnaryBitwiseNorExpression | UnaryBitwiseXnorExpression
| UnaryLogicalNotExpression | UnaryPreincrementExpression | UnaryPredecrementExpression
| PostincrementExpression | PostdecrementExpression.

(** The syntax kinds handed to [BinaryExpression::fromSyntax] and to
    [AssignmentExpression::fromSyntax]. *)
Inductive BinarySyntaxKind :=
| AddExpression | SubtractExpression | MultiplyExpression | DivideExpression
| ModExpression | BinaryAndExpression | BinaryOrExpression | BinaryXorExpression
| BinaryXnorExpression | EqualityExpression | InequalityExpression
| CaseEqualityExpression | CaseInequalityExpression | GreaterThanEqualExpression
| GreaterThanExpression | LessThanEqualExpression | LessThanExpression
| WildcardEqualityExpression | WildcardInequalityExpression | LogicalAndExpression
| LogicalOrExpression | LogicalImplicationExpression | LogicalEquivalenceExpression
| LogicalShiftLeftExpression | LogicalShiftRightExpression
| ArithmeticShiftLeftExpression | ArithmeticShiftRightExpression | PowerExpression
| AssignmentExpression | AddAssignmentExpression | SubtractAssignmentExpression
| MultiplyAssignmentExpression | DivideAssignmentExpression | ModAssignmentExpression
| AndAssignmentExpression | OrAssignmentExpression | XorAssignmentExpression
| LogicalLeftShiftAssignmentExpression | LogicalRightShiftAssignmentExpression
| ArithmeticLeftShiftAssignmentExpression | ArithmeticRightShiftAssignmentExpression.

#[global] Instance UnarySyntaxKind_eq_dec : EqDecision UnarySyntaxKind.
Proof. solve_decision. Defined.

#[global] Instance BinarySyntaxKind_eq_dec : EqDecision BinarySyntaxKind.
Proof. solve_decision. Defined.

Inductive UnaryOperator :=
| UnaryOperator_Plus | UnaryOperator_Minus | UnaryOperator_BitwiseNot
| UnaryOperator_BitwiseAnd | UnaryOperator_BitwiseOr | UnaryOperator_BitwiseXor
| UnaryOperator_BitwiseNand | UnaryOperator_BitwiseNor | UnaryOperator_BitwiseXnor
| UnaryOperator_LogicalNot | UnaryOperator_Preincrement | UnaryOperator_Predecrement
| UnaryOperator_Postincrement | UnaryOperator_Postdecrement.

Inductive BinaryOperator :=
| BinaryOperator_Add | BinaryOperator_Subtract | BinaryOperator_Multiply
| BinaryOperator_Divide | BinaryOperator_Mod | BinaryOperator_BinaryAnd
| BinaryOperator_BinaryOr | BinaryOperator_BinaryXor | BinaryOperator_BinaryXnor
| BinaryOperator_Equality | BinaryOperator_Inequality | BinaryOperator_CaseEquality
| BinaryOperator_CaseInequality | BinaryOperator_GreaterThanEqual
| BinaryOperator_GreaterThan | BinaryOperator_LessThanEqual | BinaryOperator_LessThan
| BinaryOperator_WildcardEquality | BinaryOperator_WildcardInequality
| BinaryOperator_LogicalAnd | BinaryOperator_LogicalOr
| BinaryOperator_LogicalImplication | BinaryOperator_LogicalEquivalence
| BinaryOperator_LogicalShiftLeft | BinaryOperator_LogicalShiftRight
| BinaryOperator_ArithmeticShiftLeft | BinaryOperator_ArithmeticShiftRight
| BinaryOperator_Power.

#[global] Instance BinaryOperator_eq_dec : EqDecision BinaryOperator.
Proof. solve_decision. Defined.

(** [getUnaryOperator]. *)
Definition getUnaryOperator (kind : UnarySyntaxKind) : UnaryOperator :=
  match kind with
  | UnaryPlusExpression => UnaryOperator_Plus
  | UnaryMinusExpression => UnaryOperator_Minus
  | UnaryBitwiseNotExpression => UnaryOperator_BitwiseNot
  | UnaryBitwiseAndExpression => UnaryOperator_BitwiseAnd
  | UnaryBitwiseOrExpression => UnaryOperator_BitwiseOr
  | UnaryBitwiseXorExpression => UnaryOperator_BitwiseXor
  | UnaryBitwiseNandExpression => UnaryOperator_BitwiseNand
  | UnaryBitwiseNorExpression => UnaryOperator_BitwiseNor
  | UnaryBitwiseXnorExpression => UnaryOperator_BitwiseXnor
  | UnaryLogicalNotExpression => UnaryOperator_LogicalNot
  | UnaryPreincrementExpression => UnaryOperator_Preincrement
  | UnaryPredecrementExpression => UnaryOperator_Predecrement
  | PostincrementExpression => UnaryOperator_Postincrement
  | PostdecrementExpression => UnaryOperator_Postdecrement
  end.

(** [getBinaryOperator]; [None] for the plain assignment, which is the
    switch's [THROW_UNREACHABLE]. *)
Definition getBinaryOperator (kind : BinarySyntaxKind) : option BinaryOperator :=
  match kind with
  | AddExpression => Some BinaryOperator_Add
  | SubtractExpression => Some BinaryOperator_Subtract
  | MultiplyExpression => Some BinaryOperator_Multiply
  | DivideExpression => Some BinaryOperator_Divide
  | ModExpression => Some BinaryOperator_Mod
  | BinaryAndExpression => Some BinaryOperator_BinaryAnd
  | BinaryOrExpression => Some BinaryOperator_BinaryOr
  | BinaryXorExpression => Some BinaryOperator_BinaryXor
  | BinaryXnorExpression => Some BinaryOperator_BinaryXnor
  | EqualityExpression => Some BinaryOperator_Equality
  | InequalityExpression => Some BinaryOperator_Inequality
  | CaseEqualityExpression => Some BinaryOperator_CaseEquality
  | CaseInequalityExpression => Some BinaryOperator_CaseInequality
  | GreaterThanEqualExpression => Some BinaryOperator_GreaterThanEqual
  | GreaterThanExpression => Some BinaryOperator_GreaterThan
  | LessThanEqualExpression => Some BinaryOperator_LessThanEqual
  | LessThanExpression => Some BinaryOperator_LessThan
  | WildcardEqualityExpression => Some BinaryOperator_WildcardEquality
  | WildcardInequalityExpression => Some BinaryOperator_WildcardInequality
  | LogicalAndExpression => Some BinaryOperator_LogicalAnd
  | LogicalOrExpression => Some BinaryOperator_LogicalOr
  | LogicalImplicationExpression => Some BinaryOperator_LogicalImplication
  | LogicalEquivalenceExpression => Some BinaryOperator_LogicalEquivalence
  | LogicalShiftLeftExpression => Some BinaryOperator_LogicalShiftLeft
  | LogicalShiftRightExpression => Some BinaryOperator_LogicalShiftRight
  | ArithmeticShiftLeftExpression => Some BinaryOperator_ArithmeticShiftLeft
  | ArithmeticShiftRightExpression => Some BinaryOperator_ArithmeticShiftRight
  | PowerExpression => Some BinaryOperator_Power
  | AssignmentExpression => None
  | AddAssignmentExpression => Some BinaryOperator_Add
  | SubtractAssignmentExpression => Some BinaryOperator_Subtract
  | MultiplyAssignmentExpression => Some BinaryOperator_Multiply
  | DivideAssignmentExpression => Some BinaryOperator_Divide
  | ModAssignmentExpression => Some BinaryOperator_Mod
  | AndAssignmentExpression => Some BinaryOperator_BinaryAnd
  | OrAssignmentExpression => Some BinaryOperator_BinaryOr
  | XorAssignmentExpression => Some BinaryOperator_BinaryXor
  | LogicalLeftShiftAssignmentExpression => Some BinaryOperator_LogicalShiftLeft
  | LogicalRightShiftAssignmentExpression => Some BinaryOperator_LogicalShiftRight
  | ArithmeticLeftShiftAssignmentExpression => Some BinaryOperator_ArithmeticShiftLeft
  | ArithmeticRightShiftAssignmentExpression => Some BinaryOperator_ArithmeticShiftRight
  end.

(** [Expression::checkLValue]. *)
Definition checkLValue (c : Compilation) (expr : Expression) (location : SourceLocation)
  : bool * Compilation :=
  if negb (isLValue expr) then (false, addError c ExpressionNotAssignable location)
  else (true, c).

(** The node a binder allocates before it checks its operands: the shared
    header and the operands.  The operator of a unary, binary or assignment
    node is [getUnaryOperator] or [getBinaryOperator] of the syntax kind and is
    not kept in the header. *)
Definition node (k : ExpressionKind) (t : TypeSymbol) (range : SourceRange)
    (children : list Expression) : Expression :=
  {| kind := k; type := t; constant := None; sourceRange := range;
     operands := children; conversionKind := None |}.

(** [type->isFourState() ? &compilation.getLogicType() : &compilation.getBitType()]. *)
Definition singleBitOf (t : TypeSymbol) : TypeSymbol :=
  if isFourState t then getLogicType else getBitType.

Definition isCHandle (t : TypeSymbol) : bool :=
  match getCanonicalType t with CHandleType => true | _ => false end.

Definition isNull (t : TypeSymbol) : bool :=
  match getCanonicalType t with NullType => true | _ => false end.

Section MoreBinders.
Context {svint : SVIntConstants}.

(** Declared outside the translated sources and taken as parameters: the
    context-determined propagation and the predicates of [Type] that the
    binders below ask. *)
Variable contextDetermined :
  Compilation -> Expression -> TypeSymbol -> option (Expression * Compilation).
Variable isAssignmentCompatible : TypeSymbol -> TypeSymbol -> bool.
Variable isCastCompatible : TypeSymbol -> TypeSymbol -> bool.
Variable isAggregate : TypeSymbol -> bool.
Variable isEquivalent : TypeSymbol -> TypeSymbol -> bool.
Variable isClass : TypeSymbol -> bool.

(** The end of the unary and binary binders: the diagnostic and the bad
    expression when the operand types do not fit the operator. *)
Definition finishOperator (good : bool) (code : DiagCode) (location : SourceLocation)
    (result : Expression) (c : Compilation) : option (Expression * Compilation) :=
  if negb good then Some (badExpr (Some result), addError c code location)
  else Some (result, c).

(** [UnaryExpression::fromSyntax(const PrefixUnaryExpressionSyntax&)]. *)
Definition UnaryExpression_fromSyntax (create : SubBinder) (compilation : Compilation)
    (syntaxKind : UnarySyntaxKind) (operatorLocation : SourceLocation)
    (range : SourceRange) (operandSyntax : ExpressionSyntax) (context : BindContext)
  : option (Expression * Compilation) :=
  '(operand, compilation) ← create compilation operandSyntax context BindFlags_None;
  let type_ := type operand in
  let result t := node UnaryOp t range [operand] in
  if bad operand then Some (badExpr (Some (result type_)), compilation)
  else
    match syntaxKind with
    | UnaryPlusExpression | UnaryMinusExpression =>
        finishOperator (isNumeric type_) BadUnaryExpression operatorLocation
          (result type_) compilation
    | UnaryLogicalNotExpression =>
        finishOperator (isNumeric type_) BadUnaryExpression operatorLocation
          (result (singleBitOf type_)) compilation
    | UnaryBitwiseNotExpression | UnaryBitwiseAndExpression | UnaryBitwiseOrExpression
    | UnaryBitwiseXorExpression | UnaryBitwiseNandExpression | UnaryBitwiseNorExpression
    | UnaryBitwiseXnorExpression =>
        finishOperator (isIntegral type_) BadUnaryExpression operatorLocation
          (result (singleBitOf type_)) compilation
    | UnaryPreincrementExpression | UnaryPredecrementExpression =>
        let '(assignable, compilation) := checkLValue compilation operand operatorLocation in
        if negb assignable then Some (badExpr (Some (result type_)), compilation)
        else
          finishOperator (isNumeric type_) BadUnaryExpression operatorLocation
            (result type_) compilation
    | PostincrementExpression | PostdecrementExpression => None
    end.

(** [UnaryExpression::fromSyntax(const PostfixUnaryExpressionSyntax&)]. *)
Definition UnaryExpression_fromPostfixSyntax (create : SubBinder) (compilation : Compilation)
    (operatorLocation : SourceLocation) (range : SourceRange)
    (operandSyntax : ExpressionSyntax) (context : BindContext)
  : option (Expression * Compilation) :=
  '(operand, compilation) ← create compilation operandSyntax context BindFlags_None;
  let type_ := type operand in
  let result := node UnaryOp type_ range [operand] in
  if bad operand then Some (badExpr (Some result), compilation)
  else
    let '(assignable, compilation) := checkLValue compilation operand operatorLocation in
    if negb assignable then Some (badExpr (Some result), compilation)
    else finishOperator (isNumeric type_) BadUnaryExpression operatorLocation result compilation.

(** What the switch of [BinaryExpression::fromSyntax] leaves: whether the
    operand types fit, the type of the result, the two operands (propagated for
    the comparisons) and the compilation. *)
Record BinaryChoice := {
  good : bool;
  resultType : TypeSymbol;
  leftOperand : Expression;
  rightOperand : Expression;
  choiceCompilation : Compilation
}.

(** [auto nt = binaryOperatorType(compilation, lt, rt, false);
     contextDetermined(compilation, result->left_, *nt);
     contextDetermined(compilation, result->right_, *nt);] *)
Definition propagateOperands (good : bool) (t : TypeSymbol) (lhs rhs : Expression)
    (compilation : Compilation) : option BinaryChoice :=
  '(nt, compilation) ← binaryOperatorType compilation (type lhs) (type rhs) false;
  '(lhs, compilation) ← contextDetermined compilation lhs nt;
  '(rhs, compilation) ← contextDetermined compilation rhs nt;
  Some {| good := good; resultType := t; leftOperand := lhs; rightOperand := rhs;
          choiceCompilation := compilation |}.

(** The switch of [BinaryExpression::fromSyntax]. *)
Definition binaryChoice (syntaxKind : BinarySyntaxKind) (lhs rhs : Expression)
    (compilation : Compilation) : option BinaryChoice :=
  let lt := type lhs in
  let rt := type rhs in
  let bothIntegral := isIntegral lt && isIntegral rt in
  let bothNumeric := isNumeric lt && isNumeric rt in
  let choice good '(t, compilation) :=
    {| good := good; resultType := t; leftOperand := lhs; rightOperand := rhs;
       choiceCompilation := compilation |} in
  match syntaxKind with
  | AddExpression | SubtractExpression | MultiplyExpression =>
      choice bothNumeric <$> binaryOperatorType compilation lt rt false
  | DivideExpression =>
      choice bothNumeric <$> binaryOperatorType compilation lt rt true
  | ModExpression =>
      choice bothIntegral <$> binaryOperatorType compilation lt rt true
  | BinaryAndExpression | BinaryOrExpression | BinaryXorExpression | BinaryXnorExpression =>
      choice bothIntegral <$> binaryOperatorType compilation lt rt false
  | LogicalShiftLeftExpression | LogicalShiftRightExpression
  | ArithmeticShiftLeftExpression | ArithmeticShiftRightExpression =>
      if isFourState rt then choice bothIntegral <$> forceFourState compilation lt
      else Some (choice bothIntegral (lt, compilation))
  | PowerExpression =>
      choice bothNumeric <$> forceFourState compilation lt
  | GreaterThanEqualExpression | GreaterThanExpression
  | LessThanEqualExpression | LessThanExpression =>
      propagateOperands bothNumeric (singleBitType lt rt) lhs rhs compilation
  | LogicalAndExpression | LogicalOrExpression
  | LogicalImplicationExpression | LogicalEquivalenceExpression =>
      Some (choice bothNumeric (singleBitType lt rt, compilation))
  | EqualityExpression | InequalityExpression
  | WildcardEqualityExpression | WildcardInequalityExpression
  | CaseEqualityExpression | CaseInequalityExpression =>
      if bothNumeric then
        let t :=
          if bool_decide (syntaxKind = EqualityExpression) ||
             bool_decide (syntaxKind = InequalityExpression)
          then singleBitType lt rt
          else if bool_decide (syntaxKind = CaseEqualityExpression) ||
                  bool_decide (syntaxKind = CaseInequalityExpression)
          then getBitType
          else singleBitOf lt in
        propagateOperands true t lhs rhs compilation
      else if isAggregate lt && isEquivalent lt rt then
        Some (choice true (getLogicType, compilation))
      else if (isClass lt && isAssignmentCompatible lt rt) ||
              (isClass rt && isAssignmentCompatible rt lt) then
        Some (choice true (getBitType, compilation))
      else if (isCHandle lt || isNull lt) && (isCHandle rt || isNull rt) then
        Some (choice true (getBitType, compilation))
      else Some (choice false (lt, compilation))
  | _ => None
  end.

(** [BinaryExpression::fromSyntax]. *)
Definition BinaryExpression_fromSyntax (create : SubBinder) (compilation : Compilation)
    (syntaxKind : BinarySyntaxKind) (operatorLocation : SourceLocation)
    (range : SourceRange) (leftSyntax rightSyntax : ExpressionSyntax)
    (context : BindContext) : option (Expression * Compilation) :=
  '(lhs, compilation) ← create compilation leftSyntax context BindFlags_None;
  '(rhs, compilation) ← create compilation rightSyntax context BindFlags_None;
  if bad lhs || bad rhs then
    Some (badExpr (Some (node BinaryOp (type lhs) range [lhs; rhs])), compilation)
  else
    chosen ← binaryChoice syntaxKind lhs rhs compilation;
    finishOperator (good chosen) BadBinaryExpression operatorLocation
      (node BinaryOp (resultType chosen) range [leftOperand chosen; rightOperand chosen])
      (choiceCompilation chosen).

(** [AssignmentExpression::fromSyntax]. *)
Definition AssignmentExpression_fromSyntax (selfDetermined create : SubBinder)
    (compilation : Compilation) (operatorLocation : SourceLocation) (range : SourceRange)
    (leftSyntax rightSyntax : ExpressionSyntax) (context : BindContext)
  : option (Expression * Compilation) :=
  '(lhs, compilation) ← selfDetermined compilation leftSyntax context BindFlags_None;
  '(rhs, compilation) ← create compilation rightSyntax context BindFlags_None;
  let result r := node Assignment (type lhs) range [lhs; r] in
  if bad lhs || bad rhs then Some (badExpr (Some (result rhs)), compilation)
  else
    let '(assignable, compilation) := checkLValue compilation lhs operatorLocation in
    if negb assignable then Some (badExpr (Some (result rhs)), compilation)
    else
      '(converted, compilation) ←
        convertAssignment contextDetermined isAssignmentCompatible isCastCompatible
          compilation (type lhs) rhs operatorLocation;
      if bad converted then Some (badExpr (Some (result converted)), compilation)
      else Some (result converted, compilation).

(** [ElementSelectExpression::fromSyntax]; [selectorRange] is the source range
    of the selector's syntax. *)
Definition ElementSelectExpression_fromSyntax (selfDetermined : SubBinder)
    (compilation : Compilation) (value : Expression) (selectorSyntax : ExpressionSyntax)
    (selectorRange fullRange : SourceRange) (context : BindContext)
  : option (Expression * Compilation) :=
  '(selector, compilation) ←
    selfDetermined compilation selectorSyntax context BindFlags_None;
  let result t := node ElementSelect t fullRange [value; selector] in
  if bad value || bad selector then Some (badExpr (Some (result getErrorType)), compilation)
  else
    let valueType := getCanonicalType (type value) in
    if negb (isIntegral valueType) then
      Some (badExpr (Some (result getErrorType)),
            addError compilation BadIndexExpression (rangeStart selectorRange))
    else if isScalar valueType then
      Some (badExpr (Some (result getErrorType)),
            addError compilation CannotIndexScalar (rangeStart selectorRange))
    else
      let t :=
        match valueType with
        | PackedArrayType _ elementType _ => elementType
        | _ => singleBitOf valueType
        end in
      if negb (isIntegral (type selector)) then
        Some (badExpr (Some (result t)),
              addError compilation IndexMustBeIntegral (rangeStart (sourceRange selector)))
      else Some (result t, compilation).

(** The literal binders.  The value a literal node stores is kept as its
    [constant]. *)

(** [IntegerLiteral::fromSyntax(const IntegerVectorExpressionSyntax&)]. *)
Definition IntegerLiteral_fromVectorSyntax (compilation : Compilation) (value : SVInt)
    (range : SourceRange) : option (Expression * Compilation) :=
  '(t, compilation) ←
    getType compilation (svBitWidth value)
      {| Signed := svSigned value; FourState := svHasUnknown value; RegFlag := false |};
  Some ({| kind := IntegerLiteral; type := t; constant := Some (IntegerValue value);
           sourceRange := range; operands := []; conversionKind := None |}, compilation).

(** [UnbasedUnsizedIntegerLiteral::fromSyntax]; [unknown] is
    [val.isUnknown()] of the literal's bit. *)
Definition UnbasedUnsizedIntegerLiteral_fromSyntax (compilation : Compilation)
    (bit : Z) (unknown : bool) (range : SourceRange) : option (Expression * Compilation) :=
  '(t, compilation) ←
    getType compilation 1 {| Signed := false; FourState := unknown; RegFlag := false |};
  Some ({| kind := UnbasedUnsizedIntegerLiteral; type := t;
           constant := Some (IntegerValue {| svBitWidth := 1; svSigned := false;
                                             svBits := bit; svHasUnknown := unknown |});
           sourceRange := range; operands := []; conversionKind := None |}, compilation).

(** [StringLiteral::fromSyntax]: eight bits a character, in 32-bit unsigned
    arithmetic, and eight bits for the empty string. *)
Definition StringLiteral_fromSyntax (compilation : Compilation) (value : string)
    (range : SourceRange) : option (Expression * Compilation) :=
  let width :=
    if bool_decide (value = EmptyString) then 8
    else uint32 (uint32 (Z.of_nat (String.length value)) * 8) in
  '(t, compilation) ← getType compilation width NoFlags;
  Some ({| kind := StringLiteral; type := t; constant := Some (StringValue value);
           sourceRange := range; operands := []; conversionKind := None |}, compilation).

End MoreBinders.

(** The classes of unary operators the statements below tell apart: the
    operators whose result has the operand's type, the operators that take
    integral operands only, and the operators that write their operand. *)
Definition keepsOperandType (k : UnarySyntaxKind) : bool :=
  match k with
  | UnaryPlusExpression | UnaryMinusExpression | UnaryPreincrementExpression
  | UnaryPredecrementExpression | PostincrementExpression | PostdecrementExpression => true
  | _ => false
  end.

Definition takesIntegralOnly (k : UnarySyntaxKind) : bool :=
  match k with
  | UnaryBitwiseNotExpression | UnaryBitwiseAndExpression | UnaryBitwiseOrExpression
  | UnaryBitwiseXorExpression | UnaryBitwiseNandExpression | UnaryBitwiseNorExpression
  | UnaryBitwiseXnorExpression => true
  | _ => false
  end.

Definition writesOperand (k : UnarySyntaxKind) : bool :=
  match k with
  | UnaryPreincrementExpression | UnaryPredecrementExpression
  | PostincrementExpression | PostdecrementExpression => true
  | _ => false
  end.

Definition isPostfix (k : UnarySyntaxKind) : bool :=
  match k with
  | PostincrementExpression | PostdecrementExpression => true
  | _ => false
  end.

(** The classes of binary operators the statements below tell apart. *)
Definition isAssignmentKind (k : BinarySyntaxKind) : bool :=
  match k with
  | AssignmentExpression | AddAssignmentExpression | SubtractAssignmentExpression
  | MultiplyAssignmentExpression | DivideAssignmentExpression | ModAssignmentExpression
  | AndAssignmentExpression | OrAssignmentExpression | XorAssignmentExpression
  | LogicalLeftShiftAssignmentExpression | LogicalRightShiftAssignmentExpression
  | ArithmeticLeftShiftAssignmentExpression | ArithmeticRightShiftAssignmentExpression => true
  | _ => false
  end.

Definition isArithmeticKind (k : BinarySyntaxKind) : bool :=
  match k with
  | AddExpression | SubtractExpression | MultiplyExpression | DivideExpression
  | ModExpression | BinaryAndExpression | BinaryOrExpression | BinaryXorExpression
  | BinaryXnorExpression => true
  | _ => false
  end.

Definition isShiftKind (k : BinarySyntaxKind) : bool :=
  match k with
  | LogicalShiftLeftExpression | LogicalShiftRightExpression
  | ArithmeticShiftLeftExpression | ArithmeticShiftRightExpression => true
  | _ => false
  end.

Definition isRelationalKind (k : BinarySyntaxKind) : bool :=
  match k with
  | GreaterThanEqualExpression | GreaterThanExpression
  | LessThanEqualExpression | LessThanExpression => true
  | _ => false
  end.

Definition isLogicalKind (k : BinarySyntaxKind) : bool :=
  match k with
  | LogicalAndExpression | LogicalOrExpression
  | LogicalImplicationExpression | LogicalEquivalenceExpression => true
  | _ => false
  end.

Definition isEqualityKind (k : BinarySyntaxKind) : bool :=
  match k with
  | EqualityExpression | InequalityExpression
  | WildcardEqualityExpression | WildcardInequalityExpression
  | CaseEqualityExpression | CaseInequalityExpression => true
  | _ => false
  end.

(** The operators that take integral operands only: [%], the bitwise
    operators and the shifts. *)
Definition takesIntegralOperands (k : BinarySyntaxKind) : bool :=
  match k with
  | ModExpression | BinaryAndExpression | BinaryOrExpression | BinaryXorExpression
  | BinaryXnorExpression => true
  | _ => isShiftKind k
  end.

(** [/] and [%] force a four-state result. *)
Definition forcesFourState (k : BinarySyntaxKind) : bool :=
  match k with
  | DivideExpression | ModExpression => true
  | _ => false
  end.

(** Whether the result of a comparison is four-state: never for the case
    equalities, with the left operand for the wildcard equalities, with
    either operand for the other comparisons and the logical operators. *)
Definition comparisonIsFourState (k : BinarySyntaxKind) (lt rt : TypeSymbol) : bool :=
  match k with
  | CaseEqualityExpression | CaseInequalityExpression => false
  | WildcardEqualityExpression | WildcardInequalityExpression => isFourState lt
  | _ => isFourState lt || isFourState rt
  end.

(** The operands of a concatenation bound one after the other, each as the
    loop of [ConcatenationExpression::fromSyntax] binds it. *)
Fixpoint bindOperands (selfDetermined : SubBinder) (context : BindContext)
    (compilation : Compilation) (args : list ExpressionSyntax)
  : option (list Expression * Compilation) :=
  match args with
  | [] => Some ([], compilation)
  | argSyntax :: rest =>
      '(arg, compilation) ←
        (if isMultipleConcatenation argSyntax
         then selfDetermined compilation argSyntax context BindFlags_InsideConcatenation
         else selfDetermined compilation argSyntax context BindFlags_None);
      '(args, compilation) ← bindOperands selfDetermined context compilation rest;
      Some (arg :: args, compilation)
  end.

(** A replication that bound to the void placeholder. *)
Definition isVoidReplication (argSyntax : ExpressionSyntax) (arg : Expression) : bool :=
  isVoid (type arg) && isMultipleConcatenation argSyntax.

(** The bits an operand adds to a concatenation. *)
Definition operandWidth (argSyntax : ExpressionSyntax) (arg : Expression) : Z :=
  if isVoidReplication argSyntax arg then 0 else getBitWidth (type arg).

Fixpoint operandWidths (args : list ExpressionSyntax) (bound : list Expression) : Z :=
  match args, bound with
  | argSyntax :: args, arg :: bound => operandWidth argSyntax arg + operandWidths args bound
  | _, _ => 0
  end.

(** An operand the loop takes without a diagnostic: a good expression that
    is a void replication or of an integral type. *)
Definition concatenable (argSyntax : ExpressionSyntax) (arg : Expression) : Prop :=
  bad arg = false /\
  (isVoidReplication argSyntax arg = true \/ isIntegral (type arg) = true).

(** ** The growable array (util/SmallVector) *)

(** [SmallVector<T>]: the constructed elements [data_[0 .. len)], the two
    32-bit counters, and whether [data_] points to heap storage ([isSmall]
    is its negation).  [len] is kept beside the elements because the code
    computes it in 32-bit unsigned arithmetic. *)
Record SmallVector (T : Type) := {
  data_ : list T;
  len : Z;
  capacity : Z;
  onHeap : bool
}.

Arguments data_ {T} _.
Arguments len {T} _.
Arguments capacity {T} _.
Arguments onHeap {T} _.

Section SmallVectorOps.
Context {T : Type}.

(** [SmallVectorSized<T, N>()]: room for [N] elements on the stack. *)
Definition SmallVectorSized (N : Z) : SmallVector T :=
  {| data_ := []; len := 0; capacity := N; onHeap := false |}.

(** [isSmall]. *)
Definition isSmall (v : SmallVector T) : bool := negb (onHeap v).

Definition size (v : SmallVector T) : Z := len v.

Definition empty (v : SmallVector T) : bool := bool_decide (len v = 0).

(** [front] and [back]; [None] when [ASSERT(len)] fails. *)
Definition front (v : SmallVector T) : option T :=
  if bool_decide (len v = 0) then None else data_ v !! 0%nat.

Definition back (v : SmallVector T) : option T :=
  if bool_decide (len v = 0) then None else data_ v !! Z.to_nat (len v - 1).

(** [operator[]]: no check; an index outside the constructed elements reads
    what is not an element ([None]). *)
Definition at_ (v : SmallVector T) (index : Z) : option T :=
  if bool_decide (0 <= index) then data_ v !! Z.to_nat index else None.

(** [clear]: the storage is kept. *)
Definition clear (v : SmallVector T) : SmallVector T :=
  {| data_ := []; len := 0; capacity := capacity v; onHeap := onHeap v |}.

(** [pop]; [None] when [ASSERT(len)] fails. *)
Definition pop (v : SmallVector T) : option (SmallVector T) :=
  if bool_decide (len v = 0) then None
  else Some {| data_ := take (Z.to_nat (len v - 1)) (data_ v); len := len v - 1;
               capacity := capacity v; onHeap := onHeap v |}.

(** [resize]: new heap storage of [capacity] elements that the [len]
    elements are moved to; [None] when they do not fit (the copy would write
    past the new storage). *)
Definition resize (v : SmallVector T) : option (SmallVector T) :=
  if bool_decide (len v <= capacity v) then
    Some {| data_ := data_ v; len := len v; capacity := capacity v; onHeap := true |}
  else None.

Definition setCapacity (v : SmallVector T) (n : Z) : SmallVector T :=
  {| data_ := data_ v; len := len v; capacity := n; onHeap := onHeap v |}.

(** [amortizeCapacity]. *)
Definition amortizeCapacity (v : SmallVector T) : option (SmallVector T) :=
  if bool_decide (len v = capacity v) then
    let doubled := uint32 (capacity v * 2) in
    resize (setCapacity v (if bool_decide (doubled = 0) then 4 else doubled))
  else Some v.

(** [ensureSize]. *)
Definition ensureSize (v : SmallVector T) (size : Z) : option (SmallVector T) :=
  if bool_decide (size > capacity v) then resize (setCapacity v size) else Some v.

(** [append], and [emplace], which differs in how the element is built. *)
Definition append (v : SmallVector T) (item : T) : option (SmallVector T) :=
  v ← amortizeCapacity v;
  Some {| data_ := data_ v ++ [item]; len := uint32 (len v + 1);
          capacity := capacity v; onHeap := onHeap v |}.

(** [appendIterator]: every element of the range is written after the last
    one; [None] when that writes past the storage, which happens when the new
    length wraps around. *)
Definition appendIterator (v : SmallVector T) (items : list T) : option (SmallVector T) :=
  let count := uint32 (Z.of_nat (length items)) in
  let newLen := uint32 (len v + count) in
  v ← ensureSize v newLen;
  if bool_decide (len v + Z.of_nat (length items) <= capacity v) then
    Some {| data_ := data_ v ++ items; len := newLen;
            capacity := capacity v; onHeap := onHeap v |}
  else None.

(** [appendRange(begin, end)]: for a trivially copyable [T] the first
    [count] elements are copied in one block, otherwise it is
    [appendIterator]. *)
Definition appendRange (triviallyCopyable : bool) (v : SmallVector T) (items : list T)
  : option (SmallVector T) :=
  if triviallyCopyable then
    let count := uint32 (Z.of_nat (length items)) in
    let newLen := uint32 (len v + count) in
    v ← ensureSize v newLen;
    if bool_decide (len v + count <= capacity v) then
      Some {| data_ := data_ v ++ take (Z.to_nat count) items; len := newLen;
              capacity := capacity v; onHeap := onHeap v |}
    else None
  else appendIterator v items.

(** [reserve]; its argument is a 32-bit number. *)
Definition reserve (v : SmallVector T) (size : Z) : option (SmallVector T) :=
  ensureSize v (uint32 size).

(** [SmallVectorSized<T, N>(capacity)]. *)
Definition SmallVectorSized_reserved (N capacity : Z) : option (SmallVector T) :=
  reserve (SmallVectorSized N) capacity.

(** [copy]: the elements, in new storage of the allocator. *)
Definition copy (v : SmallVector T) : list T :=
  if bool_decide (len v = 0) then [] else data_ v.

(** [SmallVectorSized(SmallVector<T>&& other)]: the new vector and what is
    left of [other]. *)
Definition moveFrom (triviallyCopyable : bool) (N : Z) (other : SmallVector T)
  : option (SmallVector T * SmallVector T) :=
  if isSmall other then
    v ← appendRange triviallyCopyable (SmallVectorSized N) (data_ other);
    Some (v, other)
  else
    Some ({| data_ := data_ other; len := len other; capacity := capacity other;
             onHeap := true |},
          {| data_ := []; len := 0; capacity := 0; onHeap := true |}).

(** The operations that change a vector, for statements about every sequence
    of them. *)
Inductive VectorOp :=
| OpAppend (item : T)
| OpAppendRange (triviallyCopyable : bool) (items : list T)
| OpPop
| OpClear
| OpReserve (size : Z).

Definition applyOp (v : SmallVector T) (op : VectorOp) : option (SmallVector T) :=
  match op with
  | OpAppend item => append v item
  | OpAppendRange triviallyCopyable items => appendRange triviallyCopyable v items
  | OpPop => pop v
  | OpClear => Some (clear v)
  | OpReserve size => reserve v size
  end.

Fixpoint applyOps (v : SmallVector T) (ops : list VectorOp) : option (SmallVector T) :=
  match ops with
  | [] => Some v
  | op :: ops => v ← applyOp v op; applyOps v ops
  end.

(** What the operations rely on: the counter is the number of elements and
    the elements fit the storage, whose size is a 32-bit number. *)
Definition vectorOk (v : SmallVector T) : Prop :=
  len v = Z.of_nat (length (data_ v)) /\ len v <= capacity v < 2 ^ 32.

End SmallVectorOps.

(** ** The lexer: construction, and the text a call covers *)

(** [Lexer::Lexer].  [None] is a failed [ASSERT]: an empty buffer, or one
    that does not end in NUL.  A byte order mark at the start is reported and
    stepped over.  [onNewLine0] and [errorCount0] stand for the initial
    values of the two members the constructor does not set; the marker,
    which it sets to the null pointer, is offset 0 here and is set by [mark]
    before it is read. *)
Definition Lexer_new (onNewLine0 : bool) (errorCount0 : nat) (bufferId : nat)
    (source : list ascii) (diagnostics : list Diagnostic) (maxErrors : nat)
  : option Lexer :=
  let lx := {| source := source; bufferId := bufferId; sourceBuffer := 0; marker := 0;
               onNewLine := onNewLine0; errorCount := errorCount0;
               diagnostics := diagnostics; maxErrors := maxErrors |} in
  let count := length source in
  if bool_decide (count = 0)%nat then None
  else if negb (bool_decide (last source = Some NUL)) then None
  else
    match source with
    | b0 :: b1 :: rest =>
        if (bool_decide (b0 = "255"%char) && bool_decide (b1 = "254"%char)) ||
           (bool_decide (b0 = "254"%char) && bool_decide (b1 = "255"%char))
        then Some (advance 2 (lexerAddError UnicodeBOM 0 lx))
        else
          match rest with
          | b2 :: _ =>
              if bool_decide (b0 = "239"%char) && bool_decide (b1 = "187"%char) &&
                 bool_decide (b2 = "191"%char)
              then Some (advance 3 (lexerAddError UnicodeBOM 0 lx))
              else Some lx
          | [] => Some lx
          end
    | _ => Some lx
    end.

(** What the constructor's assertions give every call: the buffer ends in
    NUL and the read pointer is inside it. *)
Definition inBuffer (lx : Lexer) : Prop :=
  last (source lx) = Some NUL /\ (sourceBuffer lx < sourceEnd lx)%nat.

(** The text of the buffer from offset [from] up to, not including, [to]. *)
Definition sourceText (lx : Lexer) (from to : nat) : list ascii :=
  take (to - from) (drop from (source lx)).

(** The text a list of trivia covers. *)
Definition triviaTexts (ts : list Trivia) : list ascii :=
  concat (triviaText <$> ts).

(** [lx'] is [lx] after some scanning: the same buffer, the same marker, a
    read pointer that did not move back, and the diagnostics of [lx] with
    more after them. *)
Definition scannedFrom (lx lx' : Lexer) : Prop :=
  source lx' = source lx /\ bufferId lx' = bufferId lx /\ marker lx' = marker lx /\
  maxErrors lx' = maxErrors lx /\ (sourceBuffer lx <= sourceBuffer lx')%nat /\
  exists added, diagnostics lx' = diagnostics lx ++ added.

(** [lx'] is [lx] after some lexing: as [scannedFrom], but the marker may
    have been set again. *)
Definition lexedFrom (lx lx' : Lexer) : Prop :=
  source lx' = source lx /\ bufferId lx' = bufferId lx /\
  maxErrors lx' = maxErrors lx /\ (sourceBuffer lx <= sourceBuffer lx')%nat /\
  exists added, diagnostics lx' = diagnostics lx ++ added.

(** The characters that start trivia wherever they stand. *)
Definition isBlank (c : ascii) : bool := isHorizontalWhitespace c || isNewline c.

(** What the lexer needs of a sub-lexer it hands over to after the first
    character of the token was read, on a buffer that ends in NUL with the
    read pointer inside it: when the sub-lexer returns, it has only read on
    (same buffer, same marker, diagnostics added at the end), the read
    pointer is still inside the buffer, and the token is not the end of the
    file. *)
Definition SubLexerOk (f : SubLexer) : Prop :=
  forall info lx kind info' lx',
    last (source lx) = Some NUL ->
    (marker lx < sourceBuffer lx < sourceEnd lx)%nat ->
    f info lx = Some (kind, info', lx') ->
    scannedFrom lx lx' /\ (sourceBuffer lx' < sourceEnd lx)%nat /\
    kind <> TokenKind.EndOfFile.

(** The characters of the [case] labels before [lexNumericLiteral]. *)
Definition startsNumber (c : ascii) : bool :=
  bool_decide (c ∈ ["0"; "1"; "2"; "3"; "4"; "5"; "6"; "7"; "8"; "9"]%char).

(** The same for the sub-lexer of numbers, which is handed the lexer standing
    on the first digit, at the marker: it reads at least that digit. *)
Definition NumericLexerOk (f : SubLexer) : Prop :=
  forall info lx kind info' lx' c,
    last (source lx) = Some NUL -> marker lx = sourceBuffer lx ->
    peek lx = Some c -> startsNumber c = true ->
    f info lx = Some (kind, info', lx') ->
    scannedFrom lx lx' /\ (sourceBuffer lx < sourceBuffer lx' < sourceEnd lx)%nat /\
    kind <> TokenKind.EndOfFile.

(** For the tables [isASCII] and [utf8SeqBytes]: every character of the text
    outside ASCII is followed, before the final character of the text, by
    the bytes [utf8SeqBytes] counts for it. *)
Definition sequencesFit (isASCII : ascii -> bool) (utf8SeqBytes : ascii -> nat)
    (text : list ascii) : Prop :=
  forall p c, text !! p = Some c -> isASCII c = false ->
    (p + 1 + utf8SeqBytes c < length text)%nat.

(** What a case of [lexToken] gives after the first character of the token,
    which stands at the marker [start], was read. *)
Definition tokenScanned (start : nat) (lx : Lexer)
    (r : option (TokenKind.t * TokenInfo TokenExtra * Lexer)) : Prop :=
  match r with
  | None => True
  | Some (kind, _, lx') =>
      scannedFrom lx lx' /\ (start < sourceBuffer lx' < sourceEnd lx)%nat /\
      kind <> TokenKind.EndOfFile
  end.

(** The text a token stands for: its leading trivia and, unless it is the
    end of the file, its raw text. *)
Definition tokenText (tok : Token TokenExtra) : list ascii :=
  triviaTexts (trivia (tokenInfo tok)) ++
  (if bool_decide (tokenKind tok = TokenKind.EndOfFile) then []
   else rawText (tokenInfo tok)).

Section LexerRuns.
Variable lexStringLiteral : SubLexer.
Variable lexDollarSign : SubLexer.
Variable lexApostrophe : SubLexer.
Variable lexNumericLiteral : SubLexer.
Variable lexEscapeSequence : SubLexer.
Variable lexDirective : SubLexer.
Variable lexIdentifier : nat -> SubLexer.
Variable isASCII : ascii -> bool.
Variable utf8SeqBytes : ascii -> nat.

(** A run of [lex] calls, each in the mode and with the keyword version its
    caller asks for. *)
Fixpoint lexEach (calls : list (LexerMode.t * nat)) (lx : Lexer)
  : option (list (Token TokenExtra) * Lexer) :=
  match calls with
  | [] => Some ([], lx)
  | (mode, keywordVersion) :: calls =>
      '(tok, lx) ← lex lexStringLiteral lexDollarSign lexApostrophe lexNumericLiteral
                     lexEscapeSequence lexDirective lexIdentifier isASCII utf8SeqBytes
                     mode keywordVersion lx;
      '(toks, lx) ← lexEach calls lx;
      Some (tok :: toks, lx)
  end.

End LexerRuns.

(** ** String literals *)

Definition BEL : ascii := "007"%char.

Definition setExtra (info : TokenInfo TokenExtra) (e : TokenExtra) : TokenInfo TokenExtra :=
  {| trivia := trivia info; rawText := rawText info; location := location info;
     missing := missing info; extra := Some e |}.

(** [(char)charCode]. *)
Definition charOfCode (charCode : Z) : ascii :=
  ascii_of_nat (Z.to_nat (charCode mod 256)).

Section StringLiterals.

(** The digit tables of the lexer are declared outside the translated
    sources; they are parameters, and what is proved below holds for every
    choice of them. *)
Variable isOctalDigit isHexDigit : ascii -> bool.
Variable getDigitValue getHexDigitValue : ascii -> Z.

(** The [switch] of [lexStringLiteral] on the character [c] behind a
    backslash; [lx] is the lexer after both were read. *)
Definition lexStringEscape (c : ascii) (offset : nat) (stringBuffer : list ascii)
    (lx : Lexer) : option (list ascii * Lexer) :=
  if bool_decide (c = "n"%char) then Some (stringBuffer ++ [LF], lx)
  else if bool_decide (c = "t"%char) then Some (stringBuffer ++ [TAB], lx)
  else if bool_decide (c = "\"%char) then Some (stringBuffer ++ ["\"%char], lx)
  else if bool_decide (c = QUOTE) then Some (stringBuffer ++ [QUOTE], lx)
  else if bool_decide (c = "v"%char) then Some (stringBuffer ++ [VT], lx)
  else if bool_decide (c = "f"%char) then Some (stringBuffer ++ [FF], lx)
  else if bool_decide (c = "a"%char) then Some (stringBuffer ++ [BEL], lx)
  else if bool_decide (c = LF) then Some (stringBuffer, lx)
  else if bool_decide (c = CR) then
    '(_, lx) ← consume LF lx; Some (stringBuffer, lx)
  else if bool_decide (c ∈ ["0"; "1"; "2"; "3"; "4"; "5"; "6"; "7"]%char) then
    let charCode := uint32 (getDigitValue c) in
    c1 ← peek lx;
    if isOctalDigit c1 then
      let lx := advance 1 lx in
      let charCode := uint32 (charCode * 8 + getDigitValue c1) in
      c2 ← peek lx;
      if isOctalDigit c2 then
        let lx := advance 1 lx in
        let charCode := uint32 (charCode * 8 + getDigitValue c2) in
        if bool_decide (charCode > 255) then
          Some (stringBuffer, lexerAddError OctalEscapeCodeTooBig offset lx)
        else Some (stringBuffer ++ [charOfCode charCode], lx)
      else Some (stringBuffer ++ [charOfCode charCode], lx)
    else Some (stringBuffer ++ [charOfCode charCode], lx)
  else if bool_decide (c = "x"%char) then
    c1 ← peek lx;
    let lx := advance 1 lx in
    if negb (isHexDigit c1) then
      Some (stringBuffer ++ [c1], lexerAddError InvalidHexEscapeCode offset lx)
    else
      let charCode := uint32 (getHexDigitValue c1) in
      c2 ← peek lx;
      if isHexDigit c2 then
        Some (stringBuffer ++ [charOfCode (uint32 (charCode * 16 + getHexDigitValue c2))],
              advance 1 lx)
      else Some (stringBuffer ++ [charOfCode charCode], lx)
  else Some (stringBuffer ++ [c], lexerAddError UnknownEscapeCode offset lx).

(** The loop of [lexStringLiteral]; the string buffer is the list of the
    characters appended to it. *)
Fixpoint scanStringLiteral (fuel : nat) (stringBuffer : list ascii) (lx : Lexer)
  : option (list ascii * Lexer) :=
  match fuel with
  | O => None
  | S fuel =>
      let offset := currentOffset lx in
      c ← peek lx;
      if bool_decide (c = "\"%char) then
        let lx := advance 1 lx in
        c ← peek lx;
        let lx := advance 1 lx in
        '(stringBuffer, lx) ← lexStringEscape c offset stringBuffer lx;
        scanStringLiteral fuel stringBuffer lx
      else if bool_decide (c = QUOTE) then Some (stringBuffer, advance 1 lx)
      else if isNewline c then
        Some (stringBuffer, lexerAddError ExpectedClosingQuote offset lx)
      else if bool_decide (c = NUL) then
        if reallyAtEnd lx then
          Some (stringBuffer, lexerAddError ExpectedClosingQuote offset lx)
        else scanStringLiteral fuel stringBuffer
               (advance 1 (lexerAddError EmbeddedNull offset lx))
      else scanStringLiteral fuel (stringBuffer ++ [c]) (advance 1 lx)
  end.

(** [Lexer::lexStringLiteral], with the token kind its caller returns. *)
Definition lexStringLiteral : SubLexer :=
  λ info lx,
    '(stringBuffer, lx) ← scanStringLiteral (lexerFuel lx) [] lx;
    Some (TokenKind.StringLiteral, setExtra info (ExtraText stringBuffer), lx).

End StringLiterals.

(** A piece of the text of a string literal: a character that stands for
    itself, or a backslash and the character behind it. *)
Inductive StringPiece :=
| PlainChar (c : ascii)
| EscapedChar (c : ascii).

(** The escape sequences that need no digit table: what the character behind
    the backslash stands for (nothing, for an escaped line feed). *)
Definition simpleEscape (c : ascii) : option (list ascii) :=
  if bool_decide (c = "n"%char) then Some [LF]
  else if bool_decide (c = "t"%char) then Some [TAB]
  else if bool_decide (c = "\"%char) then Some ["\"%char]
  else if bool_decide (c = QUOTE) then Some [QUOTE]
  else if bool_decide (c = "v"%char) then Some [VT]
  else if bool_decide (c = "f"%char) then Some [FF]
  else if bool_decide (c = "a"%char) then Some [BEL]
  else if bool_decide (c = LF) then Some []
  else None.

Definition pieceSource (p : StringPiece) : list ascii :=
  match p with
  | PlainChar c => [c]
  | EscapedChar c => ["\"%char; c]
  end.

Definition pieceValue (p : StringPiece) : list ascii :=
  match p with
  | PlainChar c => [c]
  | EscapedChar c => default [] (simpleEscape c)
  end.

Definition validPiece (p : StringPiece) : bool :=
  match p with
  | PlainChar c =>
      negb (bool_decide (c = "\"%char)) && negb (bool_decide (c = QUOTE)) &&
      negb (isNewline c) && negb (bool_decide (c = NUL))
  | EscapedChar c => bool_decide (is_Some (simpleEscape c))
  end.

(** ** Sub-lexers (lexing/Lexer.cpp) *)

(** *** Real values *)

Definition MaxMantissaDigits : Z := 18.

Definition uint64 (z : Z) : Z := z mod 2 ^ 64.

(** [int(x)] for an unsigned 64-bit [x]: its low 32 bits, read as a signed
    number. *)
Definition toInt (x : Z) : Z := (x + 2 ^ 31) mod 2 ^ 32 - 2 ^ 31.

(** The result of an [int] operation; [None] when it is outside the range of
    [int] (a signed overflow, which is undefined). *)
Definition asInt (z : Z) : option Z :=
  if bool_decide (- 2 ^ 31 <= z < 2 ^ 31) then Some z else None.

Section RealValues.
Import PrimFloat.

(** [double(value)] for an unsigned 64-bit [value], rounded to the nearest
    double: a value of 63 bits is converted as it is; a larger one is halved
    with its lowest bit kept as a sticky bit, converted and doubled, which
    rounds the same way. *)
Definition toDouble (value : Z) : float :=
  if bool_decide (value < 2 ^ 63) then of_uint63 (Uint63.of_Z value)
  else mul 2 (of_uint63 (Uint63.of_Z (Z.lor (Z.shiftr value 1) (Z.land value 1)))).

Definition powersOf10 : list float :=
  [10; 100; 1.0e4; 1.0e8; 1.0e16; 1.0e32; 1.0e64; 1.0e128; 1.0e256]%float.

(** The loop of [composeDouble]: [d] walks [powersOf10] while [exp] is
    shifted right; [None] when [d] leaves the table. *)
Fixpoint composeLoop (d : list float) (exp : Z) (dblExp : float) : option float :=
  if bool_decide (exp = 0) then Some dblExp
  else
    match d with
    | [] => None
    | power :: d =>
        composeLoop d (Z.shiftr exp 1) (if Z.testbit exp 0 then mul dblExp power else dblExp)
    end.

(** [composeDouble]: the result and whether it is finite. *)
Definition composeDouble (fraction : float) (exp : Z) : option (float * bool) :=
  let neg := bool_decide (exp < 0) in
  exp ← (if neg then asInt (- exp) else Some exp);
  let exp := if bool_decide (exp > 511) then 511 else exp in
  dblExp ← composeLoop powersOf10 exp 1%float;
  let result := if neg then div fraction dblExp else mul fraction dblExp in
  Some (result, is_finite result).

(** [computeRealValue]. *)
Definition computeRealValue (value decPoint digits expValue : Z) (negative : bool)
  : option float :=
  fracExp ← asInt (decPoint - Z.min digits MaxMantissaDigits);
  exp ← (if negative then asInt (fracExp - toInt expValue)
         else asInt (fracExp + toInt expValue));
  composed ← composeDouble (toDouble value) exp;
  Some composed.1.

End RealValues.

(** *** What the sub-lexers use from outside the translated sources *)

Inductive TimeUnit :=
| Seconds | Milliseconds | Microseconds | Nanoseconds | Picoseconds | Femtoseconds.

(** [logic_t]: a known bit, [x] or [z]. *)
Inductive logic_t :=
| logic_value (digit : Z)
| logic_x
| logic_z.

(** The character tables of text/CharInfo.h, the keyword and directive
    tables of the parser, the enumerators and the setters of [Token::Info]
    are declared outside the translated sources.  The lexer is parametric in
    them; what a theorem needs of them it states. *)
Class LexerTables := {
  isASCII : ascii -> bool;
  utf8SeqBytes : ascii -> nat;
  isAlphaNumeric : ascii -> bool;
  isDecimalDigit : ascii -> bool;
  isOctalDigit : ascii -> bool;
  isHexDigit : ascii -> bool;
  isWhitespace : ascii -> bool;
  isPrintable : ascii -> bool;
  getDigitValue : ascii -> Z;
  getHexDigitValue : ascii -> Z;
  (** [literalBaseFromChar(c, base)]: the base, when [c] names one. *)
  literalBaseFromChar : ascii -> option nat;
  (** [getKeywordTable(keywordVersion)->lookup(text, kind)]. *)
  getKeywordTable : nat -> list ascii -> option TokenKind.t;
  getSystemKeywordKind : list ascii -> TokenKind.t;
  getDirectiveKind : list ascii -> nat;
  SyntaxKind_Unknown : nat;
  SyntaxKind_IncludeDirective : nat;
  IdentifierType_Normal : nat;
  IdentifierType_Escaped : nat;
  IdentifierType_System : nat;
  setReal : TokenInfo TokenExtra -> PrimFloat.float -> TokenInfo TokenExtra;
  (** [setInt(alloc, SVInt(bits, value, isSigned))]. *)
  setInt : TokenInfo TokenExtra -> Z -> Z -> bool -> TokenInfo TokenExtra;
  setBit : TokenInfo TokenExtra -> logic_t -> TokenInfo TokenExtra;
  setNumFlags : TokenInfo TokenExtra -> nat -> bool -> TokenInfo TokenExtra;
  setTimeUnit : TokenInfo TokenExtra -> TimeUnit -> TokenInfo TokenExtra
}.

Section SubLexers.
Context {tables : LexerTables}.

(** [Lexer::scanIdentifier]. *)
Fixpoint scanIdentifier (fuel : nat) (lx : Lexer) : option Lexer :=
  match fuel with
  | O => None
  | S fuel =>
      c ← peek lx;
      if isAlphaNumeric c || bool_decide (c = "_"%char) || bool_decide (c = "$"%char)
      then scanIdentifier fuel (advance 1 lx)
      else Some lx
  end.

(** The identifier case of [lexToken]. *)
Definition lexIdentifier (keywordVersion : nat) : SubLexer :=
  λ info lx,
    lx ← scanIdentifier (lexerFuel lx) lx;
    match getKeywordTable keywordVersion (lexeme lx) with
    | Some kind => Some (kind, info, lx)
    | None =>
        Some (TokenKind.Identifier,
              setExtra info (ExtraIdentifierType IdentifierType_Normal), lx)
    end.

(** The loop of [lexEscapeSequence]; [c] is the character under the read
    pointer. *)
Fixpoint scanEscapedIdentifier (fuel : nat) (c : ascii) (lx : Lexer) : option Lexer :=
  match fuel with
  | O => None
  | S fuel =>
      if isPrintable c then
        let lx := advance 1 lx in
        c ← peek lx;
        if isWhitespace c then Some lx else scanEscapedIdentifier fuel c lx
      else Some lx
  end.

(** [Lexer::lexEscapeSequence]. *)
Definition lexEscapeSequence : SubLexer :=
  λ info lx,
    c ← peek lx;
    if isWhitespace c || bool_decide (c = NUL) then
      Some (TokenKind.Unknown, info, lexerAddError EscapedWhitespace (currentOffset lx) lx)
    else
      lx ← scanEscapedIdentifier (lexerFuel lx) c lx;
      Some (TokenKind.Identifier,
            setExtra info (ExtraIdentifierType IdentifierType_Escaped), lx).

(** [Lexer::lexDollarSign]. *)
Definition lexDollarSign : SubLexer :=
  λ info lx,
    lx ← scanIdentifier (lexerFuel lx) lx;
    if bool_decide (lexemeLength lx = 1%nat) then Some (TokenKind.Dollar, info, lx)
    else
      let kind := getSystemKeywordKind (lexeme lx) in
      if negb (bool_decide (kind = TokenKind.Unknown)) then Some (kind, info, lx)
      else
        Some (TokenKind.Identifier,
              setExtra info (ExtraIdentifierType IdentifierType_System), lx).

(** [Lexer::lexDirective]; [None] when [substr(1)] is asked of an empty
    lexeme. *)
Definition lexDirective : SubLexer :=
  λ info lx,
    let startingOffset := currentOffset lx in
    lx ← scanIdentifier (lexerFuel lx) lx;
    if bool_decide (lexemeLength lx = 1%nat) then
      Some (TokenKind.Directive, setExtra info (ExtraSyntaxKind SyntaxKind_Unknown),
            lexerAddError MisplacedDirectiveChar startingOffset lx)
    else
      match lexeme lx with
      | [] => None
      | _ :: name =>
          let directive := getDirectiveKind name in
          let info := setExtra info (ExtraSyntaxKind directive) in
          if negb (onNewLine lx) && bool_decide (directive = SyntaxKind_IncludeDirective)
          then Some (TokenKind.Directive, info,
                     lexerAddError IncludeNotFirstOnLine startingOffset lx)
          else Some (TokenKind.Directive, info, lx)
      end.

(** [Lexer::scanUnsignedNumber]: the value, the number of digits and the
    lexer behind them. *)
Fixpoint scanUnsignedNumber (fuel : nat) (value digits : Z) (lx : Lexer)
  : option (Z * Z * Lexer) :=
  match fuel with
  | O => None
  | S fuel =>
      c ← peek lx;
      if bool_decide (c = "_"%char) then scanUnsignedNumber fuel value digits (advance 1 lx)
      else if negb (isDecimalDigit c) then Some (value, digits, lx)
      else
        let value := if bool_decide (digits < MaxMantissaDigits)
                     then uint64 (value * 10 + getDigitValue c) else value in
        scanUnsignedNumber fuel value (digits + 1) (advance 1 lx)
  end.

(** [Lexer::scanExponent]: whether an exponent was found, its value, its
    sign and the lexer behind it. *)
Definition scanExponent (lx : Lexer) : option (bool * Z * bool * Lexer) :=
  c ← peekAt 1 lx;
  '(negative, index, c) ←
    (if bool_decide (c = "+"%char) || bool_decide (c = "-"%char) then
       c' ← peekAt 2 lx; Some (bool_decide (c = "-"%char), 2%nat, c')
     else Some (false, 1%nat, c));
  if negb (isDecimalDigit c) then Some (false, 0, negative, lx)
  else
    '(value, _, lx) ← scanUnsignedNumber (lexerFuel lx) 0 0 (advance index lx);
    Some (true, value, negative, lx).

(** [Lexer::lexIntegerBase]. *)
Definition lexIntegerBase (info : TokenInfo TokenExtra) (isSigned : bool) (lx : Lexer)
  : option (bool * TokenInfo TokenExtra * Lexer) :=
  c ← peek lx;
  match literalBaseFromChar c with
  | Some base => Some (true, setNumFlags info base isSigned, advance 1 lx)
  | None => Some (false, info, lx)
  end.

(** [Lexer::lexApostrophe]. *)
Definition lexApostrophe : SubLexer :=
  λ info lx,
    c ← peek lx;
    if bool_decide (c ∈ ["0"; "1"]%char) then
      Some (TokenKind.UnbasedUnsizedLiteral,
            setBit info (logic_value (getDigitValue c)), advance 1 lx)
    else if bool_decide (c ∈ ["x"; "X"]%char) then
      Some (TokenKind.UnbasedUnsizedLiteral, setBit info logic_x, advance 1 lx)
    else if bool_decide (c ∈ ["Z"; "z"; "?"]%char) then
      Some (TokenKind.UnbasedUnsizedLiteral, setBit info logic_z, advance 1 lx)
    else if bool_decide (c ∈ ["s"; "S"]%char) then
      '(found, info, lx) ← lexIntegerBase info true (advance 1 lx);
      if (found : bool) then Some (TokenKind.IntegerBase, info, lx)
      else Some (TokenKind.IntegerBase, info,
                 lexerAddError ExpectedIntegerBaseAfterSigned (currentOffset lx) lx)
    else
      '(found, info, lx) ← lexIntegerBase info false lx;
      if (found : bool) then Some (TokenKind.IntegerBase, info, lx)
      else Some (TokenKind.Apostrophe, info, lx).

(** [Lexer::lexTimeLiteral]. *)
Definition lexTimeLiteral (info : TokenInfo TokenExtra) (lx : Lexer)
  : option (bool * TokenInfo TokenExtra * Lexer) :=
  c ← peek lx;
  let unitCase (unit : TimeUnit) :=
    c1 ← peekAt 1 lx;
    if bool_decide (c1 = "s"%char) then Some (true, setTimeUnit info unit, advance 2 lx)
    else Some (false, info, lx) in
  if bool_decide (c = "s"%char) then Some (true, setTimeUnit info Seconds, advance 1 lx)
  else if bool_decide (c = "m"%char) then unitCase Milliseconds
  else if bool_decide (c = "u"%char) then unitCase Microseconds
  else if bool_decide (c = "n"%char) then unitCase Nanoseconds
  else if bool_decide (c = "p"%char) then unitCase Picoseconds
  else if bool_decide (c = "f"%char) then unitCase Femtoseconds
  else Some (false, info, lx).

Definition OneStepText : list ascii := ["1"; "s"; "t"; "e"; "p"]%char.

(** The first loop of [lexNumericLiteral]: whether [text] stands at offset
    [i] from the read pointer; its characters are read one by one, up to the
    first that differs. *)
Fixpoint matchesText (text : list ascii) (i : nat) (lx : Lexer) : option bool :=
  match text with
  | [] => Some true
  | expected :: text =>
      c ← peekAt i lx;
      if bool_decide (c = expected) then matchesText text (S i) lx else Some false
  end.

(** [while (peek() == '0') advance();] *)
Fixpoint scanLeadingZeros (fuel : nat) (lx : Lexer) : option Lexer :=
  match fuel with
  | O => None
  | S fuel =>
      c ← peek lx;
      if bool_decide (c = "0"%char) then scanLeadingZeros fuel (advance 1 lx)
      else Some lx
  end.

(** [Lexer::lexNumericLiteral]; [None] also when the exponent arithmetic of
    [computeRealValue] overflows. *)
Definition lexNumericLiteral : SubLexer :=
  λ info lx,
    oneStep ← matchesText OneStepText 0 lx;
    if (oneStep : bool) then Some (TokenKind.OneStep, info, advance 5 lx)
    else
      lx ← scanLeadingZeros (lexerFuel lx) lx;
      '(value, digits, lx) ← scanUnsignedNumber (lexerFuel lx) 0 0 lx;
      let integerOrTime (lx : Lexer) :=
        '(isTime, info, lx) ← lexTimeLiteral info lx;
        if (isTime : bool)
        then Some (TokenKind.TimeLiteral, setReal info (toDouble value), lx)
        else Some (TokenKind.IntegerLiteral, setInt info 32 value true, lx) in
      c ← peek lx;
      if bool_decide (c = "."%char) then
        let decPoint := digits in
        let lx := advance 1 lx in
        c ← peek lx;
        let lx := if negb (isDecimalDigit c)
                  then lexerAddError MissingFractionalDigits (currentOffset lx) lx
                  else lx in
        '(value, digits, lx) ← scanUnsignedNumber (lexerFuel lx) value digits lx;
        c ← peek lx;
        if bool_decide (c = "e"%char) || bool_decide (c = "E"%char) then
          let startOfExponent := (currentOffset lx + 1)%nat in
          '(found, exp, neg, lx) ← scanExponent lx;
          let lx := if negb found
                    then lexerAddError MissingExponentDigits startOfExponent lx
                    else lx in
          real ← computeRealValue value decPoint digits exp neg;
          Some (TokenKind.RealLiteral, setReal info real, lx)
        else
          '(isTime, info, lx) ← lexTimeLiteral info lx;
          real ← computeRealValue value decPoint digits 0 false;
          Some (if (isTime : bool) then TokenKind.TimeLiteral else TokenKind.RealLiteral,
                setReal info real, lx)
      else if bool_decide (c = "e"%char) || bool_decide (c = "E"%char) then
        '(found, exp, neg, lx) ← scanExponent lx;
        if (found : bool) then
          real ← computeRealValue value digits digits exp neg;
          Some (TokenKind.RealLiteral, setReal info real, lx)
        else integerOrTime lx
      else integerOrTime lx.

(** [Lexer::lex] with the sub-lexers of the source in their places, and runs
    of it. *)
Definition Lexer_lex : LexerMode.t -> nat -> Lexer -> option (Token TokenExtra * Lexer) :=
  lex (lexStringLiteral isOctalDigit isHexDigit getDigitValue getHexDigitValue)
    lexDollarSign lexApostrophe lexNumericLiteral lexEscapeSequence lexDirective
    lexIdentifier isASCII utf8SeqBytes.

Definition Lexer_lexEach : list (LexerMode.t * nat) -> Lexer
    -> option (list (Token TokenExtra) * Lexer) :=
  lexEach (lexStringLiteral isOctalDigit isHexDigit getDigitValue getHexDigitValue)
    lexDollarSign lexApostrophe lexNumericLiteral lexEscapeSequence lexDirective
    lexIdentifier isASCII utf8SeqBytes.

Definition Lexer_lexMany : nat -> LexerMode.t -> nat -> Lexer
    -> option (list (Token TokenExtra) * Lexer) :=
  lexMany (lexStringLiteral isOctalDigit isHexDigit getDigitValue getHexDigitValue)
    lexDollarSign lexApostrophe lexNumericLiteral lexEscapeSequence lexDirective
    lexIdentifier isASCII utf8SeqBytes.

End SubLexers.

(** *** What scanning keeps *)

(** [lx'] is [lx] after some scanning, with the read pointer inside the
    buffer. *)
Definition scannedIn (lx lx' : Lexer) : Prop :=
  scannedFrom lx lx' /\ (sourceBuffer lx' < sourceEnd lx')%nat.

(** The read pointer has moved on from [start] and is inside the buffer. *)
Definition movedOn (start : nat) (lx0 lx : Lexer) : Prop :=
  scannedFrom lx0 lx /\ (start < sourceBuffer lx < sourceEnd lx)%nat.

(** ** Looking definitions up *)

(** [Compilation::getDefinition].  [chain] is the scope the lookup starts in
    followed by its parents, as [Scope::getParent] gives them; [None] when
    the chain ends before a root scope is met (the null parent is
    dereferenced), [Some None] the null result. *)
Fixpoint getDefinition (c : Compilation) (lookupName : string) (chain : list Scope)
  : option (option DefinitionEntry) :=
  match chain with
  | [] => None
  | searchScope :: parents =>
      match definitionMap c !! (lookupName, scopeAddr searchScope) with
      | Some definition => Some (Some definition)
      | None =>
          match scopeKind searchScope with
          | RootKind => Some None
          | _ => getDefinition c lookupName parents
          end
      end
  end.

(** The root scope. *)
Definition rootScope : Scope := {| scopeAddr := rootAddr; scopeKind := RootKind |}.

(** The names of the module, interface and program declarations that stand
    directly among [members]. *)
Definition declaresLocally (members : list MemberSyntax) (name : string) : Prop :=
  exists kind header nested,
    ModuleDeclarationSyntax kind header nested ∈ members /\ headerName header = name.

(** The diagnostic [getParamDecls] reports for a parameter, read back from
    the declaration it made. *)
Definition missingInitializer (p : ParameterDecl) : option Diagnostic :=
  match paramInitializer p with
  | Some _ => None
  | None =>
      if negb (paramIsPort p) then
        Some {| diagCode := BodyParamNoInitializer; diagLocation := paramLocation p |}
      else if paramIsLocal p then
        Some {| diagCode := LocalParamNoInitializer; diagLocation := paramLocation p |}
      else None
  end.

(** The key [addDefinition] files a definition under. *)
Definition definitionKey (name : string) (scope : Scope) : string * nat :=
  (name, match scopeKind scope with
         | CompilationUnitKind => rootAddr
         | _ => scopeAddr scope
         end).

(** [IntegralFlags::Signed] alone. *)
Definition SignedFlag : IntegralFlags :=
  {| Signed := true; FourState := false; RegFlag := false |}.

(** The compilation with its list of diagnostics replaced. *)
Definition setDiags (c : Compilation) (ds : list Diagnostic) : Compilation :=
  {| nextAddr := nextAddr c;
     vectorTypeCache := vectorTypeCache c;
     diags := ds;
     finalized := finalized c;
     sourceManager := sourceManager c;
     definitionMap := definitionMap c;
     instantiatedNames := instantiatedNames c;
     compilationUnits := compilationUnits c;
     syntaxTrees := syntaxTrees c;
     root := root c;
     forcedDiagnostics := forcedDiagnostics c |}.

(** The members [addSyntaxTree] walks: those of a compilation unit, or the
    single node of a tree whose root is something else. *)
Definition treeMembers (tree : SyntaxTree) : list MemberSyntax :=
  match treeRoot tree with
  | CompilationUnitSyntax members => members
  | SingleNode node => [node]
  end.

(** The source manager every tree of [trees] is compared with when the trees
    are added to [c]: the one the compilation has, or else that of the first
    tree. *)
Definition firstManager (c : Compilation) (trees : list SyntaxTree) : option nat :=
  match sourceManager c with
  | Some manager => Some manager
  | None => treeSourceManager <$> head trees
  end.

(** ** Concrete parameters and inputs *)

(** A value of [SVInt::BITWIDTH_BITS]: the low 24 bits of the cache key hold
    the width. *)
Definition svint24 : SVIntConstants := {| BITWIDTH_BITS := 24 |}.

(** Flags that name no scalar type: Reg without FourState. *)
Definition regOnlyFlags : IntegralFlags :=
  {| Signed := false; FourState := false; RegFlag := true |}.

(** The unsigned two-state vector [bit [w-1:0]] allocated at the address
    [a]. *)
Definition bitVector (a : nat) (w : Z) : TypeSymbol :=
  PackedArrayType a getBitType {| rangeLeft := w - 1; rangeRight := 0 |}.

Definition noLocation : SourceLocation := {| locBuffer := 0; locOffset := 0 |}.

(** A bind context in the root scope with no flag set. *)
Definition rootContext : BindContext :=
  {| contextScope := {| scopeAddr := rootAddr; scopeKind := RootKind |};
     lookupLocation := 0;
     flags := BindFlags_None |}.

(** A [resetFlags] that treats no flag as sticky: the context gets the extra
    flags. *)
Definition replaceFlags (ctx : BindContext) (extraFlags : BindFlags) : BindContext :=
  {| contextScope := contextScope ctx; lookupLocation := lookupLocation ctx;
     flags := extraFlags |}.

(** The integer literal [n] as [IntegerLiteral::fromSyntax] binds it: of type
    [int], with its value as the folded constant. *)
Definition integerLiteral (n : nat) : Expression :=
  {| kind := IntegerLiteral; type := getIntType;
     constant := Some (IntegerValue {| svBitWidth := 32; svSigned := true;
                                       svBits := Z.of_nat n; svHasUnknown := false |});
     sourceRange := noRange; operands := []; conversionKind := None |}.

(** Two of the other cases of [Expression::create]: the node 0 is a data type,
    bound by [DataTypeExpression::fromSyntax], which reports ExpectedExpression
    and gives a bad expression unless the context allows a data type (the
    lookup of the type is outside the translated sources); the node [n + 1]
    is the integer literal [n]. *)
Definition literalOrDataType (c : Compilation) (node : nat) (context : BindContext)
  : option (Expression * Compilation) :=
  match node with
  | O =>
      if negb (AllowDataType (flags context))
      then Some (badExpr None, addError c ExpectedExpression (rangeStart noRange))
      else None
  | S n => Some (integerLiteral n, c)
  end.

(** Modelled from the spec: [isAssignmentCompatible] and [isCastCompatible]
    between numeric types ("numeric to numeric"; cast compatibility is a
    "superset of assignment compatibility"). *)
Definition numericCompatible (lhs rhs : TypeSymbol) : bool :=
  isNumeric lhs && isNumeric rhs.

(** Modelled from the spec: context-determined propagation to a type:
    "subexpressions whose type is context-determined are widened by inserting
    an implicit conversion node". *)
Definition widenTo (c : Compilation) (e : Expression) (t : TypeSymbol)
  : option (Expression * Compilation) :=
  Some (if bool_decide (getBitWidth (type e) < getBitWidth t)
        then convert IntExtension t e else e, c).

(** The compilation after [getType] made [bit [7:0]] and [bit [15:0]]. *)
Definition vectorCompilation : Compilation :=
  getTypeCalls (svint := svint24) newCompilation [(8, NoFlags); (16, NoFlags)].

(** A 16-bit unsigned named value. *)
Definition value16 : Expression :=
  {| kind := NamedValue; type := bitVector 2 16; constant := None;
     sourceRange := noRange; operands := []; conversionKind := None |}.

(** Sub-lexers for buffers without strings, names, numbers, escapes and
    directives: those cases do not occur. *)
Definition noSubLexer : SubLexer := λ _ _, None.

(** Character tables for the runs: the characters below 128 are ASCII, and
    a character that is not is followed by one more byte. *)
Definition isASCII7 (c : ascii) : bool := Nat.ltb (nat_of_ascii c) 128.

Definition oneMoreByte (c : ascii) : nat := 1.

Definition punctuationLex : LexerMode.t -> nat -> Lexer -> option (Token TokenExtra * Lexer) :=
  lex noSubLexer noSubLexer noSubLexer noSubLexer noSubLexer noSubLexer
    (λ _, noSubLexer) isASCII7 oneMoreByte.

(** A lexer over the buffer [text] with its read pointer at [position],
    reporting to a diagnostics collection that holds [reported] already. *)
Definition lexerAt (text : list ascii) (position : nat) (reported : list Diagnostic)
    (maxErrors : nat) : Lexer :=
  {| source := text; bufferId := 1; sourceBuffer := position; marker := 0;
     onNewLine := false; errorCount := 0; diagnostics := reported;
     maxErrors := maxErrors |}.

Definition earlierError : Diagnostic :=
  {| diagCode := NonPrintableChar; diagLocation := noLocation |}.

(** A module declaration without parameters. *)
Definition moduleSyntax (name : string) (members : list MemberSyntax) : MemberSyntax :=
  ModuleDeclarationSyntax ModuleDeclaration
    {| headerName := name; headerNameLocation := noLocation; headerParameters := None |}
    members.

(** [module top; child c(); endmodule  module alpha; endmodule
     module child; endmodule] *)
Definition threeModules : SyntaxTree :=
  {| treeRoot :=
       CompilationUnitSyntax
         [moduleSyntax "top" [HierarchyInstantiation "child"];
          moduleSyntax "alpha" [];
          moduleSyntax "child" []];
     treeSourceManager := 0;
     treeDiagnostics := [] |}.

(** The compilation those three modules were added to. *)
Definition threeModulesCompilation : Compilation :=
  match addSyntaxTrees newCompilation [threeModules] with
  | Some c => c
  | None => newCompilation
  end.


(** Bound expressions for the runs: the variables [a : bit [7:0]],
    [b : bit [15:0]], [l : logic] and [s : string], the real literal, a data
    type where none is allowed, and the integer literals. *)
Definition namedValue (t : TypeSymbol) : Expression := node NamedValue t noRange [].

Definition realLiteral : Expression := node RealLiteral getRealType noRange [].

Definition sampleExpressions (c : Compilation) (nodeId : nat) (context : BindContext)
  : option (Expression * Compilation) :=
  match nodeId with
  | 0%nat => Some (namedValue (bitVector 1 8), c)
  | 1%nat => Some (namedValue (bitVector 2 16), c)
  | 2%nat => Some (namedValue getLogicType, c)
  | 3%nat => Some (realLiteral, c)
  | 4%nat => Some (namedValue StringType, c)
  | 5%nat => Some (badExpr None, addError c ExpectedExpression (rangeStart noRange))
  | S (S (S (S (S (S n))))) => Some (integerLiteral n, c)
  end.

Definition sampleBinder : SubBinder :=
  create (svint := svint24) replaceFlags sampleExpressions.

Definition operatorLocation : SourceLocation := {| locBuffer := 1; locOffset := 7 |}.

(** A vector of two stack elements that spills, shrinks and grows again. *)
Definition sampleOps : list (VectorOp (T := Z)) :=
  [OpAppend 1; OpAppend 2; OpAppend 3; OpPop; OpClear; OpAppendRange true [4; 5]; OpReserve 9].

(** A vector on the heap: three elements in storage of four. *)
Definition spilledVector : SmallVector Z :=
  {| data_ := [1; 2; 3]; len := 3; capacity := 4; onHeap := true |}.

(** A full vector on the stack. *)
Definition fullVector : SmallVector Z :=
  {| data_ := [1; 2]; len := 2; capacity := 2; onHeap := false |}.

(** The characters of a string, for writing buffers down. *)
Definition chars (s : string) : list ascii := String.list_ascii_of_string s.

(** [lexStringLiteral] with digit tables that know no digit, for string
    literals without numbered escapes. *)
Definition stringLex : SubLexer :=
  lexStringLiteral (λ _, false) (λ _, false) (λ _, 0) (λ _, 0).

(** [ ( /* c */ += ; // end] and a line end, then the end of the buffer. *)
Definition sampleText : list ascii :=
  chars " ( /* c */ += ; // end" ++ [LF; NUL].

Definition sampleLexer : Lexer := lexerAt sampleText 0 [] 8.

(** A string literal between parentheses. *)
Definition quotedText : list ascii :=
  chars "(" ++ [QUOTE] ++ chars "a\tb" ++ [QUOTE] ++ chars ") ;" ++ [NUL].

Definition quotedLexer : Lexer := lexerAt quotedText 0 [] 8.

(** The file name of an include directive, behind a blank. *)
Definition includeText : list ascii := chars " <a.svh>" ++ [LF; NUL].

Definition includeLexer : Lexer := lexerAt includeText 0 [] 8.

Definition normalCalls (n : nat) : list (LexerMode.t * nat) :=
  replicate n (LexerMode.Normal, 0%nat).

(** Tables for the runs of the lexer: the letters and digits of ASCII, the
    literal bases [b], [o], [d] and [h], one keyword, one system keyword and
    the include directive.  Of a real value the token keeps only that it has
    one. *)
Definition asciiDigit (c : ascii) : bool :=
  Nat.leb 48 (nat_of_ascii c) && Nat.leb (nat_of_ascii c) 57.

Definition asciiLetter (c : ascii) : bool :=
  Nat.leb 65 (nat_of_ascii c) && Nat.leb (nat_of_ascii c) 90
  || Nat.leb 97 (nat_of_ascii c) && Nat.leb (nat_of_ascii c) 122.

Definition asciiHexDigit (c : ascii) : bool :=
  asciiDigit c || bool_decide (c ∈ chars "abcdefABCDEF").

Definition asciiHexDigitValue (c : ascii) : Z :=
  if asciiDigit c then Z.of_nat (nat_of_ascii c) - 48
  else if Nat.leb 97 (nat_of_ascii c) then Z.of_nat (nat_of_ascii c) - 87
  else Z.of_nat (nat_of_ascii c) - 55.

Definition runTables : LexerTables :=
  {| isASCII := isASCII7;
     utf8SeqBytes := oneMoreByte;
     isAlphaNumeric := λ c, asciiLetter c || asciiDigit c;
     isDecimalDigit := asciiDigit;
     isOctalDigit := λ c, asciiDigit c && Nat.leb (nat_of_ascii c) 55;
     isHexDigit := asciiHexDigit;
     isWhitespace := λ c, bool_decide (c ∈ [" "%char; TAB; LF; CR]);
     isPrintable := λ c, Nat.leb 33 (nat_of_ascii c) && Nat.leb (nat_of_ascii c) 126;
     getDigitValue := λ c, Z.of_nat (nat_of_ascii c) - 48;
     getHexDigitValue := asciiHexDigitValue;
     literalBaseFromChar := λ c,
       if bool_decide (c ∈ chars "bB") then Some 2%nat
       else if bool_decide (c ∈ chars "oO") then Some 8%nat
       else if bool_decide (c ∈ chars "dD") then Some 10%nat
       else if bool_decide (c ∈ chars "hH") then Some 16%nat
       else None;
     getKeywordTable := λ _ text,
       if bool_decide (text = chars "assign") then Some (TokenKind.Keyword 0) else None;
     getSystemKeywordKind := λ text,
       if bool_decide (text = chars "$root") then TokenKind.Keyword 1 else TokenKind.Unknown;
     getDirectiveKind := λ text, if bool_decide (text = chars "include") then 1%nat else 2%nat;
     SyntaxKind_Unknown := 0%nat;
     SyntaxKind_IncludeDirective := 1%nat;
     IdentifierType_Normal := 0%nat;
     IdentifierType_Escaped := 1%nat;
     IdentifierType_System := 2%nat;
     setReal := λ info _, setExtra info (ExtraText (chars "real"));
     setInt := λ info bits value _, setExtra info (ExtraNumeric value (Z.to_nat bits));
     setBit := λ info bit,
       setExtra info (ExtraBit (match bit with
                                | logic_value digit => Z.to_nat digit
                                | logic_x => 2%nat
                                | logic_z => 3%nat
                                end));
     setNumFlags := λ info base _, setExtra info (ExtraNumeric 0 base);
     setTimeUnit := λ info _, info |}.

(** A line with a keyword, names, numbers, a based literal, a system name,
    an escaped name, a directive, a string and a character of two bytes. *)
Definition lineText : list ascii :=
  chars "assign x = 8'h3f + 1.5e2; $t \q 3ns `d " ++ [QUOTE] ++ chars "s\n" ++ [QUOTE]
    ++ ["195"%char; "169"%char] ++ [LF; NUL].

Definition lineLexer : Lexer := lexerAt lineText 0 [] 8.

(** The calls of a caller that lexes a line in normal mode and what follows
    a directive in directive mode. *)
Definition lineCalls : list (LexerMode.t * nat) :=
  normalCalls 17 ++ [(LexerMode.Directive, 0%nat); (LexerMode.Normal, 0%nat)].


(** [module extra; endmodule] as the single node of a tree that uses the
    source manager of [threeModules]. *)
Definition extraModule : SyntaxTree :=
  {| treeRoot := SingleNode (moduleSyntax "extra" []);
     treeSourceManager := 0;
     treeDiagnostics := [] |}.

(** [module m #(localparam p) (); parameter q; endmodule]: neither parameter
    has an initializer. *)
Definition parameterHeader : ModuleHeaderSyntax :=
  {| headerName := "m";
     headerNameLocation := noLocation;
     headerParameters :=
       Some [{| paramKeyword := Some LocalParamKeyword;
                paramTypeSyntax := 0;
                paramDeclarators :=
                  [{| declaratorName := "p"; declaratorLocation := noLocation;
                      declaratorInitializer := None |}] |}] |}.

Definition parameterBody : list MemberSyntax :=
  [ParameterDeclarationStatement
     {| paramKeyword := Some ParameterKeyword_;
        paramTypeSyntax := 0;
        paramDeclarators :=
          [{| declaratorName := "q"; declaratorLocation := noLocation;
              declaratorInitializer := None |}] |}].

(** Two compilation units. *)
Definition firstUnit : Scope := {| scopeAddr := 1; scopeKind := CompilationUnitKind |}.
Definition secondUnit : Scope := {| scopeAddr := 2; scopeKind := CompilationUnitKind |}.

(** * Properties *)

(** ** Types: what matching types share *)

Lemma structureOf_canonical t : structureOf (getCanonicalType t) = structureOf t.
Proof. induction t; simpl; auto. Qed.

Lemma canonical_structureOf t : getCanonicalType (structureOf t) = structureOf t.
Proof. induction t; simpl; auto. Qed.

Lemma typeFacts_canonical_head t :
  (isIntegral t, isFloating t, isScalar t) =
  (isIntegral (getCanonicalType t), isFloating (getCanonicalType t),
   isScalar (getCanonicalType t)).
Proof.
  unfold isIntegral, isFloating, isScalar.
  assert (H : getCanonicalType (getCanonicalType t) = getCanonicalType t)
    by (induction t; simpl; auto).
  now rewrite H.
Qed.

Lemma typeFacts_structureOf t : typeFacts (structureOf t) = typeFacts t.
Proof.
  unfold typeFacts.
  induction t; simpl; try reflexivity.
  - (* packed array *)
    injection IHt as Hw Hs Hf Hr _ _ _.
    unfold isIntegral, isFloating, isScalar; simpl.
    now rewrite Hw, Hs, Hf, Hr.
  - (* alias *)
    injection IHt as Hw Hs Hf Hr Hi Hfl Hsc.
    rewrite Hw, Hs, Hf, Hr, Hi, Hfl, Hsc.
    unfold isIntegral, isFloating, isScalar; simpl. reflexivity.
Qed.

Lemma isMatching_typeFacts a b : isMatching a b = true -> typeFacts a = typeFacts b.
Proof.
  unfold isMatching. intros H. apply bool_decide_eq_true in H.
  rewrite <- (typeFacts_structureOf a), <- (typeFacts_structureOf b).
  now rewrite H.
Qed.


Lemma isDeclaredReg_isFourState t : isDeclaredReg t = true -> isFourState t = true.
Proof.
  induction t; simpl; try discriminate; auto.
  destruct scalarKind; auto; discriminate.
Qed.

Lemma isIntegral_not_floating t : isIntegral t = true -> isFloating t = false.
Proof. unfold isIntegral, isFloating. destruct (getCanonicalType t); auto; discriminate. Qed.

Lemma isIntegral_isNumeric t : isIntegral t = true -> isNumeric t = true.
Proof. unfold isNumeric. now intros ->. Qed.

(** ** The cache key and the vector type cache *)

Lemma flagBits_range f : 0 <= flagBits f < 8.
Proof. unfold flagBits. destruct (Signed f), (FourState f), (RegFlag f); lia. Qed.

Lemma flagBits_inj f g : flagBits f = flagBits g -> f = g.
Proof.
  destruct f as [s1 f1 r1], g as [s2 f2 r2]. unfold flagBits; simpl.
  destruct s1, f1, r1, s2, f2, r2; intros H; try reflexivity; lia.
Qed.

Lemma land_low_high w k b : 0 <= b -> 0 <= w < 2 ^ b -> Z.land w (k * 2 ^ b) = 0.
Proof.
  intros Hb Hw. apply Z.bits_inj'. intros n Hn.
  rewrite Z.land_spec, Z.bits_0.
  destruct (Z_lt_ge_dec n b) as [Hlt | Hge].
  - rewrite Z.mul_pow2_bits_low by lia. apply andb_false_r.
  - destruct (Z.eq_dec w 0) as [-> | Hne].
    + now rewrite Z.bits_0.
    + rewrite (Z.bits_above_log2 w n); [reflexivity | lia |].
      assert (Z.log2 w < b) by (apply Z.log2_lt_pow2; lia). lia.
Qed.

Section TypeInterningFacts.
Context {svint : SVIntConstants}.
Hypothesis BITWIDTH_BITS_range : 0 <= BITWIDTH_BITS <= 29.

Lemma vectorTypeKey_sum w f :
  0 <= w < 2 ^ BITWIDTH_BITS ->
  vectorTypeKey w f = w + flagBits f * 2 ^ BITWIDTH_BITS.
Proof.
  intros Hw. unfold vectorTypeKey, uint32.
  pose proof (flagBits_range f) as Hf.
  assert (Hp : 0 < 2 ^ BITWIDTH_BITS <= 2 ^ 29).
  { split; [apply Z.pow_pos_nonneg; lia | apply Z.pow_le_mono_r; lia]. }
  rewrite Z.shiftl_mul_pow2 by lia.
  rewrite Z.mod_small by (change (2 ^ 32) with (8 * 2 ^ 29); nia).
  rewrite <- Z.lxor_lor by (apply land_low_high; lia).
  symmetry. apply Z.add_nocarry_lxor. apply land_low_high; lia.
Qed.

Lemma vectorTypeKey_inj w1 f1 w2 f2 :
  validWidth w1 -> validWidth w2 ->
  vectorTypeKey w1 f1 = vectorTypeKey w2 f2 -> w1 = w2 /\ f1 = f2.
Proof.
  unfold validWidth. intros H1 H2 Hk.
  rewrite !vectorTypeKey_sum in Hk by lia.
  pose proof (flagBits_range f1). pose proof (flagBits_range f2).
  assert (flagBits f1 = flagBits f2) by nia.
  split; [nia | now apply flagBits_inj].
Qed.

Lemma validWidth_uint32 w : validWidth w -> uint32 w = w.
Proof.
  unfold validWidth, uint32. intros Hw. apply Z.mod_small.
  assert (2 ^ BITWIDTH_BITS <= 2 ^ 29) by (apply Z.pow_le_mono_r; lia).
  change (2 ^ 32) with (8 * 2 ^ 29). lia.
Qed.

(** The packed array [getType] makes answers with its width and flags. *)
Lemma vectorType_facts a w f s :
  validWidth w -> getScalarType f = Some s ->
  typeFacts (PackedArrayType a s {| rangeLeft := w - 1; rangeRight := 0 |}) =
  (w, Signed f, FourState f, RegFlag f, true, false, false).
Proof.
  intros Hw Hs. unfold typeFacts; simpl.
  unfold rangeWidth; simpl.
  replace (Z.abs (w - 1 - 0) + 1) with w by (unfold validWidth in Hw; lia).
  unfold getScalarType, scalarTypeTable in Hs.
  destruct f as [sg fs rg]; simpl in *.
  destruct fs, rg; inversion Hs; subst; simpl;
    rewrite Z.mul_1_l, validWidth_uint32 by assumption; reflexivity.
Qed.

Lemma scalarType_facts f s :
  getScalarType f = Some s ->
  typeFacts s = (1, Signed f, FourState f, RegFlag f, true, false, true).
Proof.
  unfold getScalarType, scalarTypeTable.
  destruct f as [sg fs rg]; simpl.
  destruct fs, rg; intros Hs; inversion Hs; subst; reflexivity.
Qed.

Lemma cacheOk_new : cacheOk newCompilation.
Proof. intros key t H. simpl in H. rewrite lookup_empty in H. discriminate. Qed.

(** What [getType] returns for a width the key has room for and flags that
    name a scalar type: the cached object if there is one, a new packed array
    otherwise; the cache only grows, and nothing else changes except the
    arena. *)
Lemma getType_spec c w f s :
  cacheOk c -> validWidth w -> getScalarType f = Some s ->
  exists a c',
    getType c w f =
      Some (PackedArrayType a s {| rangeLeft := w - 1; rangeRight := 0 |}, c') /\
    cacheOk c' /\
    vectorTypeCache c' !! vectorTypeKey w f =
      Some (PackedArrayType a s {| rangeLeft := w - 1; rangeRight := 0 |}) /\
    vectorTypeCache c ⊆ vectorTypeCache c' /\
    (is_Some (vectorTypeCache c !! vectorTypeKey w f) -> c' = c) /\
    diags c' = diags c.
Proof.
  intros Hc Hw Hs. unfold getType.
  rewrite bool_decide_eq_true_2 by (unfold validWidth in Hw; lia).
  destruct (vectorTypeCache c !! vectorTypeKey w f) as [t |] eqn:Hl.
  - destruct (Hc _ _ Hl) as (a & w' & f' & s' & Hw' & Hk & Hs' & ->).
    apply vectorTypeKey_inj in Hk as [-> ->]; [| assumption..].
    assert (s' = s) as -> by congruence.
    exists a, c. repeat split; auto.
  - rewrite Hs. simpl.
    exists (nextAddr c). eexists. split; [reflexivity |].
    repeat split; simpl.
    + intros key t Hkt. simpl in Hkt.
      destruct (decide (key = vectorTypeKey w f)) as [-> | Hne].
      * rewrite lookup_insert_eq in Hkt. inversion Hkt; subst.
        exists (nextAddr c), w, f, s. auto.
      * rewrite lookup_insert_ne in Hkt by congruence. now apply Hc.
    + apply lookup_insert_eq.
    + now apply insert_subseteq.
    + intros [x Hx]. discriminate.
Qed.

(** ** The result type of a binary operator *)

Lemma getScalarType_valid f :
  (RegFlag f = true -> FourState f = true) -> exists s, getScalarType f = Some s.
Proof.
  unfold getScalarType, scalarTypeTable. intros H.
  destruct (FourState f), (RegFlag f); eauto. discriminate H; reflexivity.
Qed.

Lemma operatorFlags_integral lt rt force :
  isIntegral lt = true -> isIntegral rt = true ->
  operatorFlags (getIntegralFlags lt) (getIntegralFlags rt) force =
  {| Signed := isSigned lt && isSigned rt;
     FourState := force || isFourState lt || isFourState rt;
     RegFlag := isDeclaredReg lt && isDeclaredReg rt |}.
Proof. unfold operatorFlags, getIntegralFlags. now intros -> ->. Qed.

Lemma operatorFlags_valid lt rt force :
  isIntegral lt = true -> isIntegral rt = true ->
  exists s, getScalarType (operatorFlags (getIntegralFlags lt) (getIntegralFlags rt) force)
            = Some s.
Proof.
  intros Hl Hr. apply getScalarType_valid.
  rewrite operatorFlags_integral by assumption. simpl.
  intros H. apply andb_true_iff in H as [H _].
  apply isDeclaredReg_isFourState in H. rewrite H.
  now rewrite orb_true_r.
Qed.

(** The integral case of [binaryOperatorType], step by step: the type it
    computes ([result]) is the scalar of the flags, or the interned vector of
    the width and flags; what it returns is an operand that matches it, or
    [result] itself. *)
Lemma binaryOperatorType_integral_steps c lt rt force :
  cacheOk c -> isIntegral lt = true -> isIntegral rt = true ->
  validWidth (getBitWidth lt) -> validWidth (getBitWidth rt) ->
  let w := Z.max (getBitWidth lt) (getBitWidth rt) in
  let flags := operatorFlags (getIntegralFlags lt) (getIntegralFlags rt) force in
  let scalarCase := bool_decide (w = 1) && (isScalar lt || isScalar rt) in
  exists result c',
    binaryOperatorType c lt rt force =
      Some (if isMatching lt result then lt
            else if isMatching rt result then rt else result, c') /\
    typeFacts result = (w, Signed flags, FourState flags, RegFlag flags, true, false, scalarCase) /\
    cacheOk c' /\ vectorTypeCache c ⊆ vectorTypeCache c' /\ diags c' = diags c /\
    (if scalarCase then getScalarType flags = Some result /\ c' = c
     else vectorTypeCache c' !! vectorTypeKey w flags = Some result /\
          (is_Some (vectorTypeCache c !! vectorTypeKey w flags) -> c' = c)).
Proof.
  intros Hc Hl Hr Hwl Hwr w flags scalarCase.
  destruct (operatorFlags_valid lt rt force Hl Hr) as [s Hs].
  fold flags in Hs.
  unfold binaryOperatorType.
  rewrite (isIntegral_isNumeric _ Hl), (isIntegral_isNumeric _ Hr).
  rewrite (isIntegral_not_floating _ Hl), (isIntegral_not_floating _ Hr).
  simpl negb. simpl orb. cbv iota.
  fold w. fold flags. fold scalarCase.
  destruct scalarCase eqn:Hcase.
  - rewrite Hs. simpl.
    exists s, c.
    split; [| split; [| exact (conj Hc (conj (reflexivity _) (conj eq_refl (conj eq_refl eq_refl))))]].
    + destruct (isMatching lt s), (isMatching rt s); reflexivity.
    + rewrite (scalarType_facts _ _ Hs).
      apply andb_true_iff in Hcase as [Hw1 _]. apply bool_decide_eq_true in Hw1.
      now rewrite Hw1.
  - assert (Hw : validWidth w) by (unfold w, validWidth in *; lia).
    destruct (getType_spec c w flags s Hc Hw Hs)
      as (a & c' & Hg & Hc' & Hk & Hsub & Hsame & Hd).
    rewrite Hg. simpl.
    eexists _, c'.
    split; [| split; [| exact (conj Hc' (conj Hsub (conj Hd (conj Hk Hsame))))]].
    + match goal with |- context [isMatching lt ?r] =>
        destruct (isMatching lt r), (isMatching rt r); reflexivity end.
    + now rewrite (vectorType_facts a w flags s Hw Hs).
Qed.

Lemma typeFacts_of_match lt rt result :
  typeFacts (if isMatching lt result then lt
             else if isMatching rt result then rt else result) = typeFacts result.
Proof.
  destruct (isMatching lt result) eqn:H1; [now apply isMatching_typeFacts |].
  destruct (isMatching rt result) eqn:H2; [now apply isMatching_typeFacts |].
  reflexivity.
Qed.


(** ** Forcing four-state *)


Lemma binaryOperatorType_not_numeric c l r f :
  isNumeric l && isNumeric r = false ->
  binaryOperatorType c l r f = Some (getErrorType, c).
Proof.
  intros H. unfold binaryOperatorType.
  destruct (isNumeric l), (isNumeric r); try discriminate; reflexivity.
Qed.

Lemma binaryOperatorType_floating l r :
  isNumeric l = true -> isNumeric r = true -> isFloating l || isFloating r = true ->
  exists X, isFloating X = true /\
    forall c f, binaryOperatorType c l r f = Some (X, c).
Proof.
  intros Hl Hr Hf.
  set (R := if (isFloating l && bool_decide (getBitWidth l = 64)) ||
               (isFloating r && bool_decide (getBitWidth r = 64))
            then getRealType else getShortRealType).
  exists (if isMatching l R then l else if isMatching r R then r else R).
  split.
  - pose proof (typeFacts_of_match l r R) as Hm.
    assert (HR : isFloating R = true).
    { unfold R. match goal with |- context [if ?b then _ else _] => destruct b end; reflexivity. }
    unfold typeFacts in Hm. injection Hm as _ _ _ _ _ Hfl _. congruence.
  - intros c f. unfold binaryOperatorType. rewrite Hl, Hr, Hf. simpl.
    fold R. unfold R.
    destruct ((isFloating l && bool_decide (getBitWidth l = 64)) ||
              (isFloating r && bool_decide (getBitWidth r = 64))); simpl;
      match goal with |- context [isMatching l ?r0] =>
        destruct (isMatching l r0), (isMatching r r0); reflexivity end.
Qed.


Lemma numeric_not_floating_integral t :
  isNumeric t = true -> isFloating t = false -> isIntegral t = true.
Proof. unfold isNumeric. intros H E. rewrite E in H. now rewrite orb_false_r in H. Qed.






(** ** Interning *)

Lemma getType_cached c w f t :
  0 < w -> vectorTypeCache c !! vectorTypeKey w f = Some t ->
  getType c w f = Some (t, c).
Proof using Type.
  intros Hw Hl. unfold getType.
  rewrite bool_decide_eq_true_2 by lia. now rewrite Hl.
Qed.

Lemma getType_cache_mono c w f t c' :
  getType c w f = Some (t, c') -> vectorTypeCache c ⊆ vectorTypeCache c'.
Proof using Type.
  unfold getType. destruct (bool_decide (w > 0)); [| discriminate].
  destruct (vectorTypeCache c !! vectorTypeKey w f) as [t0 |] eqn:Hl.
  - intros H. inversion H; subst. reflexivity.
  - destruct (getScalarType f); simpl; [| discriminate].
    intros H. inversion H; subst. simpl. now apply insert_subseteq.
Qed.

Lemma getTypeCalls_cache_mono calls : forall c,
  vectorTypeCache c ⊆ vectorTypeCache (getTypeCalls c calls).
Proof using Type.
  induction calls as [| [w f] calls IH]; intros c; simpl; [reflexivity |].
  destruct (getType c w f) as [[t c'] |] eqn:Hg; [| apply IH].
  etransitivity; [eapply getType_cache_mono; eassumption | apply IH].
Qed.

(** C4 (amended).  For every width [w > 0] and every flags value that names a
    registered scalar type, or whose key has an entry in the vector type
    cache already, [getType w flags] returns a type object, a second call
    returns the same object and leaves the compilation as it is, and so does
    every later call, whatever [getType] calls came in between.  For flags
    that name no scalar type (those with Reg and without FourState) and
    whose key has no entry in the cache, the call does not return. *)
Theorem getType_interned c w f calls :
  0 < w ->
  (is_Some (getScalarType f) \/ is_Some (vectorTypeCache c !! vectorTypeKey w f) ->
   exists t c1,
     getType c w f = Some (t, c1) /\
     getType c1 w f = Some (t, c1) /\
     getType (getTypeCalls c1 calls) w f = Some (t, getTypeCalls c1 calls)) /\
  (getScalarType f = None -> vectorTypeCache c !! vectorTypeKey w f = None ->
   getType c w f = None) /\
  (getScalarType f = None <-> RegFlag f = true /\ FourState f = false).
Proof using Type.
  clear BITWIDTH_BITS_range. intros Hw. split; [| split].
  - intros Hsome.
    assert (exists t c1, getType c w f = Some (t, c1) /\
                         vectorTypeCache c1 !! vectorTypeKey w f = Some t)
      as (t & c1 & Hg & Hk).
    { unfold getType. rewrite bool_decide_eq_true_2 by lia.
      destruct (vectorTypeCache c !! vectorTypeKey w f) as [t0 |] eqn:Hl.
      - now exists t0, c.
      - destruct Hsome as [[s Hs] | [t0 Ht0]]; [| discriminate].
        rewrite Hs. simpl. eexists _, _. split; [reflexivity |].
        simpl. apply lookup_insert_eq. }
    exists t, c1. split; [exact Hg |]. split.
    + now apply getType_cached.
    + apply getType_cached; [exact Hw |].
      eapply lookup_weaken; [exact Hk | apply getTypeCalls_cache_mono].
  - intros Hnone Hmiss. unfold getType.
    rewrite bool_decide_eq_true_2 by lia. now rewrite Hmiss, Hnone.
  - unfold getScalarType, scalarTypeTable.
    destruct (FourState f), (RegFlag f); split; intros H; try discriminate;
      try (destruct H; discriminate); auto.
Qed.

(** ** The conditional operator *)


(** ** Assignment conversion *)

Section AssignmentFacts.
Variable contextDetermined :
  Compilation -> Expression -> TypeSymbol -> option (Expression * Compilation).
Variable isAssignmentCompatible : TypeSymbol -> TypeSymbol -> bool.
Variable isCastCompatible : TypeSymbol -> TypeSymbol -> bool.

Local Abbreviation convertAssignment' :=
  (convertAssignment contextDetermined isAssignmentCompatible isCastCompatible).

(** C2.  Assignment conversion of [e] to the type [T].  When [T] is not
    assignment compatible with the type of [e], the result is a bad
    expression and one diagnostic is added: NoImplicitConversion when [T] is
    cast compatible, BadAssignment otherwise.  When it is compatible, [e] is
    propagated to [binaryOperatorType T (type e) false]; if that type is
    wider than [T], the result is one IntTruncation conversion to [T] of the
    propagated expression, otherwise the propagated expression itself, and
    the conversion adds no diagnostic of its own.  For integral types the
    truncation is there exactly when [e] is wider than [T]; a 16-bit unsigned
    [e] assigned to an 8-bit unsigned [T] gets one truncation whose type is
    [T], and no diagnostic. *)
Theorem convertAssignment_spec c T e location :
  cacheOk c ->
  (isAssignmentCompatible T (type e) = false ->
     convertAssignment' c T e location =
       Some (badExpr (Some e),
             addError c (if isCastCompatible T (type e)
                         then NoImplicitConversion else BadAssignment) location) /\
     bad (badExpr (Some e)) = true) /\
  (isAssignmentCompatible T (type e) = true ->
     forall rt c1 e' c2,
       binaryOperatorType c T (type e) false = Some (rt, c1) ->
       contextDetermined c1 e rt = Some (e', c2) ->
       (getBitWidth rt > getBitWidth T ->
          convertAssignment' c T e location = Some (convert IntTruncation T e', c2)) /\
       (getBitWidth rt <= getBitWidth T ->
          convertAssignment' c T e location = Some (e', c2))) /\
  (isAssignmentCompatible T (type e) = true ->
     isIntegral T = true -> isIntegral (type e) = true ->
     validWidth (getBitWidth T) -> validWidth (getBitWidth (type e)) ->
     exists rt c1,
       binaryOperatorType c T (type e) false = Some (rt, c1) /\
       diags c1 = diags c /\
       getBitWidth rt = Z.max (getBitWidth T) (getBitWidth (type e)) /\
       forall e' c2, contextDetermined c1 e rt = Some (e', c2) ->
         convertAssignment' c T e location =
           Some (if bool_decide (getBitWidth (type e) > getBitWidth T)
                 then convert IntTruncation T e' else e', c2) /\
         (getBitWidth T = 8 -> getBitWidth (type e) = 16 ->
          isSigned T = false ->
          exists result,
            convertAssignment' c T e location = Some (result, c2) /\
            kind result = Conversion /\
            conversionKind result = Some IntTruncation /\
            operands result = [e'] /\ type result = T /\
            getBitWidth (type result) = 8 /\ isSigned (type result) = false)).
Proof.
  intros Hc. split; [| split].
  - intros Hno. unfold convertAssignment. rewrite Hno. simpl. split; reflexivity.
  - intros Hyes rt c1 e' c2 Hb Hcd. unfold convertAssignment.
    rewrite Hyes. simpl. rewrite Hb. simpl. rewrite Hcd. simpl.
    split; intros Hw.
    + now rewrite bool_decide_eq_true_2.
    + now rewrite bool_decide_eq_false_2 by lia.
  - intros Hyes HiT Hie HwT Hwe.
    destruct (binaryOperatorType_integral_steps c T (type e) false Hc HiT Hie HwT Hwe)
      as (result & c1 & Hb & Hfacts & _ & _ & Hd & _).
    pose proof (typeFacts_of_match T (type e) result) as Hm.
    rewrite Hfacts in Hm. unfold typeFacts in Hm. injection Hm as Hrw _ _ _ _ _ _.
    eexists _, c1. split; [exact Hb |]. split; [exact Hd |]. split; [exact Hrw |].
    intros e' c2 Hcd.
    assert (Hconv : convertAssignment' c T e location =
              Some (if bool_decide (getBitWidth (type e) > getBitWidth T)
                    then convert IntTruncation T e' else e', c2)).
    { unfold convertAssignment. rewrite Hyes. simpl. rewrite Hb. simpl.
      rewrite Hcd. simpl. rewrite Hrw.
      destruct (bool_decide (getBitWidth (type e) > getBitWidth T)) eqn:E.
      - apply bool_decide_eq_true in E. now rewrite bool_decide_eq_true_2 by lia.
      - apply bool_decide_eq_false in E. now rewrite bool_decide_eq_false_2 by lia. }
    split; [exact Hconv |].
    intros H8 H16 Hs. eexists. split; [exact Hconv |].
    rewrite bool_decide_eq_true_2 by lia. simpl. repeat split; auto.
Qed.

End AssignmentFacts.

End TypeInterningFacts.

(** ** Replication with a zero count *)

Lemma svIsZero_checks v :
  svIsZero v = true ->
  svHasUnknown v = false /\ svSigned v && svIsNegative v = false.
Proof.
  unfold svIsZero, svIsNegative. intros H.
  apply andb_true_iff in H as [Hu Hz].
  apply negb_true_iff in Hu. apply bool_decide_eq_true in Hz.
  split; [exact Hu |]. rewrite Hz, Z.bits_0. apply andb_false_r.
Qed.

Section ReplicationFacts.
Context {svint : SVIntConstants}.
Variable resetFlags : BindContext -> BindFlags -> BindContext.
Variable createOther : Compilation -> nat -> BindContext -> option (Expression * Compilation).

(** What is assumed of [BindContext::resetFlags]: the extra flag the
    concatenation passes is set in the context the operand is bound in. *)
Hypothesis resetFlags_extra : forall ctx,
  InsideConcatenation (flags (resetFlags ctx BindFlags_InsideConcatenation)) = true.

Local Abbreviation bind := (selfDetermined resetFlags createOther).

Lemma ReplicationExpression_zero_steps c range N x context lhs c1 rhs c2 v :
  bind c N context BindFlags_IntegralConstant = Some (lhs, c1) ->
  bind c1 x context BindFlags_None = Some (rhs, c2) ->
  bad lhs = false -> bad rhs = false ->
  integerConstant lhs = Some v -> svIsZero v = true ->
  ReplicationExpression_fromSyntax bind c range N x context =
    if negb (InsideConcatenation (flags context)) then
      Some (badExpr (Some {| kind := Replication; type := getErrorType;
                             constant := None; sourceRange := range;
                             operands := [lhs; rhs]; conversionKind := None |}),
            addError c2 ReplicationZeroOutsideConcat (rangeStart (sourceRange lhs)))
    else
      Some ({| kind := Replication; type := getVoidType; constant := None;
               sourceRange := range; operands := [lhs; rhs];
               conversionKind := None |}, c2).
Proof.
  intros Hl Hr Hbl Hbr Hv Hz.
  destruct (svIsZero_checks v Hz) as [Hu Hneg].
  unfold ReplicationExpression_fromSyntax.
  rewrite Hl. simpl. rewrite Hr. simpl. rewrite Hv, Hbl, Hbr. simpl.
  unfold checkNoUnknowns. rewrite Hu. simpl.
  unfold checkPositive. rewrite Hneg. simpl. rewrite Hz.
  reflexivity.
Qed.

(** C7 (amended).  A replication [{N{x}}] whose operands [N] and [x] bind
    without error and whose count [N] folds to an integer constant equal to
    zero.  Bound in a context without InsideConcatenation, it is a bad
    expression and the one diagnostic added is ReplicationZeroOutsideConcat,
    at the count.  Bound in a context with InsideConcatenation, it is a
    replication expression of the void type and no diagnostic is added.  As
    an operand of a concatenation that is itself the replication, it is
    bound with InsideConcatenation, and the round of the concatenation's
    loop that binds it leaves the summed width, the flags and the error
    state as they were and goes on to the next operand.  When [N] or [x]
    binds to a bad expression, the replication is a bad expression of the
    error type in either context, and the compilation is left as the
    operands left it. *)
Theorem ReplicationExpression_zero c range N x context crange cctx st :
  (forall lhs c1 rhs c2 v,
     bind c N context BindFlags_IntegralConstant = Some (lhs, c1) ->
     bind c1 x context BindFlags_None = Some (rhs, c2) ->
     bad lhs = false -> bad rhs = false ->
     integerConstant lhs = Some v -> svIsZero v = true ->
     (InsideConcatenation (flags context) = false ->
        exists e,
          ReplicationExpression_fromSyntax bind c range N x context =
            Some (e, addError c2 ReplicationZeroOutsideConcat
                       (rangeStart (sourceRange lhs))) /\
          bad e = true) /\
     (InsideConcatenation (flags context) = true ->
        exists e,
          ReplicationExpression_fromSyntax bind c range N x context = Some (e, c2) /\
          kind e = Replication /\ type e = getVoidType /\
          operands e = [lhs; rhs] /\ bad e = false)) /\
  (forall lhs c1 rhs c2 v,
     let inner := resetFlags cctx BindFlags_InsideConcatenation in
     bind (concatCompilation st) N inner BindFlags_IntegralConstant = Some (lhs, c1) ->
     bind c1 x inner BindFlags_None = Some (rhs, c2) ->
     bad lhs = false -> bad rhs = false ->
     integerConstant lhs = Some v -> svIsZero v = true ->
     exists e,
       kind e = Replication /\ type e = getVoidType /\
       concatArgument bind crange cctx st
         (MultipleConcatenationExpressionSyntax range N x) =
         Some ({| errored := errored st; concatFlags := concatFlags st;
                  totalWidth := totalWidth st; buffer := buffer st ++ [e];
                  concatCompilation := c2 |}, true)) /\
  (forall lhs c1 rhs c2,
     bind c N context BindFlags_IntegralConstant = Some (lhs, c1) ->
     bind c1 x context BindFlags_None = Some (rhs, c2) ->
     bad lhs || bad rhs = true ->
     exists e,
       ReplicationExpression_fromSyntax bind c range N x context = Some (e, c2) /\
       bad e = true /\ type e = getErrorType).
Proof.
  split; [| split].
  3:{ intros lhs c1 rhs c2 Hl Hr Hbad.
      unfold ReplicationExpression_fromSyntax.
      rewrite Hl. simpl. rewrite Hr. simpl.
      destruct (integerConstant lhs); [rewrite Hbad |];
        eexists; (split; [reflexivity |]); split; reflexivity. }
  - intros lhs c1 rhs c2 v Hl Hr Hbl Hbr Hv Hz.
    pose proof (ReplicationExpression_zero_steps c range N x context
                  lhs c1 rhs c2 v Hl Hr Hbl Hbr Hv Hz) as Hs.
    split; intros Hin; rewrite Hin in Hs; simpl in Hs; eexists; split;
      try exact Hs; auto.
  - intros lhs c1 rhs c2 v inner Hl Hr Hbl Hbr Hv Hz.
    pose proof (ReplicationExpression_zero_steps (concatCompilation st) range N x inner
                  lhs c1 rhs c2 v Hl Hr Hbl Hbr Hv Hz) as Hs.
    unfold inner in Hs at 2. rewrite resetFlags_extra in Hs. simpl in Hs.
    eexists. split; [| split]; [| | unfold concatArgument; simpl].
    3:{ unfold selfDetermined at 1. simpl. fold inner.
        change (create resetFlags createOther) with bind.
        rewrite Hs. simpl. reflexivity. }
    all: reflexivity.
Qed.

End ReplicationFacts.

(** ** Lvalues *)

(** C5.  [isLValue] holds exactly for the expression kinds named value,
    element select, range select and member access; a literal, a unary or a
    binary expression is never an lvalue. *)
Theorem isLValue_kinds e :
  (isLValue e = true <->
     kind e = NamedValue \/ kind e = ElementSelect \/
     kind e = RangeSelect \/ kind e = MemberAccess) /\
  (kind e = IntegerLiteral \/ kind e = RealLiteral \/
   kind e = UnbasedUnsizedIntegerLiteral \/ kind e = NullLiteral \/
   kind e = StringLiteral \/ kind e = UnaryOp \/ kind e = BinaryOp ->
   isLValue e = false).
Proof.
  unfold isLValue. split; [split |].
  - destruct (kind e); intros H; try discriminate H; auto.
  - intros [H | [H | [H | H]]]; now rewrite H.
  - intros H. repeat destruct H as [H | H]; now rewrite H.
Qed.

(** ** Finalization *)

Lemma getRoot_finalized c : finalized (getRoot c).2 = true.
Proof.
  unfold getRoot. destruct (finalized c) eqn:E; [exact E |].
  destruct (fold_left addTopInstance (map_to_list (definitionMap c)) ([], c)).
  reflexivity.
Qed.

Lemma addSyntaxTree_refused c tree :
  finalized c = true ->
  addSyntaxTree c tree = Thrown "The compilation has already been finalized" c.
Proof. intros H. unfold addSyntaxTree. now rewrite H. Qed.

Lemma getRoot_again c : finalized c = true -> getRoot c = (root c, c).
Proof. intros H. unfold getRoot. now rewrite H. Qed.

Lemma runCall_finalized c call : finalized c = true -> runCall c call = c.
Proof.
  intros H. destruct call; simpl.
  - now rewrite addSyntaxTree_refused.
  - now rewrite getRoot_again.
Qed.

Lemma runCalls_finalized calls : forall c,
  finalized c = true -> fold_left runCall calls c = c.
Proof.
  induction calls as [| call calls IH]; intros c H; simpl; [reflexivity |].
  rewrite runCall_finalized by exact H. now apply IH.
Qed.

(** C3.  Once [getRoot] has been called, the compilation is finalized and
    stays so: after any further calls of [addSyntaxTree] and [getRoot], a
    call of [addSyntaxTree] throws the logic error "The compilation has
    already been finalized", and the compilation it leaves is the one it was
    given: no diagnostic is appended and nothing else changes. *)
Theorem addSyntaxTree_after_getRoot c calls tree :
  let c' := fold_left runCall calls (getRoot c).2 in
  finalized c' = true /\
  addSyntaxTree c' tree = Thrown "The compilation has already been finalized" c' /\
  runCall c' (CallAddSyntaxTree tree) = c' /\
  diags (runCall c' (CallAddSyntaxTree tree)) = diags c'.
Proof.
  intros c'. unfold c'.
  rewrite runCalls_finalized by apply getRoot_finalized.
  pose proof (getRoot_finalized c) as H.
  split; [exact H |]. split; [now apply addSyntaxTree_refused |].
  rewrite (runCall_finalized _ (CallAddSyntaxTree tree) H). auto.
Qed.

(** ** Top-level modules *)

(** Induction over member syntax with the hypotheses for the members nested
    in lists, case items and else clauses. *)
Lemma MemberSyntax_nested_ind (P : MemberSyntax -> Prop) :
  (forall kind header members, Forall P members ->
     P (ModuleDeclarationSyntax kind header members)) ->
  (forall name, P (HierarchyInstantiation name)) ->
  (forall members, Forall P members -> P (GenerateRegion members)) ->
  (forall members, Forall P members -> P (GenerateBlock members)) ->
  (forall block, P block -> P (LoopGenerate block)) ->
  (forall items,
     Forall (λ item : CaseItemSyntax MemberSyntax,
               match item with
               | DefaultCaseItem clause | StandardCaseItem clause => P clause
               | PatternCaseItem => True
               end) items ->
     P (CaseGenerate items)) ->
  (forall block elseClause, P block ->
     match elseClause with Some clause => P clause | None => True end ->
     P (IfGenerate block elseClause)) ->
  (forall parameter, P (ParameterDeclarationStatement parameter)) ->
  P OtherMember ->
  forall node, P node.
Proof.
  intros Hmod Hinst Hregion Hblock Hloop Hcase Hif Hparam Hother.
  fix IH 1. intros node. destruct node.
  - apply Hmod. induction members; constructor; auto.
  - apply Hinst.
  - apply Hregion. induction members; constructor; auto.
  - apply Hblock. induction members; constructor; auto.
  - apply Hloop, IH.
  - apply Hcase. induction items as [| item items IHitems]; constructor; auto.
    destruct item; auto.
  - apply Hif; [apply IH |]. destruct elseClause; auto.
  - apply Hparam.
  - apply Hother.
Qed.

Lemma findInstantiations_subset node : forall scopeStack found name,
  name ∈ findInstantiations node scopeStack found ->
  name ∈ found \/ name ∈ instantiationNames node.
Proof.
  induction node using MemberSyntax_nested_ind; intros scopeStack found nm; simpl.
  - (* module declaration *)
    generalize (match localDefinitions members with
                | Some localDefs => scopeStack ++ [localDefs]
                | None => scopeStack
                end) as stack.
    intros stack. revert found.
    induction H as [| member members Hm _ IHl]; intros found Hin; [now left |].
    apply IHl in Hin as [Hin | Hin].
    + apply Hm in Hin as [Hin | Hin]; [now left | right; set_solver].
    + right. set_solver.
  - (* hierarchy instantiation *)
    destruct (negb (isEmptyName name) && negb (containsName scopeStack name));
      set_solver.
  - revert found.
    induction H as [| member members Hm _ IHl]; intros found Hin; [now left |].
    apply IHl in Hin as [Hin | Hin].
    + apply Hm in Hin as [Hin | Hin]; [now left | right; set_solver].
    + right. set_solver.
  - revert found.
    induction H as [| member members Hm _ IHl]; intros found Hin; [now left |].
    apply IHl in Hin as [Hin | Hin].
    + apply Hm in Hin as [Hin | Hin]; [now left | right; set_solver].
    + right. set_solver.
  - apply IHnode.
  - revert found.
    induction H as [| item items Hi _ IHl]; intros found Hin; [now left |].
    destruct item as [clause | clause |].
    + apply IHl in Hin as [Hin | Hin].
      * apply Hi in Hin as [Hin | Hin]; [now left | right; set_solver].
      * right. set_solver.
    + apply IHl in Hin as [Hin | Hin].
      * apply Hi in Hin as [Hin | Hin]; [now left | right; set_solver].
      * right. set_solver.
    + now apply IHl.
  - destruct elseClause as [clause |].
    + intros Hin. apply H in Hin as [Hin | Hin].
      * apply IHnode in Hin as [Hin | Hin]; [now left | right; set_solver].
      * right. set_solver.
    + intros Hin. apply IHnode in Hin as [Hin | Hin]; [now left | right; set_solver].
  - now left.
  - now left.
Qed.

Lemma fold_left_invariant {A B : Type} (f : A -> B -> A) (P : A -> Prop) l : forall a,
  P a -> (forall a b, P a -> P (f a b)) -> P (fold_left f l a).
Proof. induction l; simpl; auto. Qed.

(** Registering definitions leaves the finalization flag, the instantiated
    names and the root alone. *)
Lemma getParamDecls_core c syntax isPort isLocal parameters :
  let c' := (getParamDecls c syntax isPort isLocal parameters).2 in
  finalized c' = finalized c /\ instantiatedNames c' = instantiatedNames c /\
  root c' = root c.
Proof.
  unfold getParamDecls.
  apply (fold_left_invariant _
           (λ acc, finalized acc.2 = finalized c /\
                   instantiatedNames acc.2 = instantiatedNames c /\
                   root acc.2 = root c)); [auto |].
  intros [ps c0] decl H. simpl in *.
  destruct (declaratorInitializer decl); [exact H |].
  destruct (negb isPort); [exact H |]. destruct isLocal; exact H.
Qed.

Lemma addDefinition_core c kind header members scope :
  let c' := addDefinition c kind header members scope in
  finalized c' = finalized c /\ instantiatedNames c' = instantiatedNames c /\
  root c' = root c.
Proof.
  unfold addDefinition.
  set (hasPortParams := bool_decide (is_Some (headerParameters header))).
  set (ports := match headerParameters header with
                | Some declarations => portParamDecls c declarations
                | None => ([], c)
                end).
  assert (Hports : finalized ports.2 = finalized c /\
                   instantiatedNames ports.2 = instantiatedNames c /\
                   root ports.2 = root c).
  { unfold ports. destruct (headerParameters header) as [declarations |]; [| auto].
    unfold portParamDecls.
    apply (fold_left_invariant _
             (λ acc, finalized acc.2.2 = finalized c /\
                     instantiatedNames acc.2.2 = instantiatedNames c /\
                     root acc.2.2 = root c)); [auto |].
    intros [b [ps c0]] declaration H. simpl in *.
    match goal with |- context [getParamDecls ?a1 ?a2 ?a3 ?a4 ?a5] =>
      destruct (getParamDecls_core a1 a2 a3 a4 a5) as (H1 & H2 & H3) end.
    destruct H as (G1 & G2 & G3). repeat split; congruence. }
  assert (Hbody : let r := bodyParamDecls hasPortParams members ports in
                  finalized r.2 = finalized c /\
                  instantiatedNames r.2 = instantiatedNames c /\ root r.2 = root c).
  { unfold bodyParamDecls.
    apply (fold_left_invariant _
             (λ acc, finalized acc.2 = finalized c /\
                     instantiatedNames acc.2 = instantiatedNames c /\
                     root acc.2 = root c)); [exact Hports |].
    intros [ps c0] member H. simpl in *.
    destruct member; try exact H.
    match goal with |- context [getParamDecls ?a1 ?a2 ?a3 ?a4 ?a5] =>
      destruct (getParamDecls_core a1 a2 a3 a4 a5) as (H1 & H2 & H3) end.
    destruct H as (G1 & G2 & G3). repeat split; congruence. }
  destruct (bodyParamDecls hasPortParams members ports) as [parameters c0].
  simpl in Hbody. destruct (scopeKind scope); exact Hbody.
Qed.

Lemma addTreeMembers_spec members : forall unit c instances unit' c' instances',
  fold_left addTreeMember members (unit, c, instances) = (unit', c', instances') ->
  (finalized c' = finalized c /\ instantiatedNames c' = instantiatedNames c /\
   root c' = root c) /\
  forall name : string, name ∈ instances' ->
    name ∈ instances \/ name ∈ concat (map instantiationNames members).
Proof.
  induction members as [| member members IH]; intros unit c instances unit' c' instances' H.
  - simpl in H. inversion H; subst. auto.
  - change (fold_left addTreeMember members (addTreeMember (unit, c, instances) member)
            = (unit', c', instances')) in H.
    destruct (addTreeMember (unit, c, instances) member) as [[unit1 c1] instances1] eqn:Hstep.
    apply IH in H as [(F1 & F2 & F3) Hnames].
    unfold addTreeMember, addMembers in Hstep.
    assert (Hcore : finalized c1 = finalized c /\
                    instantiatedNames c1 = instantiatedNames c /\ root c1 = root c /\
                    forall name : string, name ∈ instances1 ->
                      name ∈ instances \/ name ∈ instantiationNames member).
    { destruct member as [k header ms | nm | ms | ms | blk | items | blk els | prm |];
        cbv beta iota delta [isModuleDeclaration] in Hstep;
        try (inversion Hstep; subst; repeat split; auto; fail).
      destruct (addDefinition_core c k header ms
                  {| scopeAddr := unitAddr unit; scopeKind := CompilationUnitKind |})
        as (H1 & H2 & H3).
      destruct k; inversion Hstep; subst; repeat split; auto.
      intros name Hin.
      destruct (findInstantiations_subset
                  (ModuleDeclarationSyntax ModuleDeclaration header ms)
                  [] instances name Hin) as [Hin' | Hin']; auto. }
    destruct Hcore as (G1 & G2 & G3 & Gnames).
    split; [repeat split; congruence |].
    intros name Hin. simpl.
    apply Hnames in Hin as [Hin | Hin].
    + apply Gnames in Hin as [Hin | Hin]; [now left | right; set_solver].
    + right. set_solver.
Qed.

Lemma addSyntaxTree_step c tree c' :
  addSyntaxTree c tree = Returned tt c' ->
  finalized c = false /\ finalized c' = false /\
  (forall name : string, name ∈ instantiatedNames c' ->
     name ∈ instantiatedNames c \/ name ∈ treeInstantiationNames tree) /\
  (Forall isUnitMember (rootMembers (root c)) ->
   Forall isUnitMember (rootMembers (root c'))).
Proof.
  unfold addSyntaxTree.
  destruct (finalized c) eqn:Hfin; [discriminate |].
  set (managed := if bool_decide (sourceManager c = Some (treeSourceManager tree))
                  then Some c
                  else match sourceManager c with
                       | None => Some (setSourceManager c (treeSourceManager tree))
                       | Some _ => None
                       end).
  assert (Hm : forall c0, managed = Some c0 ->
             finalized c0 = false /\ instantiatedNames c0 = instantiatedNames c /\
             root c0 = root c).
  { intros c0. unfold managed.
    destruct (bool_decide (sourceManager c = Some (treeSourceManager tree)));
      [| destruct (sourceManager c)]; intros H; inversion H; subst; auto. }
  destruct managed as [c0 |]; [| discriminate].
  destruct (Hm c0 eq_refl) as (M1 & M2 & M3). clear Hm.
  unfold emplace.
  set (c1 := {| nextAddr := S (nextAddr c0); vectorTypeCache := vectorTypeCache c0;
                diags := diags c0; finalized := finalized c0;
                sourceManager := sourceManager c0; definitionMap := definitionMap c0;
                instantiatedNames := instantiatedNames c0;
                compilationUnits := compilationUnits c0; syntaxTrees := syntaxTrees c0;
                root := root c0; forcedDiagnostics := forcedDiagnostics c0 |}).
  set (unit0 := {| unitAddr := nextAddr c0; unitMembers := [] |}).
  assert (Hloop : exists unit c2 instances,
             match treeRoot tree with
             | CompilationUnitSyntax members =>
                 fold_left addTreeMember members (unit0, c1, ∅)
             | SingleNode node => addTreeMember (unit0, c1, ∅) node
             end = (unit, c2, instances) /\
             (finalized c2 = false /\ instantiatedNames c2 = instantiatedNames c /\
              root c2 = root c) /\
             forall name : string, name ∈ instances ->
               name ∈ treeInstantiationNames tree).
  { unfold treeInstantiationNames.
    destruct (treeRoot tree) as [members | node].
    - destruct (fold_left addTreeMember members (unit0, c1, ∅))
        as [[unit c2] instances] eqn:Hf.
      apply addTreeMembers_spec in Hf as [(F1 & F2 & F3) Hn].
      exists unit, c2, instances. split; [reflexivity |]. simpl in *.
      split; [repeat split; congruence |].
      intros name Hin. apply Hn in Hin as [Hin | Hin]; [set_solver | exact Hin].
    - destruct (addTreeMember (unit0, c1, ∅) node) as [[unit c2] instances] eqn:Hf.
      assert (Hf' : fold_left addTreeMember [node] (unit0, c1, ∅) = (unit, c2, instances))
        by exact Hf.
      apply addTreeMembers_spec in Hf' as [(F1 & F2 & F3) Hn].
      exists unit, c2, instances. split; [reflexivity |]. simpl in *.
      split; [repeat split; congruence |].
      intros name Hin. apply Hn in Hin as [Hin | Hin]; [set_solver |].
      rewrite app_nil_r in Hin. exact Hin. }
  destruct Hloop as (unit & c2 & instances & -> & (L1 & L2 & L3) & Ln).
  intros H. inversion H; subst. clear H. simpl.
  split; [reflexivity |]. split; [exact L1 |]. split.
  - intros name Hin. rewrite L2 in Hin. set_solver.
  - rewrite L3. intros Hall. apply Forall_app. split; [exact Hall |].
    constructor; [exact I | constructor].
Qed.

Lemma addSyntaxTrees_invariant trees : forall c c',
  addSyntaxTrees c trees = Some c' -> finalized c = false ->
  finalized c' = false /\
  (forall name : string, name ∈ instantiatedNames c' ->
     name ∈ instantiatedNames c \/
     exists tree, tree ∈ trees /\ name ∈ treeInstantiationNames tree) /\
  (Forall isUnitMember (rootMembers (root c)) ->
   Forall isUnitMember (rootMembers (root c'))).
Proof.
  induction trees as [| tree trees IH]; intros c c' H Hfin; simpl in H.
  - inversion H; subst. auto.
  - destruct (addSyntaxTree c tree) as [[] c1 | what c1] eqn:Hstep; [| discriminate].
    apply addSyntaxTree_step in Hstep as (_ & F1 & Fn & Fr).
    destruct (IH _ _ H F1) as (G1 & Gn & Gr).
    split; [exact G1 |]. split; [| auto].
    intros name Hin. apply Gn in Hin as [Hin | (t & Ht & Hin)].
    + apply Fn in Hin as [Hin | Hin]; [now left |].
      right. exists tree. split; [constructor | exact Hin].
    + right. exists t. split; [now constructor | exact Hin].
Qed.

(** The order of the sort. *)
Lemma nameLess_false_leq a b : nameLess b a = false -> nameLeq a b.
Proof.
  unfold nameLess, nameLeq, String.ltb, String.leb.
  rewrite (String.compare_antisym (instanceName a) (instanceName b)).
  destruct (String.compare (instanceName b) (instanceName a)); simpl; auto; discriminate.
Qed.

Lemma nameLess_true_leq a b : nameLess a b = true -> nameLeq a b.
Proof.
  unfold nameLess, nameLeq, String.ltb, String.leb.
  destruct (String.compare (instanceName a) (instanceName b)); auto; discriminate.
Qed.

Lemma sortInsert_HdRel x y l :
  HdRel nameLeq y l -> nameLeq y x -> HdRel nameLeq y (sortInsert x l).
Proof.
  intros Hl Hx. destruct l as [| z l]; simpl; [now constructor |].
  destruct (nameLess z x); constructor; [now inversion Hl | exact Hx].
Qed.

Lemma sortInsert_Sorted x l : Sorted nameLeq l -> Sorted nameLeq (sortInsert x l).
Proof.
  induction l as [| y l IH]; intros Hs; simpl; [repeat constructor |].
  inversion Hs as [| ? ? Hl Hhd]; subst.
  destruct (nameLess y x) eqn:E.
  - constructor; [now apply IH |].
    apply sortInsert_HdRel; [exact Hhd | now apply nameLess_true_leq].
  - constructor; [exact Hs |]. constructor. now apply nameLess_false_leq.
Qed.

Lemma sortByName_Sorted l : Sorted nameLeq (sortByName l).
Proof.
  induction l as [| x l IH]; simpl; [constructor | now apply sortInsert_Sorted].
Qed.

Lemma sortInsert_Permutation x l : sortInsert x l ≡ₚ x :: l.
Proof.
  induction l as [| y l IH]; simpl; [reflexivity |].
  destruct (nameLess y x); [| reflexivity].
  rewrite IH. apply Permutation_swap.
Qed.

Lemma sortByName_Permutation l : sortByName l ≡ₚ l.
Proof.
  induction l as [| x l IH]; simpl; [reflexivity |].
  rewrite sortInsert_Permutation. now rewrite IH.
Qed.

(** The loop of [getRoot], as a function of the entries. *)
Lemma addTopInstances_spec entries : forall topList c,
  exists c',
    fold_left addTopInstance entries (topList, c) =
      (topList ++ instantiateAll (instantiatedNames c) (nextAddr c) entries, c') /\
    rootMembers (root c') =
      rootMembers (root c) ++
      map InstanceMember (instantiateAll (instantiatedNames c) (nextAddr c) entries) /\
    compilationUnits c' = compilationUnits c.
Proof.
  induction entries as [| [key definition] entries IH]; intros topList c; simpl.
  - exists c. now rewrite !app_nil_r.
  - unfold isTopLevel.
    destruct (bool_decide (definitionKind definition = ModuleDeclaration) &&
              bool_decide (definitionName definition ∉ instantiatedNames c)) eqn:E.
    + simpl.
      match goal with |- context [fold_left addTopInstance entries (?t, ?c1)] =>
        destruct (IH t c1) as (c' & Hf & Hr & Hu) end.
      simpl in Hf, Hr, Hu.
      exists c'. rewrite Hf, Hr, Hu, <- !app_assoc. auto.
    + destruct (IH topList c) as (c' & Hf & Hr & Hu). exists c'. auto.
Qed.

Lemma instancesOf_instantiateAll names key definition entries : forall next,
  NoDup (map fst entries) -> (key, definition) ∈ entries ->
  isTopLevel names definition = true ->
  exists i, instancesOf key (instantiateAll names next entries) = [i] /\
    instanceName i = definitionName definition /\ instanceDefinition i = key.
Proof.
  assert (Hnone : forall entries next,
            key ∉ map fst entries ->
            instancesOf key (instantiateAll names next entries) = []).
  { clear. induction entries as [| [k d] entries IH]; intros next Hk; [reflexivity |].
    simpl in *. apply not_elem_of_cons in Hk as [Hne Hk].
    destruct (isTopLevel names d); [| now apply IH].
    unfold instancesOf. rewrite filter_cons_False by (simpl; congruence).
    now apply IH. }
  induction entries as [| [k d] entries IH]; intros next Hnd Hin Htop.
  - now apply elem_of_nil in Hin.
  - simpl in Hnd. apply NoDup_cons in Hnd as [Hfresh Hnd].
    apply elem_of_cons in Hin as [Heq | Hin].
    + inversion Heq; subst k d. simpl. rewrite Htop.
      eexists. unfold instancesOf. rewrite filter_cons_True by reflexivity.
      split; [f_equal; now apply Hnone | split; reflexivity].
    + assert (k <> key).
      { intros ->. apply Hfresh. apply list_elem_of_fmap. now exists (key, definition). }
      simpl. destruct (isTopLevel names d); [| now apply IH].
      unfold instancesOf. rewrite filter_cons_False by (simpl; congruence).
      now apply IH.
Qed.

Lemma memberInstancesOf_units key l :
  Forall isUnitMember l -> memberInstancesOf key l = [].
Proof.
  induction 1 as [| m l Hm _ IH]; [reflexivity |].
  unfold memberInstancesOf. destruct m; [| contradiction].
  rewrite filter_cons_False by (simpl; congruence). exact IH.
Qed.

Lemma memberInstancesOf_instances key l :
  memberInstancesOf key (map InstanceMember l) = map InstanceMember (instancesOf key l).
Proof.
  induction l as [| i l IH]; [reflexivity |].
  unfold memberInstancesOf, instancesOf in *. simpl.
  destruct (decide (instanceDefinition i = key)) as [E | E].
  - rewrite !filter_cons_True by (simpl; congruence). simpl. now f_equal.
  - rewrite !filter_cons_False by (simpl; congruence). exact IH.
Qed.

(** C6.  After the syntax trees of a list have been added to a new
    compilation, the first [getRoot] makes, for every module definition of
    the definition map whose name is the type of no hierarchy instantiation
    anywhere in those trees, exactly one instance: one in the list of top
    instances and one among the members of the root, named after the
    definition; and the list of top instances is sorted by name. *)
Theorem getRoot_top_level trees c :
  addSyntaxTrees newCompilation trees = Some c ->
  Sorted nameLeq (topInstances (getRoot c).1) /\
  forall key definition,
    definitionMap c !! key = Some definition ->
    definitionKind definition = ModuleDeclaration ->
    (forall tree, tree ∈ trees -> definitionName definition ∉ treeInstantiationNames tree) ->
    exists i,
      instanceName i = definitionName definition /\ instanceDefinition i = key /\
      instancesOf key (topInstances (getRoot c).1) = [i] /\
      memberInstancesOf key (rootMembers (getRoot c).1) = [InstanceMember i].
Proof.
  intros Hadd.
  destruct (addSyntaxTrees_invariant trees newCompilation c Hadd eq_refl)
    as (Hfin & Hnames & Hunits).
  specialize (Hunits (List.Forall_nil _)).
  unfold getRoot. rewrite Hfin.
  destruct (addTopInstances_spec (map_to_list (definitionMap c)) [] c)
    as (c' & Hf & Hr & Hu).
  rewrite Hf. simpl.
  set (news := instantiateAll (instantiatedNames c) (nextAddr c)
                 (map_to_list (definitionMap c))) in *.
  split; [apply sortByName_Sorted |].
  intros key definition Hlook Hkind Hfree.
  assert (Htop : isTopLevel (instantiatedNames c) definition = true).
  { unfold isTopLevel. apply andb_true_iff.
    split; apply bool_decide_eq_true; [exact Hkind |].
    intros Hin. apply Hnames in Hin as [Hin | (tree & Ht & Hin)].
    - simpl in Hin. set_solver.
    - exact (Hfree tree Ht Hin). }
  destruct (instancesOf_instantiateAll (instantiatedNames c) key definition
              (map_to_list (definitionMap c)) (nextAddr c))
    as (i & Hi & Hname & Hdef); [apply NoDup_fst_map_to_list | | exact Htop |].
  { now apply elem_of_map_to_list. }
  fold news in Hi.
  exists i. split; [exact Hname |]. split; [exact Hdef |]. split.
  - apply Permutation_singleton_r.
    unfold instancesOf in *. rewrite sortByName_Permutation. now rewrite Hi.
  - rewrite Hr. unfold memberInstancesOf. rewrite filter_app.
    fold (memberInstancesOf key (rootMembers (root c))).
    fold (memberInstancesOf key (map InstanceMember news)).
    rewrite (memberInstancesOf_units key _ Hunits).
    rewrite memberInstancesOf_instances, Hi. reflexivity.
Qed.

(** ** The lexer at the end of its buffer *)

Section LexerFacts.
Variable lexStringLiteral : SubLexer.
Variable lexDollarSign : SubLexer.
Variable lexApostrophe : SubLexer.
Variable lexNumericLiteral : SubLexer.
Variable lexEscapeSequence : SubLexer.
Variable lexDirective : SubLexer.
Variable lexIdentifier : nat -> SubLexer.
Variable isASCII : ascii -> bool.
Variable utf8SeqBytes : ascii -> nat.

Local Abbreviation lexToken' :=
  (lexToken lexStringLiteral lexDollarSign lexApostrophe lexNumericLiteral
     lexEscapeSequence lexDirective lexIdentifier isASCII utf8SeqBytes).
Local Abbreviation lex' :=
  (lex lexStringLiteral lexDollarSign lexApostrophe lexNumericLiteral
     lexEscapeSequence lexDirective lexIdentifier isASCII utf8SeqBytes).
Local Abbreviation lexMany' :=
  (lexMany lexStringLiteral lexDollarSign lexApostrophe lexNumericLiteral
     lexEscapeSequence lexDirective lexIdentifier isASCII utf8SeqBytes).

(** Decide the comparisons of a known character in the goal. *)
Ltac decide_chars :=
  repeat match goal with
  | |- context [bool_decide (?a = ?b :> ascii)] =>
      let v := eval vm_compute in (bool_decide (a = b)) in
      change (bool_decide (a = b)) with v
  end.

(** The lexer stands on the final NUL of its buffer. *)
Lemma lexTrivia_at_end fuel triviaBuffer directiveMode lx :
  source lx !! sourceBuffer lx = Some NUL ->
  lexTrivia (S fuel) triviaBuffer directiveMode lx =
    Some (directiveMode, triviaBuffer, mark lx).
Proof.
  intros Hnul. cbn [lexTrivia].
  assert (Hp : peek (mark lx) = Some NUL).
  { unfold peek, peekAt, mark. cbn [source sourceBuffer]. now rewrite Nat.add_0_r. }
  rewrite Hp. cbn [mbind option_bind].
  unfold isHorizontalWhitespace. decide_chars. cbn [orb]. cbv iota.
  reflexivity.
Qed.

Lemma lexToken_at_end info keywordVersion lx :
  source lx !! sourceBuffer lx = Some NUL ->
  sourceBuffer lx = (sourceEnd lx - 1)%nat ->
  lexToken' info false keywordVersion lx =
    Some (TokenKind.EndOfFile,
          setLocation info {| locBuffer := bufferId lx; locOffset := sourceBuffer lx |},
          lx).
Proof.
  intros Hnul Hend. unfold lexToken.
  assert (Hp : peek lx = Some NUL).
  { unfold peek, peekAt. now rewrite Nat.add_0_r. }
  rewrite Hp. cbn [mbind option_bind].
  unfold lexTokenSwitch. decide_chars. cbv iota.
  change (match NUL with "000"%char => ?x | _ => _ end) with x.
  cbv beta zeta.
  assert (Hback : setSourceBuffer (advance 1 lx) (sourceBuffer (advance 1 lx) - 1) = lx).
  { unfold advance, setSourceBuffer. cbn [sourceBuffer source bufferId marker onNewLine
      errorCount diagnostics maxErrors].
    replace (sourceBuffer lx + 1 - 1)%nat with (sourceBuffer lx) by lia.
    now destruct lx. }
  rewrite Hback.
  assert (Hreally : reallyAtEnd lx = true).
  { unfold reallyAtEnd. apply bool_decide_eq_true. lia. }
  rewrite Hreally. reflexivity.
Qed.

(** One call in normal mode at the end of the buffer: an EndOfFile token with
    no trivia and no text; the read pointer stays, nothing is reported. *)
Lemma lex_at_end keywordVersion lx :
  source lx !! sourceBuffer lx = Some NUL ->
  sourceBuffer lx = (sourceEnd lx - 1)%nat ->
  lex' LexerMode.Normal keywordVersion lx =
    Some ({| tokenKind := TokenKind.EndOfFile;
             tokenInfo :=
               {| trivia := []; rawText := [];
                  location := {| locBuffer := bufferId lx; locOffset := sourceBuffer lx |};
                  missing := false; extra := None |} |},
          setOnNewLine (mark lx) false).
Proof.
  intros Hnul Hend. unfold lex.
  rewrite bool_decide_eq_false_2 by discriminate.
  unfold lexerFuel. rewrite lexTrivia_at_end by exact Hnul.
  cbn [mbind option_bind].
  rewrite bool_decide_eq_false_2 by discriminate. cbv iota.
  assert (Hmark : mark (mark lx) = mark lx) by reflexivity.
  rewrite Hmark.
  rewrite lexToken_at_end by (unfold mark, sourceEnd in *; simpl; assumption).
  cbn [mbind option_bind].
  rewrite bool_decide_eq_true_2 by reflexivity. cbn [negb andb]. cbv iota.
  unfold setRawText, setTrivia, setLocation, emptyInfo, lexeme, lexemeLength.
  cbn [trivia rawText location missing extra].
  unfold setOnNewLine, mark. cbn [sourceBuffer marker source bufferId].
  rewrite Nat.sub_diag. reflexivity.
Qed.

(** C10.  End of file is absorbing.  When the lexer stands on the final NUL
    of its buffer, any number of [lex] calls in normal mode return that many
    EndOfFile tokens; after them the read pointer is still on the final NUL,
    inside the buffer, and no diagnostic has been added. *)
Theorem lex_EndOfFile_absorbing keywordVersion lx n :
  source lx !! sourceBuffer lx = Some NUL ->
  sourceBuffer lx = (sourceEnd lx - 1)%nat ->
  exists tokens lx',
    lexMany' n LexerMode.Normal keywordVersion lx = Some (tokens, lx') /\
    length tokens = n /\
    Forall (λ tok, tokenKind tok = TokenKind.EndOfFile) tokens /\
    source lx' = source lx /\
    sourceBuffer lx' = (sourceEnd lx - 1)%nat /\
    (sourceBuffer lx' < sourceEnd lx)%nat /\
    diagnostics lx' = diagnostics lx.
Proof.
  revert lx. induction n as [| n IH]; intros lx Hnul Hend.
  - exists [], lx. simpl. repeat split; auto.
    apply lookup_lt_Some in Hnul. unfold sourceEnd. lia.
  - cbn [lexMany]. rewrite lex_at_end by assumption. cbn [mbind option_bind].
    destruct (IH (setOnNewLine (mark lx) false)) as (tokens & lx' & Hm & Hl & Hk & Hs & Hb & Hlt & Hd);
      [exact Hnul | exact Hend |].
    rewrite Hm. cbn [mbind option_bind].
    eexists _, lx'. split; [reflexivity |].
    simpl. repeat split; auto.
Qed.

(** C9 (amended).  A [lex] call in normal or directive mode whose leading
    trivia does not end a directive scans a token; when that token is not
    EndOfFile and the diagnostics then number more than [maxErrors], the call
    adds the diagnostic TooManyLexerErrors at the offset reached, moves the
    read pointer to the final character of the buffer, and returns an
    EndOfFile token whose trivia are the leading trivia followed by one
    DisabledText trivia holding the text from the start of the abandoned
    token to the final character of the buffer.  A call in
    include-file-name mode is [lexIncludeFileName], whatever the error
    count; and a call whose leading trivia end the directive returns an
    EndOfDirective token with those trivia and leaves the lexer, its
    diagnostics among the rest, as [lexTrivia] left it, whatever the error
    count. *)
Theorem lex_error_cap mode keywordVersion lx :
  (forall triviaBuffer lx1 kind info lx2,
     mode <> LexerMode.IncludeFileName ->
     lexTrivia (lexerFuel lx) [] (bool_decide (mode = LexerMode.Directive)) lx =
       Some (false, triviaBuffer, lx1) ->
     lexToken' emptyInfo (bool_decide (mode = LexerMode.Directive)) keywordVersion
       (mark lx1) = Some (kind, info, lx2) ->
     kind <> TokenKind.EndOfFile ->
     (maxErrors lx2 < length (diagnostics lx2))%nat ->
     exists tok lx',
       lex' mode keywordVersion lx = Some (tok, lx') /\
       tokenKind tok = TokenKind.EndOfFile /\
       diagnostics lx' =
         diagnostics lx2 ++
         [{| diagCode := TooManyLexerErrors;
             diagLocation := {| locBuffer := bufferId lx2;
                                locOffset := sourceBuffer lx2 |} |}] /\
       sourceBuffer lx' = (sourceEnd lx2 - 1)%nat /\
       source lx' = source lx2 /\
       trivia (tokenInfo tok) =
         triviaBuffer ++
         [{| triviaKind := TriviaKind.DisabledText;
             triviaText := take (sourceEnd lx2 - 1 - marker lx2)
                                (drop (marker lx2) (source lx2)) |}]) /\
  (mode = LexerMode.IncludeFileName ->
     lex' mode keywordVersion lx = lexIncludeFileName lexDirective lx) /\
  (forall triviaBuffer lx1,
     mode <> LexerMode.IncludeFileName ->
     lexTrivia (lexerFuel lx) [] (bool_decide (mode = LexerMode.Directive)) lx =
       Some (true, triviaBuffer, lx1) ->
     lex' mode keywordVersion lx =
       Some ({| tokenKind := TokenKind.EndOfDirective;
                tokenInfo := setTrivia emptyInfo triviaBuffer |}, lx1)).
Proof.
  split; [| split].
  - intros triviaBuffer lx1 kind info lx2 Hmode Htrivia Htoken Hkind Hmax. unfold lex.
    rewrite bool_decide_eq_false_2 by exact Hmode.
    rewrite Htrivia. cbn [mbind option_bind]. cbv iota.
    rewrite Htoken. cbn [mbind option_bind].
    rewrite (bool_decide_eq_false_2 (kind = TokenKind.EndOfFile)) by exact Hkind.
    cbn [negb andb].
    assert (Hm : maxErrors (setOnNewLine lx2 false) = maxErrors lx2) by reflexivity.
    assert (Hd : diagnostics (setOnNewLine lx2 false) = diagnostics lx2) by reflexivity.
    rewrite Hm, Hd, bool_decide_eq_true_2 by exact Hmax. cbv iota.
    eexists _, _. split; [reflexivity |].
    repeat split.
  - intros ->. unfold lex. now rewrite bool_decide_eq_true_2 by reflexivity.
  - intros triviaBuffer lx1 Hmode Htrivia. unfold lex.
    rewrite bool_decide_eq_false_2 by exact Hmode.
    rewrite Htrivia. reflexivity.
Qed.

End LexerFacts.

(** ** Unary, binary, assignment and select expressions *)

Lemma getType_diags `{SVIntConstants} c w f t c' :
  getType c w f = Some (t, c') -> diags c' = diags c.
Proof.
  unfold getType. destruct (bool_decide (w > 0)); [| discriminate].
  destruct (vectorTypeCache c !! vectorTypeKey w f).
  - intros E. inversion E; subst. reflexivity.
  - destruct (getScalarType f); simpl; [| discriminate].
    intros E. inversion E; subst. reflexivity.
Qed.

Lemma binaryOperatorType_diags `{SVIntConstants} c lt rt f t c' :
  binaryOperatorType c lt rt f = Some (t, c') -> diags c' = diags c.
Proof.
  unfold binaryOperatorType.
  destruct (negb (isNumeric lt) || negb (isNumeric rt)).
  { intros E. inversion E; subst. reflexivity. }
  destruct (isFloating lt || isFloating rt).
  - repeat match goal with |- context [if ?b then _ else _] => destruct b; simpl end;
      intros E; inversion E; subst; reflexivity.
  - destruct (bool_decide _ && _).
    + destruct (getScalarType _) as [s |]; simpl; [| discriminate].
      destruct (isMatching lt s), (isMatching rt s); intros E; inversion E; subst; reflexivity.
    + destruct (getType c _ _) as [[r c1] |] eqn:Hg; simpl; [| discriminate].
      apply getType_diags in Hg.
      destruct (isMatching lt r), (isMatching rt r); intros E; inversion E; subst; exact Hg.
Qed.

Lemma forceFourState_diags `{SVIntConstants} c t T c' :
  forceFourState c t = Some (T, c') -> diags c' = diags c.
Proof.
  unfold forceFourState. destruct (isFloating t || isFourState t).
  - intros E. inversion E; subst. reflexivity.
  - apply binaryOperatorType_diags.
Qed.

Lemma bad_node k t range children :
  k <> Invalid -> bad (node k t range children) = isError t.
Proof.
  intros Hk. unfold bad, node. simpl.
  now rewrite bool_decide_eq_false_2.
Qed.

Lemma bad_badExpr e : bad (badExpr e) = true.
Proof. reflexivity. Qed.

Lemma bad_false_not_error e : bad e = false -> isError (type e) = false.
Proof. unfold bad. intros H. now apply orb_false_iff in H as [_ ?]. Qed.

Lemma isError_singleBitOf t : isError (singleBitOf t) = false.
Proof. unfold singleBitOf. now destruct (isFourState t). Qed.

Lemma isError_not_numeric t : isNumeric t = true -> isError t = false.
Proof.
  unfold isNumeric, isIntegral, isFloating, isError.
  destruct (getCanonicalType t); simpl; auto; discriminate.
Qed.

Lemma singleBitOf_facts t :
  getBitWidth (singleBitOf t) = 1 /\ isFourState (singleBitOf t) = isFourState t /\
  isSigned (singleBitOf t) = false /\ isScalar (singleBitOf t) = true.
Proof. unfold singleBitOf. destruct (isFourState t); repeat split. Qed.

(** X1.  A prefix unary operator on an operand that bound without error.  The
    operand is accepted when its type is numeric (integral for [~] and the
    reductions) and, for [++] and [--], when it is an lvalue.  An accepted
    operand gives a unary expression and no diagnostic; its type is the
    operand's for [+], [-], [++] and [--], and for [!], [~] and the
    reductions a single unsigned bit that is four-state exactly when the
    operand is.  A rejected operand gives a bad expression and exactly one
    diagnostic at the operator: ExpressionNotAssignable when [++] or [--] is
    applied to something that is no lvalue (whatever its type),
    BadUnaryExpression otherwise. *)
Theorem UnaryExpression_typing (create : SubBinder) c k location range syntax context
    operand c1 :
  create c syntax context BindFlags_None = Some (operand, c1) ->
  bad operand = false -> isPostfix k = false ->
  let t := type operand in
  let accepted :=
    (if takesIntegralOnly k then isIntegral t else isNumeric t) &&
    (if writesOperand k then isLValue operand else true) in
  exists e c2,
    UnaryExpression_fromSyntax create c k location range syntax context = Some (e, c2) /\
    bad e = negb accepted /\
    (accepted = true ->
       c2 = c1 /\ kind e = UnaryOp /\ operands e = [operand] /\
       (keepsOperandType k = true -> type e = t) /\
       (keepsOperandType k = false ->
          getBitWidth (type e) = 1 /\ isSigned (type e) = false /\
          isScalar (type e) = true /\ isFourState (type e) = isFourState t)) /\
    (accepted = false ->
       diags c2 =
         diags c1 ++
         [{| diagCode := if writesOperand k && negb (isLValue operand)
                         then ExpressionNotAssignable else BadUnaryExpression;
             diagLocation := location |}]).
Proof.
  intros Hbind Hgood Hprefix t accepted.
  pose proof (bad_false_not_error _ Hgood) as Hne. fold t in Hne.
  pose proof (singleBitOf_facts t) as (Hw & H4 & Hs & Hsc).
  pose proof (isError_singleBitOf t) as Hsb.
  unfold UnaryExpression_fromSyntax. rewrite Hbind. cbn [mbind option_bind].
  rewrite Hgood. fold t. unfold accepted.
  destruct k; try discriminate Hprefix; cbn [takesIntegralOnly writesOperand keepsOperandType];
    unfold checkLValue, finishOperator;
    repeat match goal with
    | |- context [isNumeric t] => destruct (isNumeric t) eqn:?
    | |- context [isIntegral t] => destruct (isIntegral t) eqn:?
    | |- context [isLValue operand] => destruct (isLValue operand) eqn:?
    end; cbn [negb andb fst snd];
    eexists _, _; (split; [reflexivity |]);
    rewrite ?bad_badExpr, ?bad_node by discriminate;
    (split; [first [exact Hne | exact Hsb | reflexivity] |]);
    (split; intros Hacc; try discriminate Hacc; try reflexivity);
    repeat split; auto; try discriminate.
Qed.

(** X2.  The postfix operators [++] and [--]: the operand must be an lvalue and of
    a numeric type; the lvalue check comes first, and each failure is one
    diagnostic. *)
Theorem UnaryExpression_postfix_typing (create : SubBinder) c location range syntax context
    operand c1 :
  create c syntax context BindFlags_None = Some (operand, c1) ->
  bad operand = false ->
  exists e c2,
    UnaryExpression_fromPostfixSyntax create c location range syntax context =
      Some (e, c2) /\
    bad e = negb (isLValue operand && isNumeric (type operand)) /\
    (isLValue operand && isNumeric (type operand) = true ->
       c2 = c1 /\ kind e = UnaryOp /\ operands e = [operand] /\ type e = type operand) /\
    (isLValue operand && isNumeric (type operand) = false ->
       diags c2 =
         diags c1 ++
         [{| diagCode := if isLValue operand then BadUnaryExpression
                         else ExpressionNotAssignable;
             diagLocation := location |}]).
Proof.
  intros Hbind Hgood.
  pose proof (bad_false_not_error _ Hgood) as Hne.
  unfold UnaryExpression_fromPostfixSyntax. rewrite Hbind. cbn [mbind option_bind].
  rewrite Hgood. unfold checkLValue, finishOperator.
  destruct (isLValue operand), (isNumeric (type operand)); cbn [negb andb];
    eexists _, _; (split; [reflexivity |]);
    rewrite ?bad_badExpr, ?bad_node by discriminate;
    (split; [first [exact Hne | reflexivity] |]);
    (split; intros Hacc; try discriminate Hacc; try reflexivity);
    repeat split; auto.
Qed.

Lemma typeFacts_inv t w s f r i fl sc :
  typeFacts t = (w, s, f, r, i, fl, sc) ->
  getBitWidth t = w /\ isSigned t = s /\ isFourState t = f /\ isDeclaredReg t = r /\
  isIntegral t = i /\ isFloating t = fl /\ isScalar t = sc.
Proof. unfold typeFacts. intros H. injection H. auto 10. Qed.

Lemma isScalar_width t : isScalar t = true -> getBitWidth t = 1.
Proof. unfold isScalar. induction t; simpl; try discriminate; auto. Qed.

Lemma isFloating_two_state t : isFloating t = true -> isFourState t = false.
Proof. unfold isFloating. induction t; simpl; try discriminate; auto. Qed.

Lemma isIntegral_not_error t : isIntegral t = true -> isError t = false.
Proof. intros H. apply isError_not_numeric. now apply isIntegral_isNumeric. Qed.

Section MoreBinderFacts.
Context {svint : SVIntConstants}.
Hypothesis BITWIDTH_BITS_range : 0 <= BITWIDTH_BITS <= 29.
Variable contextDetermined :
  Compilation -> Expression -> TypeSymbol -> option (Expression * Compilation).
Variable isAssignmentCompatible : TypeSymbol -> TypeSymbol -> bool.
Variable isCastCompatible : TypeSymbol -> TypeSymbol -> bool.
Variable isAggregate : TypeSymbol -> bool.
Variable isEquivalent : TypeSymbol -> TypeSymbol -> bool.
Variable isClass : TypeSymbol -> bool.

Local Abbreviation binaryChoice' :=
  (binaryChoice contextDetermined isAssignmentCompatible isAggregate isEquivalent isClass).
Local Abbreviation BinaryExpression_fromSyntax' :=
  (BinaryExpression_fromSyntax contextDetermined isAssignmentCompatible isAggregate
     isEquivalent isClass).
Local Abbreviation AssignmentExpression_fromSyntax' :=
  (AssignmentExpression_fromSyntax contextDetermined isAssignmentCompatible isCastCompatible).

(** The type [binaryOperatorType] gives two integral operands, by what it
    answers. *)
Lemma binaryOperatorType_facts c lt rt f :
  cacheOk c -> isIntegral lt = true -> isIntegral rt = true ->
  validWidth (getBitWidth lt) -> validWidth (getBitWidth rt) ->
  exists t c',
    binaryOperatorType c lt rt f = Some (t, c') /\
    typeFacts t =
      (Z.max (getBitWidth lt) (getBitWidth rt), isSigned lt && isSigned rt,
       f || isFourState lt || isFourState rt, isDeclaredReg lt && isDeclaredReg rt,
       true, false,
       bool_decide (Z.max (getBitWidth lt) (getBitWidth rt) = 1) &&
       (isScalar lt || isScalar rt)) /\
    cacheOk c' /\ diags c' = diags c.
Proof.
  intros Hc Hl Hr Hwl Hwr.
  destruct (binaryOperatorType_integral_steps BITWIDTH_BITS_range c lt rt f Hc Hl Hr Hwl Hwr)
    as (result & c' & Hb & Hfacts & Hc' & _ & Hd & _).
  eexists _, c'. split; [exact Hb |]. split; [| auto].
  rewrite typeFacts_of_match, Hfacts.
  now rewrite operatorFlags_integral by assumption.
Qed.

(** ... and the type [forceFourState] gives an integral type. *)
Lemma forceFourState_facts c t :
  cacheOk c -> isIntegral t = true -> validWidth (getBitWidth t) ->
  exists T c',
    forceFourState c t = Some (T, c') /\
    getBitWidth T = getBitWidth t /\ isSigned T = isSigned t /\
    isFourState T = true /\ isIntegral T = true /\ isScalar T = isScalar t /\
    cacheOk c' /\ diags c' = diags c.
Proof.
  intros Hc Hi Hw. unfold forceFourState.
  rewrite (isIntegral_not_floating _ Hi). cbn [orb].
  destruct (isFourState t) eqn:H4.
  - exists t, c. repeat split; auto.
  - destruct (binaryOperatorType_facts c t t true Hc Hi Hi Hw Hw)
      as (T & c' & Hb & Hfacts & Hc' & Hd).
    exists T, c'. split; [exact Hb |].
    unfold typeFacts in Hfacts. rewrite Z.max_id, andb_diag, orb_diag in Hfacts.
    injection Hfacts as Hw' Hs' H4' _ Hi' _ Hsc'.
    repeat split; auto.
    rewrite Hsc'. destruct (isScalar t) eqn:Hsc.
    + rewrite (isScalar_width _ Hsc). reflexivity.
    + apply andb_false_r.
Qed.

(** [binaryOperatorType] returns for operands of well-formed types. *)
Lemma binaryOperatorType_total c lt rt f :
  cacheOk c -> wfType lt -> wfType rt ->
  exists t c', binaryOperatorType c lt rt f = Some (t, c') /\
    cacheOk c' /\ diags c' = diags c /\
    (isNumeric lt && isNumeric rt = true -> isNumeric t = true).
Proof.
  intros Hc Hwl Hwr.
  destruct (isNumeric lt && isNumeric rt) eqn:Hnum.
  2:{ exists getErrorType, c. rewrite binaryOperatorType_not_numeric by exact Hnum.
      repeat split; auto; discriminate. }
  apply andb_true_iff in Hnum as [Hnl Hnr].
  destruct (isFloating lt || isFloating rt) eqn:Hfl.
  - destruct (binaryOperatorType_floating lt rt Hnl Hnr Hfl) as (X & HX & Hb).
    exists X, c. rewrite Hb. repeat split; auto.
    intros _. unfold isNumeric. rewrite HX. apply orb_true_r.
  - apply orb_false_iff in Hfl as [Hfl Hfr].
    pose proof (numeric_not_floating_integral _ Hnl Hfl) as Hil.
    pose proof (numeric_not_floating_integral _ Hnr Hfr) as Hir.
    destruct (binaryOperatorType_facts c lt rt f Hc Hil Hir (Hwl Hil) (Hwr Hir))
      as (t & c' & Hb & Hfacts & Hc' & Hd).
    exists t, c'. repeat split; auto.
    intros _. unfold typeFacts in Hfacts. injection Hfacts as _ _ _ _ Hi _ _.
    now apply isIntegral_isNumeric.
Qed.

Lemma binaryChoice_arithmetic k lhs rhs c :
  isArithmeticKind k = true ->
  binaryChoice' k lhs rhs c =
    (λ '(t, c'),
       {| good := if takesIntegralOperands k
                  then isIntegral (type lhs) && isIntegral (type rhs)
                  else isNumeric (type lhs) && isNumeric (type rhs);
          resultType := t; leftOperand := lhs; rightOperand := rhs;
          choiceCompilation := c' |}) <$>
    binaryOperatorType c (type lhs) (type rhs) (forcesFourState k).
Proof.
  intros Hk. destruct k; try discriminate Hk; cbn [binaryChoice];
    destruct (binaryOperatorType _ _ _ _) as [[t c'] |]; reflexivity.
Qed.

Lemma binaryChoice_shift k lhs rhs c :
  isShiftKind k = true ->
  binaryChoice' k lhs rhs c =
    (λ '(t, c'),
       {| good := isIntegral (type lhs) && isIntegral (type rhs);
          resultType := t; leftOperand := lhs; rightOperand := rhs;
          choiceCompilation := c' |}) <$>
    (if isFourState (type rhs) then forceFourState c (type lhs) else Some (type lhs, c)).
Proof.
  intros Hk. destruct k; try discriminate Hk; cbn [binaryChoice];
    destruct (isFourState (type rhs)); try reflexivity;
    destruct (forceFourState _ _) as [[t c'] |]; reflexivity.
Qed.

(** X3.  An arithmetic or bitwise operator on integral operands whose widths are
    positive and below [2 ^ BITWIDTH_BITS], the vector type cache being
    consistent once the operands are bound: the expression is good, no
    diagnostic is added, and its type is as wide as the wider operand, signed
    when both operands are, and four-state when an operand is or the operator
    is [/] or [%]; the cache is consistent afterwards. *)
Theorem BinaryExpression_integral_arithmetic (create : SubBinder) c k location range
    leftSyntax rightSyntax context lhs c1 rhs c2 :
  create c leftSyntax context BindFlags_None = Some (lhs, c1) ->
  create c1 rightSyntax context BindFlags_None = Some (rhs, c2) ->
  bad lhs = false -> bad rhs = false ->
  isIntegral (type lhs) = true -> isIntegral (type rhs) = true ->
  validWidth (getBitWidth (type lhs)) -> validWidth (getBitWidth (type rhs)) ->
  cacheOk c2 -> isArithmeticKind k = true ->
  exists e c3,
    BinaryExpression_fromSyntax' create c k location range leftSyntax rightSyntax context =
      Some (e, c3) /\
    bad e = false /\ kind e = BinaryOp /\ operands e = [lhs; rhs] /\
    diags c3 = diags c2 /\ cacheOk c3 /\
    isIntegral (type e) = true /\
    getBitWidth (type e) = Z.max (getBitWidth (type lhs)) (getBitWidth (type rhs)) /\
    isSigned (type e) = isSigned (type lhs) && isSigned (type rhs) /\
    isFourState (type e) =
      forcesFourState k || isFourState (type lhs) || isFourState (type rhs).
Proof.
  intros Hl Hr Hbl Hbr Hil Hir Hwl Hwr Hc Hk.
  destruct (binaryOperatorType_facts c2 (type lhs) (type rhs) (forcesFourState k)
              Hc Hil Hir Hwl Hwr) as (t & c3 & Hb & Hfacts & Hc3 & Hd).
  unfold typeFacts in Hfacts. injection Hfacts as Hw Hs H4 _ Hi _ _.
  unfold BinaryExpression_fromSyntax.
  rewrite Hl. cbn [mbind option_bind]. rewrite Hr. cbn [mbind option_bind].
  rewrite Hbl, Hbr. cbn [orb].
  rewrite (binaryChoice_arithmetic k lhs rhs c2 Hk), Hb. cbn [fmap option_fmap option_map mbind option_bind].
  rewrite Hil, Hir, (isIntegral_isNumeric _ Hil), (isIntegral_isNumeric _ Hir).
  cbn [andb]. rewrite Tauto.if_same. unfold finishOperator. cbn [negb good resultType
    leftOperand rightOperand choiceCompilation].
  eexists _, _. split; [reflexivity |].
  rewrite bad_node by discriminate. cbn [kind operands type node].
  repeat split; auto. now apply isIntegral_not_error.
Qed.

(** X4.  A shift of integral operands, the width of the left one positive and
    below [2 ^ BITWIDTH_BITS] and the vector type cache consistent once the
    operands are bound, has the type of its left operand, made four-state
    when the right operand is four-state: the width and the sign are the left
    operand's, whatever the right operand's are.  No diagnostic is added and
    the cache is consistent afterwards. *)
Theorem BinaryExpression_shift (create : SubBinder) c k location range
    leftSyntax rightSyntax context lhs c1 rhs c2 :
  create c leftSyntax context BindFlags_None = Some (lhs, c1) ->
  create c1 rightSyntax context BindFlags_None = Some (rhs, c2) ->
  bad lhs = false -> bad rhs = false ->
  isIntegral (type lhs) = true -> isIntegral (type rhs) = true ->
  validWidth (getBitWidth (type lhs)) ->
  cacheOk c2 -> isShiftKind k = true ->
  exists e c3,
    BinaryExpression_fromSyntax' create c k location range leftSyntax rightSyntax context =
      Some (e, c3) /\
    bad e = false /\ kind e = BinaryOp /\ operands e = [lhs; rhs] /\
    diags c3 = diags c2 /\ cacheOk c3 /\
    (isFourState (type rhs) = false -> type e = type lhs /\ c3 = c2) /\
    isIntegral (type e) = true /\
    getBitWidth (type e) = getBitWidth (type lhs) /\
    isSigned (type e) = isSigned (type lhs) /\
    isFourState (type e) = isFourState (type lhs) || isFourState (type rhs).
Proof.
  intros Hl Hr Hbl Hbr Hil Hir Hwl Hc Hk.
  unfold BinaryExpression_fromSyntax.
  rewrite Hl. cbn [mbind option_bind]. rewrite Hr. cbn [mbind option_bind].
  rewrite Hbl, Hbr. cbn [orb].
  rewrite (binaryChoice_shift k lhs rhs c2 Hk). rewrite Hil, Hir. cbn [andb].
  destruct (isFourState (type rhs)) eqn:H4r.
  - destruct (forceFourState_facts c2 (type lhs) Hc Hil Hwl)
      as (T & c3 & Hf & Hw & Hs & H4 & Hi & _ & Hc3 & Hd).
    rewrite Hf. cbn [fmap option_fmap option_map mbind option_bind].
    unfold finishOperator. cbn [negb good resultType leftOperand rightOperand
      choiceCompilation].
    eexists _, _. split; [reflexivity |].
    rewrite bad_node by discriminate. cbn [kind operands type node].
    rewrite orb_true_r.
    repeat split; auto; try discriminate. now apply isIntegral_not_error.
  - cbn [fmap option_fmap option_map mbind option_bind].
    unfold finishOperator. cbn [negb good resultType leftOperand rightOperand
      choiceCompilation].
    eexists _, _. split; [reflexivity |].
    rewrite bad_node by discriminate. cbn [kind operands type node].
    rewrite orb_false_r.
    repeat split; auto. now apply isIntegral_not_error.
Qed.

Lemma forceFourState_total c t :
  cacheOk c -> wfType t ->
  exists T c', forceFourState c t = Some (T, c') /\ cacheOk c' /\ diags c' = diags c.
Proof.
  intros Hc Hw. unfold forceFourState.
  destruct (isFloating t || isFourState t).
  - exists t, c. auto.
  - destruct (binaryOperatorType_total c t t true Hc Hw Hw) as (T & c' & Hb & Hc' & Hd & _).
    exists T, c'. auto.
Qed.

Lemma singleBitType_cases lt rt :
  singleBitType lt rt = if isFourState lt || isFourState rt then getLogicType else getBitType.
Proof. reflexivity. Qed.

(** X5.  The comparisons and the logical operators on numeric operands.  The
    result is a single bit, [logic] or [bit]: never four-state for [===] and
    [!==], four-state with the left operand for [==?] and [!=?], and
    four-state when either operand is for the others.  The logical operators
    leave their operands as they are; for the relational operators and the
    equalities both operands are propagated to
    [binaryOperatorType lt rt false]. *)
Theorem BinaryExpression_comparison (create : SubBinder) c k location range
    leftSyntax rightSyntax context lhs c1 rhs c2 :
  create c leftSyntax context BindFlags_None = Some (lhs, c1) ->
  create c1 rightSyntax context BindFlags_None = Some (rhs, c2) ->
  bad lhs = false -> bad rhs = false ->
  isNumeric (type lhs) = true -> isNumeric (type rhs) = true ->
  wfType (type lhs) -> wfType (type rhs) -> cacheOk c2 ->
  (forall c0 e t, is_Some (contextDetermined c0 e t)) ->
  isRelationalKind k || isLogicalKind k || isEqualityKind k = true ->
  exists e c3,
    BinaryExpression_fromSyntax' create c k location range leftSyntax rightSyntax context =
      Some (e, c3) /\
    bad e = false /\ kind e = BinaryOp /\
    type e = (if comparisonIsFourState k (type lhs) (type rhs)
              then getLogicType else getBitType) /\
    (isLogicalKind k = true -> operands e = [lhs; rhs] /\ c3 = c2) /\
    (isLogicalKind k = false ->
       exists nt c' lhs' c'' rhs',
         binaryOperatorType c2 (type lhs) (type rhs) false = Some (nt, c') /\
         contextDetermined c' lhs nt = Some (lhs', c'') /\
         contextDetermined c'' rhs nt = Some (rhs', c3) /\
         operands e = [lhs'; rhs']).
Proof.
  intros Hl Hr Hbl Hbr Hnl Hnr Hwl Hwr Hc Htotal Hk.
  destruct (binaryOperatorType_total c2 (type lhs) (type rhs) false Hc Hwl Hwr)
    as (nt & c' & Hb & _).
  destruct (Htotal c' lhs nt) as [[lhs' c''] Hcl].
  destruct (Htotal c'' rhs nt) as [[rhs' c3] Hcr].
  unfold BinaryExpression_fromSyntax.
  rewrite Hl. cbn [mbind option_bind]. rewrite Hr. cbn [mbind option_bind].
  rewrite Hbl, Hbr. cbn [orb].
  destruct k; try discriminate Hk;
    cbn [binaryChoice comparisonIsFourState isLogicalKind];
    unfold propagateOperands;
    rewrite ?Hnl, ?Hnr; cbn [andb];
    rewrite ?Hb; cbn [mbind option_bind]; rewrite ?Hcl; cbn [mbind option_bind];
    rewrite ?Hcr; cbn [mbind option_bind];
    unfold finishOperator; cbn [negb good resultType leftOperand rightOperand
      choiceCompilation];
    eexists _, _; (split; [reflexivity |]);
    rewrite bad_node by discriminate; cbn [kind operands type node];
    rewrite ?singleBitType_cases; unfold singleBitOf;
    (split; [repeat match goal with |- context [if ?b then _ else _] => destruct b end;
             reflexivity |]);
    (split; [reflexivity |]);
    (split; [first [reflexivity
                   | rewrite ?bool_decide_eq_true_2 by reflexivity;
                     rewrite ?bool_decide_eq_false_2 by discriminate; reflexivity] |]);
    (split; intros Hlogical; try discriminate Hlogical; auto);
    exists nt, c', lhs', c'', rhs'; auto.
Qed.

(** X6.  [**] on numeric operands, the left type well formed (if it is integral,
    its width is positive and below [2 ^ BITWIDTH_BITS]) and the vector type
    cache consistent once the operands are bound: the type is the left
    operand's, forced four-state when it is integral; the right operand's
    type does not enter, and no diagnostic is added. *)
Theorem BinaryExpression_power (create : SubBinder) c location range
    leftSyntax rightSyntax context lhs c1 rhs c2 :
  create c leftSyntax context BindFlags_None = Some (lhs, c1) ->
  create c1 rightSyntax context BindFlags_None = Some (rhs, c2) ->
  bad lhs = false -> bad rhs = false ->
  isNumeric (type lhs) = true -> isNumeric (type rhs) = true ->
  wfType (type lhs) -> cacheOk c2 ->
  exists e c3,
    BinaryExpression_fromSyntax' create c PowerExpression location range
      leftSyntax rightSyntax context = Some (e, c3) /\
    bad e = false /\ kind e = BinaryOp /\ operands e = [lhs; rhs] /\
    diags c3 = diags c2 /\
    (isFloating (type lhs) = true -> type e = type lhs) /\
    (isIntegral (type lhs) = true ->
       getBitWidth (type e) = getBitWidth (type lhs) /\
       isSigned (type e) = isSigned (type lhs) /\ isFourState (type e) = true).
Proof.
  intros Hl Hr Hbl Hbr Hnl Hnr Hwl Hc.
  unfold BinaryExpression_fromSyntax.
  rewrite Hl. cbn [mbind option_bind]. rewrite Hr. cbn [mbind option_bind].
  rewrite Hbl, Hbr. cbn [orb binaryChoice]. rewrite Hnl, Hnr. cbn [andb].
  destruct (isFloating (type lhs)) eqn:Hfl.
  - unfold forceFourState. rewrite Hfl. cbn [orb fmap option_fmap option_map mbind option_bind].
    unfold finishOperator. cbn [negb good resultType leftOperand rightOperand
      choiceCompilation].
    eexists _, _. split; [reflexivity |].
    rewrite bad_node by discriminate. cbn [kind operands type node].
    repeat split; auto; try (now apply isError_not_numeric).
    all: match goal with
         | H : isIntegral _ = true |- _ => apply isIntegral_not_floating in H; congruence
         end.
  - pose proof (numeric_not_floating_integral _ Hnl Hfl) as Hil.
    destruct (forceFourState_facts c2 (type lhs) Hc Hil (Hwl Hil))
      as (T & c3 & Hf & Hw & Hs & H4 & Hi & _ & Hc3 & Hd).
    rewrite Hf. cbn [fmap option_fmap option_map mbind option_bind].
    unfold finishOperator. cbn [negb good resultType leftOperand rightOperand
      choiceCompilation].
    eexists _, _. split; [reflexivity |].
    rewrite bad_node by discriminate. cbn [kind operands type node].
    repeat split; auto; try discriminate. now apply isIntegral_not_error.
Qed.

(** X7.  Where the operand types do not fit the operator.  [%], the bitwise
    operators and the shifts take integral operands only; the other
    arithmetic operators, [**] and the logical operators take numeric
    operands.  Operands that bound without error but do not fit give a bad
    expression and exactly one diagnostic, BadBinaryExpression at the
    operator. *)
Theorem BinaryExpression_rejects (create : SubBinder) c k location range
    leftSyntax rightSyntax context lhs c1 rhs c2 :
  create c leftSyntax context BindFlags_None = Some (lhs, c1) ->
  create c1 rightSyntax context BindFlags_None = Some (rhs, c2) ->
  bad lhs = false -> bad rhs = false ->
  wfType (type lhs) -> wfType (type rhs) -> cacheOk c2 ->
  isArithmeticKind k || isShiftKind k || isLogicalKind k ||
    bool_decide (k = PowerExpression) = true ->
  (if takesIntegralOperands k
   then isIntegral (type lhs) && isIntegral (type rhs)
   else isNumeric (type lhs) && isNumeric (type rhs)) = false ->
  exists e c3,
    BinaryExpression_fromSyntax' create c k location range leftSyntax rightSyntax context =
      Some (e, c3) /\
    bad e = true /\
    diags c3 =
      diags c2 ++ [{| diagCode := BadBinaryExpression; diagLocation := location |}].
Proof.
  intros Hl Hr Hbl Hbr Hwl Hwr Hc Hk Hrej.
  unfold BinaryExpression_fromSyntax.
  rewrite Hl. cbn [mbind option_bind]. rewrite Hr. cbn [mbind option_bind].
  rewrite Hbl, Hbr. cbn [orb].
  destruct (isArithmeticKind k) eqn:Harith.
  { destruct (binaryOperatorType_total c2 (type lhs) (type rhs) (forcesFourState k)
                Hc Hwl Hwr) as (t & c3 & Hb & _ & Hd & _).
    rewrite (binaryChoice_arithmetic k lhs rhs c2 Harith), Hb.
    cbn [fmap option_fmap option_map mbind option_bind]. rewrite Hrej.
    unfold finishOperator. cbn [negb good resultType leftOperand rightOperand
      choiceCompilation].
    eexists _, _. split; [reflexivity |]. split; [reflexivity |].
    simpl. now rewrite Hd. }
  destruct (isShiftKind k) eqn:Hshift.
  { rewrite (binaryChoice_shift k lhs rhs c2 Hshift).
    assert (Htakes : takesIntegralOperands k = true)
      by (destruct k; try discriminate Hshift; reflexivity).
    rewrite Htakes in Hrej. rewrite Hrej.
    destruct (forceFourState_total c2 (type lhs) Hc Hwl) as (T & c3 & Hf & _ & Hd).
    destruct (isFourState (type rhs)); rewrite ?Hf;
      cbn [fmap option_fmap option_map mbind option_bind];
      unfold finishOperator; cbn [negb good resultType leftOperand rightOperand
        choiceCompilation];
      eexists _, _; (split; [reflexivity |]); (split; [reflexivity |]);
      simpl; now rewrite ?Hd. }
  destruct (forceFourState_total c2 (type lhs) Hc Hwl) as (T & c3 & Hf & _ & Hd).
  destruct k; try discriminate Hk; try discriminate Harith; try discriminate Hshift;
    cbn [binaryChoice takesIntegralOperands isShiftKind] in *;
    rewrite ?Hrej, ?Hf; cbn [fmap option_fmap option_map mbind option_bind];
    unfold finishOperator; cbn [negb good resultType leftOperand rightOperand
      choiceCompilation];
    eexists _, _; (split; [reflexivity |]); (split; [reflexivity |]);
    simpl; now rewrite ?Hd.
Qed.

(** X8.  An operand that is a bad expression makes the expression bad and adds no
    diagnostic: the compilation is the one the operands left.  Both operands
    of a binary expression or an assignment are bound before either is looked
    at. *)
Theorem operators_do_not_cascade (create selfDetermined : SubBinder) c location range
    context :
  (forall k syntax operand c1,
     create c syntax context BindFlags_None = Some (operand, c1) -> bad operand = true ->
     exists e,
       UnaryExpression_fromSyntax create c k location range syntax context = Some (e, c1) /\
       UnaryExpression_fromPostfixSyntax create c location range syntax context =
         Some (e, c1) /\
       bad e = true) /\
  (forall k leftSyntax rightSyntax lhs c1 rhs c2,
     create c leftSyntax context BindFlags_None = Some (lhs, c1) ->
     create c1 rightSyntax context BindFlags_None = Some (rhs, c2) ->
     bad lhs || bad rhs = true ->
     exists e,
       BinaryExpression_fromSyntax' create c k location range leftSyntax rightSyntax
         context = Some (e, c2) /\
       bad e = true) /\
  (forall leftSyntax rightSyntax lhs c1 rhs c2,
     selfDetermined c leftSyntax context BindFlags_None = Some (lhs, c1) ->
     create c1 rightSyntax context BindFlags_None = Some (rhs, c2) ->
     bad lhs || bad rhs = true ->
     exists e,
       AssignmentExpression_fromSyntax' selfDetermined create c location range
         leftSyntax rightSyntax context = Some (e, c2) /\
       bad e = true) /\
  (forall value syntax selectorRange selector c1,
     selfDetermined c syntax context BindFlags_None = Some (selector, c1) ->
     bad value || bad selector = true ->
     exists e,
       ElementSelectExpression_fromSyntax selfDetermined c value syntax selectorRange range
         context = Some (e, c1) /\
       bad e = true).
Proof.
  split; [| split; [| split]].
  - intros k syntax operand c1 Hb Hbad.
    unfold UnaryExpression_fromSyntax, UnaryExpression_fromPostfixSyntax.
    rewrite Hb. cbn [mbind option_bind]. rewrite Hbad. eauto.
  - intros k ls rs lhs c1 rhs c2 Hl Hr Hbad. unfold BinaryExpression_fromSyntax.
    rewrite Hl. cbn [mbind option_bind]. rewrite Hr. cbn [mbind option_bind].
    rewrite Hbad. eauto.
  - intros ls rs lhs c1 rhs c2 Hl Hr Hbad. unfold AssignmentExpression_fromSyntax.
    rewrite Hl. cbn [mbind option_bind]. rewrite Hr. cbn [mbind option_bind].
    rewrite Hbad. eauto.
  - intros value syntax selectorRange selector c1 Hs Hbad.
    unfold ElementSelectExpression_fromSyntax.
    rewrite Hs. cbn [mbind option_bind]. rewrite Hbad. eauto.
Qed.

Local Abbreviation convertAssignment'' :=
  (convertAssignment contextDetermined isAssignmentCompatible isCastCompatible).

Lemma convertAssignment_integral c T e location :
  cacheOk c -> isAssignmentCompatible T (type e) = true ->
  isIntegral T = true -> isIntegral (type e) = true ->
  validWidth (getBitWidth T) -> validWidth (getBitWidth (type e)) ->
  exists rt c1,
    binaryOperatorType c T (type e) false = Some (rt, c1) /\ diags c1 = diags c /\
    forall e' c2, contextDetermined c1 e rt = Some (e', c2) ->
      convertAssignment'' c T e location =
        Some (if bool_decide (getBitWidth (type e) > getBitWidth T)
              then convert IntTruncation T e' else e', c2).
Proof.
  intros Hc Hyes HiT Hie HwT Hwe.
  destruct (binaryOperatorType_facts c T (type e) false Hc HiT Hie HwT Hwe)
    as (rt & c1 & Hb & Hfacts & _ & Hd).
  unfold typeFacts in Hfacts. injection Hfacts as Hw _ _ _ _ _ _.
  exists rt, c1. split; [exact Hb |]. split; [exact Hd |].
  intros e' c2 Hcd. unfold convertAssignment.
  rewrite Hyes. cbn [negb]. rewrite Hb. cbn [mbind option_bind].
  rewrite Hcd. cbn [mbind option_bind]. rewrite Hw.
  destruct (bool_decide (getBitWidth (type e) > getBitWidth T)) eqn:E.
  - apply bool_decide_eq_true in E. now rewrite bool_decide_eq_true_2 by lia.
  - apply bool_decide_eq_false in E. now rewrite bool_decide_eq_false_2 by lia.
Qed.

(** X9.  An assignment whose two sides bound without error.  The left side must
    be an lvalue: if it is not, the one diagnostic is ExpressionNotAssignable
    and the types are not compared.  If it is and the types are not
    assignment compatible, the one diagnostic is that of the conversion.  If
    they are compatible integral types with widths positive and below
    [2 ^ BITWIDTH_BITS], and the vector type cache is consistent once both
    sides are bound, [binaryOperatorType] of the two types returns without a
    diagnostic; and whenever propagating its result into the right side
    returns a good expression, the assignment expression has the type of its
    left side, and its right side is the propagated right expression, under
    one IntTruncation conversion to the left side's type exactly when it is
    wider than the left side. *)
Theorem AssignmentExpression_checks (selfDetermined create : SubBinder) c location range
    leftSyntax rightSyntax context lhs c1 rhs c2 :
  selfDetermined c leftSyntax context BindFlags_None = Some (lhs, c1) ->
  create c1 rightSyntax context BindFlags_None = Some (rhs, c2) ->
  bad lhs = false -> bad rhs = false ->
  (isLValue lhs = false ->
     exists e,
       AssignmentExpression_fromSyntax' selfDetermined create c location range
         leftSyntax rightSyntax context =
         Some (e, addError c2 ExpressionNotAssignable location) /\
       bad e = true) /\
  (isLValue lhs = true -> isAssignmentCompatible (type lhs) (type rhs) = false ->
     exists e,
       AssignmentExpression_fromSyntax' selfDetermined create c location range
         leftSyntax rightSyntax context =
         Some (e, addError c2 (if isCastCompatible (type lhs) (type rhs)
                               then NoImplicitConversion else BadAssignment) location) /\
       bad e = true) /\
  (isLValue lhs = true -> isAssignmentCompatible (type lhs) (type rhs) = true ->
   isIntegral (type lhs) = true -> isIntegral (type rhs) = true ->
   validWidth (getBitWidth (type lhs)) -> validWidth (getBitWidth (type rhs)) ->
   cacheOk c2 ->
     exists rt c3,
       binaryOperatorType c2 (type lhs) (type rhs) false = Some (rt, c3) /\
       diags c3 = diags c2 /\
       forall rhs' c4, contextDetermined c3 rhs rt = Some (rhs', c4) -> bad rhs' = false ->
         exists e,
           AssignmentExpression_fromSyntax' selfDetermined create c location range
             leftSyntax rightSyntax context = Some (e, c4) /\
           bad e = false /\ kind e = Assignment /\ type e = type lhs /\
           operands e =
             [lhs; if bool_decide (getBitWidth (type rhs) > getBitWidth (type lhs))
                   then convert IntTruncation (type lhs) rhs' else rhs']).
Proof.
  intros Hl Hr Hbl Hbr.
  pose proof (bad_false_not_error _ Hbl) as Hne.
  assert (Hstart : AssignmentExpression_fromSyntax' selfDetermined create c location range
            leftSyntax rightSyntax context =
          let '(assignable, c') := checkLValue c2 lhs location in
          if negb assignable
          then Some (badExpr (Some (node Assignment (type lhs) range [lhs; rhs])), c')
          else
            '(converted, c'') ← convertAssignment'' c' (type lhs) rhs location;
            if bad converted
            then Some (badExpr (Some (node Assignment (type lhs) range [lhs; converted])), c'')
            else Some (node Assignment (type lhs) range [lhs; converted], c'')).
  { unfold AssignmentExpression_fromSyntax.
    rewrite Hl. cbn [mbind option_bind]. rewrite Hr. cbn [mbind option_bind].
    rewrite Hbl, Hbr. reflexivity. }
  rewrite Hstart. unfold checkLValue.
  split; [| split].
  - intros Hlv. rewrite Hlv. cbn [negb]. eauto.
  - intros Hlv Hno. rewrite Hlv. cbn [negb].
    unfold convertAssignment. rewrite Hno. cbn [negb mbind option_bind].
    eauto.
  - intros Hlv Hyes Hil Hir Hwl Hwr Hc. rewrite Hlv. cbn [negb].
    destruct (convertAssignment_integral c2 (type lhs) rhs location Hc Hyes Hil Hir Hwl Hwr)
      as (rt & c3 & Hb & Hd & Hconv).
    exists rt, c3. split; [exact Hb |]. split; [exact Hd |].
    intros rhs' c4 Hcd Hgood. rewrite (Hconv rhs' c4 Hcd). cbn [mbind option_bind].
    assert (Hbc : bad (if bool_decide (getBitWidth (type rhs) > getBitWidth (type lhs))
                       then convert IntTruncation (type lhs) rhs' else rhs') = false).
    { destruct (bool_decide _); [| exact Hgood].
      unfold bad, convert. simpl. exact Hne. }
    rewrite Hbc. eexists. split; [reflexivity |].
    rewrite bad_node by discriminate. auto.
Qed.

(** X10.  A bit select [value[selector]] whose two parts bound without error.  The
    value's type is looked at first: a type that is not integral gives
    BadIndexExpression and a scalar gives CannotIndexScalar; only then a
    selector that is not integral gives IndexMustBeIntegral; each is the one
    diagnostic added, with a bad expression.  Otherwise no diagnostic is
    added and the select has the element type of a packed array, and for
    another integral type a single bit that is four-state when the value
    is. *)
Theorem ElementSelectExpression_typing (selfDetermined : SubBinder) c value syntax
    selectorRange fullRange context selector c1 :
  selfDetermined c syntax context BindFlags_None = Some (selector, c1) ->
  bad value = false -> bad selector = false ->
  let valueType := getCanonicalType (type value) in
  exists e c2,
    ElementSelectExpression_fromSyntax selfDetermined c value syntax selectorRange
      fullRange context = Some (e, c2) /\
    (isIntegral valueType = false ->
       bad e = true /\ c2 = addError c1 BadIndexExpression (rangeStart selectorRange)) /\
    (isScalar valueType = true ->
       bad e = true /\ c2 = addError c1 CannotIndexScalar (rangeStart selectorRange)) /\
    (isIntegral valueType = true -> isScalar valueType = false ->
     isIntegral (type selector) = false ->
       bad e = true /\
       c2 = addError c1 IndexMustBeIntegral (rangeStart (sourceRange selector))) /\
    (isIntegral valueType = true -> isScalar valueType = false ->
     isIntegral (type selector) = true ->
       c2 = c1 /\ kind e = ElementSelect /\ operands e = [value; selector] /\
       (forall a elementType r, valueType = PackedArrayType a elementType r ->
          type e = elementType) /\
       (forall integerKind, valueType = PredefinedIntegerType integerKind ->
          type e = (if isFourState valueType then getLogicType else getBitType) /\
          bad e = false)).
Proof.
  intros Hs Hbv Hbs valueType.
  unfold ElementSelectExpression_fromSyntax.
  rewrite Hs. cbn [mbind option_bind]. rewrite Hbv, Hbs. cbn [orb]. fold valueType.
  assert (Hscalar : isScalar valueType = true -> isIntegral valueType = true).
  { unfold isScalar, isIntegral. destruct (getCanonicalType valueType); auto; discriminate. }
  destruct (isIntegral valueType) eqn:Hi; cbn [negb].
  2:{ eexists _, _. split; [reflexivity |].
      repeat split; auto; try discriminate.
      all: match goal with
           | H : isScalar _ = true |- _ => apply Hscalar in H; discriminate
           | |- isScalar _ = true -> _ =>
               let X := fresh in intros X; apply Hscalar in X; discriminate
           end. }
  destruct (isScalar valueType) eqn:Hsc.
  { eexists _, _. split; [reflexivity |]. repeat split; auto; discriminate. }
  destruct (isIntegral (type selector)) eqn:His; cbn [negb].
  2:{ eexists _, _. split; [reflexivity |]. repeat split; auto; discriminate. }
  eexists _, _. split; [reflexivity |].
  split; [discriminate |]. split; [discriminate |]. split; [discriminate |].
  intros _ _ _. split; [reflexivity |]. split; [reflexivity |]. split; [reflexivity |].
  split.
  - intros a elementType r E. cbn [type node]. now rewrite E.
  - intros integerKind E. cbn [type node]. rewrite E. split; [reflexivity |].
    rewrite bad_node by discriminate. apply isError_singleBitOf.
Qed.

End MoreBinderFacts.

(** ** Concatenations and replications *)

Lemma getBitWidth_nonneg t : 0 <= getBitWidth t.
Proof.
  induction t; simpl; try lia.
  - destruct integerKind; lia.
  - destruct floatKind; lia.
  - unfold uint32. apply Z.mod_pos_bound. lia.
Qed.

Section ConcatenationFacts.
Context {svint : SVIntConstants}.
Hypothesis BITWIDTH_BITS_range : 0 <= BITWIDTH_BITS <= 29.
Variable selfDetermined : SubBinder.

Lemma operandWidths_nonneg args : forall bound, 0 <= operandWidths args bound.
Proof.
  induction args as [| a args IH]; intros [| b bound]; simpl; try lia.
  specialize (IH bound). unfold operandWidth.
  pose proof (getBitWidth_nonneg (type b)). destruct (isVoidReplication a b); lia.
Qed.

(** The loop over a run of operands it takes without a diagnostic, followed
    by any others: the state before the others. *)
Lemma concatLoop_prefix range context rest args : forall st bound c1,
  bindOperands selfDetermined context (concatCompilation st) args = Some (bound, c1) ->
  Forall2 concatenable args bound ->
  0 <= totalWidth st -> totalWidth st + operandWidths args bound < 2 ^ 32 ->
  concatLoop selfDetermined range context st (args ++ rest) =
    concatLoop selfDetermined range context
      {| errored := errored st;
         concatFlags :=
           {| Signed := Signed (concatFlags st);
              FourState := FourState (concatFlags st) ||
                           existsb (λ arg, isFourState (type arg)) bound;
              RegFlag := RegFlag (concatFlags st) |};
         totalWidth := totalWidth st + operandWidths args bound;
         buffer := buffer st ++ bound;
         concatCompilation := c1 |} rest.
Proof.
  induction args as [| argSyntax args IH]; intros st bound c1 Hbind Hall Hpos Hsum.
  - simpl in Hbind. inversion Hbind; subst. simpl.
    rewrite orb_false_r, Z.add_0_r, app_nil_r. now destruct st as [? [? ? ?] ? ? ?].
  - cbn [bindOperands] in Hbind.
    destruct (if isMultipleConcatenation argSyntax
              then selfDetermined (concatCompilation st) argSyntax context
                     BindFlags_InsideConcatenation
              else selfDetermined (concatCompilation st) argSyntax context BindFlags_None)
      as [[arg c'] |] eqn:Harg; [| discriminate].
    cbn [mbind option_bind] in Hbind.
    destruct (bindOperands selfDetermined context c' args) as [[bound' c''] |] eqn:Hrest;
      [| discriminate].
    cbn [mbind option_bind] in Hbind. inversion Hbind; subst. clear Hbind.
    apply Forall2_cons in Hall as [[Hgood Hkind] Hall].
    cbn [operandWidths] in Hsum.
    pose proof (getBitWidth_nonneg (type arg)) as Hw.
    pose proof (operandWidths_nonneg args bound') as Hrestpos.
    rewrite <- app_comm_cons.
    cbn [concatLoop]. unfold concatArgument. rewrite Harg. cbn [mbind option_bind].
    rewrite Hgood. unfold operandWidth in *. unfold isVoidReplication in *.
    destruct (isVoid (type arg) && isMultipleConcatenation argSyntax) eqn:Hvoid.
    + cbn [mbind option_bind fst snd].
      rewrite (IH {| errored := errored st; concatFlags := concatFlags st;
                     totalWidth := totalWidth st; buffer := buffer st ++ [arg];
                     concatCompilation := c' |} bound' c1 Hrest Hall Hpos) by (simpl; lia).
      cbn [errored concatFlags totalWidth buffer concatCompilation existsb].
      assert (isFourState (type arg) = false) as ->.
      { apply andb_true_iff in Hvoid as [Hv _]. revert Hv. clear. unfold isVoid.
        induction (type arg); simpl; try discriminate; auto. }
      cbn [operandWidths]. unfold operandWidth, isVoidReplication. rewrite Hvoid.
      rewrite <- app_assoc, Z.add_0_l. reflexivity.
    + destruct Hkind as [Hk | Hi]; [discriminate |].
      rewrite Hi. cbn [negb].
      assert (Hnew : uint32 (totalWidth st + getBitWidth (type arg)) =
                     totalWidth st + getBitWidth (type arg))
        by (unfold uint32; apply Z.mod_small; lia).
      rewrite Hnew, bool_decide_eq_false_2 by lia. cbn [mbind option_bind fst snd].
      rewrite (IH {| errored := errored st;
                     concatFlags :=
                       {| Signed := Signed (concatFlags st);
                          FourState := FourState (concatFlags st) || isFourState (type arg);
                          RegFlag := RegFlag (concatFlags st) |};
                     totalWidth := totalWidth st + getBitWidth (type arg);
                     buffer := buffer st ++ [arg];
                     concatCompilation := c' |} bound' c1 Hrest Hall) by (simpl; lia).
      cbn [errored concatFlags totalWidth buffer concatCompilation existsb
           Signed FourState RegFlag].
      cbn [operandWidths]. unfold operandWidth, isVoidReplication. rewrite Hvoid.
      rewrite <- app_assoc, orb_assoc, Z.add_assoc. reflexivity.
Qed.

Lemma concatLoop_concatenable range context args st bound c1 :
  bindOperands selfDetermined context (concatCompilation st) args = Some (bound, c1) ->
  Forall2 concatenable args bound ->
  0 <= totalWidth st -> totalWidth st + operandWidths args bound < 2 ^ 32 ->
  concatLoop selfDetermined range context st args =
    Some {| errored := errored st;
            concatFlags :=
              {| Signed := Signed (concatFlags st);
                 FourState := FourState (concatFlags st) ||
                              existsb (λ arg, isFourState (type arg)) bound;
                 RegFlag := RegFlag (concatFlags st) |};
            totalWidth := totalWidth st + operandWidths args bound;
            buffer := buffer st ++ bound;
            concatCompilation := c1 |}.
Proof.
  intros Hbind Hall Hpos Hsum.
  rewrite <- (app_nil_r args) at 1.
  now rewrite (concatLoop_prefix range context [] args st bound c1 Hbind Hall Hpos Hsum).
Qed.

(** X11.  A concatenation whose operands all bound without error, each a void
    replication or of an integral type, with fewer than 2^32 bits in all,
    the vector type cache being consistent once the operands are bound.
    When the sum of the widths of its operands, a void replication counting
    as zero, is positive and below [2 ^ BITWIDTH_BITS], that sum is its
    width; it is unsigned, and four-state exactly when an operand is; no
    diagnostic is added.  When the sum is zero (no operand, or void
    replications only) the assertion [width > 0] of [getType] fails. *)
Theorem ConcatenationExpression_typing c range args context bound c1 :
  bindOperands selfDetermined context c args = Some (bound, c1) ->
  Forall2 concatenable args bound ->
  operandWidths args bound < 2 ^ 32 ->
  cacheOk c1 ->
  (validWidth (operandWidths args bound) ->
     exists e c2,
       ConcatenationExpression_fromSyntax selfDetermined c range args context =
         Some (e, c2) /\
       bad e = false /\ kind e = Concatenation /\ operands e = bound /\
       diags c2 = diags c1 /\
       getBitWidth (type e) = operandWidths args bound /\
       isSigned (type e) = false /\
       isFourState (type e) = existsb (λ arg, isFourState (type arg)) bound) /\
  (operandWidths args bound = 0 ->
     ConcatenationExpression_fromSyntax selfDetermined c range args context = None).
Proof.
  intros Hbind Hall Hsum Hc.
  pose proof (concatLoop_concatenable range context args
                {| errored := false; concatFlags := NoFlags; totalWidth := 0;
                   buffer := []; concatCompilation := c |} bound c1 Hbind Hall) as Hloop.
  cbn [errored concatFlags totalWidth buffer concatCompilation
       Signed FourState RegFlag NoFlags] in Hloop.
  rewrite Z.add_0_l in Hloop. specialize (Hloop ltac:(lia) Hsum).
  unfold ConcatenationExpression_fromSyntax. rewrite Hloop.
  cbn [mbind option_bind errored concatFlags totalWidth buffer concatCompilation app orb].
  split.
  - intros Hw.
    pose (flags := {| Signed := false;
                      FourState := existsb (λ arg, isFourState (type arg)) bound;
                      RegFlag := false |}).
    assert (Hs : exists s, getScalarType flags = Some s)
      by (apply getScalarType_valid; discriminate).
    destruct Hs as [s Hs].
    destruct (getType_spec BITWIDTH_BITS_range c1 _ flags s Hc Hw Hs)
      as (a & c2 & Hg & _ & _ & _ & _ & Hd).
    fold flags. rewrite Hg. cbn [mbind option_bind].
    eexists _, _. split; [reflexivity |].
    pose proof (vectorType_facts BITWIDTH_BITS_range a _ flags s Hw Hs) as Hfacts.
    apply typeFacts_inv in Hfacts as (Hwd & Hsg & H4 & _ & Hi & _ & _).
    unfold bad. cbn [kind type operands]. rewrite bool_decide_eq_false_2 by discriminate.
    rewrite (isIntegral_not_error _ Hi). repeat split; auto.
  - intros Hzero. rewrite Hzero. unfold getType.
    rewrite bool_decide_eq_false_2 by lia. reflexivity.
Qed.

(** X12.  Where the loop of a concatenation stops.  After operands it took without
    a diagnostic, an operand that is a bad expression ends the loop: the
    concatenation is bad, nothing is reported for it, and the operands after
    it are not bound.  An operand whose bits bring the sum to 2^32 or more
    ends the loop too, with the one diagnostic ValueExceedsMaxBitWidth at the
    concatenation.  A good operand that is neither integral nor a void
    replication is reported with BadConcatExpression, and the loop goes on to
    bind the operands after it. *)
Theorem ConcatenationExpression_stops c range args context bound c1 argSyntax arg c2 rest :
  bindOperands selfDetermined context c args = Some (bound, c1) ->
  Forall2 concatenable args bound ->
  operandWidths args bound < 2 ^ 32 ->
  (if isMultipleConcatenation argSyntax
   then selfDetermined c1 argSyntax context BindFlags_InsideConcatenation
   else selfDetermined c1 argSyntax context BindFlags_None) = Some (arg, c2) ->
  (bad arg = true ->
     exists e,
       ConcatenationExpression_fromSyntax selfDetermined c range
         (args ++ argSyntax :: rest) context = Some (e, c2) /\
       bad e = true) /\
  (bad arg = false -> isIntegral (type arg) = true ->
   2 ^ 32 <= operandWidths args bound + getBitWidth (type arg) ->
     exists e,
       ConcatenationExpression_fromSyntax selfDetermined c range
         (args ++ argSyntax :: rest) context =
         Some (e, addError c2 ValueExceedsMaxBitWidth (rangeStart range)) /\
       bad e = true) /\
  (bad arg = false -> isIntegral (type arg) = false ->
   isVoidReplication argSyntax arg = false ->
   forall others c3,
     bindOperands selfDetermined context
       (addError c2 BadConcatExpression (rangeStart (sourceRange arg))) rest =
       Some (others, c3) ->
     Forall2 concatenable rest others ->
     operandWidths args bound + operandWidths rest others < 2 ^ 32 ->
     exists e,
       ConcatenationExpression_fromSyntax selfDetermined c range
         (args ++ argSyntax :: rest) context = Some (e, c3) /\
       bad e = true).
Proof.
  intros Hbind Hall Hsum Harg.
  pose proof (operandWidths_nonneg args bound) as Hpos.
  pose proof (getBitWidth_nonneg (type arg)) as Hw.
  pose proof (concatLoop_prefix range context (argSyntax :: rest) args
                {| errored := false; concatFlags := NoFlags; totalWidth := 0;
                   buffer := []; concatCompilation := c |} bound c1 Hbind Hall) as Hloop.
  cbn [errored concatFlags totalWidth buffer concatCompilation
       Signed FourState RegFlag NoFlags] in Hloop.
  rewrite Z.add_0_l in Hloop. specialize (Hloop ltac:(lia) Hsum).
  unfold ConcatenationExpression_fromSyntax. rewrite Hloop. clear Hloop.
  cbn [concatLoop]. unfold concatArgument.
  cbn [errored concatFlags totalWidth buffer concatCompilation app orb].
  rewrite Harg. cbn [mbind option_bind].
  split; [| split].
  - intros Hbad. rewrite Hbad. cbn [mbind option_bind fst snd errored concatCompilation].
    eauto.
  - intros Hgood Hi Hover. rewrite Hgood, Hi.
    assert (isVoid (type arg) = false) as ->.
    { revert Hi. clear. unfold isVoid, isIntegral.
      destruct (getCanonicalType (type arg)); auto; discriminate. }
    cbn [andb negb].
    assert (Hwrap : uint32 (operandWidths args bound + getBitWidth (type arg)) <
                    operandWidths args bound).
    { unfold uint32.
      assert (getBitWidth (type arg) < 2 ^ 32).
      { clear. induction (type arg); simpl; try lia.
        - destruct integerKind; lia.
        - destruct floatKind; lia.
        - unfold uint32. apply Z.mod_pos_bound. lia. }
      replace (operandWidths args bound + getBitWidth (type arg))
        with ((operandWidths args bound + getBitWidth (type arg) - 2 ^ 32) + 1 * 2 ^ 32)
        by lia.
      rewrite Z.mod_add by lia. rewrite Z.mod_small by lia. lia. }
    rewrite bool_decide_eq_true_2 by exact Hwrap.
    cbn [mbind option_bind fst snd errored concatCompilation]. eauto.
  - intros Hgood Hni Hnv others c3 Hrest Hallrest Hsumrest.
    rewrite Hgood. unfold isVoidReplication in Hnv. rewrite Hnv, Hni. cbn [negb].
    cbn [mbind option_bind fst snd].
    pose proof (operandWidths_nonneg rest others) as Hposrest.
    match goal with
    | |- context [concatLoop _ _ _ ?st rest] =>
        rewrite (concatLoop_concatenable range context rest st others c3 Hrest Hallrest)
          by (simpl; lia)
    end.
    cbn [mbind option_bind errored concatCompilation]. eauto.
Qed.

(** X13.  A replication [{N{x}}] whose operands bound without error and whose count
    is an integer constant.  A count with unknown bits gives
    ValueMustNotBeUnknown, a negative signed count ValueMustBePositive, each
    with a bad expression; nothing else is reported for them.  A count that
    is known, not negative and not zero, with [N] times the width of [x]
    positive and below [2 ^ BITWIDTH_BITS] and the vector type cache
    consistent once the operands are bound, gives a vector of [N] times the
    width of [x] bits, unsigned, and four-state exactly when [x] is, with no
    diagnostic, whether or not the replication stands inside a
    concatenation. *)
Theorem ReplicationExpression_count c range N x context lhs c1 rhs c2 v :
  selfDetermined c N context BindFlags_IntegralConstant = Some (lhs, c1) ->
  selfDetermined c1 x context BindFlags_None = Some (rhs, c2) ->
  bad lhs = false -> bad rhs = false -> integerConstant lhs = Some v ->
  (svHasUnknown v = true ->
     exists e,
       ReplicationExpression_fromSyntax selfDetermined c range N x context =
         Some (e, addError c2 ValueMustNotBeUnknown (rangeStart (sourceRange lhs))) /\
       bad e = true) /\
  (svHasUnknown v = false -> svSigned v && svIsNegative v = true ->
     exists e,
       ReplicationExpression_fromSyntax selfDetermined c range N x context =
         Some (e, addError c2 ValueMustBePositive (rangeStart (sourceRange lhs))) /\
       bad e = true) /\
  (svHasUnknown v = false -> svSigned v && svIsNegative v = false -> svBits v <> 0 ->
     let width := svBits v * getBitWidth (type rhs) in
     validWidth width -> cacheOk c2 ->
     exists e c3,
       ReplicationExpression_fromSyntax selfDetermined c range N x context =
         Some (e, c3) /\
       bad e = false /\ kind e = Replication /\ operands e = [lhs; rhs] /\
       diags c3 = diags c2 /\
       getBitWidth (type e) = width /\ isSigned (type e) = false /\
       isFourState (type e) = isFourState (type rhs)).
Proof.
  intros Hl Hr Hbl Hbr Hv.
  assert (Hstart : ReplicationExpression_fromSyntax selfDetermined c range N x context =
            let result t := {| kind := Replication; type := t; constant := None;
                               sourceRange := range; operands := [lhs; rhs];
                               conversionKind := None |} in
            let '(known, c') := checkNoUnknowns c2 v (sourceRange lhs) in
            if negb known then Some (badExpr (Some (result getErrorType)), c')
            else
              let '(positive, c') := checkPositive c' v (sourceRange lhs) in
              if negb positive then Some (badExpr (Some (result getErrorType)), c')
              else if svIsZero v then
                if negb (InsideConcatenation (flags context)) then
                  Some (badExpr (Some (result getErrorType)),
                        addError c' ReplicationZeroOutsideConcat
                          (rangeStart (sourceRange lhs)))
                else Some (result getVoidType, c')
              else
                let '(width, c') :=
                  checkValidBitWidth c' (svBits v * getBitWidth (type rhs)) range in
                match width with
                | None => Some (badExpr (Some (result getErrorType)), c')
                | Some width =>
                    '(t, c') ←
                      getType c' width
                        (if isFourState (type rhs)
                         then {| Signed := false; FourState := true; RegFlag := false |}
                         else NoFlags);
                    Some (result t, c')
                end).
  { unfold ReplicationExpression_fromSyntax.
    rewrite Hl. cbn [mbind option_bind]. rewrite Hr. cbn [mbind option_bind].
    rewrite Hv, Hbl, Hbr. reflexivity. }
  rewrite Hstart. clear Hstart. cbv zeta.
  unfold checkNoUnknowns, checkPositive.
  split; [| split].
  - intros Hu. rewrite Hu. cbn [negb]. eauto.
  - intros Hu Hneg. rewrite Hu. cbn [negb]. rewrite Hneg. cbn [negb]. eauto.
  - intros Hu Hneg Hnz. rewrite Hu. cbn [negb]. rewrite Hneg. cbn [negb].
    assert (svIsZero v = false) as ->.
    { unfold svIsZero. rewrite Hu. cbn [negb andb]. now apply bool_decide_eq_false. }
    unfold checkValidBitWidth.
    intros Hw Hc.
    { assert (Hfit : 0 <= svBits v * getBitWidth (type rhs) < 2 ^ 32).
      { pose proof (validWidth_uint32 BITWIDTH_BITS_range _ Hw) as E.
        unfold uint32 in E. rewrite <- E. apply Z.mod_pos_bound. lia. }
      rewrite bool_decide_eq_true_2 by exact Hfit.
      pose (flags := if isFourState (type rhs)
                     then {| Signed := false; FourState := true; RegFlag := false |}
                     else NoFlags).
      assert (Hflags : Signed flags = false /\ FourState flags = isFourState (type rhs))
        by (unfold flags; destruct (isFourState (type rhs)); split; reflexivity).
      assert (Hs : exists s, getScalarType flags = Some s)
        by (apply getScalarType_valid; unfold flags;
            destruct (isFourState (type rhs)); discriminate).
      destruct Hs as [s Hs]. destruct Hflags as [Hsg H4].
      destruct (getType_spec BITWIDTH_BITS_range c2 _ flags s Hc Hw Hs)
        as (a & c3 & Hg & _ & _ & _ & _ & Hd).
      fold flags. rewrite Hg. cbn [mbind option_bind].
      eexists _, _. split; [reflexivity |].
      pose proof (vectorType_facts BITWIDTH_BITS_range a _ flags s Hw Hs) as Hfacts.
      apply typeFacts_inv in Hfacts as (Hwd & Hsg' & H4' & _ & Hi & _ & _).
      unfold bad. cbn [kind type operands].
      rewrite bool_decide_eq_false_2 by discriminate.
      rewrite (isIntegral_not_error _ Hi). rewrite Hsg in Hsg'. rewrite H4 in H4'.
      repeat split; auto. }
Qed.

End ConcatenationFacts.

(** ** Literals *)

Section LiteralFacts.
Context {svint : SVIntConstants}.
Hypothesis BITWIDTH_BITS_range : 0 <= BITWIDTH_BITS <= 29.

Lemma getType_facts c w f :
  cacheOk c -> validWidth w -> (RegFlag f = true -> FourState f = true) ->
  exists t c',
    getType c w f = Some (t, c') /\ cacheOk c' /\ diags c' = diags c /\
    typeFacts t = (w, Signed f, FourState f, RegFlag f, true, false, false).
Proof.
  intros Hc Hw Hf. destruct (getScalarType_valid f Hf) as [s Hs].
  destruct (getType_spec BITWIDTH_BITS_range c w f s Hc Hw Hs)
    as (a & c' & Hg & Hc' & _ & _ & _ & Hd).
  eexists _, c'. split; [exact Hg |]. split; [exact Hc' |]. split; [exact Hd |].
  now apply vectorType_facts.
Qed.

(** X14.  The types of literals, on a consistent vector type cache and for widths
    that are positive and below [2 ^ BITWIDTH_BITS].  A sized integer
    literal has its value's width and sign and is four-state exactly when
    the value has unknown bits; an unbased unsized literal is a one-bit
    vector, not a scalar; a string literal is an unsigned two-state vector of
    eight bits a character, and of eight bits when the string is empty.  None
    adds a diagnostic. *)
Theorem literal_types c range :
  cacheOk c ->
  (forall value, validWidth (svBitWidth value) ->
     exists e c',
       IntegerLiteral_fromVectorSyntax c value range = Some (e, c') /\
       bad e = false /\ kind e = IntegerLiteral /\ diags c' = diags c /\
       getBitWidth (type e) = svBitWidth value /\ isSigned (type e) = svSigned value /\
       isFourState (type e) = svHasUnknown value) /\
  (forall bit unknown, validWidth 1 ->
     exists e c',
       UnbasedUnsizedIntegerLiteral_fromSyntax c bit unknown range = Some (e, c') /\
       bad e = false /\ diags c' = diags c /\
       getBitWidth (type e) = 1 /\ isScalar (type e) = false /\
       isSigned (type e) = false /\ isFourState (type e) = unknown) /\
  (forall value, validWidth (8 * Z.max 1 (Z.of_nat (String.length value))) ->
     exists e c',
       StringLiteral_fromSyntax c value range = Some (e, c') /\
       bad e = false /\ kind e = StringLiteral /\ diags c' = diags c /\
       getBitWidth (type e) = 8 * Z.max 1 (Z.of_nat (String.length value)) /\
       isSigned (type e) = false /\ isFourState (type e) = false).
Proof.
  intros Hc. split; [| split].
  - intros value Hw.
    destruct (getType_facts c (svBitWidth value)
                {| Signed := svSigned value; FourState := svHasUnknown value;
                   RegFlag := false |} Hc Hw ltac:(discriminate))
      as (t & c' & Hg & _ & Hd & Hfacts).
    apply typeFacts_inv in Hfacts as (Hwd & Hsg & H4 & _ & Hi & _ & _).
    unfold IntegerLiteral_fromVectorSyntax. rewrite Hg. cbn [mbind option_bind].
    eexists _, _. split; [reflexivity |].
    unfold bad. cbn [kind type]. rewrite bool_decide_eq_false_2 by discriminate.
    rewrite (isIntegral_not_error _ Hi). repeat split; auto.
  - intros bit unknown Hw.
    destruct (getType_facts c 1
                {| Signed := false; FourState := unknown; RegFlag := false |}
                Hc Hw ltac:(discriminate))
      as (t & c' & Hg & _ & Hd & Hfacts).
    apply typeFacts_inv in Hfacts as (Hwd & Hsg & H4 & _ & Hi & _ & Hsc).
    unfold UnbasedUnsizedIntegerLiteral_fromSyntax. rewrite Hg. cbn [mbind option_bind].
    eexists _, _. split; [reflexivity |].
    unfold bad. cbn [kind type]. rewrite bool_decide_eq_false_2 by discriminate.
    rewrite (isIntegral_not_error _ Hi). repeat split; auto.
  - intros value Hw.
    assert (Hwidth : (if bool_decide (value = EmptyString) then 8
                      else uint32 (uint32 (Z.of_nat (String.length value)) * 8)) =
                     8 * Z.max 1 (Z.of_nat (String.length value))).
    { destruct value as [| ch rest].
      - reflexivity.
      - rewrite bool_decide_eq_false_2 by discriminate.
        pose proof (validWidth_uint32 BITWIDTH_BITS_range _ Hw) as E.
        assert (0 < Z.of_nat (String.length (String ch rest))) by (simpl; lia).
        rewrite Z.max_r in * by lia.
        assert (Hsmall : 0 <= 8 * Z.of_nat (String.length (String ch rest)) < 2 ^ 32).
        { unfold uint32 in E. rewrite <- E. apply Z.mod_pos_bound. lia. }
        unfold uint32. rewrite (Z.mod_small (Z.of_nat _)) by lia.
        rewrite Z.mod_small by lia. lia. }
    destruct (getType_facts c _ NoFlags Hc Hw ltac:(discriminate))
      as (t & c' & Hg & _ & Hd & Hfacts).
    apply typeFacts_inv in Hfacts as (Hwd & Hsg & H4 & _ & Hi & _ & _).
    unfold StringLiteral_fromSyntax. rewrite Hwidth, Hg. cbn [mbind option_bind].
    eexists _, _. split; [reflexivity |].
    unfold bad. cbn [kind type]. rewrite bool_decide_eq_false_2 by discriminate.
    rewrite (isIntegral_not_error _ Hi). repeat split; auto.
Qed.

End LiteralFacts.

(** ** The growable array *)

Section SmallVectorFacts.
Context {T : Type}.
Implicit Types v : SmallVector T.

Lemma uint32_small z : 0 <= z < 2 ^ 32 -> uint32 z = z.
Proof. intros Hz. unfold uint32. apply Z.mod_small. lia. Qed.

Lemma vectorOk_fresh N : 0 <= N < 2 ^ 32 -> vectorOk (SmallVectorSized (T := T) N).
Proof. intros HN. unfold vectorOk. simpl. lia. Qed.

Lemma resize_spec v :
  len v <= capacity v ->
  resize v = Some {| data_ := data_ v; len := len v; capacity := capacity v; onHeap := true |}.
Proof. intros Hle. unfold resize. rewrite bool_decide_eq_true_2; auto. Qed.

Lemma amortizeCapacity_spec v :
  vectorOk v -> (len v = capacity v -> capacity v < 2 ^ 31) ->
  exists v', amortizeCapacity v = Some v' /\ data_ v' = data_ v /\ len v' = len v /\
    len v' < capacity v' < 2 ^ 32 /\
    capacity v' = (if bool_decide (len v = capacity v)
                   then (if bool_decide (capacity v = 0) then 4 else 2 * capacity v)
                   else capacity v) /\
    onHeap v' = onHeap v || bool_decide (len v = capacity v).
Proof.
  intros (Hlen & Hcap) Hsmall. unfold amortizeCapacity.
  assert (0 <= len v) by lia.
  destruct (bool_decide_reflect (len v = capacity v)) as [Heq | Hne].
  - specialize (Hsmall Heq). rewrite (uint32_small (capacity v * 2)) by lia.
    destruct (bool_decide_reflect (capacity v * 2 = 0)) as [Hz | Hnz].
    + rewrite resize_spec by (simpl; lia). eexists. split; [reflexivity |]. simpl.
      rewrite bool_decide_eq_true_2 by lia. rewrite orb_true_r. repeat split; auto; lia.
    + rewrite resize_spec by (simpl; lia). eexists. split; [reflexivity |]. simpl.
      rewrite bool_decide_eq_false_2 by lia. rewrite orb_true_r. repeat split; auto; lia.
  - eexists. split; [reflexivity |]. rewrite orb_false_r. repeat split; auto; lia.
Qed.

Lemma append_spec v item :
  vectorOk v -> (len v = capacity v -> capacity v < 2 ^ 31) ->
  exists v', append v item = Some v' /\ data_ v' = data_ v ++ [item] /\
    len v' = len v + 1 /\ vectorOk v' /\
    capacity v' = (if bool_decide (len v = capacity v)
                   then (if bool_decide (capacity v = 0) then 4 else 2 * capacity v)
                   else capacity v) /\
    onHeap v' = onHeap v || bool_decide (len v = capacity v).
Proof.
  intros Hok Hsmall.
  destruct (amortizeCapacity_spec v Hok Hsmall) as (v1 & Ham & Hd & Hl & Hc & Hcap & Hheap).
  unfold append. rewrite Ham. simpl. destruct Hok as (Hlen & Hle).
  rewrite uint32_small by lia.
  eexists. split; [reflexivity |]. simpl. rewrite Hd, Hl.
  unfold vectorOk. simpl. rewrite length_app. simpl.
  repeat split; auto; try lia.
Qed.

Lemma append_overflow v item :
  vectorOk v -> len v = capacity v -> 2 ^ 31 <= capacity v -> append v item = None.
Proof.
  intros (Hlen & Hle) Heq Hbig. unfold append, amortizeCapacity.
  rewrite bool_decide_eq_true_2 by auto.
  assert (Hd : uint32 (capacity v * 2) = capacity v * 2 - 2 ^ 32).
  { unfold uint32. symmetry. apply (Z.mod_unique_pos _ _ 1); lia. }
  rewrite Hd. unfold resize. simpl.
  destruct (bool_decide_reflect (capacity v * 2 - 2 ^ 32 = 0)).
  - rewrite bool_decide_eq_false_2 by lia. reflexivity.
  - rewrite bool_decide_eq_false_2 by lia. reflexivity.
Qed.

Lemma ensureSize_spec v n :
  vectorOk v -> 0 <= n < 2 ^ 32 ->
  exists v', ensureSize v n = Some v' /\ data_ v' = data_ v /\ len v' = len v /\
    capacity v' = Z.max (capacity v) n /\
    onHeap v' = onHeap v || bool_decide (capacity v < n) /\
    (len v <= n -> vectorOk v').
Proof.
  intros (Hlen & Hle) Hn. unfold ensureSize.
  destruct (bool_decide_reflect (n > capacity v)) as [Hgt | Hngt].
  - destruct (Z_le_gt_dec (len v) n) as [Hfit | Hnofit].
    + rewrite resize_spec by (simpl; lia). eexists. split; [reflexivity |]. simpl.
      rewrite bool_decide_eq_true_2 by lia. rewrite orb_true_r.
      repeat split; auto; simpl; lia.
    + lia.
  - eexists. split; [reflexivity |]. rewrite bool_decide_eq_false_2 by lia.
    rewrite orb_false_r. repeat split; auto; lia.
Qed.

Lemma appendIterator_spec v items :
  vectorOk v -> len v + Z.of_nat (length items) < 2 ^ 32 ->
  exists v', appendIterator v items = Some v' /\ data_ v' = data_ v ++ items /\
    len v' = len v + Z.of_nat (length items) /\ vectorOk v' /\
    capacity v' = Z.max (capacity v) (len v + Z.of_nat (length items)) /\
    onHeap v' = onHeap v || bool_decide (capacity v < len v + Z.of_nat (length items)).
Proof.
  intros Hok Hfit. pose proof Hok as (Hlen & Hle).
  unfold appendIterator. cbv zeta.
  rewrite (uint32_small (Z.of_nat (length items))) by lia.
  rewrite (uint32_small (len v + _)) by lia.
  destruct (ensureSize_spec v (len v + Z.of_nat (length items)) Hok ltac:(lia))
    as (v1 & Hen & Hd & Hl & Hc & Hh & Hok1).
  rewrite Hen. simpl. rewrite Hl, bool_decide_eq_true_2 by lia.
  eexists. split; [reflexivity |]. simpl. rewrite Hd.
  unfold vectorOk. simpl. rewrite length_app.
  repeat split; auto; try lia.
Qed.

Lemma appendRange_appendIterator b v items :
  Z.of_nat (length items) < 2 ^ 32 -> appendRange b v items = appendIterator v items.
Proof.
  intros Hn. destruct b; [| reflexivity]. unfold appendRange, appendIterator. cbv zeta.
  rewrite (uint32_small (Z.of_nat (length items))) by lia.
  rewrite Nat2Z.id, firstn_all. reflexivity.
Qed.

Lemma pop_spec v :
  vectorOk v -> len v <> 0 ->
  exists v', pop v = Some v' /\ data_ v' = take (Z.to_nat (len v - 1)) (data_ v) /\
    len v' = len v - 1 /\ capacity v' = capacity v /\ onHeap v' = onHeap v /\ vectorOk v'.
Proof.
  intros (Hlen & Hle) Hne. unfold pop. rewrite bool_decide_eq_false_2 by auto.
  eexists. split; [reflexivity |]. unfold vectorOk. simpl. rewrite length_take.
  repeat split; auto; try lia.
Qed.

(** X15.  Every sequence of operations that returns keeps the vector well formed,
    never gives storage back and never returns to the stack. *)
Theorem operations_keep_storage v ops v' :
  vectorOk v -> applyOps v ops = Some v' ->
  vectorOk v' /\ capacity v <= capacity v' /\ (isSmall v' = true -> isSmall v = true) /\
  (isSmall v' = true -> capacity v' = capacity v).
Proof.
  revert v. induction ops as [| op ops IH]; intros v Hok Hrun.
  - simpl in Hrun. injection Hrun as <-. repeat split; auto; try apply Hok; lia.
  - simpl in Hrun. destruct (applyOp v op) as [v1 |] eqn:Hop; [| discriminate].
    simpl in Hrun.
    assert (Hstep : vectorOk v1 /\ capacity v <= capacity v1 /\
                    (onHeap v = true -> onHeap v1 = true) /\
                    (onHeap v1 = false -> capacity v1 = capacity v)).
    { pose proof Hok as (Hlen & Hle). destruct op as [item | b items | | | n]; simpl in Hop.
      - destruct (Z_lt_ge_dec (capacity v) (2 ^ 31)) as [Hs | Hb].
        + destruct (append_spec v item Hok (fun _ => Hs)) as (v2 & Hap & _ & _ & Hok2 & Hc & Hh).
          rewrite Hap in Hop. injection Hop as <-. rewrite Hc, Hh.
          repeat split; try apply Hok2.
          * repeat case_bool_decide; lia.
          * intros ->. reflexivity.
          * intros Hf. apply orb_false_elim in Hf as (_ & Hf).
            rewrite Hf. reflexivity.
        + destruct (decide (len v = capacity v)) as [He | Hne].
          * rewrite (append_overflow v item Hok He) in Hop by lia. discriminate.
          * unfold append, amortizeCapacity in Hop.
            rewrite bool_decide_eq_false_2 in Hop by auto.
            simpl in Hop. injection Hop as <-. simpl.
            assert (len v + 1 < 2 ^ 32) by lia.
            rewrite uint32_small by lia. unfold vectorOk. simpl.
            rewrite length_app. simpl. repeat split; auto; lia.
      - (* appendRange *)
        assert (Hgen : forall count taken newLen,
          0 <= newLen < 2 ^ 32 -> Z.of_nat (length taken) = count ->
          (v0 ← ensureSize v newLen;
             if bool_decide (len v0 + count <= capacity v0)
             then Some {| data_ := data_ v0 ++ taken; len := newLen;
                          capacity := capacity v0; onHeap := onHeap v0 |}
             else None) = Some v1 ->
          (newLen = len v + count -> vectorOk v1) /\ capacity v <= capacity v1 /\
          (onHeap v = true -> onHeap v1 = true) /\
          (onHeap v1 = false -> capacity v1 = capacity v)).
        { intros count taken newLen HnewLen Hcount Hrun'.
          unfold ensureSize in Hrun'.
          destruct (bool_decide_reflect (newLen > capacity v)) as [Hgt | Hngt].
          - unfold resize in Hrun'. simpl in Hrun'.
            destruct (bool_decide_reflect (len v <= newLen)); [| discriminate].
            simpl in Hrun'.
            destruct (bool_decide_reflect (len v + count <= newLen)); [| discriminate].
            injection Hrun' as <-. simpl. unfold vectorOk. simpl.
            rewrite length_app. repeat split; auto; try lia; discriminate.
          - simpl in Hrun'.
            destruct (bool_decide_reflect (len v + count <= capacity v)); [| discriminate].
            injection Hrun' as <-. simpl. unfold vectorOk. simpl.
            rewrite length_app. repeat split; auto; lia. }
        assert (Hu : forall z, 0 <= uint32 z < 2 ^ 32).
        { intros z. unfold uint32. apply Z.mod_pos_bound. lia. }
        destruct b; simpl in Hop.
        + unfold appendRange in Hop. cbv zeta in Hop.
          pose proof (Hu (Z.of_nat (length items))) as Hcount.
          assert (Htaken : Z.of_nat (length (take (Z.to_nat (uint32 (Z.of_nat (length items)))) items))
                           = uint32 (Z.of_nat (length items))).
          { rewrite length_take. unfold uint32 in *.
            pose proof (Z.mod_le (Z.of_nat (length items)) (2 ^ 32) ltac:(lia) ltac:(lia)).
            lia. }
          pose proof (Hgen _ _ _ (Hu _) Htaken Hop) as (Hok1 & Hrest).
          split; [| exact Hrest]. 
          (* the new length does not wrap when the write fits *)
          unfold ensureSize in Hop.
          set (count := uint32 (Z.of_nat (length items))) in *.
          assert (Hfit : len v + count < 2 ^ 32).
          { destruct (bool_decide_reflect (uint32 (len v + count) > capacity v)).
            - unfold resize in Hop. simpl in Hop.
              destruct (bool_decide_reflect (len v <= uint32 (len v + count))); [| discriminate].
              simpl in Hop.
              destruct (bool_decide_reflect (len v + count <= uint32 (len v + count)));
                [| discriminate].
              pose proof (Hu (len v + count)). lia.
            - simpl in Hop.
              destruct (bool_decide_reflect (len v + count <= capacity v)); [| discriminate].
              lia. }
          apply Hok1. apply uint32_small. lia.
        + unfold appendRange, appendIterator in Hop. cbv zeta in Hop.
          pose proof (Hgen _ _ _ (Hu _) eq_refl Hop) as (Hok1 & Hrest).
          split; [| exact Hrest].
          unfold ensureSize in Hop.
          set (count := uint32 (Z.of_nat (length items))) in *.
          set (n := Z.of_nat (length items)) in *.
          assert (Hfit : len v + n < 2 ^ 32).
          { destruct (bool_decide_reflect (uint32 (len v + count) > capacity v)).
            - unfold resize in Hop. simpl in Hop.
              destruct (bool_decide_reflect (len v <= uint32 (len v + count))); [| discriminate].
              simpl in Hop.
              destruct (bool_decide_reflect (len v + n <= uint32 (len v + count)));
                [| discriminate].
              pose proof (Hu (len v + count)). lia.
            - simpl in Hop.
              destruct (bool_decide_reflect (len v + n <= capacity v)); [| discriminate].
              lia. }
          apply Hok1. subst count. rewrite (uint32_small n) by lia.
          apply uint32_small. lia.
      - unfold pop in Hop. destruct (bool_decide_reflect (len v = 0)); [discriminate |].
        injection Hop as <-. unfold vectorOk. simpl. rewrite length_take.
        repeat split; auto; lia.
      - injection Hop as <-. unfold vectorOk. simpl. repeat split; auto; lia.
      - unfold reserve, ensureSize in Hop.
        assert (0 <= uint32 n < 2 ^ 32) by (unfold uint32; apply Z.mod_pos_bound; lia).
        destruct (bool_decide_reflect (uint32 n > capacity v)).
        + unfold resize in Hop. simpl in Hop.
          destruct (bool_decide_reflect (len v <= uint32 n)); [| discriminate].
          injection Hop as <-. unfold vectorOk. simpl.
          repeat split; auto; try lia; try discriminate.
        + injection Hop as <-. repeat split; auto; lia. }
    destruct Hstep as (Hok1 & Hc1 & Hh1 & Hs1).
    destruct (IH v1 Hok1 Hrun) as (Hok' & Hc' & Hh' & Hs').
    unfold isSmall in *. repeat split; try apply Hok'; try lia.
    + intros Hsm. specialize (Hh' Hsm). destruct (onHeap v); auto.
      rewrite Hh1 in Hh' by reflexivity. discriminate.
    + intros Hsm. rewrite (Hs' Hsm). apply Hs1.
      specialize (Hh' Hsm). destruct (onHeap v1); auto.
Qed.

(** X16.  Appending puts the element last and leaves the others where they were,
    also when the storage grows; popping it gives the elements back. *)
Theorem append_back_pop v item :
  vectorOk v -> (size v = capacity v -> capacity v < 2 ^ 31) ->
  exists v' v'',
    append v item = Some v' /\ back v' = Some item /\ size v' = size v + 1 /\
    (forall i, 0 <= i < size v -> at_ v' i = at_ v i) /\
    (size v <> 0 -> front v' = front v) /\
    pop v' = Some v'' /\ data_ v'' = data_ v /\ size v'' = size v /\
    copy v' = copy v ++ [item].
Proof.
  intros Hok Hsmall. pose proof Hok as (Hlen & Hle).
  destruct (append_spec v item Hok Hsmall) as (v1 & Hap & Hd & Hl & Hok1 & _).
  destruct (pop_spec v1 Hok1 ltac:(lia)) as (v2 & Hpop & Hd2 & Hl2 & _).
  exists v1, v2. unfold size, back, front, at_, copy.
  rewrite Hd, Hl, (bool_decide_eq_false_2 (len v + 1 = 0)) by lia.
  replace (len v + 1 - 1) with (len v) in * by lia.
  rewrite Hl in Hd2. replace (len v + 1 - 1) with (len v) in * by lia.
  assert (Hn : Z.to_nat (len v) = length (data_ v)) by lia.
  repeat split; auto.
  - rewrite Hn. apply list_lookup_middle. reflexivity.
  - intros i Hi. rewrite bool_decide_eq_true_2 by lia.
    apply lookup_app_l. lia.
  - intros Hne. rewrite bool_decide_eq_false_2 by auto.
    apply lookup_app_l. lia.
  - rewrite Hd2, Hd, Hn. apply take_app_length.
  - lia.
  - destruct (bool_decide_reflect (len v = 0)) as [Hz | Hnz]; auto.
    destruct (data_ v); [reflexivity | simpl in Hlen; lia].
Qed.

(** X17.  The storage after a run of appends to a new vector: the stack room
    doubled as often as needed and no more, on the stack exactly while the
    elements fit there. *)
Theorem append_growth N items :
  1 < N <= 1024 -> Z.of_nat (length items) < 2 ^ 31 ->
  exists v k,
    applyOps (SmallVectorSized N) (OpAppend <$> items) = Some v /\ vectorOk v /\
    data_ v = items /\ size v = Z.of_nat (length items) /\
    capacity v = N * 2 ^ k /\ 0 <= k /\
    (k = 0 \/ N * 2 ^ (k - 1) < Z.of_nat (length items)) /\
    Z.of_nat (length items) <= capacity v /\
    isSmall v = bool_decide (Z.of_nat (length items) <= N).
Proof.
  intros HN. induction items as [| item items IH] using rev_ind; intros Hlen.
  - exists (SmallVectorSized N), 0. simpl. rewrite Z.mul_1_r.
    rewrite bool_decide_eq_true_2 by lia. repeat split; auto; simpl; lia.
  - rewrite length_app in Hlen. simpl in Hlen.
    destruct (IH ltac:(lia))
      as (v & k & Hrun & Hok & Hd & Hsz & Hcap & Hk & Hmin & Hfit & Hsm).
    unfold size in *.
    destruct (append_spec v item Hok ltac:(lia)) as (v1 & Hap & Hd1 & Hl1 & Hok1 & Hc1 & Hh1).
    assert (Hrun1 : applyOps (SmallVectorSized N) (OpAppend <$> (items ++ [item])) = Some v1).
    { rewrite fmap_app. clear - Hrun Hap. revert Hrun. generalize (SmallVectorSized (T := T) N).
      induction items as [| x xs IHxs]; intros v0 Hrun; simpl in *.
      - injection Hrun as ->. rewrite Hap. reflexivity.
      - destruct (append v0 x); [| discriminate]. simpl in *. auto. }
    rewrite length_app. simpl length.
    destruct (bool_decide_reflect (len v = capacity v)) as [Hfull | Hroom].
    + (* the vector was full: one more doubling *)
      rewrite bool_decide_eq_false_2 in Hc1 by lia.
      exists v1, (k + 1). rewrite Hd1, Hd, Hl1, Hsz, Hc1, Hcap.
      replace (k + 1 - 1) with k by lia. rewrite Z.pow_add_r by lia.
      unfold isSmall. rewrite Hh1, orb_true_r. simpl.
      rewrite bool_decide_eq_false_2.
      * repeat split; auto; try apply Hok1; try lia.
      * pose proof (Z.pow_pos_nonneg 2 k ltac:(lia) Hk). nia.
    + exists v1, k. rewrite Hd1, Hd, Hl1, Hsz, Hc1, Hcap.
      unfold isSmall in *. rewrite Hh1, orb_false_r.
      assert (Hlt : Z.of_nat (length items) < N * 2 ^ k) by lia.
      repeat split; auto; try apply Hok1; try lia.
      rewrite Hsm. destruct Hmin as [-> | Hmin].
      * rewrite !bool_decide_eq_true_2 by lia. reflexivity.
      * pose proof (Z.pow_pos_nonneg 2 (k - 1) ltac:(lia)).
        destruct (Z_lt_ge_dec (k - 1) 0) as [Hneg | Hpos].
        -- assert (k = 0) as -> by lia. rewrite !bool_decide_eq_true_2 by lia. reflexivity.
        -- rewrite !bool_decide_eq_false_2 by nia. reflexivity.
Qed.

(** X18.  Appending a range appends its elements in order and grows the storage
    to exactly the new length when they do not fit; a range that takes the
    length past 32 bits is written past the storage. *)
Theorem appendRange_exact_fit triviallyCopyable v items :
  vectorOk v ->
  let n := Z.of_nat (length items) in
  (size v + n < 2 ^ 32 ->
   exists v',
     appendRange triviallyCopyable v items = Some v' /\ vectorOk v' /\
     data_ v' = data_ v ++ items /\ size v' = size v + n /\
     capacity v' = Z.max (capacity v) (size v + n) /\
     isSmall v' = isSmall v && bool_decide (size v + n <= capacity v)) /\
  (2 ^ 32 <= size v + n -> appendIterator v items = None).
Proof.
  intros Hok n. pose proof Hok as (Hlen & Hle). unfold size. split.
  - intros Hfit. rewrite appendRange_appendIterator by (subst n; lia).
    destruct (appendIterator_spec v items Hok Hfit) as (v1 & Hrun & Hd & Hl & Hok1 & Hc & Hh).
    exists v1. unfold isSmall. rewrite Hh, negb_orb. repeat split; auto; try apply Hok1.
    f_equal. fold n. destruct (bool_decide_reflect (capacity v < len v + n));
      simpl; symmetry; [apply bool_decide_eq_false_2 | apply bool_decide_eq_true_2]; lia.
  - intros Hbig. unfold appendIterator. cbv zeta. fold n.
    assert (Hu : 0 <= uint32 (len v + uint32 n) < 2 ^ 32).
    { unfold uint32. apply Z.mod_pos_bound. lia. }
    unfold ensureSize.
    destruct (bool_decide_reflect (uint32 (len v + uint32 n) > capacity v)).
    + unfold resize. simpl.
      destruct (bool_decide_reflect (len v <= uint32 (len v + uint32 n))); [| reflexivity].
      simpl. rewrite bool_decide_eq_false_2 by lia. reflexivity.
    + simpl. rewrite bool_decide_eq_false_2 by lia. reflexivity.
Qed.

(** X19.  Move construction: the new vector has the elements of the old one.  An
    old vector on the stack is copied and keeps its elements; one on the
    heap hands its storage over and is left empty with no storage, and can
    be appended to again. *)
Theorem move_construction triviallyCopyable N other :
  vectorOk other -> 1 < N <= 1024 ->
  exists v rest,
    moveFrom triviallyCopyable N other = Some (v, rest) /\
    data_ v = data_ other /\ size v = size other /\ vectorOk v /\ vectorOk rest /\
    (isSmall other = true ->
       rest = other /\ isSmall v = bool_decide (size other <= N) /\
       capacity v = Z.max N (size other)) /\
    (isSmall other = false ->
       isSmall v = false /\ capacity v = capacity other /\
       size rest = 0 /\ capacity rest = 0 /\
       forall item, exists rest',
         append rest item = Some rest' /\ data_ rest' = [item] /\ capacity rest' = 4).
Proof.
  intros Hok HN. pose proof Hok as (Hlen & Hle). unfold moveFrom, isSmall.
  destruct (onHeap other) eqn:Hheap; simpl.
  - eexists _, _. split; [reflexivity |]. unfold size, vectorOk. simpl.
    repeat split; auto; try lia; try discriminate.
    intros item. eexists. split; [reflexivity |]. simpl. auto.
  - rewrite appendRange_appendIterator by lia.
    destruct (appendIterator_spec (SmallVectorSized N) (data_ other)
                (vectorOk_fresh N ltac:(lia))) as (v1 & Hrun & Hd & Hl & Hok1 & Hc & Hh).
    { simpl. lia. }
    rewrite Hrun. simpl. exists v1, other. unfold size in *. simpl in *.
    rewrite <- Hlen in *. unfold isSmall in *.
    repeat split; auto; try apply Hok1; try apply Hok; try discriminate; try lia.
    rewrite Hh. repeat case_bool_decide; simpl; auto; lia.
Qed.

End SmallVectorFacts.

(** ** The lexer: construction, trivia and the text of a token *)

Lemma last_lookup_length (s : list ascii) c :
  last s = Some c -> s !! (length s - 1)%nat = Some c.
Proof. rewrite last_lookup. now replace (Nat.pred (length s)) with (length s - 1)%nat by lia. Qed.

(** X20.  Construction.  A lexer is built exactly for a buffer that is not empty
    and ends in NUL; its read pointer is then inside the buffer.  A byte
    order mark (FF FE, FE FF or EF BB BF) at the start is stepped over and
    reported as UnicodeBOM at offset 0 on top of the diagnostics handed in;
    without one the read pointer is at offset 0 and nothing is reported. *)
Theorem Lexer_new_spec onNewLine0 errorCount0 bufferId text reported maxErrors :
  let bom16 :=
    bool_decide (take 2 text = ["255"%char; "254"%char]) ||
    bool_decide (take 2 text = ["254"%char; "255"%char]) in
  let bom8 := bool_decide (take 3 text = ["239"%char; "187"%char; "191"%char]) in
  (last text <> Some NUL ->
     Lexer_new onNewLine0 errorCount0 bufferId text reported maxErrors = None) /\
  (last text = Some NUL ->
     exists lx,
       Lexer_new onNewLine0 errorCount0 bufferId text reported maxErrors = Some lx /\
       inBuffer lx /\ source lx = text /\
       sourceBuffer lx = (if bom16 then 2 else if bom8 then 3 else 0)%nat /\
       diagnostics lx =
         reported ++
         (if bom16 || bom8
          then [{| diagCode := UnicodeBOM;
                   diagLocation := {| locBuffer := bufferId; locOffset := 0 |} |}]
          else [])).
Proof.
  cbv zeta. split.
  - intros Hlast. unfold Lexer_new. cbv zeta.
    destruct (bool_decide_reflect (length text = 0%nat)); [reflexivity |].
    rewrite bool_decide_eq_false_2 by exact Hlast. reflexivity.
  - intros Hlast. unfold Lexer_new. cbv zeta.
    destruct text as [| b0 text]; [discriminate |].
    rewrite bool_decide_eq_false_2 by (simpl; lia).
    rewrite bool_decide_eq_true_2 by exact Hlast. cbn [negb].
    assert (Hfinish : forall lx n extra,
      source lx = b0 :: text -> sourceBuffer lx = n -> (n < length (b0 :: text))%nat ->
      diagnostics lx = reported ++ extra ->
      forall n' extra', n' = n -> extra' = extra ->
      exists lx', Some lx = Some lx' /\ inBuffer lx' /\ source lx' = b0 :: text /\
        sourceBuffer lx' = n' /\ diagnostics lx' = reported ++ extra').
    { intros lx n extra Hs Hb Hn Hd n' extra' -> ->. exists lx.
      unfold inBuffer, sourceEnd. rewrite Hs, Hb. auto. }
    destruct text as [| b1 text].
    { eapply (Hfinish _ _ []); try reflexivity; simpl; rewrite ?app_nil_r; auto;
        rewrite !bool_decide_eq_false_2 by discriminate; reflexivity. }
    assert (H16a : bool_decide (take 2 (b0 :: b1 :: text) = ["255"%char; "254"%char]) =
                   bool_decide (b0 = "255"%char) && bool_decide (b1 = "254"%char)).
    { cbn [take]. rewrite take_0. repeat case_bool_decide; simpl; congruence. }
    assert (H16b : bool_decide (take 2 (b0 :: b1 :: text) = ["254"%char; "255"%char]) =
                   bool_decide (b0 = "254"%char) && bool_decide (b1 = "255"%char)).
    { cbn [take]. rewrite take_0. repeat case_bool_decide; simpl; congruence. }
    rewrite H16a, H16b.
    destruct ((bool_decide (b0 = "255"%char) && bool_decide (b1 = "254"%char)) ||
              (bool_decide (b0 = "254"%char) && bool_decide (b1 = "255"%char))) eqn:Hbom.
    + eapply Hfinish; try reflexivity.
      destruct text as [| b2 text]; simpl; [| lia].
      (* a two-byte buffer that is a byte order mark does not end in NUL *)
      simpl in Hlast. injection Hlast as ->. exfalso.
      revert Hbom. repeat case_bool_decide; simpl; try discriminate; subst; discriminate.
    + destruct text as [| b2 text].
      * eapply (Hfinish _ _ []); try reflexivity; simpl; rewrite ?app_nil_r; auto;
          rewrite ?bool_decide_eq_false_2 by discriminate; try reflexivity; lia.
      * assert (H8 : bool_decide (take 3 (b0 :: b1 :: b2 :: text) =
                                  ["239"%char; "187"%char; "191"%char]) =
                     bool_decide (b0 = "239"%char) && bool_decide (b1 = "187"%char) &&
                     bool_decide (b2 = "191"%char)).
        { cbn [take]. rewrite take_0. repeat case_bool_decide; simpl; congruence. }
        rewrite H8.
        destruct (bool_decide (b0 = "239"%char) && bool_decide (b1 = "187"%char) &&
                  bool_decide (b2 = "191"%char)) eqn:Hb8.
        -- eapply Hfinish; try reflexivity.
           destruct text as [| b3 text]; simpl; [| lia].
           simpl in Hlast. injection Hlast as ->. exfalso.
           revert Hb8. repeat case_bool_decide; simpl; try discriminate.
        -- eapply (Hfinish _ _ []); try reflexivity; simpl; rewrite ?app_nil_r; auto; lia.
Qed.

Lemma scannedFrom_refl lx : scannedFrom lx lx.
Proof. unfold scannedFrom. repeat split; auto. exists []. now rewrite app_nil_r. Qed.

Lemma scannedFrom_trans lx1 lx2 lx3 :
  scannedFrom lx1 lx2 -> scannedFrom lx2 lx3 -> scannedFrom lx1 lx3.
Proof.
  intros (Hs & Hb & Hm & Hx & Hp & a1 & Hd) (Hs' & Hb' & Hm' & Hx' & Hp' & a2 & Hd').
  unfold scannedFrom. repeat split; try congruence; try lia.
  exists (a1 ++ a2). rewrite Hd', Hd. now rewrite app_assoc.
Qed.

Lemma scannedFrom_advance n lx : scannedFrom lx (advance n lx).
Proof.
  unfold scannedFrom, advance, setSourceBuffer. simpl. repeat split; auto; try lia.
  exists []. now rewrite app_nil_r.
Qed.

Lemma scannedFrom_addError code offset lx : scannedFrom lx (lexerAddError code offset lx).
Proof. unfold scannedFrom, lexerAddError. simpl. repeat split; auto. eauto. Qed.

Lemma scannedFrom_onNewLine b lx : scannedFrom lx (setOnNewLine lx b).
Proof.
  unfold scannedFrom, setOnNewLine. simpl. repeat split; auto.
  exists []. now rewrite app_nil_r.
Qed.

Lemma peek_in lx :
  (sourceBuffer lx < sourceEnd lx)%nat -> exists c, peek lx = Some c.
Proof.
  intros Hlt. unfold peek, peekAt. rewrite Nat.add_0_r.
  destruct (lookup_lt_is_Some_2 (source lx) (sourceBuffer lx) Hlt) as [c Hc]. eauto.
Qed.

(** A character that is not NUL is not the last one of the buffer. *)
Lemma peek_not_last lx c :
  last (source lx) = Some NUL -> peek lx = Some c -> c <> NUL ->
  (S (sourceBuffer lx) < sourceEnd lx)%nat.
Proof.
  intros Hlast Hpeek Hc. unfold peek, peekAt in Hpeek. rewrite Nat.add_0_r in Hpeek.
  pose proof (lookup_lt_Some _ _ _ Hpeek) as Hlt. unfold sourceEnd.
  destruct (decide (S (sourceBuffer lx) = length (source lx))) as [He |]; [| lia].
  apply last_lookup_length in Hlast.
  replace (length (source lx) - 1)%nat with (sourceBuffer lx) in Hlast by lia.
  congruence.
Qed.

Lemma peek_embedded lx :
  peek lx = Some NUL -> reallyAtEnd lx = false ->
  (S (sourceBuffer lx) < sourceEnd lx)%nat.
Proof.
  intros _ Hend. unfold reallyAtEnd in Hend. apply bool_decide_eq_false in Hend. lia.
Qed.

Lemma peek_advance n lx : peek (advance n lx) = peekAt n lx.
Proof. unfold peek, peekAt, advance, setSourceBuffer. simpl. now rewrite Nat.add_0_r. Qed.

Lemma sourceText_app lx a b c :
  (a <= b)%nat -> (b <= c)%nat -> (c <= sourceEnd lx)%nat ->
  sourceText lx a b ++ sourceText lx b c = sourceText lx a c.
Proof.
  intros Hab Hbc Hc. unfold sourceText, sourceEnd in *.
  replace (c - a)%nat with ((b - a) + (c - b))%nat by lia.
  rewrite <- take_take_drop, drop_drop. do 3 f_equal. lia.
Qed.

Lemma sourceText_nil lx a : sourceText lx a a = [].
Proof. unfold sourceText. now rewrite Nat.sub_diag. Qed.

Lemma sourceText_nonempty lx a b :
  (a < b)%nat -> (b <= sourceEnd lx)%nat -> sourceText lx a b <> [].
Proof.
  intros Hab Hb Hnil. apply (f_equal length) in Hnil. unfold sourceText, sourceEnd in *.
  rewrite length_take, length_drop in Hnil. simpl in Hnil. lia.
Qed.

Lemma lexeme_scannedFrom lx lx' :
  scannedFrom lx lx' -> lexeme lx' = sourceText lx (marker lx) (sourceBuffer lx').
Proof.
  intros (Hs & _ & Hm & _). unfold lexeme, lexemeLength, sourceText. now rewrite Hs, Hm.
Qed.

Lemma scanWhitespace_spec fuel triviaBuffer lx :
  last (source lx) = Some NUL -> (sourceBuffer lx < sourceEnd lx)%nat ->
  (sourceEnd lx - sourceBuffer lx < fuel)%nat ->
  exists lx',
    scanWhitespace fuel triviaBuffer lx =
      Some (triviaBuffer ++
            [{| triviaKind := TriviaKind.Whitespace;
                triviaText := sourceText lx (marker lx) (sourceBuffer lx') |}], lx') /\
    scannedFrom lx lx' /\ (sourceBuffer lx' < sourceEnd lx)%nat /\
    diagnostics lx' = diagnostics lx /\ onNewLine lx' = onNewLine lx.
Proof.
  revert lx. induction fuel as [| fuel IH]; intros lx Hlast Hin Hfuel; [lia |].
  cbn [scanWhitespace]. destruct (peek_in lx Hin) as [c Hc]. rewrite Hc.
  cbn [mbind option_bind].
  destruct (isHorizontalWhitespace c) eqn:Hws.
  - assert (Hnn : c <> NUL) by (intros ->; vm_compute in Hws; discriminate).
    pose proof (peek_not_last lx c Hlast Hc Hnn) as Hnext.
    destruct (IH (advance 1 lx)) as (lx' & Hrun & Hsc & Hlt & Hd & Hnl).
    + exact Hlast.
    + unfold advance, setSourceBuffer, sourceEnd in *. simpl. lia.
    + unfold advance, setSourceBuffer, sourceEnd in *. simpl. lia.
    + exists lx'. rewrite Hrun. split; [reflexivity |].
      split; [exact (scannedFrom_trans _ _ _ (scannedFrom_advance 1 lx) Hsc) |].
      auto.
  - exists lx. unfold addTrivia. rewrite (lexeme_scannedFrom lx lx (scannedFrom_refl lx)).
    split; [reflexivity |]. split; [apply scannedFrom_refl |]. auto.
Qed.

Lemma peekAt_in n lx :
  (sourceBuffer lx + n < sourceEnd lx)%nat -> exists c, peekAt n lx = Some c.
Proof.
  intros Hlt. unfold peekAt.
  destruct (lookup_lt_is_Some_2 (source lx) (sourceBuffer lx + n) Hlt) as [c Hc]. eauto.
Qed.

Lemma peekAt_not_last n lx c :
  last (source lx) = Some NUL -> peekAt n lx = Some c -> c <> NUL ->
  (S (sourceBuffer lx + n) < sourceEnd lx)%nat.
Proof.
  intros Hlast Hpeek Hc. rewrite <- peek_advance in Hpeek.
  apply (peek_not_last (advance n lx) c Hlast Hpeek Hc).
Qed.

Lemma isNewline_not_NUL c : isNewline c = true -> c <> NUL.
Proof. intros H ->. vm_compute in H. discriminate. Qed.

Lemma scanLineComment_spec fuel triviaBuffer directiveMode lx :
  last (source lx) = Some NUL -> (sourceBuffer lx < sourceEnd lx)%nat ->
  (sourceEnd lx - sourceBuffer lx < fuel)%nat ->
  exists lx',
    scanLineComment fuel triviaBuffer directiveMode lx =
      Some (triviaBuffer ++
            [{| triviaKind := TriviaKind.LineComment;
                triviaText := sourceText lx (marker lx) (sourceBuffer lx') |}], lx') /\
    scannedFrom lx lx' /\ (sourceBuffer lx' < sourceEnd lx)%nat /\
    onNewLine lx' = onNewLine lx.
Proof.
  revert lx. induction fuel as [| fuel IH]; intros lx Hlast Hin Hfuel; [lia |].
  cbn [scanLineComment]. destruct (peek_in lx Hin) as [c Hc]. rewrite Hc.
  cbn [mbind option_bind].
  assert (Hdone : exists lx',
    Some (addTrivia TriviaKind.LineComment triviaBuffer lx, lx) =
      Some (triviaBuffer ++
            [{| triviaKind := TriviaKind.LineComment;
                triviaText := sourceText lx (marker lx) (sourceBuffer lx') |}], lx') /\
    scannedFrom lx lx' /\ (sourceBuffer lx' < sourceEnd lx)%nat /\
    onNewLine lx' = onNewLine lx).
  { exists lx. unfold addTrivia. rewrite (lexeme_scannedFrom lx lx (scannedFrom_refl lx)).
    split; [reflexivity |]. split; [apply scannedFrom_refl | auto]. }
  assert (Hstep : forall lx1, scannedFrom lx lx1 -> source lx1 = source lx ->
    sourceBuffer lx1 = S (sourceBuffer lx) -> onNewLine lx1 = onNewLine lx ->
    (S (sourceBuffer lx) < sourceEnd lx)%nat ->
    exists lx',
      scanLineComment fuel triviaBuffer directiveMode lx1 =
        Some (triviaBuffer ++
              [{| triviaKind := TriviaKind.LineComment;
                  triviaText := sourceText lx (marker lx) (sourceBuffer lx') |}], lx') /\
      scannedFrom lx lx' /\ (sourceBuffer lx' < sourceEnd lx)%nat /\
      onNewLine lx' = onNewLine lx).
  { intros lx1 Hsc Hs Hp Hnl Hnext.
    destruct (IH lx1) as (lx' & Hrun & Hsc' & Hlt & Hnl').
    - now rewrite Hs.
    - unfold sourceEnd in *. rewrite Hs, Hp. exact Hnext.
    - unfold sourceEnd in *. rewrite Hs, Hp. lia.
    - exists lx'. rewrite Hrun. pose proof Hsc as (_ & _ & Hm & _).
      unfold sourceText, sourceEnd in *. rewrite Hs, Hm in *.
      split; [reflexivity |]. split; [exact (scannedFrom_trans _ _ _ Hsc Hsc') |].
      split; [exact Hlt | congruence]. }
  destruct (isNewline c) eqn:Hnewline; [exact Hdone |].
  destruct (bool_decide_reflect (c = "\"%char)) as [-> | Hnb]; cbn [andb].
  - destruct directiveMode; cbn [mbind option_bind].
    + pose proof (peek_not_last lx _ Hlast Hc ltac:(discriminate)) as Hnext.
      destruct (peekAt_in 1 lx ltac:(lia)) as [n Hn]. rewrite Hn. cbn [mbind option_bind].
      destruct (isNewline n); [exact Hdone |].
      rewrite bool_decide_eq_false_2 by discriminate.
      apply Hstep; auto using scannedFrom_advance.
      unfold advance, setSourceBuffer; simpl; lia.
    + rewrite bool_decide_eq_false_2 by discriminate.
      pose proof (peek_not_last lx _ Hlast Hc ltac:(discriminate)) as Hnext.
      apply Hstep; auto using scannedFrom_advance.
      unfold advance, setSourceBuffer; simpl; lia.
  - cbn [mbind option_bind].
    destruct (bool_decide_reflect (c = NUL)) as [-> | Hnn].
    + destruct (reallyAtEnd lx) eqn:Hend; [exact Hdone |].
      pose proof (peek_embedded lx Hc Hend) as Hnext.
      apply Hstep; auto.
      * exact (scannedFrom_trans _ _ _ (scannedFrom_addError _ _ lx)
                 (scannedFrom_advance 1 _)).
      * unfold advance, setSourceBuffer; simpl; lia.
    + pose proof (peek_not_last lx _ Hlast Hc Hnn) as Hnext.
      apply Hstep; auto using scannedFrom_advance.
      unfold advance, setSourceBuffer; simpl; lia.
Qed.

Lemma scanBlockComment_spec fuel triviaBuffer directiveMode eod lx :
  last (source lx) = Some NUL -> (sourceBuffer lx < sourceEnd lx)%nat ->
  (sourceEnd lx - sourceBuffer lx < fuel)%nat ->
  exists eod' lx',
    scanBlockComment fuel triviaBuffer directiveMode eod lx =
      Some (eod', triviaBuffer ++
            [{| triviaKind := TriviaKind.BlockComment;
                triviaText := sourceText lx (marker lx) (sourceBuffer lx') |}], lx') /\
    scannedFrom lx lx' /\ (sourceBuffer lx' < sourceEnd lx)%nat /\
    onNewLine lx' = onNewLine lx /\
    (eod' = true -> eod = true \/ directiveMode = true).
Proof.
  revert eod lx. induction fuel as [| fuel IH]; intros eod lx Hlast Hin Hfuel; [lia |].
  cbn [scanBlockComment]. destruct (peek_in lx Hin) as [c Hc]. rewrite Hc.
  cbn [mbind option_bind].
  assert (Hdone : forall lx1, scannedFrom lx lx1 ->
    (sourceBuffer lx1 < sourceEnd lx)%nat -> onNewLine lx1 = onNewLine lx ->
    exists eod' lx',
      Some (eod, addTrivia TriviaKind.BlockComment triviaBuffer lx1, lx1) =
        Some (eod', triviaBuffer ++
              [{| triviaKind := TriviaKind.BlockComment;
                  triviaText := sourceText lx (marker lx) (sourceBuffer lx') |}], lx') /\
      scannedFrom lx lx' /\ (sourceBuffer lx' < sourceEnd lx)%nat /\
      onNewLine lx' = onNewLine lx /\
      (eod' = true -> eod = true \/ directiveMode = true)).
  { intros lx1 Hsc Hlt Hnl. exists eod, lx1. unfold addTrivia.
    rewrite (lexeme_scannedFrom lx lx1 Hsc).
    split; [reflexivity |]. split; [exact Hsc |]. auto. }
  assert (Hstep : forall eod1 lx1, scannedFrom lx lx1 ->
    (sourceBuffer lx < sourceBuffer lx1 < sourceEnd lx)%nat ->
    onNewLine lx1 = onNewLine lx ->
    (eod1 = true -> eod = true \/ directiveMode = true) ->
    exists eod' lx',
      scanBlockComment fuel triviaBuffer directiveMode eod1 lx1 =
        Some (eod', triviaBuffer ++
              [{| triviaKind := TriviaKind.BlockComment;
                  triviaText := sourceText lx (marker lx) (sourceBuffer lx') |}], lx') /\
      scannedFrom lx lx' /\ (sourceBuffer lx' < sourceEnd lx)%nat /\
      onNewLine lx' = onNewLine lx /\
      (eod' = true -> eod = true \/ directiveMode = true)).
  { intros eod1 lx1 Hsc Hp Hnl Heod1. pose proof Hsc as (Hs & _ & Hm & _).
    destruct (IH eod1 lx1) as (eod' & lx' & Hrun & Hsc' & Hlt & Hnl' & Heod').
    - now rewrite Hs.
    - unfold sourceEnd in *. rewrite Hs. lia.
    - unfold sourceEnd in *. rewrite Hs. lia.
    - exists eod', lx'. rewrite Hrun.
      unfold sourceText, sourceEnd in *. rewrite Hs, Hm in *.
      split; [reflexivity |]. split; [exact (scannedFrom_trans _ _ _ Hsc Hsc') |].
      split; [exact Hlt |]. split; [congruence |].
      intros He. destruct (Heod' He) as [-> | ->]; auto. }
  assert (Hadv : forall n, scannedFrom lx (advance n lx)) by (intros; apply scannedFrom_advance).
  assert (Herr : forall code n, scannedFrom lx (advance n (lexerAddError code (currentOffset lx) lx))).
  { intros. exact (scannedFrom_trans _ _ _ (scannedFrom_addError _ _ lx)
                     (scannedFrom_advance n _)). }
  destruct (bool_decide_reflect (c = NUL)) as [-> | Hnn].
  - destruct (reallyAtEnd lx) eqn:Hend.
    + apply Hdone; auto using scannedFrom_addError.
    + pose proof (peek_embedded lx Hc Hend) as Hnext.
      apply Hstep; auto. unfold advance, setSourceBuffer; simpl; lia.
  - pose proof (peek_not_last lx _ Hlast Hc Hnn) as Hnext.
    destruct (peekAt_in 1 lx ltac:(lia)) as [n Hn].
    assert (Hclosing : exists closing,
      (if bool_decide (c = "*"%char)
       then n0 ← peekAt 1 lx; Some (bool_decide (n0 = "/"%char))
       else Some false) = Some closing /\
      (closing = true -> n = "/"%char)).
    { rewrite Hn. cbn [mbind option_bind]. destruct (bool_decide (c = "*"%char)).
      - eexists. split; [reflexivity |]. intros H. now apply bool_decide_eq_true in H.
      - eexists. split; [reflexivity |]. discriminate. }
    destruct Hclosing as (closing & -> & Hcl). cbn [mbind option_bind].
    destruct closing.
    + specialize (Hcl eq_refl). subst n.
      pose proof (peekAt_not_last 1 lx _ Hlast Hn ltac:(discriminate)) as Hnext2.
      apply Hdone; auto. unfold advance, setSourceBuffer; simpl; lia.
    + assert (Hnested : exists nested,
        (if bool_decide (c = "/"%char)
         then n0 ← peekAt 1 lx; Some (bool_decide (n0 = "*"%char))
         else Some false) = Some nested /\
        (nested = true -> n = "*"%char)).
      { rewrite Hn. cbn [mbind option_bind]. destruct (bool_decide (c = "/"%char)).
        - eexists. split; [reflexivity |]. intros H. now apply bool_decide_eq_true in H.
        - eexists. split; [reflexivity |]. discriminate. }
      destruct Hnested as (nested & -> & Hne). cbn [mbind option_bind].
      destruct nested.
      * specialize (Hne eq_refl). subst n.
        pose proof (peekAt_not_last 1 lx _ Hlast Hn ltac:(discriminate)) as Hnext2.
        apply Hstep; auto. unfold advance, setSourceBuffer; simpl; lia.
      * destruct (directiveMode && isNewline c) eqn:Hsplit.
        -- apply Hstep; auto.
           ++ unfold advance, setSourceBuffer; simpl; lia.
           ++ intros _. right. now apply andb_true_iff in Hsplit as (-> & _).
        -- apply Hstep; auto. unfold advance, setSourceBuffer; simpl; lia.
Qed.

Lemma lexedFrom_refl lx : lexedFrom lx lx.
Proof. unfold lexedFrom. repeat split; auto. exists []. now rewrite app_nil_r. Qed.

Lemma lexedFrom_trans lx1 lx2 lx3 :
  lexedFrom lx1 lx2 -> lexedFrom lx2 lx3 -> lexedFrom lx1 lx3.
Proof.
  intros (Hs & Hb & Hx & Hp & a1 & Hd) (Hs' & Hb' & Hx' & Hp' & a2 & Hd').
  unfold lexedFrom. repeat split; try congruence; try lia.
  exists (a1 ++ a2). rewrite Hd', Hd. now rewrite app_assoc.
Qed.

Lemma scannedFrom_lexedFrom lx lx' : scannedFrom lx lx' -> lexedFrom lx lx'.
Proof. intros (Hs & Hb & Hm & Hx & Hp & Hd). unfold lexedFrom. auto. Qed.

Lemma lexedFrom_mark lx : lexedFrom lx (mark lx).
Proof.
  unfold lexedFrom, mark. simpl. repeat split; auto.
  exists []. now rewrite app_nil_r.
Qed.

Lemma triviaTexts_app ts1 ts2 : triviaTexts (ts1 ++ ts2) = triviaTexts ts1 ++ triviaTexts ts2.
Proof. unfold triviaTexts. now rewrite fmap_app, concat_app. Qed.

Lemma triviaTexts_one kind text : triviaTexts [{| triviaKind := kind; triviaText := text |}] = text.
Proof. unfold triviaTexts. simpl. apply app_nil_r. Qed.

Lemma sourceText_same lx lx' a b :
  source lx' = source lx -> sourceText lx' a b = sourceText lx a b.
Proof. intros Hs. unfold sourceText. now rewrite Hs. Qed.

Lemma consume_spec c lx :
  (sourceBuffer lx < sourceEnd lx)%nat ->
  exists b : bool, consume c lx = Some (b, if b then advance 1 lx else lx) /\
                   (b = true -> peek lx = Some c).
Proof.
  intros Hin. destruct (peek_in lx Hin) as [p Hp]. unfold consume. rewrite Hp.
  cbn [mbind option_bind]. destruct (bool_decide_reflect (p = c)) as [-> |].
  - exists true. auto.
  - exists false. split; [reflexivity | discriminate].
Qed.

Lemma lexTrivia_spec fuel triviaBuffer directiveMode lx :
  last (source lx) = Some NUL -> (sourceBuffer lx < sourceEnd lx)%nat ->
  (sourceEnd lx - sourceBuffer lx < fuel)%nat ->
  exists eod added lx',
    lexTrivia fuel triviaBuffer directiveMode lx = Some (eod, triviaBuffer ++ added, lx') /\
    lexedFrom lx lx' /\ (sourceBuffer lx' < sourceEnd lx)%nat /\
    triviaTexts added = sourceText lx (sourceBuffer lx) (sourceBuffer lx') /\
    Forall (λ t : Trivia, triviaText t <> []) added /\
    (directiveMode = false -> eod = false) /\
    (eod = false -> exists c, peek lx' = Some c /\ isBlank c = false /\
                       (c = NUL -> directiveMode = false)).
Proof.
  revert triviaBuffer lx. induction fuel as [| fuel IH];
    intros triviaBuffer lx Hlast Hin Hfuel; [lia |].
  cbn [lexTrivia]. cbv zeta.
  assert (Hpm : peek (mark lx) = peek lx) by reflexivity.
  destruct (peek_in lx Hin) as [c Hc]. rewrite Hpm, Hc. cbn [mbind option_bind].
  (* the loop goes round: one more piece of trivia, then the rest *)
  assert (Hround : forall kind lx1,
    lexedFrom lx lx1 -> (sourceBuffer lx < sourceBuffer lx1 < sourceEnd lx)%nat ->
    exists eod added lx',
      lexTrivia fuel
        (triviaBuffer ++
         [{| triviaKind := kind;
             triviaText := sourceText lx (sourceBuffer lx) (sourceBuffer lx1) |}])
        directiveMode lx1 = Some (eod, triviaBuffer ++ added, lx') /\
      lexedFrom lx lx' /\ (sourceBuffer lx' < sourceEnd lx)%nat /\
      triviaTexts added = sourceText lx (sourceBuffer lx) (sourceBuffer lx') /\
      Forall (λ t : Trivia, triviaText t <> []) added /\
      (directiveMode = false -> eod = false) /\
      (eod = false -> exists c, peek lx' = Some c /\ isBlank c = false /\
                       (c = NUL -> directiveMode = false))).
  { intros kind lx1 Hlx Hp. pose proof Hlx as (Hs & _).
    destruct (IH (triviaBuffer ++
                  [{| triviaKind := kind;
                      triviaText := sourceText lx (sourceBuffer lx) (sourceBuffer lx1) |}]) lx1)
      as (eod & added & lx' & Hrun & Hlx' & Hlt & Htext & Hne & Hdm & Hnext).
    - now rewrite Hs.
    - unfold sourceEnd in *. rewrite Hs. lia.
    - unfold sourceEnd in *. rewrite Hs. lia.
    - pose proof Hlx' as (_ & _ & _ & Hp' & _).
      exists eod, ({| triviaKind := kind;
                      triviaText := sourceText lx (sourceBuffer lx) (sourceBuffer lx1) |} :: added), lx'.
      rewrite Hrun. unfold sourceEnd in *. rewrite Hs in *.
      split; [now rewrite <- app_assoc |].
      split; [exact (lexedFrom_trans _ _ _ Hlx Hlx') |].
      split; [exact Hlt |].
      split.
      { change (?x :: added) with ([x] ++ added). rewrite triviaTexts_app, triviaTexts_one.
        rewrite Htext, (sourceText_same lx lx1) by exact Hs.
        apply sourceText_app; unfold sourceEnd; lia. }
      split; [| auto].
      constructor; [| exact Hne]. cbn [triviaText].
      apply sourceText_nonempty; unfold sourceEnd; lia. }
  (* the loop ends for good: an end of line in a directive, or a split comment *)
  assert (Hstop : forall kind lx1,
    directiveMode = true ->
    lexedFrom lx lx1 -> (sourceBuffer lx < sourceBuffer lx1 < sourceEnd lx)%nat ->
    exists eod added lx',
      Some (true, triviaBuffer ++
                  [{| triviaKind := kind;
                      triviaText := sourceText lx (sourceBuffer lx) (sourceBuffer lx1) |}], lx1) =
        Some (eod, triviaBuffer ++ added, lx') /\
      lexedFrom lx lx' /\ (sourceBuffer lx' < sourceEnd lx)%nat /\
      triviaTexts added = sourceText lx (sourceBuffer lx) (sourceBuffer lx') /\
      Forall (λ t : Trivia, triviaText t <> []) added /\
      (directiveMode = false -> eod = false) /\
      (eod = false -> exists c, peek lx' = Some c /\ isBlank c = false /\
                       (c = NUL -> directiveMode = false))).
  { intros kind lx1 Hdm Hlx Hp. eexists true, [_], lx1. split; [reflexivity |].
    split; [exact Hlx |]. split; [lia |]. split; [apply triviaTexts_one |].
    split; [| split; [congruence | discriminate]].
    constructor; [| constructor]. cbn [triviaText].
    apply sourceText_nonempty; unfold sourceEnd in *; lia. }
  (* no trivia here *)
  assert (Hnone : forall eod, (directiveMode = false -> eod = false) ->
    isBlank c = false -> (eod = false -> c = NUL -> directiveMode = false) ->
    exists eod' added lx',
      Some (eod, triviaBuffer, mark lx) = Some (eod', triviaBuffer ++ added, lx') /\
      lexedFrom lx lx' /\ (sourceBuffer lx' < sourceEnd lx)%nat /\
      triviaTexts added = sourceText lx (sourceBuffer lx) (sourceBuffer lx') /\
      Forall (λ t : Trivia, triviaText t <> []) added /\
      (directiveMode = false -> eod' = false) /\
      (eod' = false -> exists c, peek lx' = Some c /\ isBlank c = false /\
                       (c = NUL -> directiveMode = false))).
  { intros eod Hdm Hblank Hnul. exists eod, [], (mark lx). rewrite app_nil_r.
    split; [reflexivity |]. split; [apply lexedFrom_mark |]. split; [exact Hin |].
    split; [now rewrite sourceText_nil |]. split; [constructor |]. split; [exact Hdm |].
    intros Heod. exists c. auto. }
  assert (Hmarked : forall n lx1, scannedFrom (advance n (mark lx)) lx1 ->
    lexedFrom lx lx1 /\ marker lx1 = sourceBuffer lx /\ source lx1 = source lx /\
    (sourceBuffer lx + n <= sourceBuffer lx1)%nat).
  { intros n lx1 Hsc. split.
    - exact (lexedFrom_trans _ _ _ (lexedFrom_mark lx)
               (lexedFrom_trans _ _ _ (scannedFrom_lexedFrom _ _ (scannedFrom_advance n _))
                  (scannedFrom_lexedFrom _ _ Hsc))).
    - destruct Hsc as (Hs & _ & Hm & _ & Hp & _). simpl in *. auto. }
  destruct (isHorizontalWhitespace c) eqn:Hws.
  - (* whitespace *)
    assert (Hnn : c <> NUL) by (intros ->; vm_compute in Hws; discriminate).
    pose proof (peek_not_last lx c Hlast Hc Hnn) as Hnext.
    destruct (scanWhitespace_spec (lexerFuel (mark lx)) triviaBuffer
                (advance 1 (mark lx))) as (lx1 & Hrun & Hsc & Hlt & _).
    + exact Hlast.
    + unfold sourceEnd in *. simpl. lia.
    + unfold lexerFuel, sourceEnd. simpl. lia.
    + rewrite Hrun. cbn [mbind option_bind].
      destruct (Hmarked 1%nat lx1 Hsc) as (Hlx & Hm & Hs & Hp).
      cbn [marker advance setSourceBuffer mark] in *.
      rewrite (sourceText_same lx (advance 1 (mark lx))) by reflexivity.
      apply Hround; [exact Hlx |]. unfold sourceEnd in *. simpl in *. lia.
  - destruct (bool_decide_reflect (c = "/"%char)) as [-> | Hnslash].
    + pose proof (peek_not_last lx _ Hlast Hc ltac:(discriminate)) as Hnext.
      destruct (peekAt_in 1 lx ltac:(lia)) as [n Hn].
      assert (Hn' : peekAt 1 (mark lx) = Some n) by exact Hn. rewrite Hn'.
      cbn [mbind option_bind].
      destruct (bool_decide_reflect (n = "/"%char)) as [-> | Hn1].
      * pose proof (peekAt_not_last 1 lx _ Hlast Hn ltac:(discriminate)) as Hnext2.
        destruct (scanLineComment_spec (lexerFuel (mark lx)) triviaBuffer
                    directiveMode (advance 2 (mark lx))) as (lx1 & Hrun & Hsc & Hlt & _).
        -- exact Hlast.
        -- unfold sourceEnd in *. simpl. lia.
        -- unfold lexerFuel, sourceEnd. simpl. lia.
        -- rewrite Hrun. cbn [mbind option_bind].
           destruct (Hmarked 2%nat lx1 Hsc) as (Hlx & Hm & Hs & Hp).
           cbn [marker advance setSourceBuffer mark] in *.
           rewrite (sourceText_same lx (advance 2 (mark lx))) by reflexivity.
           apply Hround; [exact Hlx |]. unfold sourceEnd in *. simpl in *. lia.
      * destruct (bool_decide_reflect (n = "*"%char)) as [-> | Hn2].
        -- pose proof (peekAt_not_last 1 lx _ Hlast Hn ltac:(discriminate)) as Hnext2.
           destruct (scanBlockComment_spec (lexerFuel (mark lx)) triviaBuffer
                       directiveMode false (advance 2 (mark lx)))
             as (eod & lx1 & Hrun & Hsc & Hlt & _ & Heod).
           ++ exact Hlast.
           ++ unfold sourceEnd in *. simpl. lia.
           ++ unfold lexerFuel, sourceEnd. simpl. lia.
           ++ rewrite Hrun. cbn [mbind option_bind].
              destruct (Hmarked 2%nat lx1 Hsc) as (Hlx & Hm & Hs & Hp).
              cbn [marker advance setSourceBuffer mark] in *.
              rewrite (sourceText_same lx (advance 2 (mark lx))) by reflexivity.
              destruct eod.
              ** apply Hstop; [| exact Hlx |].
                 --- destruct (Heod eq_refl) as [H | H]; [discriminate | exact H].
                 --- unfold sourceEnd in *. simpl in *. lia.
              ** apply Hround; [exact Hlx |]. unfold sourceEnd in *. simpl in *. lia.
        -- apply (Hnone false); [auto | reflexivity | discriminate].
    + destruct (bool_decide_reflect (c = CR)) as [-> | Hncr].
      * pose proof (peek_not_last lx _ Hlast Hc ltac:(discriminate)) as Hnext.
        destruct (consume_spec LF (advance 1 (mark lx))) as (b & Hcons & Hb).
        { unfold sourceEnd in *. simpl. lia. }
        rewrite Hcons. cbn [mbind option_bind].
        set (lx1 := if b then advance 1 (advance 1 (mark lx)) else advance 1 (mark lx)).
        assert (Hsc : scannedFrom (advance 1 (mark lx)) (setOnNewLine lx1 true)).
        { subst lx1. destruct b.
          - exact (scannedFrom_trans _ _ _ (scannedFrom_advance 1 _) (scannedFrom_onNewLine _ _)).
          - apply scannedFrom_onNewLine. }
        destruct (Hmarked 1%nat _ Hsc) as (Hlx & Hm & Hs & Hp).
        assert (Hlt : (sourceBuffer (setOnNewLine lx1 true) < sourceEnd lx)%nat).
        { subst lx1. destruct b; simpl; [| lia].
          specialize (Hb eq_refl).
          pose proof (peek_not_last (advance 1 (mark lx)) _ Hlast Hb ltac:(discriminate)) as H2.
          unfold sourceEnd in *. simpl in *. lia. }
        unfold addTrivia.
        rewrite (lexeme_scannedFrom _ _ Hsc).
        cbn [marker advance setSourceBuffer mark].
        rewrite (sourceText_same lx (advance 1 (mark lx))) by reflexivity.
        destruct directiveMode eqn:Hdm.
        -- apply Hstop; [reflexivity | exact Hlx | lia].
        -- apply Hround; [exact Hlx | lia].
      * destruct (bool_decide_reflect (c = LF)) as [-> | Hnlf].
        -- pose proof (peek_not_last lx _ Hlast Hc ltac:(discriminate)) as Hnext.
           assert (Hsc : scannedFrom (advance 1 (mark lx))
                           (setOnNewLine (advance 1 (mark lx)) true))
             by apply scannedFrom_onNewLine.
           destruct (Hmarked 1%nat _ Hsc) as (Hlx & Hm & Hs & Hp).
           unfold addTrivia. rewrite (lexeme_scannedFrom _ _ Hsc).
           cbn [marker advance setSourceBuffer mark].
           rewrite (sourceText_same lx (advance 1 (mark lx))) by reflexivity.
           destruct directiveMode eqn:Hdm.
           ++ apply Hstop; [reflexivity | exact Hlx | simpl in *; lia].
           ++ apply Hround; [exact Hlx | simpl in *; lia].
        -- assert (Hblank : isBlank c = false).
           { unfold isBlank, isNewline. rewrite Hws.
             rewrite !bool_decide_eq_false_2 by assumption. reflexivity. }
           destruct (bool_decide_reflect (c = "\"%char)) as [-> | Hnbs].
           ++ pose proof (peek_not_last lx _ Hlast Hc ltac:(discriminate)) as Hnext.
              destruct (peekAt_in 1 lx ltac:(lia)) as [n Hn].
              assert (Hn' : peekAt 1 (mark lx) = Some n) by exact Hn. rewrite Hn'.
              cbn [mbind option_bind].
              destruct (negb directiveMode || negb (isNewline n)) eqn:Hplain.
              ** apply (Hnone false); [auto | exact Hblank | discriminate].
              ** apply orb_false_iff in Hplain as (Hdm & Hnl).
                 apply negb_false_iff in Hdm, Hnl. subst directiveMode.
                 pose proof (peekAt_not_last 1 lx _ Hlast Hn (isNewline_not_NUL _ Hnl)) as Hnext2.
                 assert (Hcont : exists lx1,
                   (if bool_decide (n = CR)
                    then '(_, lx0) ← consume LF (advance 2 (mark lx)); Some lx0
                    else Some (advance 2 (mark lx))) = Some lx1 /\
                   scannedFrom (advance 2 (mark lx)) lx1 /\
                   (sourceBuffer lx1 < sourceEnd lx)%nat).
                 { destruct (bool_decide (n = CR)).
                   - destruct (consume_spec LF (advance 2 (mark lx))) as (b & Hcons & Hb).
                     { unfold sourceEnd in *. simpl. lia. }
                     rewrite Hcons. cbn [mbind option_bind]. eexists. split; [reflexivity |].
                     destruct b.
                     + split; [apply scannedFrom_advance |].
                       specialize (Hb eq_refl).
                       pose proof (peek_not_last (advance 2 (mark lx)) _ Hlast Hb
                                     ltac:(discriminate)) as H2.
                       unfold sourceEnd in *. simpl in *. lia.
                     + split; [apply scannedFrom_refl |]. unfold sourceEnd in *. simpl. lia.
                   - eexists. split; [reflexivity |].
                     split; [apply scannedFrom_refl |]. unfold sourceEnd in *. simpl. lia. }
                 destruct Hcont as (lx1 & -> & Hsc1 & Hlt1). cbn [mbind option_bind].
                 assert (Hsc : scannedFrom (advance 2 (mark lx)) (setOnNewLine lx1 true)).
                 { exact (scannedFrom_trans _ _ _ Hsc1 (scannedFrom_onNewLine _ _)). }
                 destruct (Hmarked 2%nat _ Hsc) as (Hlx & Hm & Hs & Hp).
                 unfold addTrivia. rewrite (lexeme_scannedFrom _ _ Hsc).
                 cbn [marker advance setSourceBuffer mark].
                 rewrite (sourceText_same lx (advance 2 (mark lx))) by reflexivity.
                 apply Hround; [exact Hlx | simpl in *; lia].
           ++ destruct (bool_decide_reflect (c = NUL)).
              ** apply (Hnone directiveMode); [intros ->; reflexivity | exact Hblank | auto].
              ** apply (Hnone false); [auto | exact Hblank | intros; contradiction].
Qed.

(** X21.  Leading trivia.  On a buffer that ends in NUL, with the read pointer
    inside it, [lexTrivia] returns without reading outside the buffer.  The
    trivia it collects are not empty and their text, put together, is exactly
    the text read over; the read pointer stays inside the buffer; in normal
    mode it never asks for the end of a directive; and unless it does, the
    lexer stands on a character that is neither whitespace nor a line end. *)
Theorem lexTrivia_covers directiveMode lx :
  inBuffer lx ->
  exists eod triviaBuffer lx',
    lexTrivia (lexerFuel lx) [] directiveMode lx = Some (eod, triviaBuffer, lx') /\
    inBuffer lx' /\ lexedFrom lx lx' /\
    triviaTexts triviaBuffer = sourceText lx (sourceBuffer lx) (sourceBuffer lx') /\
    Forall (λ t : Trivia, triviaText t <> []) triviaBuffer /\
    (directiveMode = false -> eod = false) /\
    (eod = false -> exists c, peek lx' = Some c /\ isBlank c = false /\
                       (c = NUL -> directiveMode = false)).
Proof.
  intros (Hlast & Hin).
  destruct (lexTrivia_spec (lexerFuel lx) [] directiveMode lx Hlast Hin)
    as (eod & added & lx' & Hrun & Hlx & Hlt & Htext & Hne & Hdm & Hnext).
  { unfold lexerFuel. lia. }
  exists eod, added, lx'. split; [exact Hrun |].
  pose proof Hlx as (Hs & _).
  split; [| auto]. unfold inBuffer, sourceEnd in *. rewrite Hs. auto.
Qed.

Section TokenFacts.
Variable lexStringLiteral : SubLexer.
Variable lexDollarSign : SubLexer.
Variable lexApostrophe : SubLexer.
Variable lexNumericLiteral : SubLexer.
Variable lexEscapeSequence : SubLexer.
Variable lexDirective : SubLexer.
Variable lexIdentifier : nat -> SubLexer.
Variable isASCII : ascii -> bool.
Variable utf8SeqBytes : ascii -> nat.
Hypothesis lexStringLiteral_ok : SubLexerOk lexStringLiteral.
Hypothesis lexDollarSign_ok : SubLexerOk lexDollarSign.
Hypothesis lexApostrophe_ok : SubLexerOk lexApostrophe.
Hypothesis lexNumericLiteral_ok : NumericLexerOk lexNumericLiteral.
Hypothesis lexEscapeSequence_ok : SubLexerOk lexEscapeSequence.
Hypothesis lexDirective_ok : SubLexerOk lexDirective.
Hypothesis lexIdentifier_ok : forall keywordVersion, SubLexerOk (lexIdentifier keywordVersion).

Local Abbreviation lexTokenSwitch' :=
  (lexTokenSwitch lexStringLiteral lexDollarSign lexApostrophe lexNumericLiteral
     lexEscapeSequence lexDirective lexIdentifier isASCII utf8SeqBytes).
Local Abbreviation lexToken' :=
  (lexToken lexStringLiteral lexDollarSign lexApostrophe lexNumericLiteral
     lexEscapeSequence lexDirective lexIdentifier isASCII utf8SeqBytes).
Local Abbreviation lexIncludeFileName' := (lexIncludeFileName lexDirective).
Local Abbreviation lex' :=
  (lex lexStringLiteral lexDollarSign lexApostrophe lexNumericLiteral
     lexEscapeSequence lexDirective lexIdentifier isASCII utf8SeqBytes).
Local Abbreviation lexMany' :=
  (lexMany lexStringLiteral lexDollarSign lexApostrophe lexNumericLiteral
     lexEscapeSequence lexDirective lexIdentifier isASCII utf8SeqBytes).

Lemma tokenScanned_token start lx0 kind info lx' :
  scannedFrom lx0 lx' -> (start < sourceBuffer lx' < sourceEnd lx0)%nat ->
  kind <> TokenKind.EndOfFile ->
  tokenScanned start lx0 (token kind info lx').
Proof. unfold tokenScanned, token. auto. Qed.

Lemma tokenScanned_sub f start lx0 lx info :
  SubLexerOk f -> last (source lx0) = Some NUL -> scannedFrom lx0 lx ->
  marker lx0 = start -> (start < sourceBuffer lx0)%nat ->
  (sourceBuffer lx < sourceEnd lx0)%nat ->
  tokenScanned start lx0 (f info lx).
Proof.
  intros Hok Hlast Hsc Hm Hstart Hin. unfold tokenScanned.
  destruct (f info lx) as [[[kind info'] lx'] |] eqn:Hf; [| exact I].
  pose proof Hsc as (Hs & _ & Hm' & _ & Hp & _).
  destruct (Hok info lx kind info' lx') as (Hsc' & Hp' & Hk); auto.
  - now rewrite Hs.
  - unfold sourceEnd in *. rewrite Hs, Hm'. lia.
  - split; [exact (scannedFrom_trans _ _ _ Hsc Hsc') |].
    destruct Hsc' as (_ & _ & _ & _ & Hmono & _).
    unfold sourceEnd in *. rewrite Hs in *. split; [lia | exact Hk].
Qed.

Lemma tokenScanned_numeric start lx0 info c :
  last (source lx0) = Some NUL -> marker lx0 = start -> sourceBuffer lx0 = S start ->
  source lx0 !! start = Some c -> startsNumber c = true ->
  tokenScanned start lx0
    (lexNumericLiteral info (setSourceBuffer lx0 (sourceBuffer lx0 - 1))).
Proof.
  intros Hlast Hm Hp Hc Hdigit. unfold tokenScanned.
  destruct (lexNumericLiteral _ _) as [[[kind info'] lx'] |] eqn:Hf; [| exact I].
  destruct (lexNumericLiteral_ok info (setSourceBuffer lx0 (sourceBuffer lx0 - 1))
              kind info' lx' c) as (Hsc & Hp' & Hk).
  - exact Hlast.
  - simpl. lia.
  - unfold peek, peekAt. simpl. rewrite Hp. now replace (S start - 1 + 0)%nat with start by lia.
  - exact Hdigit.
  - exact Hf.
  - simpl in Hp'. destruct Hsc as (Hs & Hb & Hm' & Hx & Hmono & Hd). simpl in *.
    unfold scannedFrom, sourceEnd in *. simpl in *. repeat split; auto; lia.
Qed.

Lemma tokenScanned_consume start lx0 ch lx
    (k : bool * Lexer -> option (TokenKind.t * TokenInfo TokenExtra * Lexer)) :
  (peek lx = Some ch -> tokenScanned start lx0 (k (true, advance 1 lx))) ->
  tokenScanned start lx0 (k (false, lx)) ->
  tokenScanned start lx0 (consume ch lx ≫= k).
Proof.
  intros Hyes Hno. unfold consume. destruct (peek lx) as [p |]; [| exact I].
  cbn [mbind option_bind]. destruct (bool_decide_reflect (p = ch)) as [-> |]; auto.
Qed.

Lemma tokenScanned_peekCase start lx0 info lx cases otherwise :
  (forall p kind, peek lx = Some p -> (p, kind) ∈ cases ->
     tokenScanned start lx0 (token kind info (advance 1 lx))) ->
  tokenScanned start lx0 (token otherwise info lx) ->
  tokenScanned start lx0 (peekCase info lx cases otherwise).
Proof.
  intros Hcase Hother. unfold peekCase. destruct (peek lx) as [p |]; [| exact I].
  cbn [mbind option_bind].
  destruct (list_find _ cases) as [[i [p' kind]] |] eqn:Hfind; [| exact Hother].
  apply list_find_Some in Hfind as (Hi & Hp & _). simpl in Hp. subst p'.
  apply (Hcase p kind eq_refl). now apply list_elem_of_lookup_2 in Hi.
Qed.

Lemma tokenScanned_unknown start lx c offset info :
  sourceBuffer lx = S start -> (S start < sourceEnd lx)%nat ->
  (isASCII c = false -> (S start + utf8SeqBytes c < sourceEnd lx)%nat) ->
  tokenScanned start lx (lexUnknownCharacter isASCII utf8SeqBytes c offset info lx).
Proof.
  intros Hp Hin Hseq. unfold lexUnknownCharacter.
  destruct (isASCII c).
  - apply tokenScanned_token; [apply scannedFrom_addError | simpl; lia | discriminate].
  - specialize (Hseq eq_refl). apply tokenScanned_token.
    + exact (scannedFrom_trans _ _ _ (scannedFrom_advance _ lx) (scannedFrom_addError _ _ _)).
    + simpl. lia.
    + discriminate.
Qed.

Ltac bound_facts Hlast :=
  repeat match goal with
  | H : peekAt ?k ?lx = Some ?c |- _ =>
      first [ pose proof (peekAt_not_last k lx c Hlast H ltac:(discriminate)) | idtac ];
      revert H
  | H : peek ?lx = Some ?c |- _ =>
      first [ pose proof (peek_not_last lx c Hlast H ltac:(discriminate)) | idtac ];
      revert H
  end; intros.

Ltac scanned_here :=
  unfold scannedFrom, advance, setSourceBuffer; simpl;
  repeat split; auto; try lia; exists []; now rewrite app_nil_r.

Ltac in_bounds Hlast :=
  bound_facts Hlast; unfold sourceEnd, advance, setSourceBuffer in *; simpl in *; lia.

Ltac token_case Hlast :=
  apply tokenScanned_token; [ scanned_here | in_bounds Hlast | discriminate ].

Ltac sub_case Hlast :=
  apply tokenScanned_sub;
  [ solve [auto] | exact Hlast | scanned_here | solve [auto] | lia | in_bounds Hlast ].

Ltac scan_step Hlast :=
  match goal with
  | |- tokenScanned _ _ (token (if ?b then _ else _) _ _) => destruct b
  | |- tokenScanned _ _ (token _ _ _) => token_case Hlast
  | |- tokenScanned _ _ None => exact I
  | |- tokenScanned _ _ (mbind _ (peek ?lx)) =>
      let p := fresh "p" in let Hp := fresh "Hp" in
      destruct (peek lx) as [p |] eqn:Hp; cbn [mbind option_bind]; [| exact I]
  | |- tokenScanned _ _ (mbind _ (peekAt ?k ?lx)) =>
      let p := fresh "p" in let Hp := fresh "Hp" in
      destruct (peekAt k lx) as [p |] eqn:Hp; cbn [mbind option_bind]; [| exact I]
  | |- tokenScanned _ _ (mbind _ (consume _ _)) =>
      apply tokenScanned_consume; [intros ? |]; cbv beta iota; cbn [negb]
  | |- tokenScanned _ _ (peekCase _ _ _ _) =>
      apply tokenScanned_peekCase;
      [ let Hin := fresh "Hin" in
        intros ? ? ? Hin;
        repeat (apply elem_of_cons in Hin as [Hin | Hin];
                [injection Hin as -> -> |]);
        try (apply elem_of_nil in Hin; destruct Hin)
      | ]
  | |- tokenScanned _ _ (mbind _ (Some _)) => cbn [mbind option_bind]
  | |- tokenScanned _ _ (mbind _ (if bool_decide (?p = ?ch) then _ else _)) =>
      let E := fresh "E" in
      destruct (bool_decide_reflect (p = ch)) as [E | E];
      [try solve [exfalso; congruence]; first [subst p | idtac] |]
  | |- tokenScanned _ _ (if bool_decide (?p = ?ch) && _ then _ else _) =>
      let E := fresh "E" in
      destruct (bool_decide_reflect (p = ch)) as [E | E];
      [try solve [exfalso; congruence]; first [subst p | idtac] |]; cbn [andb]
  | |- tokenScanned _ _ (if bool_decide (?p = ?ch) then _ else _) =>
      let E := fresh "E" in
      destruct (bool_decide_reflect (p = ch)) as [E | E];
      [try solve [exfalso; congruence]; first [subst p | idtac] |]
  | |- tokenScanned _ _ (if true && _ then _ else _) => cbn [andb]
  | |- tokenScanned _ _ (if false && _ then _ else _) => cbn [andb]; cbv iota
  | |- tokenScanned _ _ (if negb ?b then _ else _) => destruct b; cbn [negb]
  | |- tokenScanned _ _ (if ?b then _ else _) => destruct b
  | |- tokenScanned _ _ (let _ := _ in _) => cbv zeta
  | |- tokenScanned _ _ (_ _ _) => sub_case Hlast
  end.

(** Every case of [lexToken] but the NUL one scans on from the character it
    was entered with and stays inside the buffer. *)
Lemma lexTokenSwitch_scanned c offset info directiveMode keywordVersion lx start :
  last (source lx) = Some NUL -> marker lx = start -> sourceBuffer lx = S start ->
  (S start < sourceEnd lx)%nat -> source lx !! start = Some c -> c <> NUL ->
  (isASCII c = false -> (S start + utf8SeqBytes c < sourceEnd lx)%nat) ->
  tokenScanned start lx (lexTokenSwitch' c offset info directiveMode keywordVersion lx).
Proof.
  intros Hlast Hm Hp Hin Hsrc Hc Hseq. unfold lexTokenSwitch.
  pose proof (tokenScanned_unknown start lx c offset info Hp Hin Hseq) as Hunknown.
  clear Hseq.
  destruct (bool_decide (c = QUOTE)); [sub_case Hlast |].
  assert (Hnum : startsNumber c = true ->
    tokenScanned start lx
      (lexNumericLiteral info (setSourceBuffer lx (sourceBuffer lx - 1)))).
  { intros Hd. now apply (tokenScanned_numeric start lx info c). }
  clear Hsrc.
  destruct c as [[] [] [] [] [] [] [] []].
  all: cbv beta iota.
  all: try (exfalso; apply Hc; reflexivity).
  all: try (apply Hnum; reflexivity).
  all: clear Hnum.
  all: repeat first [exact Hunknown | scan_step Hlast].
Qed.

Lemma lexToken_spec info directiveMode keywordVersion lx kind info' lx' :
  last (source lx) = Some NUL -> (sourceBuffer lx < sourceEnd lx)%nat ->
  marker lx = sourceBuffer lx -> sequencesFit isASCII utf8SeqBytes (source lx) ->
  lexToken' info directiveMode keywordVersion lx = Some (kind, info', lx') ->
  scannedFrom lx lx' /\ (sourceBuffer lx' < sourceEnd lx)%nat /\
  (sourceBuffer lx' = sourceBuffer lx ->
     kind = (if directiveMode then TokenKind.EndOfDirective else TokenKind.EndOfFile) /\
     sourceBuffer lx = (sourceEnd lx - 1)%nat /\ lx' = lx) /\
  (kind = TokenKind.EndOfFile -> sourceBuffer lx' = sourceBuffer lx).
Proof.
  intros Hlast Hin Hm Hfit Hrun. unfold lexToken in Hrun. cbv zeta in Hrun.
  destruct (peek lx) as [c |] eqn:Hc; [| discriminate]. cbn [mbind option_bind] in Hrun.
  destruct (decide (c = NUL)) as [-> | Hnn].
  - unfold lexTokenSwitch in Hrun.
    rewrite bool_decide_eq_false_2 in Hrun by discriminate.
    change (match NUL with "000"%char => ?x | _ => _ end) with x in Hrun.
    cbv beta zeta in Hrun.
    assert (Hback : setSourceBuffer (advance 1 lx) (sourceBuffer (advance 1 lx) - 1) = lx).
    { unfold advance, setSourceBuffer. cbn [sourceBuffer source bufferId marker onNewLine
        errorCount diagnostics maxErrors].
      replace (sourceBuffer lx + 1 - 1)%nat with (sourceBuffer lx) by lia.
      now destruct lx. }
    rewrite Hback in Hrun.
    destruct (reallyAtEnd lx) eqn:Hend; cbn [negb] in Hrun.
    + unfold reallyAtEnd in Hend. apply bool_decide_eq_true in Hend.
      destruct directiveMode; injection Hrun as <- <- <-;
        (split; [apply scannedFrom_refl |]); (split; [exact Hin |]);
        (split; [intros _; split; [auto | split; [lia | reflexivity]]
                | intros; try discriminate; reflexivity]).
    + pose proof (peek_embedded lx Hc Hend) as Hnext.
      injection Hrun as <- <- <-.
      split.
      { exact (scannedFrom_trans _ _ _ (scannedFrom_advance 1 lx)
                 (scannedFrom_addError _ _ _)). }
      simpl. split; [lia |]. split; [intros; lia | discriminate].
  - pose proof (peek_not_last lx c Hlast Hc Hnn) as Hnext.
    pose proof (lexTokenSwitch_scanned c (currentOffset lx)
                  (setLocation info {| locBuffer := bufferId lx;
                                       locOffset := currentOffset lx |})
                  directiveMode keywordVersion (advance 1 lx) (sourceBuffer lx)) as Hsw.
    rewrite Hrun in Hsw. unfold tokenScanned in Hsw.
    destruct Hsw as (Hsc & Hp & Hk).
    + exact Hlast.
    + exact Hm.
    + simpl. lia.
    + unfold sourceEnd in *. simpl. lia.
    + unfold peek, peekAt in Hc. rewrite Nat.add_0_r in Hc. exact Hc.
    + exact Hnn.
    + intros Hascii. unfold peek, peekAt in Hc. rewrite Nat.add_0_r in Hc.
      pose proof (Hfit _ _ Hc Hascii) as Hfits. unfold sourceEnd. simpl. lia.
    + split; [exact (scannedFrom_trans _ _ _ (scannedFrom_advance 1 lx) Hsc) |].
      unfold sourceEnd in *. simpl in Hp.
      split; [lia |]. split; [intros; lia | intros; contradiction].
Qed.

Lemma scanIncludeFileName_spec fuel delim offset lx lx' :
  last (source lx) = Some NUL -> (sourceBuffer lx < sourceEnd lx)%nat ->
  scanIncludeFileName fuel delim offset lx = Some lx' ->
  scannedFrom lx lx' /\ (sourceBuffer lx' < sourceEnd lx)%nat.
Proof.
  revert lx. induction fuel as [| fuel IH]; intros lx Hlast Hin Hrun; [discriminate |].
  cbn [scanIncludeFileName] in Hrun.
  destruct (peek lx) as [c |] eqn:Hc; [| discriminate]. cbn [mbind option_bind] in Hrun.
  destruct (bool_decide_reflect (c = NUL)) as [-> | Hnn]; cbn [orb] in Hrun.
  - injection Hrun as <-. split; [apply scannedFrom_addError | exact Hin].
  - destruct (isNewline c).
    + injection Hrun as <-. split; [apply scannedFrom_addError | exact Hin].
    + pose proof (peek_not_last lx c Hlast Hc Hnn) as Hnext.
      destruct (bool_decide (c = delim)).
      * injection Hrun as <-. split; [apply scannedFrom_advance |].
        unfold sourceEnd in *. simpl. lia.
      * destruct (IH (advance 1 lx)) as (Hsc & Hlt); auto.
        { unfold sourceEnd in *. simpl. lia. }
        split; [exact (scannedFrom_trans _ _ _ (scannedFrom_advance 1 lx) Hsc) | exact Hlt].
Qed.

Lemma lexIncludeFileName_spec lx tok lx' :
  last (source lx) = Some NUL -> (sourceBuffer lx < sourceEnd lx)%nat ->
  lexIncludeFileName' lx = Some (tok, lx') ->
  lexedFrom lx lx' /\ (sourceBuffer lx' < sourceEnd lx)%nat /\
  tokenKind tok <> TokenKind.EndOfFile /\
  triviaTexts (trivia (tokenInfo tok)) ++ rawText (tokenInfo tok) =
    sourceText lx (sourceBuffer lx) (sourceBuffer lx').
Proof.
  intros Hlast Hin Hrun. unfold lexIncludeFileName in Hrun.
  destruct (peek_in lx Hin) as [first Hfirst]. rewrite Hfirst in Hrun.
  cbn [mbind option_bind] in Hrun.
  (* the leading whitespace *)
  assert (Hws : exists triviaBuffer lx1,
    (if isHorizontalWhitespace first then scanWhitespace (lexerFuel lx) [] (mark lx)
     else Some ([], lx)) = Some (triviaBuffer, lx1) /\
    lexedFrom lx lx1 /\ (sourceBuffer lx1 < sourceEnd lx)%nat /\
    triviaTexts triviaBuffer = sourceText lx (sourceBuffer lx) (sourceBuffer lx1)).
  { destruct (isHorizontalWhitespace first).
    - destruct (scanWhitespace_spec (lexerFuel lx) [] (mark lx)) as (lx1 & Hsw & Hsc & Hlt & _).
      + exact Hlast.
      + exact Hin.
      + unfold lexerFuel, sourceEnd. simpl. lia.
      + rewrite Hsw. eexists _, lx1. split; [reflexivity |].
        split; [exact (lexedFrom_trans _ _ _ (lexedFrom_mark lx)
                         (scannedFrom_lexedFrom _ _ Hsc)) |].
        split; [exact Hlt |]. rewrite app_nil_l, triviaTexts_one. reflexivity.
    - exists [], lx. split; [reflexivity |]. split; [apply lexedFrom_refl |].
      split; [exact Hin |]. now rewrite sourceText_nil. }
  destruct Hws as (triviaBuffer & lx1 & Hws & Hlx1 & Hlt1 & Htext).
  rewrite Hws in Hrun. cbn [mbind option_bind] in Hrun. cbv zeta in Hrun.
  pose proof Hlx1 as (Hs1 & _ & _ & Hp1 & _).
  assert (Hlast1 : last (source (mark lx1)) = Some NUL) by (simpl; now rewrite Hs1).
  assert (Hin1 : (sourceBuffer (mark lx1) < sourceEnd (mark lx1))%nat).
  { unfold sourceEnd in *. simpl. now rewrite Hs1. }
  destruct (peek_in (mark lx1) Hin1) as [dl Hdelim]. rewrite Hdelim in Hrun.
  cbn [mbind option_bind] in Hrun.
  (* a token scanned from the marked lexer *)
  assert (Hfinish : forall lx2 text,
    scannedFrom (mark lx1) lx2 -> (sourceBuffer lx2 < sourceEnd lx)%nat ->
    text = lexeme lx2 ->
    lexedFrom lx lx2 /\ (sourceBuffer lx2 < sourceEnd lx)%nat /\
    triviaTexts triviaBuffer ++ text = sourceText lx (sourceBuffer lx) (sourceBuffer lx2)).
  { intros lx2 text Hsc Hlt ->.
    split; [exact (lexedFrom_trans _ _ _ Hlx1
                     (lexedFrom_trans _ _ _ (lexedFrom_mark lx1)
                        (scannedFrom_lexedFrom _ _ Hsc))) |].
    split; [exact Hlt |].
    rewrite (lexeme_scannedFrom _ _ Hsc), Htext. cbn [marker mark].
    rewrite (sourceText_same lx (mark lx1)) by exact Hs1.
    destruct Hsc as (_ & _ & _ & _ & Hmono & _). simpl in Hmono.
    apply sourceText_app; lia. }
  destruct (bool_decide_reflect (dl = "`"%char)) as [Hgrave | Hnd]; [subst dl |].
  - destruct (lexDirective emptyInfo (advance 1 (mark lx1))) as [[[kind info] lx2] |] eqn:Hdir;
      [| discriminate].
    cbn [mbind option_bind] in Hrun. injection Hrun as <- <-.
    pose proof (peek_not_last (mark lx1) _ Hlast1 Hdelim ltac:(discriminate)) as Hnext.
    destruct (lexDirective_ok emptyInfo (advance 1 (mark lx1)) kind info lx2)
      as (Hsc & Hlt & Hk); [exact Hlast1 | | exact Hdir |].
    { unfold sourceEnd in *. simpl in *. lia. }
    cbn [tokenKind tokenInfo trivia rawText].
    destruct (Hfinish lx2 (lexeme lx2)) as (H1 & H2 & H3).
    + exact (scannedFrom_trans _ _ _ (scannedFrom_advance 1 _) Hsc).
    + unfold sourceEnd in *. simpl in *. now rewrite <- Hs1.
    + reflexivity.
    + split; [exact H1 |]. split; [exact H2 |]. split; [exact Hk | exact H3].
  - destruct (negb (bool_decide (dl = QUOTE)) && negb (bool_decide (dl = "<"%char))) eqn:Hmissing.
    + injection Hrun as <- <-. cbn [tokenKind tokenInfo trivia rawText].
      split.
      { exact (lexedFrom_trans _ _ _ Hlx1
                 (lexedFrom_trans _ _ _ (lexedFrom_mark lx1)
                    (scannedFrom_lexedFrom _ _ (scannedFrom_addError _ _ _)))). }
      simpl. split; [exact Hlt1 |]. split; [discriminate |].
      now rewrite app_nil_r.
    + destruct (scanIncludeFileName _ _ _ _) as [lx2 |] eqn:Hscan; [| discriminate].
      cbn [mbind option_bind] in Hrun. injection Hrun as <- <-.
      cbn [tokenKind tokenInfo trivia rawText].
      assert (Hdn : dl <> NUL).
      { (* the delimiter is a quote or an angle bracket *)
        intros ->. vm_compute in Hmissing. discriminate. }
      pose proof (peek_not_last (mark lx1) _ Hlast1 Hdelim Hdn) as Hnext.
      destruct (scanIncludeFileName_spec _ _ _ (advance 1 (mark lx1)) _ Hlast1
                  ltac:(unfold sourceEnd in *; simpl in *; lia) Hscan) as (Hsc & Hlt).
      destruct (Hfinish lx2 (lexeme lx2)) as (H1 & H2 & H3).
      * exact (scannedFrom_trans _ _ _ (scannedFrom_advance 1 _) Hsc).
      * unfold sourceEnd in *. simpl in *. now rewrite <- Hs1.
      * reflexivity.
      * split; [exact H1 |]. split; [exact H2 |]. split; [discriminate | exact H3].
Qed.

(** One call of [lex] on a buffer that ends in NUL. *)
Lemma lex_spec mode keywordVersion lx tok lx' :
  inBuffer lx -> sequencesFit isASCII utf8SeqBytes (source lx) ->
  lex' mode keywordVersion lx = Some (tok, lx') ->
  inBuffer lx' /\ lexedFrom lx lx' /\
  (tokenKind tok <> TokenKind.EndOfFile ->
     triviaTexts (trivia (tokenInfo tok)) ++ rawText (tokenInfo tok) =
       sourceText lx (sourceBuffer lx) (sourceBuffer lx')) /\
  (tokenKind tok = TokenKind.EndOfFile ->
     triviaTexts (trivia (tokenInfo tok)) =
       sourceText lx (sourceBuffer lx) (sourceBuffer lx') /\
     sourceBuffer lx' = (sourceEnd lx - 1)%nat) /\
  (mode <> LexerMode.IncludeFileName -> sourceBuffer lx' = sourceBuffer lx ->
     tokenKind tok =
       (if bool_decide (mode = LexerMode.Directive)
        then TokenKind.EndOfDirective else TokenKind.EndOfFile)).
Proof.
  intros (Hlast & Hin) Hfit Hrun.
  assert (Hinb : forall lx2, lexedFrom lx lx2 -> (sourceBuffer lx2 < sourceEnd lx)%nat ->
                             inBuffer lx2).
  { intros lx2 (Hs & _) Hlt. unfold inBuffer, sourceEnd in *. rewrite Hs. auto. }
  unfold lex in Hrun.
  destruct (bool_decide_reflect (mode = LexerMode.IncludeFileName)) as [-> | Hmode].
  - destruct (lexIncludeFileName_spec lx tok lx' Hlast Hin Hrun) as (Hlx & Hlt & Hk & Htext).
    split; [now apply Hinb |]. split; [exact Hlx |]. split; [auto |].
    split; [intros; contradiction | intros; contradiction].
  - cbv zeta in Hrun.
    destruct (lexTrivia_spec (lexerFuel lx) [] (bool_decide (mode = LexerMode.Directive)) lx
                Hlast Hin ltac:(unfold lexerFuel; lia))
      as (eod & added & lx1 & Htrivia & Hlx1 & Hlt1 & Htext & _ & Hnoeod & Hnext).
    rewrite Htrivia in Hrun. cbn [mbind option_bind app] in Hrun.
    pose proof Hlx1 as (Hs1 & _ & _ & Hp1 & _).
    destruct eod.
    + injection Hrun as <- <-. cbn [tokenKind tokenInfo setTrivia trivia rawText emptyInfo].
      split; [now apply Hinb |]. split; [exact Hlx1 |].
      split; [intros _; now rewrite app_nil_r |].
      split; [discriminate |].
      intros _ _. destruct (bool_decide (mode = LexerMode.Directive)); auto.
      (* in normal mode the trivia do not end a directive *)
      now specialize (Hnoeod eq_refl).
    + destruct (lexToken' emptyInfo _ keywordVersion (mark lx1))
        as [[[kind info] lx2] |] eqn:Htoken; [| discriminate].
      cbn [mbind option_bind] in Hrun.
      destruct (lexToken_spec emptyInfo (bool_decide (mode = LexerMode.Directive))
                  keywordVersion (mark lx1) kind info lx2)
        as (Hsc & Hlt2 & Hstay & Heof);
        [simpl; now rewrite Hs1 | unfold sourceEnd in *; simpl; now rewrite Hs1
        | reflexivity | simpl; now rewrite Hs1 | exact Htoken |].
      pose proof Hsc as (Hs2 & _ & Hm2 & _ & Hp2 & _). simpl in Hs2, Hm2, Hp2.
      assert (Hlx2 : lexedFrom lx lx2).
      { exact (lexedFrom_trans _ _ _ Hlx1
                 (lexedFrom_trans _ _ _ (lexedFrom_mark lx1)
                    (scannedFrom_lexedFrom _ _ Hsc))). }
      assert (Hlt2' : (sourceBuffer lx2 < sourceEnd lx)%nat).
      { unfold sourceEnd in *. simpl in Hlt2. now rewrite <- Hs1. }
      assert (Hraw : lexeme (setOnNewLine lx2 false) =
                     sourceText lx (sourceBuffer lx1) (sourceBuffer lx2)).
      { unfold lexeme, lexemeLength, sourceText. simpl. now rewrite Hs2, Hm2, Hs1. }
      destruct (negb (bool_decide (kind = TokenKind.EndOfFile)) &&
                bool_decide (maxErrors (setOnNewLine lx2 false) <
                             length (diagnostics (setOnNewLine lx2 false)))%nat) eqn:Hcap.
      * (* the error cap *)
        injection Hrun as <- <-.
        cbn [tokenKind tokenInfo setTrivia setRawText trivia rawText].
        set (lx3 := setSourceBuffer _ _).
        assert (Hlx3 : lexedFrom lx lx3).
        { subst lx3. destruct Hlx2 as (Hs & Hb & Hx & Hp & added2 & Hd).
          unfold lexedFrom, sourceEnd in *. simpl. rewrite Hs.
          repeat split; auto; try lia.
          exists (added2 ++ [{| diagCode := TooManyLexerErrors;
                                diagLocation := {| locBuffer := bufferId lx2;
                                                   locOffset := sourceBuffer lx2 |} |}]).
          rewrite Hd. now rewrite app_assoc. }
        assert (Hp3 : sourceBuffer lx3 = (sourceEnd lx - 1)%nat).
        { subst lx3. unfold sourceEnd. simpl. now rewrite Hs2, Hs1. }
        split; [apply Hinb; [exact Hlx3 | lia] |]. split; [exact Hlx3 |].
        split; [intros Hne; now contradiction Hne |].
        split.
        -- intros _. split; [| exact Hp3].
           rewrite triviaTexts_app, triviaTexts_one, Htext, Hp3.
           assert (Hdis : lexeme lx3 = sourceText lx (sourceBuffer lx1) (sourceEnd lx - 1)).
           { subst lx3. unfold lexeme, lexemeLength, sourceText, sourceEnd. simpl.
             now rewrite Hs2, Hm2, Hs1. }
           rewrite Hdis. apply sourceText_app; lia.
        -- (* a capped call has read something *)
           intros _ Hsame. exfalso.
           apply andb_true_iff in Hcap as (Hkind & _).
           apply negb_true_iff, bool_decide_eq_false in Hkind.
           assert (Hstill : sourceBuffer lx2 = sourceBuffer (mark lx1)) by (simpl; lia).
           destruct (Hstay Hstill) as (Hk & _ & _).
           destruct (bool_decide_reflect (mode = LexerMode.Directive)) as [Hdir |];
             [| contradiction].
           destruct (Hnext eq_refl) as (c & Hc & _ & Hnul).
           assert (c = NUL).
           { unfold peek, peekAt in Hc. rewrite Nat.add_0_r in Hc.
             apply last_lookup_length in Hlast. unfold sourceEnd in *.
             replace (sourceBuffer lx1) with (length (source lx) - 1)%nat in Hc by lia.
             rewrite Hs1 in Hc. congruence. }
           now specialize (Hnul H).
      * injection Hrun as <- <-.
        cbn [tokenKind tokenInfo setTrivia setRawText trivia rawText].
        split; [apply Hinb; [| exact Hlt2'] |].
        { exact (lexedFrom_trans _ _ _ Hlx2
                   (scannedFrom_lexedFrom _ _ (scannedFrom_onNewLine _ _))). }
        split.
        { exact (lexedFrom_trans _ _ _ Hlx2
                   (scannedFrom_lexedFrom _ _ (scannedFrom_onNewLine _ _))). }
        cbn [sourceBuffer setOnNewLine].
        assert (Hall : added ++ [] = added) by apply app_nil_r.
        split.
        { intros _. rewrite Hraw, Htext. apply sourceText_app; lia. }
        split.
        { intros Hk. specialize (Heof Hk). simpl in Heof.
          destruct (Hstay Heof) as (_ & Hend). unfold sourceEnd in *. simpl in Hend.
          rewrite Hs1 in Hend. split; [| lia].
          rewrite Htext. f_equal. lia. }
        intros _ Hsame. apply Hstay. simpl. lia.
Qed.

Lemma lexMany_at_end n keywordVersion lx :
  source lx !! sourceBuffer lx = Some NUL ->
  sourceBuffer lx = (sourceEnd lx - 1)%nat ->
  exists toks lx',
    lexMany' n LexerMode.Normal keywordVersion lx = Some (toks, lx') /\
    length toks = n /\
    Forall (λ tok : Token TokenExtra,
              tokenKind tok = TokenKind.EndOfFile /\ trivia (tokenInfo tok) = [] /\
              rawText (tokenInfo tok) = []) toks /\
    diagnostics lx' = diagnostics lx /\ sourceBuffer lx' = sourceBuffer lx.
Proof.
  revert lx. induction n as [| n IH]; intros lx Hnul Hend.
  - exists [], lx. simpl. auto.
  - cbn [lexMany].
    rewrite (lex_at_end lexStringLiteral lexDollarSign lexApostrophe lexNumericLiteral
               lexEscapeSequence lexDirective lexIdentifier isASCII utf8SeqBytes)
      by assumption.
    cbn [mbind option_bind].
    destruct (IH (setOnNewLine (mark lx) false)) as (toks & lx' & Hm & Hl & Hk & Hd & Hp);
      [exact Hnul | exact Hend |].
    rewrite Hm. cbn [mbind option_bind]. eexists _, lx'. split; [reflexivity |].
    simpl. repeat split; auto.
Qed.

End TokenFacts.

(** ** Include file names *)

Lemma drop_head {A} (l : list A) n x tl :
  drop n l = x :: tl -> l !! n = Some x /\ drop (S n) l = tl.
Proof.
  intros Hd. split.
  - pose proof (lookup_drop l n 0) as H. rewrite Hd in H. simpl in H.
    now rewrite Nat.add_0_r in H.
  - replace (S n) with (n + 1)%nat by lia. rewrite <- drop_drop, Hd. reflexivity.
Qed.

Lemma peek_drop lx x tl :
  drop (sourceBuffer lx) (source lx) = x :: tl ->
  peek lx = Some x /\ drop (sourceBuffer (advance 1 lx)) (source (advance 1 lx)) = tl.
Proof.
  intros Hd. apply drop_head in Hd as (Hl & Hd). unfold peek, peekAt.
  rewrite Nat.add_0_r. split; [exact Hl |]. simpl.
  now replace (sourceBuffer lx + 1)%nat with (S (sourceBuffer lx)) by lia.
Qed.

Lemma advance_advance n m lx : advance n (advance m lx) = advance (m + n) lx.
Proof. unfold advance, setSourceBuffer. simpl. f_equal. lia. Qed.

Lemma advance_0 lx : advance 0 lx = lx.
Proof. unfold advance, setSourceBuffer. rewrite Nat.add_0_r. now destruct lx. Qed.

Lemma scanWhitespace_exact ws fuel triviaBuffer lx c rest :
  drop (sourceBuffer lx) (source lx) = ws ++ c :: rest ->
  Forall (λ w, isHorizontalWhitespace w = true) ws -> isHorizontalWhitespace c = false ->
  (length ws < fuel)%nat ->
  scanWhitespace fuel triviaBuffer lx =
    Some (addTrivia TriviaKind.Whitespace triviaBuffer (advance (length ws) lx),
          advance (length ws) lx).
Proof.
  revert fuel lx. induction ws as [| w ws IH]; intros fuel lx Hdrop Hws Hc Hfuel;
    (destruct fuel as [| fuel]; [simpl in Hfuel; lia |]); cbn [scanWhitespace].
  - pose proof (peek_drop lx c rest Hdrop) as (Hpeek & _). rewrite Hpeek.
    cbn [mbind option_bind]. rewrite Hc. simpl length. now rewrite advance_0.
  - apply Forall_cons in Hws as (Hw & Hws).
    pose proof (peek_drop lx w _ Hdrop) as (Hpeek & Hdrop'). rewrite Hpeek.
    cbn [mbind option_bind]. rewrite Hw.
    rewrite (IH fuel (advance 1 lx) Hdrop' Hws Hc) by (simpl in Hfuel; lia).
    rewrite advance_advance. reflexivity.
Qed.

Lemma scanIncludeFileName_exact name fuel delim offset lx stop rest :
  drop (sourceBuffer lx) (source lx) = name ++ stop :: rest ->
  Forall (λ c, c <> NUL /\ isNewline c = false /\ c <> delim) name ->
  (length name < fuel)%nat ->
  scanIncludeFileName fuel delim offset lx =
    Some (if bool_decide (stop = NUL) || isNewline stop
          then lexerAddError ExpectedIncludeFileName offset (advance (length name) lx)
          else if bool_decide (stop = delim) then advance (S (length name)) lx
          else advance (length name) lx) \/
  (bool_decide (stop = NUL) || isNewline stop = false /\ stop <> delim).
Proof.
  revert fuel lx. induction name as [| c name IH]; intros fuel lx Hdrop Hname Hfuel;
    (destruct fuel as [| fuel]; [simpl in Hfuel; lia |]); cbn [scanIncludeFileName].
  - pose proof (peek_drop lx stop rest Hdrop) as (Hpeek & _). rewrite Hpeek.
    cbn [mbind option_bind]. simpl length. rewrite advance_0.
    destruct (bool_decide (stop = NUL) || isNewline stop); [now left |].
    destruct (bool_decide_reflect (stop = delim)); [now left | now right].
  - apply Forall_cons in Hname as ((Hn & Hnl & Hd) & Hname).
    pose proof (peek_drop lx c _ Hdrop) as (Hpeek & Hdrop'). rewrite Hpeek.
    cbn [mbind option_bind].
    rewrite (bool_decide_eq_false_2 (c = NUL)), Hnl, (bool_decide_eq_false_2 (c = delim))
      by assumption.
    cbn [orb].
    destruct (IH fuel (advance 1 lx) Hdrop' Hname) as [Hrun | Hother];
      [simpl in Hfuel; lia | | now right].
    left. rewrite Hrun. rewrite !advance_advance. reflexivity.
Qed.

Section IncludeFileNameFacts.
Variable lexDirective : SubLexer.

(** X24.  The forms of an include file name.  Behind optional blanks, which become
    one Whitespace trivia: a name between quotes or angle brackets on one
    line is the token's text, delimiters included, and nothing is reported;
    a name whose closing delimiter is missing before the line end or the end
    of the buffer is taken up to there, and ExpectedIncludeFileName is
    reported at the opening delimiter; anything else than a quote, an angle
    bracket or a grave accent gives a token marked missing, with no text, and
    the same diagnostic, and is not read. *)
Theorem lexIncludeFileName_forms lx ws c rest :
  drop (sourceBuffer lx) (source lx) = ws ++ c :: rest ->
  Forall (λ w, isHorizontalWhitespace w = true) ws -> isHorizontalWhitespace c = false ->
  let start := (sourceBuffer lx + length ws)%nat in
  let blanks := if bool_decide (ws = []) then []
                else [{| triviaKind := TriviaKind.Whitespace; triviaText := ws |}] in
  let here := {| locBuffer := bufferId lx; locOffset := start |} in
  let expected := {| diagCode := ExpectedIncludeFileName; diagLocation := here |} in
  (forall name stop rest',
     c = QUOTE \/ c = "<"%char ->
     rest = name ++ stop :: rest' ->
     let closing := if bool_decide (c = "<"%char) then ">"%char else c in
     Forall (λ c, c <> NUL /\ isNewline c = false /\ c <> closing) name ->
     (stop = closing ->
        exists lx',
          lexIncludeFileName lexDirective lx =
            Some ({| tokenKind := TokenKind.IncludeFileName;
                     tokenInfo :=
                       {| trivia := blanks; rawText := c :: name ++ [closing];
                          location := here; missing := false;
                          extra := Some (ExtraText (c :: name ++ [closing])) |} |}, lx') /\
          sourceBuffer lx' = (start + length name + 2)%nat /\
          diagnostics lx' = diagnostics lx) /\
     (stop = NUL \/ isNewline stop = true ->
        exists lx',
          lexIncludeFileName lexDirective lx =
            Some ({| tokenKind := TokenKind.IncludeFileName;
                     tokenInfo :=
                       {| trivia := blanks; rawText := c :: name;
                          location := here; missing := false;
                          extra := Some (ExtraText (c :: name)) |} |}, lx') /\
          sourceBuffer lx' = (start + length name + 1)%nat /\
          diagnostics lx' = diagnostics lx ++ [expected])) /\
  (c <> QUOTE -> c <> "<"%char -> c <> "`"%char ->
     exists lx',
       lexIncludeFileName lexDirective lx =
         Some ({| tokenKind := TokenKind.IncludeFileName;
                  tokenInfo :=
                    {| trivia := blanks; rawText := [];
                       location := here; missing := true; extra := None |} |}, lx') /\
       sourceBuffer lx' = start /\
       diagnostics lx' = diagnostics lx ++ [expected]).
Proof.
  intros Hdrop Hws Hc. cbv zeta.
  (* the blanks *)
  assert (Hblanks : exists first lx1,
    peek lx = Some first /\
    (if isHorizontalWhitespace first then scanWhitespace (lexerFuel lx) [] (mark lx)
     else Some ([], lx)) =
      Some (if bool_decide (ws = []) then []
            else [{| triviaKind := TriviaKind.Whitespace; triviaText := ws |}], lx1) /\
    source lx1 = source lx /\ bufferId lx1 = bufferId lx /\
    diagnostics lx1 = diagnostics lx /\
    sourceBuffer lx1 = (sourceBuffer lx + length ws)%nat).
  { destruct ws as [| w ws].
    - pose proof (peek_drop lx c rest Hdrop) as (Hpeek & _).
      exists c, lx. split; [exact Hpeek |]. rewrite Hc.
      rewrite bool_decide_eq_true_2 by reflexivity. simpl. auto.
    - pose proof (peek_drop lx w _ Hdrop) as (Hpeek & _).
      pose proof Hws as Hws'.
      apply Forall_cons in Hws' as (Hw & _).
      exists w, (advance (length (w :: ws)) (mark lx)). split; [exact Hpeek |]. rewrite Hw.
      rewrite (scanWhitespace_exact (w :: ws) _ [] (mark lx) c rest Hdrop Hws Hc).
      + rewrite bool_decide_eq_false_2 by discriminate.
        split; [| simpl; auto].
        unfold addTrivia, lexeme, lexemeLength. cbn [app marker advance setSourceBuffer mark
          sourceBuffer source].
        replace (sourceBuffer lx + length (w :: ws) - sourceBuffer lx)%nat
          with (length (w :: ws)) by lia.
        rewrite Hdrop, take_app_length. reflexivity.
      + unfold lexerFuel, sourceEnd. apply (f_equal length) in Hdrop.
        rewrite length_drop, length_app in Hdrop. simpl in *. lia. }
  destruct Hblanks as (first & lx1 & Hfirst & Hrun1 & Hs1 & Hb1 & Hd1 & Hp1).
  assert (Hdrop1 : drop (sourceBuffer (mark lx1)) (source (mark lx1)) = c :: rest).
  { simpl. rewrite Hs1, Hp1, <- drop_drop, Hdrop, drop_app_length. reflexivity. }
  pose proof (peek_drop (mark lx1) c rest Hdrop1) as (Hpeek1 & Hdrop2).
  assert (Hunfold : forall k,
    lexIncludeFileName lexDirective lx =
      ((let offset := currentOffset lx1 in
        let location := {| locBuffer := bufferId lx1; locOffset := offset |} in
        k offset location) : option (Token TokenExtra * Lexer)) ->
    True) by auto.
  clear Hunfold.
  split.
  - intros name stop rest' Hopen -> Hname.
    assert (Hcn : bool_decide ((if bool_decide (c = "<"%char) then ">"%char else c) = NUL)
                  || isNewline (if bool_decide (c = "<"%char) then ">"%char else c)
                  = false).
    { destruct Hopen as [-> | ->]; reflexivity. }
    remember (if bool_decide (c = "<"%char) then ">"%char else c) as closing eqn:Hclosing.
    assert (Hnotgrave : c <> "`"%char) by (destruct Hopen as [-> | ->]; discriminate).
    assert (Hnotmissing :
      negb (bool_decide (c = QUOTE)) && negb (bool_decide (c = "<"%char)) = false).
    { destruct Hopen as [-> | ->]; reflexivity. }
    destruct (scanIncludeFileName_exact name (lexerFuel (mark lx1)) closing
                (currentOffset lx1) (advance 1 (mark lx1)) stop rest' Hdrop2 Hname)
      as [Hscan | (Hno1 & Hno2)].
    { unfold lexerFuel, sourceEnd. apply (f_equal length) in Hdrop1.
      rewrite length_drop in Hdrop1. simpl in Hdrop1. rewrite length_app in Hdrop1.
      simpl in *. lia. }
    + assert (Hlex : forall lx2,
        scanIncludeFileName (lexerFuel (mark lx1)) closing
          (currentOffset lx1) (advance 1 (mark lx1)) = Some lx2 ->
        lexIncludeFileName lexDirective lx =
          Some ({| tokenKind := TokenKind.IncludeFileName;
                   tokenInfo :=
                     {| trivia := if bool_decide (ws = []) then []
                                  else [{| triviaKind := TriviaKind.Whitespace;
                                           triviaText := ws |}];
                        rawText := lexeme lx2;
                        location := {| locBuffer := bufferId lx;
                                       locOffset := sourceBuffer lx + length ws |};
                        missing := false;
                        extra := Some (ExtraText (lexeme lx2)) |} |}, lx2)).
      { intros lx2 Hscan2. unfold lexIncludeFileName. rewrite Hfirst.
        cbn [mbind option_bind]. rewrite Hrun1.
        cbn [mbind option_bind]. cbv zeta. rewrite Hpeek1. cbn [mbind option_bind].
        rewrite (bool_decide_eq_false_2 (c = "`"%char)) by exact Hnotgrave.
        rewrite Hnotmissing, <- Hclosing, Hscan2. cbn [mbind option_bind].
        unfold currentOffset. now rewrite Hb1, Hp1. }
      assert (Hraw : forall n lx2,
        source lx2 = source lx1 -> marker lx2 = sourceBuffer lx1 ->
        sourceBuffer lx2 = (sourceBuffer lx1 + n)%nat ->
        lexeme lx2 = take n (c :: name ++ stop :: rest')).
      { intros n lx2 Hs2 Hm2 Hp2. unfold lexeme, lexemeLength.
        rewrite Hs2, Hm2, Hp2. simpl in Hdrop1. rewrite Hdrop1. f_equal. lia. }
      split.
      * intros ->. rewrite Hcn, bool_decide_eq_true_2 in Hscan by reflexivity.
        eexists. rewrite (Hlex _ Hscan).
        rewrite (Hraw (S (S (length name)))) by (simpl; auto; lia).
        replace (take (S (S (length name))) (c :: name ++ closing :: rest'))
          with (c :: name ++ [closing]).
        { split; [reflexivity |]. simpl. split; [lia | exact Hd1]. }
        cbn [take]. f_equal.
        change (?x :: rest') with ([x] ++ rest'). rewrite app_assoc.
        rewrite take_app_length'; [reflexivity |]. rewrite length_app. simpl. lia.
      * intros Hstop.
        assert (Hend : bool_decide (stop = NUL) || isNewline stop = true).
        { destruct Hstop as [-> | ->]; [reflexivity | apply orb_true_r]. }
        rewrite Hend in Hscan.
        eexists. rewrite (Hlex _ Hscan).
        rewrite (Hraw (S (length name))) by (simpl; auto; lia).
        replace (take (S (length name)) (c :: name ++ stop :: rest')) with (c :: name).
        { split; [reflexivity |]. simpl. split; [lia |]. unfold currentOffset.
          now rewrite Hd1, Hb1, Hp1. }
        cbn [take]. f_equal. now rewrite take_app_length.
    + split.
      * intros ->. now contradiction Hno2.
      * intros Hstop. exfalso. destruct Hstop as [-> | Hnl].
        -- discriminate Hno1.
        -- rewrite Hnl, orb_true_r in Hno1. discriminate.
  - intros Hq Ha Hg. eexists. unfold lexIncludeFileName. rewrite Hfirst.
    cbn [mbind option_bind]. rewrite Hrun1.
    cbn [mbind option_bind]. cbv zeta. rewrite Hpeek1. cbn [mbind option_bind].
    rewrite !bool_decide_eq_false_2 by assumption. cbn [negb andb].
    split; [unfold currentOffset; rewrite Hb1, Hp1; reflexivity |].
    simpl. unfold currentOffset. rewrite Hd1, Hb1, Hp1. auto.
Qed.

End IncludeFileNameFacts.

(** ** String literals *)

Section StringLiteralFacts.
Variable isOctalDigit isHexDigit : ascii -> bool.
Variable getDigitValue getHexDigitValue : ascii -> Z.

Local Abbreviation lexStringEscape' :=
  (lexStringEscape isOctalDigit isHexDigit getDigitValue getHexDigitValue).
Local Abbreviation scanStringLiteral' :=
  (scanStringLiteral isOctalDigit isHexDigit getDigitValue getHexDigitValue).
Local Abbreviation lexStringLiteral' :=
  (lexStringLiteral isOctalDigit isHexDigit getDigitValue getHexDigitValue).

Lemma lexStringEscape_simple c value offset stringBuffer lx :
  simpleEscape c = Some value ->
  lexStringEscape' c offset stringBuffer lx = Some (stringBuffer ++ value, lx).
Proof.
  unfold simpleEscape, lexStringEscape. intros Hv.
  repeat match type of Hv with
  | (if bool_decide ?P then _ else _) = _ =>
      destruct (bool_decide P); [injection Hv as <-; rewrite ?app_nil_r; reflexivity |]
  end.
  discriminate.
Qed.

Lemma scanStringLiteral_pieces pieces fuel stringBuffer lx stop rest :
  drop (sourceBuffer lx) (source lx) = concat (pieceSource <$> pieces) ++ stop :: rest ->
  Forall (λ p, validPiece p = true) pieces ->
  stop = QUOTE \/ isNewline stop = true \/ (stop = NUL /\ rest = []) ->
  (length (concat (pieceSource <$> pieces)) < fuel)%nat ->
  let stopAt := (sourceBuffer lx + length (concat (pieceSource <$> pieces)))%nat in
  exists lx',
    scanStringLiteral' fuel stringBuffer lx =
      Some (stringBuffer ++ concat (pieceValue <$> pieces), lx') /\
    scannedFrom lx lx' /\ onNewLine lx' = onNewLine lx /\
    (stop = QUOTE ->
       sourceBuffer lx' = S stopAt /\ diagnostics lx' = diagnostics lx) /\
    (stop <> QUOTE ->
       sourceBuffer lx' = stopAt /\
       diagnostics lx' =
         diagnostics lx ++
         [{| diagCode := ExpectedClosingQuote;
             diagLocation := {| locBuffer := bufferId lx; locOffset := stopAt |} |}]).
Proof.
  revert fuel stringBuffer lx.
  induction pieces as [| p pieces IH]; intros fuel stringBuffer lx Hdrop Hvalid Hstop Hfuel.
  - (* the character that ends the literal *)
    cbn [fmap list_fmap concat app length] in *. cbv zeta. rewrite Nat.add_0_r, app_nil_r.
    destruct fuel as [| fuel]; [lia |]. cbn [scanStringLiteral]. cbv zeta.
    pose proof (peek_drop lx stop rest Hdrop) as (Hpeek & _). rewrite Hpeek.
    cbn [mbind option_bind].
    destruct Hstop as [-> | [Hnl | (-> & ->)]].
    + rewrite bool_decide_eq_false_2 by discriminate.
      rewrite bool_decide_eq_true_2 by reflexivity.
      eexists. split; [reflexivity |]. split; [apply scannedFrom_advance |].
      simpl. repeat split; auto; try lia; congruence.
    + assert (Hq : stop <> QUOTE) by (intros ->; vm_compute in Hnl; discriminate).
      assert (Hb : stop <> "\"%char) by (intros ->; vm_compute in Hnl; discriminate).
      rewrite !bool_decide_eq_false_2 by assumption. rewrite Hnl.
      eexists. split; [reflexivity |]. split; [apply scannedFrom_addError |].
      simpl. repeat split; auto; congruence.
    + rewrite !bool_decide_eq_false_2 by discriminate.
      change (isNewline NUL) with false. cbv iota.
      rewrite bool_decide_eq_true_2 by reflexivity.
      assert (Hend : reallyAtEnd lx = true).
      { unfold reallyAtEnd, sourceEnd. apply bool_decide_eq_true.
        apply (f_equal length) in Hdrop. rewrite length_drop in Hdrop. simpl in Hdrop. lia. }
      rewrite Hend.
      eexists. split; [reflexivity |]. split; [apply scannedFrom_addError |].
      simpl. repeat split; auto; discriminate.
  - apply Forall_cons in Hvalid as (Hp & Hvalid).
    destruct fuel as [| fuel]; [lia |]. cbn [scanStringLiteral]. cbv zeta.
    destruct p as [c | c]; cbn [fmap list_fmap concat pieceSource pieceValue app] in *.
    + (* a character that stands for itself *)
      fold (pieceSource <$> pieces) in *. fold (pieceValue <$> pieces).
      pose proof (peek_drop lx c _ Hdrop) as (Hpeek & Hdrop'). rewrite Hpeek.
      cbn [mbind option_bind]. cbn [validPiece] in Hp.
      apply andb_true_iff in Hp as (Hp & Hn4). apply andb_true_iff in Hp as (Hp & Hn3).
      apply andb_true_iff in Hp as (Hn1 & Hn2).
      apply negb_true_iff in Hn1, Hn2, Hn3, Hn4.
      rewrite Hn1, Hn2, Hn3, Hn4.
      destruct (IH fuel (stringBuffer ++ [c]) (advance 1 lx) Hdrop' Hvalid Hstop)
        as (lx' & Hrun & Hsc & Hnl & Hq & Hnq).
      { simpl in Hfuel. lia. }
      exists lx'. rewrite Hrun, <- app_assoc. split; [reflexivity |].
      split; [exact (scannedFrom_trans _ _ _ (scannedFrom_advance 1 lx) Hsc) |].
      split; [exact Hnl |].
      simpl in Hq, Hnq |- *.
      replace (sourceBuffer lx + S (length (concat (pieceSource <$> pieces))))%nat
        with (sourceBuffer lx + 1 + length (concat (pieceSource <$> pieces)))%nat by lia.
      auto.
    + (* an escape sequence *)
      fold (pieceSource <$> pieces) in *. fold (pieceValue <$> pieces).
      pose proof (peek_drop lx _ _ Hdrop) as (Hpeek & Hdrop'). rewrite Hpeek.
      cbn [mbind option_bind]. rewrite bool_decide_eq_true_2 by reflexivity.
      pose proof (peek_drop (advance 1 lx) _ _ Hdrop') as (Hpeek2 & Hdrop'').
      rewrite Hpeek2. cbn [mbind option_bind].
      cbn [validPiece] in Hp. apply bool_decide_eq_true in Hp as [value Hvalue].
      rewrite (lexStringEscape_simple c value _ _ _ Hvalue). cbn [mbind option_bind].
      rewrite Hvalue. cbn [default].
      destruct (IH fuel (stringBuffer ++ value) (advance 1 (advance 1 lx)) Hdrop'' Hvalid Hstop)
        as (lx' & Hrun & Hsc & Hnl & Hq & Hnq).
      { simpl in Hfuel. lia. }
      exists lx'. rewrite Hrun, <- app_assoc. split; [reflexivity |].
      split.
      { exact (scannedFrom_trans _ _ _ (scannedFrom_advance 1 lx)
                 (scannedFrom_trans _ _ _ (scannedFrom_advance 1 _) Hsc)). }
      split; [exact Hnl |].
      simpl in Hq, Hnq |- *.
      replace (sourceBuffer lx + S (S (length (concat (pieceSource <$> pieces)))))%nat
        with (sourceBuffer lx + 1 + 1 + length (concat (pieceSource <$> pieces)))%nat by lia.
      auto.
Qed.

(** X25.  The value of a string literal.  When the text behind the opening quote
    is made of characters that stand for themselves and of the escape
    sequences for n, t, v, f, a, the backslash, the quote and the line feed,
    up to a closing quote, the value of the literal is that text with the
    escapes decoded (an escaped newline giving nothing), the read pointer is
    behind the closing quote and nothing is reported.  When instead of the closing quote there
    is a line end or the end of the buffer, the value is the same, the read
    pointer is on that character, and the one diagnostic added is
    ExpectedClosingQuote at its offset. *)
Theorem lexStringLiteral_decodes info lx pieces stop rest :
  drop (sourceBuffer lx) (source lx) = concat (pieceSource <$> pieces) ++ stop :: rest ->
  Forall (λ p, validPiece p = true) pieces ->
  stop = QUOTE \/ isNewline stop = true \/ (stop = NUL /\ rest = []) ->
  let stopAt := (sourceBuffer lx + length (concat (pieceSource <$> pieces)))%nat in
  exists lx',
    lexStringLiteral' info lx =
      Some (TokenKind.StringLiteral,
            setExtra info (ExtraText (concat (pieceValue <$> pieces))), lx') /\
    scannedFrom lx lx' /\
    (stop = QUOTE ->
       sourceBuffer lx' = S stopAt /\ diagnostics lx' = diagnostics lx) /\
    (stop <> QUOTE ->
       sourceBuffer lx' = stopAt /\
       diagnostics lx' =
         diagnostics lx ++
         [{| diagCode := ExpectedClosingQuote;
             diagLocation := {| locBuffer := bufferId lx; locOffset := stopAt |} |}]).
Proof.
  intros Hdrop Hvalid Hstop. cbv zeta.
  destruct (scanStringLiteral_pieces pieces (lexerFuel lx) [] lx stop rest Hdrop Hvalid Hstop)
    as (lx' & Hrun & Hsc & _ & Hq & Hnq).
  { unfold lexerFuel, sourceEnd. apply (f_equal length) in Hdrop.
    rewrite length_drop, length_app in Hdrop. simpl in Hdrop. lia. }
  exists lx'. unfold lexStringLiteral. rewrite Hrun. cbn [mbind option_bind app].
  auto.
Qed.

Lemma scannedFrom_step lx lx1 lx2 :
  scannedFrom lx lx1 -> scannedFrom lx1 lx2 -> scannedFrom lx lx2.
Proof. apply scannedFrom_trans. Qed.

Lemma peek_Some_in lx c : peek lx = Some c -> (sourceBuffer lx < sourceEnd lx)%nat.
Proof.
  unfold peek, peekAt. rewrite Nat.add_0_r. intros H.
  now apply lookup_lt_Some in H.
Qed.

Lemma lexStringEscape_scanned c offset stringBuffer lx stringBuffer' lx' :
  (sourceBuffer lx <= sourceEnd lx)%nat ->
  lexStringEscape' c offset stringBuffer lx = Some (stringBuffer', lx') ->
  scannedFrom lx lx' /\ (sourceBuffer lx' <= sourceEnd lx)%nat.
Proof.
  intros Hin Hrun. unfold lexStringEscape in Hrun.
  repeat match type of Hrun with
  | (if bool_decide ?P then Some (_, lx) else _) = _ =>
      destruct (bool_decide P);
      [injection Hrun as <- <-; split; [apply scannedFrom_refl | exact Hin] |]
  end.
  destruct (bool_decide (c = CR)).
  { unfold consume in Hrun. destruct (peek lx) as [p |] eqn:Hp; [| discriminate].
    apply peek_Some_in in Hp. cbn [mbind option_bind] in Hrun.
    destruct (bool_decide (p = LF)); cbn [mbind option_bind] in Hrun;
      injection Hrun as <- <-.
    - split; [apply scannedFrom_advance |]. unfold sourceEnd in *. simpl. lia.
    - split; [apply scannedFrom_refl | exact Hin]. }
  destruct (bool_decide (c ∈ _)).
  { cbv zeta in Hrun. destruct (peek lx) as [c1 |] eqn:Hp1; [| discriminate].
    apply peek_Some_in in Hp1. cbn [mbind option_bind] in Hrun.
    destruct (isOctalDigit c1).
    - destruct (peek (advance 1 lx)) as [c2 |] eqn:Hp2; [| discriminate].
      apply peek_Some_in in Hp2. cbn [mbind option_bind] in Hrun.
      unfold sourceEnd in *. simpl in Hp2.
      destruct (isOctalDigit c2).
      + destruct (bool_decide _); injection Hrun as <- <-.
        * split; [| simpl; lia].
          exact (scannedFrom_trans _ _ _ (scannedFrom_advance 1 lx)
                   (scannedFrom_trans _ _ _ (scannedFrom_advance 1 _)
                      (scannedFrom_addError _ _ _))).
        * split; [| simpl; lia].
          exact (scannedFrom_trans _ _ _ (scannedFrom_advance 1 lx)
                   (scannedFrom_advance 1 _)).
      + injection Hrun as <- <-. split; [apply scannedFrom_advance | simpl; lia].
    - injection Hrun as <- <-. split; [apply scannedFrom_refl | exact Hin]. }
  destruct (bool_decide (c = "x"%char)).
  { destruct (peek lx) as [c1 |] eqn:Hp1; [| discriminate].
    apply peek_Some_in in Hp1. cbn [mbind option_bind] in Hrun. cbv zeta in Hrun.
    destruct (isHexDigit c1); cbn [negb] in Hrun.
    - destruct (peek (advance 1 lx)) as [c2 |] eqn:Hp2; [| discriminate].
      apply peek_Some_in in Hp2. cbn [mbind option_bind] in Hrun.
      unfold sourceEnd in *. simpl in Hp2.
      destruct (isHexDigit c2); injection Hrun as <- <-.
      + split; [| simpl; lia].
        exact (scannedFrom_trans _ _ _ (scannedFrom_advance 1 lx) (scannedFrom_advance 1 _)).
      + split; [apply scannedFrom_advance | simpl; lia].
    - injection Hrun as <- <-. unfold sourceEnd in *. split; [| simpl; lia].
      exact (scannedFrom_trans _ _ _ (scannedFrom_advance 1 lx) (scannedFrom_addError _ _ _)). }
  injection Hrun as <- <-. split; [apply scannedFrom_addError | exact Hin].
Qed.

Lemma scanStringLiteral_scanned fuel stringBuffer lx stringBuffer' lx' :
  last (source lx) = Some NUL ->
  scanStringLiteral' fuel stringBuffer lx = Some (stringBuffer', lx') ->
  scannedFrom lx lx' /\ (sourceBuffer lx' < sourceEnd lx)%nat.
Proof.
  revert stringBuffer lx. induction fuel as [| fuel IH]; intros stringBuffer lx Hlast Hrun;
    [discriminate |].
  cbn [scanStringLiteral] in Hrun. cbv zeta in Hrun.
  destruct (peek lx) as [c |] eqn:Hc; [| discriminate]. cbn [mbind option_bind] in Hrun.
  pose proof (peek_Some_in lx c Hc) as Hin.
  assert (Hnext : forall buf lx1, scannedFrom lx lx1 ->
    scanStringLiteral' fuel buf lx1 = Some (stringBuffer', lx') ->
    scannedFrom lx lx' /\ (sourceBuffer lx' < sourceEnd lx)%nat).
  { intros buf lx1 Hsc Hrun1. pose proof Hsc as (Hs & _).
    destruct (IH buf lx1) as (Hsc' & Hlt); [now rewrite Hs | exact Hrun1 |].
    split; [exact (scannedFrom_trans _ _ _ Hsc Hsc') |].
    unfold sourceEnd in *. now rewrite <- Hs. }
  destruct (bool_decide_reflect (c = "\"%char)) as [-> | Hnb].
  - destruct (peek (advance 1 lx)) as [c2 |] eqn:Hc2; [| discriminate].
    cbn [mbind option_bind] in Hrun.
    pose proof (peek_Some_in _ _ Hc2) as Hin2.
    destruct (lexStringEscape' c2 _ stringBuffer _) as [[buf lx3] |] eqn:Hesc;
      [| discriminate].
    cbn [mbind option_bind] in Hrun.
    assert (Hin3 : (sourceBuffer (advance 1 (advance 1 lx)) <=
                    sourceEnd (advance 1 (advance 1 lx)))%nat).
    { unfold sourceEnd in *. simpl in *. lia. }
    destruct (lexStringEscape_scanned _ _ _ _ _ _ Hin3 Hesc) as (Hsc3 & _).
    apply (Hnext buf lx3); [| exact Hrun].
    exact (scannedFrom_trans _ _ _ (scannedFrom_advance 1 lx)
             (scannedFrom_trans _ _ _ (scannedFrom_advance 1 _) Hsc3)).
  - destruct (bool_decide_reflect (c = QUOTE)) as [-> | Hnq].
    + injection Hrun as <- <-. split; [apply scannedFrom_advance |].
      pose proof (peek_not_last lx _ Hlast Hc ltac:(discriminate)).
      unfold sourceEnd in *. simpl. lia.
    + destruct (isNewline c).
      * injection Hrun as <- <-. split; [apply scannedFrom_addError | exact Hin].
      * destruct (bool_decide (c = NUL)).
        -- destruct (reallyAtEnd lx).
           ++ injection Hrun as <- <-. split; [apply scannedFrom_addError | exact Hin].
           ++ apply (Hnext _ _ (scannedFrom_trans _ _ _ (scannedFrom_addError _ _ lx)
                                  (scannedFrom_advance 1 _)) Hrun).
        -- apply (Hnext _ _ (scannedFrom_advance 1 lx) Hrun).
Qed.

Lemma lexStringLiteral_ok : SubLexerOk lexStringLiteral'.
Proof.
  intros info lx kind info' lx' Hlast Hin Hrun. unfold lexStringLiteral in Hrun.
  destruct (scanStringLiteral' _ _ _) as [[buf lx1] |] eqn:Hscan; [| discriminate].
  cbn [mbind option_bind] in Hrun. injection Hrun as <- <- <-.
  destruct (scanStringLiteral_scanned _ _ _ _ _ Hlast Hscan) as (Hsc & Hlt).
  split; [exact Hsc |]. split; [exact Hlt | discriminate].
Qed.

End StringLiteralFacts.

(** ** Sub-lexers that satisfy what the lexer needs *)

Lemma noSubLexer_ok : SubLexerOk noSubLexer.
Proof. intros info lx kind info' lx' _ _ Hrun. discriminate. Qed.

Lemma noSubLexer_numeric_ok : NumericLexerOk noSubLexer.
Proof. intros info lx kind info' lx' c _ _ _ _ Hrun. discriminate. Qed.

(** ** The sub-lexers of the source *)

Lemma scannedIn_refl lx : (sourceBuffer lx < sourceEnd lx)%nat -> scannedIn lx lx.
Proof. intros H. split; [apply scannedFrom_refl | exact H]. Qed.

Lemma scannedIn_after lx lx1 lx2 : scannedFrom lx lx1 -> scannedIn lx1 lx2 -> scannedIn lx lx2.
Proof. intros H1 (H2 & Hlt). split; [exact (scannedFrom_trans _ _ _ H1 H2) | exact Hlt]. Qed.

Lemma scannedIn_trans lx lx1 lx2 : scannedIn lx lx1 -> scannedIn lx1 lx2 -> scannedIn lx lx2.
Proof. intros (H1 & _). now apply scannedIn_after. Qed.

Lemma scannedIn_addError code offset lx lx' :
  scannedIn lx lx' -> scannedIn lx (lexerAddError code offset lx').
Proof.
  intros (H & Hlt). split; [| exact Hlt].
  exact (scannedFrom_trans _ _ _ H (scannedFrom_addError _ _ _)).
Qed.

Lemma scannedIn_last lx lx' :
  scannedIn lx lx' -> last (source lx) = Some NUL -> last (source lx') = Some NUL.
Proof. intros ((Hs & _) & _) Hlast. now rewrite Hs. Qed.

Lemma scannedIn_bound lx lx' :
  scannedIn lx lx' -> scannedFrom lx lx' /\ (sourceBuffer lx' < sourceEnd lx)%nat.
Proof.
  intros (Hsc & Hlt). split; [exact Hsc |].
  destruct Hsc as (Hs & _). unfold sourceEnd in *. now rewrite <- Hs.
Qed.

(** Stepping over a character that is not NUL stays inside the buffer. *)
Lemma scannedIn_advance lx c :
  last (source lx) = Some NUL -> peek lx = Some c -> c <> NUL ->
  scannedIn lx (advance 1 lx).
Proof.
  intros Hlast Hc Hnn. split; [apply scannedFrom_advance |].
  pose proof (peek_not_last lx c Hlast Hc Hnn). unfold sourceEnd in *. simpl. lia.
Qed.

Lemma scannedIn_advanceAt n lx c :
  last (source lx) = Some NUL -> peekAt n lx = Some c -> c <> NUL ->
  scannedIn lx (advance (S n) lx).
Proof.
  intros Hlast Hc Hnn. split; [apply scannedFrom_advance |].
  pose proof (peekAt_not_last n lx c Hlast Hc Hnn). unfold sourceEnd in *. simpl. lia.
Qed.

Section SubLexerFacts.
Context {tables : LexerTables}.

(** What is assumed of the tables: no keyword is the end of the file, NUL
    names no literal base, and the characters [0] to [9] are decimal
    digits. *)
Hypothesis keywords_not_EndOfFile :
  forall keywordVersion text, getKeywordTable keywordVersion text <> Some TokenKind.EndOfFile.
Hypothesis systemKeywords_not_EndOfFile :
  forall text, getSystemKeywordKind text <> TokenKind.EndOfFile.
Hypothesis literalBase_not_NUL : literalBaseFromChar NUL = None.
Hypothesis digits_decimal : forall c, startsNumber c = true -> isDecimalDigit c = true.

Lemma scanIdentifier_scanned fuel : forall lx lx',
  scanIdentifier fuel lx = Some lx' -> scannedIn lx lx'.
Proof using Type.
  induction fuel as [| fuel IH]; intros lx lx' Hrun; [discriminate |].
  cbn [scanIdentifier] in Hrun.
  destruct (peek lx) as [c |] eqn:Hc; [| discriminate]. cbn [mbind option_bind] in Hrun.
  destruct (isAlphaNumeric c || bool_decide (c = "_"%char) || bool_decide (c = "$"%char)).
  - apply IH in Hrun. exact (scannedIn_after _ _ _ (scannedFrom_advance 1 lx) Hrun).
  - injection Hrun as <-. apply scannedIn_refl. exact (peek_Some_in lx c Hc).
Qed.

Lemma lexIdentifier_ok keywordVersion : SubLexerOk (lexIdentifier keywordVersion).
Proof using keywords_not_EndOfFile.
  intros info lx kind info' lx' Hlast Hin Hrun. unfold lexIdentifier in Hrun.
  destruct (scanIdentifier _ lx) as [lx1 |] eqn:Hscan; [| discriminate].
  cbn [mbind option_bind] in Hrun.
  destruct (scannedIn_bound _ _ (scanIdentifier_scanned _ _ _ Hscan)) as (Hsc & Hlt).
  destruct (getKeywordTable keywordVersion (lexeme lx1)) as [k |] eqn:Hk;
    injection Hrun as <- <- <-; (split; [exact Hsc |]); (split; [exact Hlt |]).
  - intros ->. exact (keywords_not_EndOfFile _ _ Hk).
  - discriminate.
Qed.

Lemma scanEscapedIdentifier_scanned fuel : forall c lx lx',
  (sourceBuffer lx < sourceEnd lx)%nat ->
  scanEscapedIdentifier fuel c lx = Some lx' -> scannedIn lx lx'.
Proof using Type.
  induction fuel as [| fuel IH]; intros c lx lx' Hin Hrun; [discriminate |].
  cbn [scanEscapedIdentifier] in Hrun.
  destruct (isPrintable c).
  - cbv zeta in Hrun.
    destruct (peek (advance 1 lx)) as [c1 |] eqn:Hc1; [| discriminate].
    cbn [mbind option_bind] in Hrun.
    pose proof (peek_Some_in _ _ Hc1) as Hin1.
    destruct (isWhitespace c1).
    + injection Hrun as <-. split; [apply scannedFrom_advance | exact Hin1].
    + apply IH in Hrun; [| exact Hin1].
      exact (scannedIn_after _ _ _ (scannedFrom_advance 1 lx) Hrun).
  - injection Hrun as <-. now apply scannedIn_refl.
Qed.

Lemma lexEscapeSequence_ok : SubLexerOk lexEscapeSequence.
Proof using Type.
  intros info lx kind info' lx' Hlast Hin Hrun. unfold lexEscapeSequence in Hrun.
  destruct (peek lx) as [c |] eqn:Hc; [| discriminate]. cbn [mbind option_bind] in Hrun.
  destruct (isWhitespace c || bool_decide (c = NUL)).
  - injection Hrun as <- <- <-. split; [apply scannedFrom_addError |].
    split; [simpl; lia | discriminate].
  - destruct (scanEscapedIdentifier _ c lx) as [lx1 |] eqn:Hscan; [| discriminate].
    cbn [mbind option_bind] in Hrun. injection Hrun as <- <- <-.
    destruct (scannedIn_bound _ _ (scanEscapedIdentifier_scanned _ _ _ _ (proj2 Hin) Hscan))
      as (Hsc & Hlt).
    split; [exact Hsc |]. split; [exact Hlt | discriminate].
Qed.

Lemma lexDollarSign_ok : SubLexerOk lexDollarSign.
Proof using systemKeywords_not_EndOfFile.
  intros info lx kind info' lx' Hlast Hin Hrun. unfold lexDollarSign in Hrun.
  destruct (scanIdentifier _ lx) as [lx1 |] eqn:Hscan; [| discriminate].
  cbn [mbind option_bind] in Hrun.
  destruct (scannedIn_bound _ _ (scanIdentifier_scanned _ _ _ Hscan)) as (Hsc & Hlt).
  destruct (bool_decide (lexemeLength lx1 = 1%nat)).
  - injection Hrun as <- <- <-. split; [exact Hsc |]. split; [exact Hlt | discriminate].
  - cbv zeta in Hrun.
    destruct (negb (bool_decide (getSystemKeywordKind (lexeme lx1) = TokenKind.Unknown)));
      injection Hrun as <- <- <-; (split; [exact Hsc |]); (split; [exact Hlt |]).
    + apply systemKeywords_not_EndOfFile.
    + discriminate.
Qed.

Lemma lexDirective_ok : SubLexerOk lexDirective.
Proof using Type.
  intros info lx kind info' lx' Hlast Hin Hrun. unfold lexDirective in Hrun.
  cbv zeta in Hrun.
  destruct (scanIdentifier _ lx) as [lx1 |] eqn:Hscan; [| discriminate].
  cbn [mbind option_bind] in Hrun.
  pose proof (scanIdentifier_scanned _ _ _ Hscan) as Hin1.
  destruct (bool_decide (lexemeLength lx1 = 1%nat)).
  - injection Hrun as <- <- <-.
    destruct (scannedIn_bound _ _ (scannedIn_addError MisplacedDirectiveChar
                                     (currentOffset lx) _ _ Hin1)) as (Hsc & Hlt).
    split; [exact Hsc |]. split; [exact Hlt | discriminate].
  - destruct (lexeme lx1) as [| grave name]; [discriminate |].
    destruct (negb (onNewLine lx1) && _); injection Hrun as <- <- <-.
    + destruct (scannedIn_bound _ _ (scannedIn_addError IncludeNotFirstOnLine
                                       (currentOffset lx) _ _ Hin1)) as (Hsc & Hlt).
      split; [exact Hsc |]. split; [exact Hlt | discriminate].
    + destruct (scannedIn_bound _ _ Hin1) as (Hsc & Hlt).
      split; [exact Hsc |]. split; [exact Hlt | discriminate].
Qed.

Lemma lexIntegerBase_scanned info isSigned lx found info' lx' :
  last (source lx) = Some NUL -> (sourceBuffer lx < sourceEnd lx)%nat ->
  lexIntegerBase info isSigned lx = Some (found, info', lx') -> scannedIn lx lx'.
Proof using literalBase_not_NUL.
  intros Hlast Hin Hrun. unfold lexIntegerBase in Hrun.
  destruct (peek lx) as [c |] eqn:Hc; [| discriminate]. cbn [mbind option_bind] in Hrun.
  destruct (literalBaseFromChar c) as [base |] eqn:Hbase; injection Hrun as <- <- <-.
  - apply (scannedIn_advance lx c Hlast Hc). intros ->. congruence.
  - now apply scannedIn_refl.
Qed.

Lemma lexApostrophe_ok : SubLexerOk lexApostrophe.
Proof using literalBase_not_NUL.
  intros info lx kind info' lx' Hlast Hin Hrun. unfold lexApostrophe in Hrun.
  destruct (peek lx) as [c |] eqn:Hc; [| discriminate]. cbn [mbind option_bind] in Hrun.
  assert (Hstep : forall chars : list ascii, c ∈ chars -> NUL ∉ chars ->
            scannedFrom lx (advance 1 lx) /\
            (sourceBuffer (advance 1 lx) < sourceEnd lx)%nat).
  { intros chars Hc' Hn. apply scannedIn_bound.
    apply (scannedIn_advance lx c Hlast Hc). intros ->. contradiction. }
  assert (Hn2 : forall a b : ascii, a <> NUL -> b <> NUL -> NUL ∉ [a; b]).
  { intros a b Ha Hb Hin'. apply elem_of_cons in Hin' as [E | Hin']; [congruence |].
    apply list_elem_of_singleton in Hin'. congruence. }
  assert (Hn3 : forall a b d : ascii, a <> NUL -> b <> NUL -> d <> NUL -> NUL ∉ [a; b; d]).
  { intros a b d Ha Hb Hd Hin'. apply elem_of_cons in Hin' as [E | Hin']; [congruence |].
    exact (Hn2 b d Hb Hd Hin'). }
  destruct (bool_decide_reflect (c ∈ ["0"; "1"]%char)) as [H01 |].
  { injection Hrun as <- <- <-.
    destruct (Hstep _ H01 (Hn2 "0"%char "1"%char ltac:(discriminate) ltac:(discriminate)))
      as (Hsc & Hlt).
    split; [exact Hsc |]. split; [exact Hlt | discriminate]. }
  destruct (bool_decide_reflect (c ∈ ["x"; "X"]%char)) as [Hx |].
  { injection Hrun as <- <- <-.
    destruct (Hstep _ Hx (Hn2 "x"%char "X"%char ltac:(discriminate) ltac:(discriminate)))
      as (Hsc & Hlt).
    split; [exact Hsc |]. split; [exact Hlt | discriminate]. }
  destruct (bool_decide_reflect (c ∈ ["Z"; "z"; "?"]%char)) as [Hz |].
  { injection Hrun as <- <- <-.
    destruct (Hstep _ Hz (Hn3 "Z"%char "z"%char "?"%char ltac:(discriminate)
                            ltac:(discriminate) ltac:(discriminate))) as (Hsc & Hlt).
    split; [exact Hsc |]. split; [exact Hlt | discriminate]. }
  destruct (bool_decide_reflect (c ∈ ["s"; "S"]%char)) as [Hs |].
  { destruct (Hstep _ Hs (Hn2 "s"%char "S"%char ltac:(discriminate) ltac:(discriminate)))
      as (Hsc & Hlt).
    destruct (lexIntegerBase info true (advance 1 lx)) as [[[found info1] lx1] |] eqn:Hbase;
      [| discriminate].
    cbn [mbind option_bind] in Hrun.
    apply lexIntegerBase_scanned in Hbase; [| exact Hlast | exact Hlt].
    pose proof (scannedIn_after _ _ _ Hsc Hbase) as Hin1.
    destruct found; injection Hrun as <- <- <-.
    - destruct (scannedIn_bound _ _ Hin1) as (Hsc1 & Hlt1).
      split; [exact Hsc1 |]. split; [exact Hlt1 | discriminate].
    - destruct (scannedIn_bound _ _ (scannedIn_addError ExpectedIntegerBaseAfterSigned
                                       (currentOffset lx1) _ _ Hin1)) as (Hsc1 & Hlt1).
      split; [exact Hsc1 |]. split; [exact Hlt1 | discriminate]. }
  destruct (lexIntegerBase info false lx) as [[[found info1] lx1] |] eqn:Hbase;
    [| discriminate].
  cbn [mbind option_bind] in Hrun.
  apply lexIntegerBase_scanned in Hbase; [| exact Hlast | exact (proj2 Hin)].
  destruct (scannedIn_bound _ _ Hbase) as (Hsc1 & Hlt1).
  destruct found; injection Hrun as <- <- <-;
    (split; [exact Hsc1 |]); (split; [exact Hlt1 | discriminate]).
Qed.

(** *** Numbers *)

Lemma scanUnsignedNumber_scanned fuel : forall value digits lx value' digits' lx',
  scanUnsignedNumber fuel value digits lx = Some (value', digits', lx') ->
  scannedIn lx lx' /\
  (forall c, peek lx = Some c -> c <> "_"%char -> isDecimalDigit c = true ->
     (sourceBuffer lx < sourceBuffer lx')%nat).
Proof using Type.
  induction fuel as [| fuel IH]; intros value digits lx value' digits' lx' Hrun;
    [discriminate |].
  cbn [scanUnsignedNumber] in Hrun.
  destruct (peek lx) as [c |] eqn:Hc; [| discriminate]. cbn [mbind option_bind] in Hrun.
  destruct (bool_decide_reflect (c = "_"%char)) as [-> | Hnu].
  - apply IH in Hrun as (Hin1 & _).
    split; [exact (scannedIn_after _ _ _ (scannedFrom_advance 1 lx) Hin1) |].
    intros c' Hc' Hne. congruence.
  - destruct (isDecimalDigit c) eqn:Hd; cbn [negb] in Hrun.
    + cbv zeta in Hrun. apply IH in Hrun as (Hin1 & _).
      split; [exact (scannedIn_after _ _ _ (scannedFrom_advance 1 lx) Hin1) |].
      intros _ _ _ _. destruct Hin1 as ((_ & _ & _ & _ & Hmono & _) & _).
      simpl in Hmono. lia.
    + injection Hrun as <- <- <-.
      split; [apply scannedIn_refl; exact (peek_Some_in lx c Hc) |].
      intros c' Hc' _ Hd'. congruence.
Qed.

Lemma scanLeadingZeros_scanned fuel : forall lx lx',
  scanLeadingZeros fuel lx = Some lx' ->
  scannedIn lx lx' /\
  (forall c, peek lx = Some c ->
     (c = "0"%char -> (sourceBuffer lx < sourceBuffer lx')%nat) /\
     (c <> "0"%char -> lx' = lx)).
Proof using Type.
  induction fuel as [| fuel IH]; intros lx lx' Hrun; [discriminate |].
  cbn [scanLeadingZeros] in Hrun.
  destruct (peek lx) as [c |] eqn:Hc; [| discriminate]. cbn [mbind option_bind] in Hrun.
  destruct (bool_decide_reflect (c = "0"%char)) as [-> | Hnz].
  - apply IH in Hrun as (Hin1 & _).
    split; [exact (scannedIn_after _ _ _ (scannedFrom_advance 1 lx) Hin1) |].
    intros c' Hc'. split; [| congruence].
    intros _. destruct Hin1 as ((_ & _ & _ & _ & Hmono & _) & _). simpl in Hmono. lia.
  - injection Hrun as <-.
    split; [apply scannedIn_refl; exact (peek_Some_in lx c Hc) |].
    intros c' Hc'. split; [congruence | reflexivity].
Qed.

Lemma lexTimeLiteral_scanned info lx isTime info' lx' :
  last (source lx) = Some NUL ->
  lexTimeLiteral info lx = Some (isTime, info', lx') -> scannedIn lx lx'.
Proof using Type.
  intros Hlast Hrun. unfold lexTimeLiteral in Hrun.
  destruct (peek lx) as [c |] eqn:Hc; [| discriminate]. cbn [mbind option_bind] in Hrun.
  cbv zeta in Hrun.
  pose proof (scannedIn_refl lx (peek_Some_in lx c Hc)) as Hstay.
  assert (Hunit : forall unit,
    (c1 ← peekAt 1 lx;
     if bool_decide (c1 = "s"%char) then Some (true, setTimeUnit info unit, advance 2 lx)
     else Some (false, info, lx)) = Some (isTime, info', lx') -> scannedIn lx lx').
  { intros unit Hu. destruct (peekAt 1 lx) as [c1 |] eqn:Hc1; [| discriminate].
    cbn [mbind option_bind] in Hu.
    destruct (bool_decide_reflect (c1 = "s"%char)) as [-> |]; injection Hu as <- <- <-.
    - apply (scannedIn_advanceAt 1 lx "s"%char Hlast Hc1). discriminate.
    - exact Hstay. }
  destruct (bool_decide_reflect (c = "s"%char)) as [-> |].
  { injection Hrun as <- <- <-. apply (scannedIn_advance lx "s"%char Hlast Hc). discriminate. }
  repeat (destruct (bool_decide (c = _)); [exact (Hunit _ Hrun) |]).
  injection Hrun as <- <- <-. exact Hstay.
Qed.

Lemma scanExponent_scanned lx found exp neg lx' :
  (sourceBuffer lx < sourceEnd lx)%nat ->
  scanExponent lx = Some (found, exp, neg, lx') -> scannedIn lx lx'.
Proof using Type.
  intros Hin Hrun. unfold scanExponent in Hrun.
  destruct (peekAt 1 lx) as [c |]; [| discriminate]. cbn [mbind option_bind] in Hrun.
  destruct (bool_decide (c = "+"%char) || bool_decide (c = "-"%char)).
  - destruct (peekAt 2 lx) as [c' |]; [| discriminate]. cbn [mbind option_bind] in Hrun.
    destruct (isDecimalDigit c'); cbn [negb] in Hrun.
    + destruct (scanUnsignedNumber _ 0 0 _) as [[[value digits] lx1] |] eqn:Hscan;
        [| discriminate].
      cbn [mbind option_bind] in Hrun. injection Hrun as <- <- <- <-.
      apply scanUnsignedNumber_scanned in Hscan as (Hin1 & _).
      exact (scannedIn_after _ _ _ (scannedFrom_advance 2 lx) Hin1).
    + injection Hrun as <- <- <- <-. now apply scannedIn_refl.
  - cbn [mbind option_bind] in Hrun.
    destruct (isDecimalDigit c); cbn [negb] in Hrun.
    + destruct (scanUnsignedNumber _ 0 0 _) as [[[value digits] lx1] |] eqn:Hscan;
        [| discriminate].
      cbn [mbind option_bind] in Hrun. injection Hrun as <- <- <- <-.
      apply scanUnsignedNumber_scanned in Hscan as (Hin1 & _).
      exact (scannedIn_after _ _ _ (scannedFrom_advance 1 lx) Hin1).
    + injection Hrun as <- <- <- <-. now apply scannedIn_refl.
Qed.

Lemma matchesText_OneStep lx :
  matchesText OneStepText 0 lx = Some true -> peekAt 4 lx = Some "p"%char.
Proof using Type.
  unfold OneStepText. cbn [matchesText]. intros Hrun.
  repeat match type of Hrun with
  | (mbind _ (peekAt ?i lx)) = _ =>
      destruct (peekAt i lx) eqn:?; [| discriminate];
      cbn [mbind option_bind] in Hrun;
      match type of Hrun with
      | context [bool_decide (?c = ?x)] =>
          destruct (bool_decide_reflect (c = x)) as [-> |]; [| discriminate]
      end
  end.
  reflexivity.
Qed.

Lemma movedOn_scannedIn start lx0 lx lx' :
  movedOn start lx0 lx -> scannedIn lx lx' -> movedOn start lx0 lx'.
Proof using Type.
  intros (Hsc & Hlo & _) (Hsc' & Hlt).
  split; [exact (scannedFrom_trans _ _ _ Hsc Hsc') |].
  destruct Hsc' as (_ & _ & _ & _ & Hmono & _). lia.
Qed.

Lemma movedOn_addError start lx0 lx code offset :
  movedOn start lx0 lx -> movedOn start lx0 (lexerAddError code offset lx).
Proof using Type.
  intros (Hsc & Hb). split; [| exact Hb].
  exact (scannedFrom_trans _ _ _ Hsc (scannedFrom_addError _ _ _)).
Qed.

Lemma movedOn_last start lx0 lx :
  movedOn start lx0 lx -> last (source lx0) = Some NUL -> last (source lx) = Some NUL.
Proof using Type. intros ((Hs & _) & _) Hlast. now rewrite Hs. Qed.

Lemma tokenScanned_movedOn start lx0 lx kind info :
  movedOn start lx0 lx -> kind <> TokenKind.EndOfFile ->
  tokenScanned start lx0 (Some (kind, info, lx)).
Proof using Type.
  intros (Hsc & Hlo & Hhi) Hk. unfold tokenScanned. split; [exact Hsc |].
  destruct Hsc as (Hs & _). unfold sourceEnd in *. rewrite <- Hs. auto.
Qed.

Lemma tokenScanned_integerOrTime start lx0 lx info value :
  last (source lx0) = Some NUL -> movedOn start lx0 lx ->
  tokenScanned start lx0
    ('(isTime, info, lx) ← lexTimeLiteral info lx;
     if (isTime : bool)
     then Some (TokenKind.TimeLiteral, setReal info (toDouble value), lx)
     else Some (TokenKind.IntegerLiteral, setInt info 32 value true, lx)).
Proof using Type.
  intros Hlast Hmoved.
  destruct (lexTimeLiteral info lx) as [[[isTime info1] lx1] |] eqn:Htime; [| exact I].
  cbn [mbind option_bind].
  apply lexTimeLiteral_scanned in Htime; [| exact (movedOn_last _ _ _ Hmoved Hlast)].
  pose proof (movedOn_scannedIn _ _ _ _ Hmoved Htime) as Hmoved1.
  destruct isTime; apply tokenScanned_movedOn; try exact Hmoved1; discriminate.
Qed.

Lemma lexNumericLiteral_ok : NumericLexerOk lexNumericLiteral.
Proof using digits_decimal.
  intros info lx kind info' lx' c Hlast Hmark Hc Hdigit Hrun.
  assert (Hgoal : tokenScanned (sourceBuffer lx) lx (lexNumericLiteral info lx)).
  2:{ rewrite Hrun in Hgoal. exact Hgoal. }
  clear Hrun. unfold lexNumericLiteral.
  destruct (matchesText OneStepText 0 lx) as [oneStep |] eqn:Hone; [| exact I].
  cbn [mbind option_bind]. destruct oneStep.
  { apply tokenScanned_movedOn; [| discriminate].
    pose proof (matchesText_OneStep lx Hone) as Hp.
    destruct (scannedIn_advanceAt 4 lx "p"%char Hlast Hp ltac:(discriminate)) as (Hsc & Hlt).
    split; [exact Hsc |]. simpl in *. lia. }
  destruct (scanLeadingZeros _ lx) as [lx1 |] eqn:Hzeros; [| exact I].
  cbn [mbind option_bind].
  destruct (scanLeadingZeros_scanned _ _ _ Hzeros) as (Hin1 & Hz).
  destruct (Hz c Hc) as (Hzero & Hsame).
  destruct (scanUnsignedNumber _ 0 0 lx1) as [[[value digits] lx2] |] eqn:Hdigits;
    [| exact I].
  cbn [mbind option_bind].
  destruct (scanUnsignedNumber_scanned _ _ _ _ _ _ _ Hdigits) as (Hin2 & Hstep).
  assert (Hmoved : movedOn (sourceBuffer lx) lx lx2).
  { pose proof (scannedIn_trans _ _ _ Hin1 Hin2) as (Hsc & Hlt).
    split; [exact Hsc |]. split; [| exact Hlt].
    destruct (decide (c = "0"%char)) as [Hc0 | Hc0].
    - specialize (Hzero Hc0).
      destruct Hin2 as ((_ & _ & _ & _ & Hmono & _) & _). lia.
    - specialize (Hsame Hc0). subst lx1.
      apply (Hstep c Hc); [| now apply digits_decimal].
      intros ->. discriminate Hdigit. }
  clear Hzeros Hdigits Hin1 Hin2 Hz Hzero Hsame Hstep.
  cbv zeta.
  destruct (peek lx2) as [c2 |] eqn:Hc2; [| exact I]. cbn [mbind option_bind].
  pose proof (movedOn_last _ _ _ Hmoved Hlast) as Hlast2.
  destruct (bool_decide_reflect (c2 = "."%char)) as [-> | Hdot].
  - (* a fraction *)
    pose proof (scannedIn_advance lx2 "."%char Hlast2 Hc2 ltac:(discriminate)) as Hin3.
    pose proof (movedOn_scannedIn _ _ _ _ Hmoved Hin3) as Hmoved3.
    destruct (peek (advance 1 lx2)) as [c3 |] eqn:Hc3; [| exact I].
    cbn [mbind option_bind].
    set (lx4 := if negb (isDecimalDigit c3) then _ else advance 1 lx2).
    assert (Hmoved4 : movedOn (sourceBuffer lx) lx lx4).
    { subst lx4. destruct (negb (isDecimalDigit c3)); [| exact Hmoved3].
      now apply movedOn_addError. }
    clearbody lx4.
    destruct (scanUnsignedNumber _ value digits lx4) as [[[value5 digits5] lx5] |] eqn:Hfrac;
      [| exact I].
    cbn [mbind option_bind].
    destruct (scanUnsignedNumber_scanned _ _ _ _ _ _ _ Hfrac) as (Hin5 & _).
    pose proof (movedOn_scannedIn _ _ _ _ Hmoved4 Hin5) as Hmoved5.
    destruct (peek lx5) as [c5 |] eqn:Hc5; [| exact I]. cbn [mbind option_bind].
    destruct (bool_decide (c5 = "e"%char) || bool_decide (c5 = "E"%char)).
    + destruct (scanExponent lx5) as [[[[found exp] neg] lx6] |] eqn:Hexp; [| exact I].
      cbn [mbind option_bind].
      apply scanExponent_scanned in Hexp; [| exact (peek_Some_in lx5 c5 Hc5)].
      pose proof (movedOn_scannedIn _ _ _ _ Hmoved5 Hexp) as Hmoved6.
      destruct (computeRealValue _ _ _ _ _) as [real |]; [| exact I].
      cbn [mbind option_bind].
      apply tokenScanned_movedOn; [| discriminate].
      destruct (negb found); [now apply movedOn_addError | exact Hmoved6].
    + destruct (lexTimeLiteral info lx5) as [[[isTime info6] lx6] |] eqn:Htime; [| exact I].
      cbn [mbind option_bind].
      apply lexTimeLiteral_scanned in Htime;
        [| exact (movedOn_last _ _ _ Hmoved5 Hlast)].
      pose proof (movedOn_scannedIn _ _ _ _ Hmoved5 Htime) as Hmoved6.
      destruct (computeRealValue _ _ _ _ _) as [real |]; [| exact I].
      cbn [mbind option_bind].
      apply tokenScanned_movedOn; [exact Hmoved6 |]. destruct isTime; discriminate.
  - destruct (bool_decide (c2 = "e"%char) || bool_decide (c2 = "E"%char)).
    + destruct (scanExponent lx2) as [[[[found exp] neg] lx3] |] eqn:Hexp; [| exact I].
      cbn [mbind option_bind].
      apply scanExponent_scanned in Hexp; [| exact (peek_Some_in lx2 c2 Hc2)].
      pose proof (movedOn_scannedIn _ _ _ _ Hmoved Hexp) as Hmoved3.
      destruct found.
      * destruct (computeRealValue _ _ _ _ _) as [real |]; [| exact I].
        cbn [mbind option_bind].
        apply tokenScanned_movedOn; [exact Hmoved3 | discriminate].
      * now apply tokenScanned_integerOrTime.
    + now apply tokenScanned_integerOrTime.
Qed.

(** *** Runs of the lexer *)

Lemma Lexer_lex_spec mode keywordVersion lx tok lx' :
  inBuffer lx -> sequencesFit isASCII utf8SeqBytes (source lx) ->
  Lexer_lex mode keywordVersion lx = Some (tok, lx') ->
  inBuffer lx' /\ lexedFrom lx lx' /\
  (tokenKind tok <> TokenKind.EndOfFile ->
     triviaTexts (trivia (tokenInfo tok)) ++ rawText (tokenInfo tok) =
       sourceText lx (sourceBuffer lx) (sourceBuffer lx')) /\
  (tokenKind tok = TokenKind.EndOfFile ->
     triviaTexts (trivia (tokenInfo tok)) =
       sourceText lx (sourceBuffer lx) (sourceBuffer lx') /\
     sourceBuffer lx' = (sourceEnd lx - 1)%nat) /\
  (mode <> LexerMode.IncludeFileName -> sourceBuffer lx' = sourceBuffer lx ->
     tokenKind tok =
       (if bool_decide (mode = LexerMode.Directive)
        then TokenKind.EndOfDirective else TokenKind.EndOfFile)).
Proof using All.
  apply lex_spec.
  - apply lexStringLiteral_ok.
  - exact lexDollarSign_ok.
  - exact lexApostrophe_ok.
  - exact lexNumericLiteral_ok.
  - exact lexEscapeSequence_ok.
  - exact lexDirective_ok.
  - exact lexIdentifier_ok.
Qed.

(** X22.  Lexing loses no text.  With tables as assumed above, on a buffer that
    ends in NUL and in which the UTF-8 sequences fit, after any run of [lex]
    calls that return, in whatever modes, the read pointer is inside the
    buffer, the diagnostics have only grown, and the texts of the tokens
    (leading trivia, then the raw text unless the token is EndOfFile), put
    together in order, are exactly the text of the buffer the run read over.
    Nothing is said of a call that does not return: one that reads outside
    the buffer, as [lexStringLiteral] does on a backslash before the final
    NUL, or whose exponent arithmetic overflows. *)
Theorem lexEach_covers_text calls lx toks lx' :
  inBuffer lx -> sequencesFit isASCII utf8SeqBytes (source lx) ->
  Lexer_lexEach calls lx = Some (toks, lx') ->
  inBuffer lx' /\ lexedFrom lx lx' /\
  concat (tokenText <$> toks) = sourceText lx (sourceBuffer lx) (sourceBuffer lx').
Proof using All.
  unfold Lexer_lexEach.
  revert lx toks. induction calls as [| [mode keywordVersion] calls IH];
    intros lx toks Hin Hfit Hrun.
  - injection Hrun as <- <-. split; [exact Hin |]. split; [apply lexedFrom_refl |].
    now rewrite sourceText_nil.
  - cbn [lexEach] in Hrun. fold (Lexer_lex mode keywordVersion lx) in Hrun.
    destruct (Lexer_lex mode keywordVersion lx) as [[tok lx1] |] eqn:Hlex; [| discriminate].
    cbn [mbind option_bind] in Hrun.
    destruct (lexEach _ _ _ _ _ _ _ _ _ calls lx1) as [[rest lx2] |] eqn:Hrest;
      [| discriminate].
    cbn [mbind option_bind] in Hrun. injection Hrun as <- <-.
    destruct (Lexer_lex_spec mode keywordVersion lx tok lx1 Hin Hfit Hlex)
      as (Hin1 & Hlx1 & Hne & Heof & _).
    pose proof Hlx1 as (Hs1 & _ & _ & Hp1 & _).
    destruct (IH lx1 rest Hin1 ltac:(now rewrite Hs1) Hrest) as (Hin2 & Hlx2 & Htext).
    split; [exact Hin2 |]. split; [exact (lexedFrom_trans _ _ _ Hlx1 Hlx2) |].
    cbn [fmap list_fmap concat]. fold (tokenText <$> rest).
    pose proof Hlx2 as (_ & _ & _ & Hp2 & _).
    rewrite Htext, (sourceText_same lx lx1) by exact Hs1.
    assert (Htok : tokenText tok = sourceText lx (sourceBuffer lx) (sourceBuffer lx1)).
    { unfold tokenText.
      destruct (bool_decide_reflect (tokenKind tok = TokenKind.EndOfFile)) as [Hk | Hk].
      - rewrite app_nil_r. now apply Heof.
      - now apply Hne. }
    rewrite Htok. apply sourceText_app; try lia.
    destruct Hin2 as (_ & Hlt). destruct Hlx2 as (Hs2 & _).
    unfold sourceEnd in *. rewrite Hs2, Hs1 in Hlt. lia.
Qed.

(** X23.  The shape of a run in normal mode.  With tables as assumed above, on a
    buffer that ends in NUL and in which the UTF-8 sequences fit, the tokens
    of a run of [lex] calls in normal mode that all return are tokens other
    than EndOfFile, no more of them than there are characters between the
    read pointer and the final NUL, followed by EndOfFile tokens only; every
    EndOfFile token after the first has no trivia and no text, and once one
    was returned the read pointer rests on the final NUL. *)
Theorem lexMany_normal_shape n keywordVersion lx toks lx' :
  inBuffer lx -> sequencesFit isASCII utf8SeqBytes (source lx) ->
  Lexer_lexMany n LexerMode.Normal keywordVersion lx = Some (toks, lx') ->
  exists body eofs,
    toks = body ++ eofs /\
    (length body <= sourceEnd lx - 1 - sourceBuffer lx)%nat /\
    Forall (λ tok : Token TokenExtra, tokenKind tok <> TokenKind.EndOfFile) body /\
    Forall (λ tok : Token TokenExtra, tokenKind tok = TokenKind.EndOfFile) eofs /\
    Forall (λ tok : Token TokenExtra,
              trivia (tokenInfo tok) = [] /\ rawText (tokenInfo tok) = []) (tail eofs) /\
    (eofs <> [] -> sourceBuffer lx' = (sourceEnd lx - 1)%nat).
Proof using All.
  unfold Lexer_lexMany.
  revert lx toks. induction n as [| n IH]; intros lx toks Hin Hfit Hrun.
  - injection Hrun as <- <-. exists [], []. simpl. repeat split; auto; try lia.
    congruence.
  - cbn [lexMany] in Hrun. fold (Lexer_lex LexerMode.Normal keywordVersion lx) in Hrun.
    destruct (Lexer_lex LexerMode.Normal keywordVersion lx) as [[tok lx1] |] eqn:Hlex;
      [| discriminate].
    cbn [mbind option_bind] in Hrun.
    destruct (lexMany _ _ _ _ _ _ _ _ _ n LexerMode.Normal keywordVersion lx1)
      as [[rest lx2] |] eqn:Hrest; [| discriminate].
    cbn [mbind option_bind] in Hrun. injection Hrun as <- <-.
    destruct (Lexer_lex_spec LexerMode.Normal keywordVersion lx tok lx1 Hin Hfit Hlex)
      as (Hin1 & Hlx1 & _ & Heof & Hstay).
    pose proof Hlx1 as (Hs1 & _ & _ & Hp1 & _).
    destruct (decide (tokenKind tok = TokenKind.EndOfFile)) as [Hk | Hk].
    + (* the end of the file: nothing but EndOfFile follows *)
      destruct (Heof Hk) as (_ & Hend).
      destruct Hin1 as (Hlast1 & Hlt1).
      destruct (lexMany_at_end
                  (lexStringLiteral isOctalDigit isHexDigit getDigitValue getHexDigitValue)
                  lexDollarSign lexApostrophe lexNumericLiteral lexEscapeSequence
                  lexDirective lexIdentifier isASCII utf8SeqBytes n keywordVersion lx1)
        as (toks' & lx' & Hm & _ & Hall & _ & Hp').
      { apply last_lookup_length in Hlast1. unfold sourceEnd in *.
        rewrite Hend, <- Hs1. exact Hlast1. }
      { unfold sourceEnd in *. now rewrite Hs1. }
      rewrite Hm in Hrest. injection Hrest as <- <-.
      exists [], (tok :: toks'). simpl.
      split; [reflexivity |]. split; [lia |]. split; [constructor |].
      split; [constructor; [exact Hk |]; eapply Forall_impl; [exact Hall |];
              now intros ? (? & _) |].
      split; [eapply Forall_impl; [exact Hall |]; now intros ? (_ & ? & ?) |].
      intros _. lia.
    + (* another token: the read pointer moved on *)
      assert (Hmoved : (sourceBuffer lx < sourceBuffer lx1)%nat).
      { destruct (decide (sourceBuffer lx1 = sourceBuffer lx)) as [Hsame |]; [| lia].
        specialize (Hstay ltac:(discriminate) Hsame).
        rewrite bool_decide_eq_false_2 in Hstay by discriminate. contradiction. }
      destruct (IH lx1 rest Hin1 ltac:(now rewrite Hs1) Hrest)
        as (body & eofs & -> & Hlen & Hbody & Heofs & Htail & Hlast).
      exists (tok :: body), eofs. unfold sourceEnd in *. rewrite Hs1 in *.
      simpl. repeat split; auto; try lia.
      destruct Hin1 as (_ & Hlt1). unfold sourceEnd in Hlt1. rewrite Hs1 in Hlt1. lia.
Qed.

End SubLexerFacts.

(** ** Instantiations and the names that shadow them *)

Lemma containsName_app stack more name :
  containsName (stack ++ more) name = containsName stack name || containsName more name.
Proof. unfold containsName. apply existsb_app. Qed.

Lemma findInstantiations_scoped node : forall scopeStack found,
  found ⊆ findInstantiations node scopeStack found /\
  forall name, isEmptyName name || containsName scopeStack name = true ->
    name ∈ findInstantiations node scopeStack found -> name ∈ found.
Proof.
  assert (Hchildren : forall members stack,
    Forall (λ node, forall scopeStack found,
              found ⊆ findInstantiations node scopeStack found /\
              forall name, isEmptyName name || containsName scopeStack name = true ->
                name ∈ findInstantiations node scopeStack found -> name ∈ found) members ->
    forall found,
      found ⊆ (fix children (members : list MemberSyntax) (found : NameSet) : NameSet :=
                 match members with
                 | [] => found
                 | member :: rest => children rest (findInstantiations member stack found)
                 end) members found /\
      forall name, isEmptyName name || containsName stack name = true ->
        name ∈ (fix children (members : list MemberSyntax) (found : NameSet) : NameSet :=
                  match members with
                  | [] => found
                  | member :: rest => children rest (findInstantiations member stack found)
                  end) members found -> name ∈ found).
  { intros members stack Hall.
    induction Hall as [| member members Hm _ IHl]; intros found; [split; auto |].
    destruct (Hm stack found) as (Hsub & Hsh).
    destruct (IHl (findInstantiations member stack found)) as (Hsub' & Hsh').
    split; [set_solver |]. intros name Hc Hin. apply (Hsh name Hc). now apply Hsh'. }
  induction node using MemberSyntax_nested_ind; intros scopeStack found; simpl.
  - (* module declaration *)
    destruct (localDefinitions members) as [localDefs |].
    + destruct (Hchildren members (scopeStack ++ [localDefs]) H found) as (Hsub & Hsh).
      split; [exact Hsub |]. intros name Hc. apply Hsh.
      rewrite containsName_app. apply orb_true_iff in Hc as [-> | ->]; auto.
      now rewrite orb_true_r.
    + apply (Hchildren members scopeStack H found).
  - (* hierarchy instantiation *)
    destruct (negb (isEmptyName name) && negb (containsName scopeStack name)) eqn:Hadd.
    + split; [set_solver |]. intros nm Hc Hin.
      apply elem_of_union in Hin as [Hin | Hin]; [| exact Hin].
      apply elem_of_singleton in Hin as ->.
      apply andb_true_iff in Hadd as (Ha & Hb). apply negb_true_iff in Ha, Hb.
      rewrite Ha, Hb in Hc. discriminate.
    + split; auto.
  - apply (Hchildren members scopeStack H found).
  - apply (Hchildren members scopeStack H found).
  - apply IHnode.
  - revert found.
    induction H as [| item items Hi _ IHl]; intros found; [split; auto |].
    destruct item as [clause | clause |].
    + destruct (Hi scopeStack found) as (Hsub & Hsh).
      destruct (IHl (findInstantiations clause scopeStack found)) as (Hsub' & Hsh').
      split; [set_solver |]. intros name Hc Hin. apply (Hsh name Hc). now apply Hsh'.
    + destruct (Hi scopeStack found) as (Hsub & Hsh).
      destruct (IHl (findInstantiations clause scopeStack found)) as (Hsub' & Hsh').
      split; [set_solver |]. intros name Hc Hin. apply (Hsh name Hc). now apply Hsh'.
    + apply IHl.
  - destruct (IHnode scopeStack found) as (Hsub & Hsh).
    destruct elseClause as [clause |].
    + match goal with |- context [findInstantiations clause scopeStack ?f] =>
        destruct (H scopeStack f) as (Hsub' & Hsh') end.
      split; [set_solver |]. intros name Hc Hin. apply (Hsh name Hc). now apply Hsh'.
    + split; auto.
  - split; auto.
  - split; auto.
Qed.

Lemma localDefinitions_spec members name :
  (exists localDefs, localDefinitions members = Some localDefs /\ name ∈ localDefs) <->
  (isEmptyName name = false /\ declaresLocally members name).
Proof.
  unfold localDefinitions, declaresLocally.
  assert (Hgen : forall acc : option NameSet,
    (exists localDefs,
       fold_left
         (λ (localDefs : option NameSet) (member : MemberSyntax),
            match member with
            | ModuleDeclarationSyntax _ header _ =>
                if negb (isEmptyName (headerName header)) then
                  match localDefs with
                  | None => Some ({[ headerName header ]} : NameSet)
                  | Some set => Some ({[ headerName header ]} ∪ set)
                  end
                else localDefs
            | _ => localDefs
            end) members acc = Some localDefs /\ name ∈ localDefs) <->
    ((exists set, acc = Some set /\ name ∈ set) \/
     (isEmptyName name = false /\
      exists kind header nested,
        ModuleDeclarationSyntax kind header nested ∈ members /\ headerName header = name))).
  { induction members as [| member members IH]; intros acc.
    - simpl. split.
      + intros (l & -> & Hin). left. eauto.
      + intros [(set & -> & Hin) | (_ & k & h & n & Hin & _)]; [eauto |].
        now apply elem_of_nil in Hin.
    - cbn [fold_left]. rewrite IH. clear IH.
      assert (Hcons : forall P : Prop,
        (P \/ (isEmptyName name = false /\
               exists kind header nested,
                 ModuleDeclarationSyntax kind header nested ∈ members /\
                 headerName header = name)) ->
        forall Q : Prop, (P -> Q) -> Q \/ True) by (intros; now right).
      clear Hcons.
      destruct member as [k header ms | nm | ms | ms | blk | items | blk els | prm |];
        try (split;
             [ intros [H | (He & k' & h' & n' & Hin & Hn)];
               [now left | right; split; [exact He |]; exists k', h', n';
                           split; [now apply list_elem_of_further | exact Hn]]
             | intros [H | (He & k' & h' & n' & Hin & Hn)];
               [now left | right; split; [exact He |]; exists k', h', n';
                           split; [| exact Hn];
                           apply elem_of_cons in Hin as [Hin | Hin];
                           [discriminate Hin | exact Hin]] ]).
      destruct (isEmptyName (headerName header)) eqn:Hempty; cbn [negb].
      + split.
        * intros [H | (He & k' & h' & n' & Hin & Hn)]; [now left |].
          right. split; [exact He |]. exists k', h', n'.
          split; [now apply list_elem_of_further | exact Hn].
        * intros [H | (He & k' & h' & n' & Hin & Hn)]; [now left |].
          apply elem_of_cons in Hin as [Hin | Hin].
          -- injection Hin as -> -> ->. congruence.
          -- right. split; [exact He |]. exists k', h', n'. auto.
      + split.
        * intros [(set & Hset & Hin) | (He & k' & h' & n' & Hin & Hn)].
          -- destruct acc as [set0 |]; injection Hset as <-.
             ++ apply elem_of_union in Hin as [Hin | Hin].
                ** apply elem_of_singleton in Hin as ->. right. split; [exact Hempty |].
                   exists k, header, ms. split; [apply list_elem_of_here | reflexivity].
                ** left. eauto.
             ++ apply elem_of_singleton in Hin as ->. right. split; [exact Hempty |].
                exists k, header, ms. split; [apply list_elem_of_here | reflexivity].
          -- right. split; [exact He |]. exists k', h', n'.
             split; [now apply list_elem_of_further | exact Hn].
        * intros [(set & -> & Hin) | (He & k' & h' & n' & Hin & Hn)].
          -- left. eexists. split; [reflexivity |]. set_solver.
          -- apply elem_of_cons in Hin as [Hin | Hin].
             ++ injection Hin as -> -> ->. left. destruct acc as [set0 |].
                ** eexists. split; [reflexivity |]. set_solver.
                ** eexists. split; [reflexivity |]. set_solver.
             ++ right. split; [exact He |]. exists k', h', n'. auto. }
  rewrite Hgen. split.
  - intros [(set & Hset & _) | H]; [discriminate | exact H].
  - intros H. now right.
Qed.

Lemma children_found members stack : forall found name,
  HierarchyInstantiation name ∈ members ->
  isEmptyName name = false -> containsName stack name = false ->
  name ∈ (fix children (members : list MemberSyntax) (found : NameSet) : NameSet :=
            match members with
            | [] => found
            | member :: rest => children rest (findInstantiations member stack found)
            end) members found.
Proof.
  induction members as [| member members IH]; intros found name Hin He Hc.
  - now apply elem_of_nil in Hin.
  - apply elem_of_cons in Hin as [<- | Hin].
    + cbn [findInstantiations]. rewrite He, Hc. cbn [negb andb].
      assert (Hmono : forall ms f,
        f ⊆ (fix children (members : list MemberSyntax) (found : NameSet) : NameSet :=
               match members with
               | [] => found
               | member :: rest => children rest (findInstantiations member stack found)
               end) ms f).
      { induction ms as [| m ms IHms]; intros f; [reflexivity |].
        etransitivity; [| apply IHms].
        apply (findInstantiations_scoped m stack f). }
      apply Hmono. set_solver.
    + now apply IH.
Qed.

(** X26.  The instantiations [findInstantiations] finds in a module declaration.
    Names already found are kept.  The name of a module, interface or
    program declared directly in the module is never added, however often it
    is instantiated anywhere inside the module, and neither is a name that an
    enclosing module declares, nor the empty name.  A name instantiated
    directly in the module that no enclosing scope and not the module
    itself declares is found. *)
Theorem findInstantiations_shadowing kind header members scopeStack found :
  let result :=
    findInstantiations (ModuleDeclarationSyntax kind header members) scopeStack found in
  found ⊆ result /\
  (forall name,
     declaresLocally members name \/ containsName scopeStack name = true \/
     isEmptyName name = true ->
     name ∈ result -> name ∈ found) /\
  (forall name,
     HierarchyInstantiation name ∈ members -> isEmptyName name = false ->
     containsName scopeStack name = false -> ~ declaresLocally members name ->
     name ∈ result).
Proof.
  cbv zeta. split; [apply findInstantiations_scoped |]. split.
  - intros name Hshadow Hin.
    destruct (isEmptyName name) eqn:Hempty.
    { apply (proj2 (findInstantiations_scoped
                      (ModuleDeclarationSyntax kind header members) scopeStack found) name);
        [now rewrite Hempty | exact Hin]. }
    destruct Hshadow as [Hlocal | [Hstack | Hcontra]]; [| | discriminate].
    + destruct (proj2 (localDefinitions_spec members name) (conj Hempty Hlocal))
        as (localDefs & Hdefs & Hname).
      cbn [findInstantiations] in Hin. rewrite Hdefs in Hin.
      assert (Hall : Forall (λ node, forall scopeStack found,
                found ⊆ findInstantiations node scopeStack found /\
                forall name, isEmptyName name || containsName scopeStack name = true ->
                  name ∈ findInstantiations node scopeStack found -> name ∈ found) members).
      { apply Forall_forall. intros node _. apply findInstantiations_scoped. }
      revert Hin. generalize found. clear Hlocal Hdefs.
      induction Hall as [| member rest Hm _ IHl]; intros found0 Hin; [exact Hin |].
      apply IHl in Hin.
      apply (proj2 (Hm (scopeStack ++ [localDefs]) found0) name); [| exact Hin].
      rewrite containsName_app. unfold containsName at 2. cbn [existsb].
      rewrite (bool_decide_eq_true_2 (name ∈ localDefs)) by exact Hname.
      rewrite !orb_true_r. reflexivity.
    + apply (proj2 (findInstantiations_scoped
                      (ModuleDeclarationSyntax kind header members) scopeStack found) name);
        [now rewrite Hstack, orb_true_r | exact Hin].
  - intros name Hin Hempty Hstack Hnot. cbn [findInstantiations].
    apply children_found; [exact Hin | exact Hempty |].
    destruct (localDefinitions members) as [localDefs |] eqn:Hdefs; [| exact Hstack].
    rewrite containsName_app, Hstack. unfold containsName. cbn [existsb orb].
    rewrite orb_false_r. apply bool_decide_eq_false. intros Hname.
    apply Hnot. apply (localDefinitions_spec members name). eauto.
Qed.

(** ** The keys of the vector type cache *)

Section TypeKeyFacts.
Context {svint : SVIntConstants}.
Hypothesis BITWIDTH_BITS_range : 0 <= BITWIDTH_BITS <= 29.



(** X28.  A width the cache key has no room for.  [getType] does not check that
    the width is below [2 ^ BITWIDTH_BITS]: once the signed vector of a width
    [w] is interned, asking for the unsigned vector of width
    [w + 2 ^ BITWIDTH_BITS] meets the same key and is answered with that
    signed vector of width [w]. *)
Theorem getType_width_overflow c w s :
  cacheOk c -> validWidth w -> getScalarType SignedFlag = Some s ->
  exists t c1,
    getType c w SignedFlag = Some (t, c1) /\
    getType c1 (w + 2 ^ BITWIDTH_BITS) NoFlags = Some (t, c1) /\
    getBitWidth t = w /\ isSigned t = true.
Proof.
  intros Hc Hw Hs.
  destruct (getType_spec BITWIDTH_BITS_range c w SignedFlag s Hc Hw Hs)
    as (a & c1 & Hg & Hc1 & Hk & _ & _ & _).
  eexists _, c1. split; [exact Hg |].
  pose proof (vectorType_facts BITWIDTH_BITS_range a w SignedFlag s Hw Hs) as Hf.
  unfold typeFacts in Hf.
  split; [| injection Hf; intros; auto].
  assert (Hp : 0 < 2 ^ BITWIDTH_BITS) by (apply Z.pow_pos_nonneg; lia).
  apply getType_cached; [unfold validWidth in Hw; lia |].
  assert (Hkey : vectorTypeKey (w + 2 ^ BITWIDTH_BITS) NoFlags = vectorTypeKey w SignedFlag).
  { rewrite (vectorTypeKey_sum BITWIDTH_BITS_range w SignedFlag)
      by (unfold validWidth in Hw; lia).
    unfold vectorTypeKey, NoFlags, flagBits, uint32. simpl.
    rewrite Z.shiftl_0_l, Z.mod_0_l by lia. rewrite Z.lor_0_r. lia. }
  rewrite Hkey. exact Hk.
Qed.

End TypeKeyFacts.

(** ** Definitions and their parameters *)

Lemma setDiags_id c : setDiags c (diags c) = c.
Proof. now destruct c. Qed.

Lemma getParamDecls_spec syntax isPort isLocal : forall parameters c,
  exists new,
    getParamDecls c syntax isPort isLocal parameters =
      (parameters ++ new, setDiags c (diags c ++ omap missingInitializer new)) /\
    Forall (λ p, paramIsPort p = isPort /\ paramIsLocal p = isLocal) new.
Proof.
  unfold getParamDecls.
  induction (paramDeclarators syntax) as [| decl rest IH]; intros parameters c.
  - exists []. simpl. now rewrite !app_nil_r, setDiags_id.
  - cbn [fold_left fst snd].
    match goal with |- context [fold_left _ rest (?ps, ?c1)] =>
      destruct (IH ps c1) as (new & -> & Hall);
      exists ({| paramName := declaratorName decl;
                 paramLocation := declaratorLocation decl;
                 paramType := paramTypeSyntax syntax;
                 paramInitializer := declaratorInitializer decl;
                 paramIsLocal := isLocal;
                 paramIsPort := isPort |} :: new)
    end.
    split; [| constructor; [now split | exact Hall]].
    rewrite <- app_assoc. f_equal.
    cbn [omap]. unfold missingInitializer at 2. cbn [paramInitializer paramIsPort paramIsLocal
      paramLocation].
    destruct (declaratorInitializer decl); [reflexivity |].
    destruct isPort; cbn [negb]; [destruct isLocal |];
      unfold setDiags, addError; cbn; rewrite <- ?app_assoc; reflexivity.
Qed.

Lemma portParamDecls_spec c declarations :
  exists new,
    portParamDecls c declarations =
      (new, setDiags c (diags c ++ omap missingInitializer new)) /\
    Forall (λ p, paramIsPort p = true) new.
Proof.
  unfold portParamDecls.
  assert (H : forall lastLocal parameters c0,
    exists new,
      (fold_left
         (λ (acc : bool * (list ParameterDecl * Compilation))
            (declaration : ParameterDeclarationSyntax),
            let lastLocal :=
              match paramKeyword declaration with
              | Some k => isLocalParamKeyword (Some k)
              | None => acc.1
              end in
            (lastLocal, getParamDecls acc.2.2 declaration true lastLocal acc.2.1))
         declarations (lastLocal, (parameters, c0))).2 =
        (parameters ++ new, setDiags c0 (diags c0 ++ omap missingInitializer new)) /\
      Forall (λ p, paramIsPort p = true) new).
  { induction declarations as [| declaration rest IH]; intros lastLocal parameters c0.
    - exists []. simpl. now rewrite !app_nil_r, setDiags_id.
    - cbn [fold_left fst snd].
      match goal with |- context [getParamDecls c0 declaration true ?l parameters] =>
        destruct (getParamDecls_spec declaration true l parameters c0) as (new1 & -> & Hall1);
        destruct (IH l (parameters ++ new1)
                    (setDiags c0 (diags c0 ++ omap missingInitializer new1)))
          as (new2 & Heq & Hall2)
      end.
      exists (new1 ++ new2). split.
      + etransitivity; [exact Heq |].
        rewrite <- app_assoc. f_equal. unfold setDiags. cbn.
        now rewrite omap_app, app_assoc.
      + apply Forall_app. split; [| exact Hall2].
        eapply Forall_impl; [exact Hall1 |]. now intros p (Hp & _). }
  destruct (H false [] c) as (new & Heq & Hall). exists new. split; [exact Heq | exact Hall].
Qed.

Lemma bodyParamDecls_spec hasPortParams members : forall parameters c,
  exists new,
    bodyParamDecls hasPortParams members (parameters, c) =
      (parameters ++ new, setDiags c (diags c ++ omap missingInitializer new)) /\
    Forall (λ p, paramIsPort p = false /\ (hasPortParams = true -> paramIsLocal p = true)) new.
Proof.
  unfold bodyParamDecls.
  induction members as [| member rest IH]; intros parameters c.
  - exists []. simpl. now rewrite !app_nil_r, setDiags_id.
  - cbn [fold_left].
    assert (Hskip : exists new,
      fold_left
        (λ (acc : list ParameterDecl * Compilation) (member : MemberSyntax),
           match member with
           | ParameterDeclarationStatement declaration =>
               let isLocal := hasPortParams || isLocalParamKeyword (paramKeyword declaration) in
               getParamDecls acc.2 declaration false isLocal acc.1
           | _ => acc
           end) rest (parameters, c) =
        (parameters ++ new, setDiags c (diags c ++ omap missingInitializer new)) /\
      Forall (λ p, paramIsPort p = false /\ (hasPortParams = true -> paramIsLocal p = true))
        new) by apply IH.
    destruct member; try exact Hskip. clear Hskip. cbn [fst snd].
    match goal with |- context [getParamDecls c parameter false ?l parameters] =>
      destruct (getParamDecls_spec parameter false l parameters c) as (new1 & -> & Hall1)
    end.
    destruct (IH (parameters ++ new1) (setDiags c (diags c ++ omap missingInitializer new1)))
      as (new2 & -> & Hall2).
    exists (new1 ++ new2). split.
    + rewrite <- app_assoc. f_equal. unfold setDiags. cbn.
      now rewrite omap_app, app_assoc.
    + apply Forall_app. split; [| exact Hall2].
      eapply Forall_impl; [exact Hall1 |]. intros p (Hp & Hl).
      split; [exact Hp |]. intros ->. exact Hl.
Qed.

Lemma addDefinition_spec c kind header members scope :
  exists parameters,
    addDefinition c kind header members scope =
      setDefinitions (setDiags c (diags c ++ omap missingInitializer parameters))
        (mapEmplace (definitionKey (headerName header) scope)
           {| definitionKind := kind;
              definitionName := headerName header;
              definitionNameLocation := headerNameLocation header;
              definitionMembers := members;
              definitionParameters := parameters |}
           (definitionMap c)) /\
    Forall (λ p, is_Some (headerParameters header) -> paramIsPort p = false ->
                 paramIsLocal p = true) parameters.
Proof.
  unfold addDefinition.
  assert (Hports : exists ports,
    match headerParameters header with
    | Some declarations => portParamDecls c declarations
    | None => ([], c)
    end = (ports, setDiags c (diags c ++ omap missingInitializer ports)) /\
    Forall (λ p, paramIsPort p = true) ports).
  { destruct (headerParameters header) as [declarations |].
    - apply portParamDecls_spec.
    - exists []. simpl. now rewrite app_nil_r, setDiags_id. }
  destruct Hports as (ports & -> & Hports).
  destruct (bodyParamDecls_spec (bool_decide (is_Some (headerParameters header))) members
              ports (setDiags c (diags c ++ omap missingInitializer ports)))
    as (body & -> & Hbody).
  exists (ports ++ body). split.
  - unfold definitionKey. cbn [definitionName].
    replace (setDiags (setDiags c (diags c ++ omap missingInitializer ports))
               (diags (setDiags c (diags c ++ omap missingInitializer ports)) ++
                omap missingInitializer body))
      with (setDiags c (diags c ++ omap missingInitializer (ports ++ body)))
      by (unfold setDiags; cbn; now rewrite omap_app, app_assoc).
    destruct (scopeKind scope); reflexivity.
  - apply Forall_app. split.
    + eapply Forall_impl; [exact Hports |]. intros p Hp _ Hb. congruence.
    + eapply Forall_impl; [exact Hbody |]. intros p (_ & Hl) Hsome _.
      apply Hl. now apply bool_decide_eq_true.
Qed.

Lemma getDefinition_skip c name inner : forall rest,
  Forall (λ s, definitionMap c !! (name, scopeAddr s) = None /\ scopeKind s <> RootKind)
    inner ->
  getDefinition c name (inner ++ rest) = getDefinition c name rest.
Proof.
  intros rest Hall. induction Hall as [| s inner (Hnone & Hkind) _ IH]; [reflexivity |].
  simpl. rewrite Hnone. destruct (scopeKind s); congruence.
Qed.

(** X29.  Adding a definition and looking it up.  [addDefinition] files the
    definition under its name and the scope it was declared in, or under the
    root when that scope is a compilation unit; an entry already there is
    kept and the new definition dropped without a diagnostic, every other
    entry is left alone, and the only diagnostics added are those of the
    parameters without an initializer, whether or not the definition is
    kept.  Body parameters of a definition with a parameter port list are
    local.  [getDefinition] then finds the entry from every scope whose chain
    of parents reaches the filing scope without meeting the root or another
    definition of the name. *)
Theorem addDefinition_getDefinition c kind header members scope inner target parents :
  let c' := addDefinition c kind header members scope in
  let key := definitionKey (headerName header) scope in
  scopeAddr target = key.2 ->
  Forall (λ s, definitionMap c' !! (headerName header, scopeAddr s) = None /\
               scopeKind s <> RootKind) inner ->
  exists definition,
    definitionKind definition = kind /\
    definitionName definition = headerName header /\
    definitionNameLocation definition = headerNameLocation header /\
    definitionMembers definition = members /\
    Forall (λ p, is_Some (headerParameters header) -> paramIsPort p = false ->
                 paramIsLocal p = true) (definitionParameters definition) /\
    diags c' = diags c ++ omap missingInitializer (definitionParameters definition) /\
    definitionMap c' !! key = Some (default definition (definitionMap c !! key)) /\
    (forall other, other <> key -> definitionMap c' !! other = definitionMap c !! other) /\
    getDefinition c' (headerName header) (inner ++ target :: parents) =
      Some (Some (default definition (definitionMap c !! key))).
Proof.
  intros c' key Htarget Hinner.
  destruct (addDefinition_spec c kind header members scope) as (parameters & Hadd & Hlocal).
  fold c' key in Hadd.
  eexists {| definitionKind := kind; definitionParameters := parameters |}.
  cbn [definitionKind definitionName definitionNameLocation definitionMembers
       definitionParameters].
  do 4 (split; [reflexivity |]). split; [exact Hlocal |].
  split; [now rewrite Hadd |].
  assert (Hkey : definitionMap c' !! key =
                 Some (default {| definitionKind := kind;
                                  definitionName := headerName header;
                                  definitionNameLocation := headerNameLocation header;
                                  definitionMembers := members;
                                  definitionParameters := parameters |}
                         (definitionMap c !! key))).
  { rewrite Hadd. cbn [definitionMap setDefinitions]. unfold mapEmplace.
    destruct (definitionMap c !! key) eqn:Hold; cbn [default].
    - exact Hold.
    - apply lookup_insert_eq. }
  split; [exact Hkey |]. split.
  - intros other Hother. rewrite Hadd. cbn [definitionMap setDefinitions]. unfold mapEmplace.
    destruct (definitionMap c !! key); [reflexivity |].
    now apply lookup_insert_ne.
  - rewrite (getDefinition_skip _ _ _ _ Hinner). cbn [getDefinition].
    replace (headerName header, scopeAddr target) with key
      by (rewrite Htarget; unfold key, definitionKey; reflexivity).
    now rewrite Hkey.
Qed.

(** ** Adding syntax trees *)

Lemma addTreeMembers_unit members : forall unit c instances,
  exists ds m instances',
    fold_left addTreeMember members (unit, c, instances) =
      ({| unitAddr := unitAddr unit; unitMembers := unitMembers unit ++ members |},
       setDefinitions (setDiags c ds) m, instances').
Proof.
  induction members as [| member rest IH]; intros unit c instances.
  - exists (diags c), (definitionMap c), instances. simpl. rewrite app_nil_r.
    now destruct unit, c.
  - cbn [fold_left].
    assert (Hstep : exists ds m instances1,
      addTreeMember (unit, c, instances) member =
        ({| unitAddr := unitAddr unit; unitMembers := unitMembers unit ++ [member] |},
         setDefinitions (setDiags c ds) m, instances1)).
    { unfold addTreeMember, addMembers.
      destruct member as [k header ms | | | | | | | |];
        try (exists (diags c), (definitionMap c), instances; now destruct c).
      destruct (addDefinition_spec c k header ms
                  {| scopeAddr := unitAddr unit; scopeKind := CompilationUnitKind |})
        as (parameters & -> & _).
      destruct (isModuleDeclaration _); eexists _, _, _; reflexivity. }
    destruct Hstep as (ds1 & m1 & instances1 & ->).
    destruct (IH {| unitAddr := unitAddr unit; unitMembers := unitMembers unit ++ [member] |}
                (setDefinitions (setDiags c ds1) m1) instances1)
      as (ds & m & instances' & ->).
    exists ds, m, instances'. cbn [unitAddr unitMembers]. now rewrite <- app_assoc.
Qed.

Lemma addSyntaxTree_spec c tree :
  finalized c = false ->
  match sourceManager c with
  | Some manager =>
      if bool_decide (manager = treeSourceManager tree) then True
      else exists what, addSyntaxTree c tree = Thrown what c
  | None => True
  end /\
  (firstManager c [tree] = Some (treeSourceManager tree) ->
   exists c',
     addSyntaxTree c tree = Returned tt c' /\
     finalized c' = false /\ forcedDiagnostics c' = false /\
     sourceManager c' = Some (treeSourceManager tree) /\
     syntaxTrees c' = syntaxTrees c ++ [tree] /\
     vectorTypeCache c' = vectorTypeCache c /\
     exists unit,
       unitMembers unit = treeMembers tree /\
       compilationUnits c' = compilationUnits c ++ [unit] /\
       rootMembers (root c') = rootMembers (root c) ++ [UnitMember unit]).
Proof.
  intros Hfin. unfold addSyntaxTree, firstManager. rewrite Hfin. split.
  - destruct (sourceManager c) as [manager |]; [| exact I].
    case_bool_decide as Hm; [exact I |].
    rewrite bool_decide_eq_false_2 by congruence. eauto.
  - intros Hfirst.
    assert (Hmanaged : exists c0,
      (if bool_decide (sourceManager c = Some (treeSourceManager tree)) then Some c
       else match sourceManager c with
            | None => Some (setSourceManager c (treeSourceManager tree))
            | Some _ => None
            end) = Some c0 /\
      finalized c0 = false /\ sourceManager c0 = Some (treeSourceManager tree) /\
      syntaxTrees c0 = syntaxTrees c /\ vectorTypeCache c0 = vectorTypeCache c /\
      compilationUnits c0 = compilationUnits c /\ root c0 = root c).
    { destruct (sourceManager c) as [manager |] eqn:Hsm.
      - rewrite bool_decide_eq_true_2 by exact Hfirst. exists c. now rewrite Hsm, Hfirst.
      - rewrite bool_decide_eq_false_2 by discriminate. eexists. split; [reflexivity |].
        now cbn. }
    destruct Hmanaged as (c0 & -> & F1 & F2 & F3 & F4 & F5 & F6).
    unfold emplace.
    assert (Hloop : exists ds m instances,
      match treeRoot tree with
      | CompilationUnitSyntax members =>
          fold_left addTreeMember members
            ({| unitAddr := nextAddr c0; unitMembers := [] |},
             {| nextAddr := S (nextAddr c0); vectorTypeCache := vectorTypeCache c0;
                diags := diags c0; finalized := finalized c0;
                sourceManager := sourceManager c0; definitionMap := definitionMap c0;
                instantiatedNames := instantiatedNames c0;
                compilationUnits := compilationUnits c0; syntaxTrees := syntaxTrees c0;
                root := root c0; forcedDiagnostics := forcedDiagnostics c0 |}, ∅)
      | SingleNode node =>
          addTreeMember
            ({| unitAddr := nextAddr c0; unitMembers := [] |},
             {| nextAddr := S (nextAddr c0); vectorTypeCache := vectorTypeCache c0;
                diags := diags c0; finalized := finalized c0;
                sourceManager := sourceManager c0; definitionMap := definitionMap c0;
                instantiatedNames := instantiatedNames c0;
                compilationUnits := compilationUnits c0; syntaxTrees := syntaxTrees c0;
                root := root c0; forcedDiagnostics := forcedDiagnostics c0 |}, ∅) node
      end =
      ({| unitAddr := nextAddr c0; unitMembers := treeMembers tree |},
       setDefinitions
         (setDiags
            {| nextAddr := S (nextAddr c0); vectorTypeCache := vectorTypeCache c0;
               diags := diags c0; finalized := finalized c0;
               sourceManager := sourceManager c0; definitionMap := definitionMap c0;
               instantiatedNames := instantiatedNames c0;
               compilationUnits := compilationUnits c0; syntaxTrees := syntaxTrees c0;
               root := root c0; forcedDiagnostics := forcedDiagnostics c0 |} ds) m,
       instances)).
    { unfold treeMembers. destruct (treeRoot tree) as [members | node].
      - match goal with |- context [fold_left addTreeMember members (?u, ?c1, ?i)] =>
          destruct (addTreeMembers_unit members u c1 i) as (ds & m & instances & ->) end.
        now exists ds, m, instances.
      - match goal with |- context [addTreeMember (?u, ?c1, ?i) node] =>
          destruct (addTreeMembers_unit [node] u c1 i) as (ds & m & instances & Heq) end.
        exists ds, m, instances. exact Heq. }
    destruct Hloop as (ds & m & instances & ->).
    eexists. split; [reflexivity |]. cbn.
    split; [exact F1 |]. split; [reflexivity |]. split; [exact F2 |].
    split; [now rewrite F3 |]. split; [exact F4 |].
    eexists. split; [| split; [now rewrite F5 | now rewrite F6]]. reflexivity.
Qed.

(** X30.  Adding a list of syntax trees to a compilation that is not finalized.
    Every tree is accepted exactly when all of them use one source manager:
    the one the compilation already has, or else that of the first tree.
    The compilation then holds the trees in the order given and one
    compilation unit for each, with the members of the tree, appended to the
    root; it stays open for more trees, and the type cache is not
    touched. *)
Theorem addSyntaxTrees_same_manager trees : forall c,
  finalized c = false ->
  (is_Some (addSyntaxTrees c trees) <->
   Forall (λ tree, firstManager c trees = Some (treeSourceManager tree)) trees) /\
  forall c', addSyntaxTrees c trees = Some c' ->
    finalized c' = false /\
    sourceManager c' = firstManager c trees /\
    syntaxTrees c' = syntaxTrees c ++ trees /\
    vectorTypeCache c' = vectorTypeCache c /\
    exists units,
      unitMembers <$> units = treeMembers <$> trees /\
      compilationUnits c' = compilationUnits c ++ units /\
      rootMembers (root c') = rootMembers (root c) ++ (UnitMember <$> units).
Proof.
  induction trees as [| tree rest IH]; intros c Hfin.
  - split; [split; [constructor | simpl; eauto] |].
    intros c' H. simpl in H. injection H as <-.
    split; [exact Hfin |]. unfold firstManager. simpl.
    split; [now destruct (sourceManager c) |]. rewrite app_nil_r.
    split; [reflexivity |]. split; [reflexivity |].
    exists []. simpl. now rewrite !app_nil_r.
  - destruct (addSyntaxTree_spec c tree Hfin) as (Hthrow & Hok).
    assert (Hhead : firstManager c (tree :: rest) = firstManager c [tree]) by reflexivity.
    destruct (decide (firstManager c [tree] = Some (treeSourceManager tree))) as [Hm | Hm].
    + destruct (Hok Hm) as (c1 & Hadd & G1 & _ & G2 & G3 & G4 & unit & U1 & U2 & U3).
      destruct (IH c1 G1) as (Hiff & Hres).
      assert (Hnext : firstManager c1 rest = firstManager c (tree :: rest)).
      { rewrite Hhead, Hm. unfold firstManager. now rewrite G2. }
      cbn [addSyntaxTrees]. rewrite Hadd. split.
      * rewrite Hiff, Forall_cons, Hnext, Hhead. tauto.
      * intros c' H. destruct (Hres c' H) as (R1 & R2 & R3 & R4 & units & V1 & V2 & V3).
        split; [exact R1 |]. split; [congruence |].
        split; [rewrite R3, G3, <- app_assoc; reflexivity |].
        split; [congruence |].
        exists (unit :: units). cbn [fmap list_fmap].
        split; [now rewrite U1, <- V1 |].
        split; [rewrite V2, U2, <- app_assoc; reflexivity |].
        rewrite V3, U3, <- app_assoc. reflexivity.
    + assert (Hthrown : exists what, addSyntaxTree c tree = Thrown what c).
      { unfold firstManager in Hm. simpl in Hm.
        destruct (sourceManager c) as [manager |]; [| congruence].
        case_bool_decide as Hd; [congruence | exact Hthrow]. }
      destruct Hthrown as (what & Hadd). cbn [addSyntaxTrees]. rewrite Hadd. split.
      * split; [intros [? ?]; discriminate |].
        intros Hall. apply Forall_cons in Hall as (Hh & _). now rewrite Hhead in Hh.
      * intros c' H. discriminate.
Qed.

(** * Concrete runs *)

#[local] Existing Instance svint24.

Lemma BITWIDTH_BITS_24 : 0 <= BITWIDTH_BITS (SVIntConstants := svint24) <= 29.
Proof. simpl. lia. Qed.

Lemma validWidth_24 w : 0 < w < 16777216 -> validWidth (svint := svint24) w.
Proof. unfold validWidth. simpl. lia. Qed.



(** [getType 8 Unsigned] on a new compilation, then again, then after two
    other vector types were made. *)
Lemma getType_interned_witness :
  exists t c1,
    getType (svint := svint24) newCompilation 8 NoFlags = Some (t, c1) /\
    getType c1 8 NoFlags = Some (t, c1) /\
    let c2 := getTypeCalls c1 [(16, NoFlags);
                               (8, {| Signed := true; FourState := true; RegFlag := false |})] in
    getType c2 8 NoFlags = Some (t, c2).
Proof.
  destruct (getType_interned (svint := svint24) newCompilation 8 NoFlags
              [(16, NoFlags);
               (8, {| Signed := true; FourState := true; RegFlag := false |})])
    as (Hinterned & _).
  - lia.
  - apply Hinterned. left. exists getBitType. reflexivity.
Defined.

(** Flags with Reg and without FourState name no scalar type: the assertion
    of [getScalarType] fails and [getType] returns no object, on the first
    call already. *)
Lemma getType_regOnly_counterexample :
  0 < 1 /\
  getScalarType regOnlyFlags = None /\
  getType (svint := svint24) newCompilation 1 regOnlyFlags = None /\
  ~ (exists t c1 c2,
       getType (svint := svint24) newCompilation 1 regOnlyFlags = Some (t, c1) /\
       getType (svint := svint24) c1 1 regOnlyFlags = Some (t, c2)).
Proof.
  split; [lia |]. split; [reflexivity |]. split; [reflexivity |].
  intros (t & c1 & c2 & H & _). discriminate H.
Defined.



(** In [vectorCompilation] the two vectors are at the addresses 1 and 2, the
    cache is consistent and there is no diagnostic. *)
Lemma vectorCompilation_types :
  getType vectorCompilation 8 NoFlags = Some (bitVector 1 8, vectorCompilation) /\
  getType vectorCompilation 16 NoFlags = Some (bitVector 2 16, vectorCompilation) /\
  cacheOk vectorCompilation /\ diags vectorCompilation = [].
Proof.
  destruct (getType_spec BITWIDTH_BITS_24 newCompilation 8 NoFlags getBitType)
    as (a1 & c1 & Hg1 & Hok1 & _);
    [apply cacheOk_new | apply validWidth_24; lia | reflexivity |].
  destruct (getType_spec BITWIDTH_BITS_24 c1 16 NoFlags getBitType)
    as (a2 & c2 & Hg2 & Hok2 & _);
    [exact Hok1 | apply validWidth_24; lia | reflexivity |].
  assert (E : vectorCompilation = c2).
  { unfold vectorCompilation, getTypeCalls. cbn [fold_left fst snd].
    rewrite Hg1. cbn [fst snd]. rewrite Hg2. reflexivity. }
  split; [vm_compute; reflexivity |]. split; [vm_compute; reflexivity |].
  split; [rewrite E; exact Hok2 | reflexivity].
Qed.

(** A 16-bit unsigned value assigned to an 8-bit unsigned target: one
    truncation to the target's type, and no diagnostic. *)
Lemma convertAssignment_spec_witness :
  exists result c',
    convertAssignment widenTo numericCompatible numericCompatible
      vectorCompilation (bitVector 1 8) value16 noLocation = Some (result, c') /\
    kind result = Conversion /\ conversionKind result = Some IntTruncation /\
    operands result = [value16] /\ type result = bitVector 1 8 /\
    diags c' = [].
Proof.
  destruct vectorCompilation_types as (_ & _ & Hok & Hd).
  destruct (convertAssignment_spec BITWIDTH_BITS_24 widenTo numericCompatible
              numericCompatible vectorCompilation (bitVector 1 8) value16 noLocation Hok)
    as (_ & _ & Hintegral).
  destruct Hintegral as (rt & c' & Hb & Hd' & Hw & Hrest);
    [reflexivity | reflexivity | reflexivity
    | apply validWidth_24; vm_compute; split; reflexivity
    | apply validWidth_24; vm_compute; split; reflexivity |].
  assert (Hprop : widenTo c' value16 rt = Some (value16, c')).
  { unfold widenTo. rewrite Hw. reflexivity. }
  destruct (Hrest value16 c' Hprop) as [_ Htrunc].
  destruct Htrunc as (result & Hr & Hk & Hck & Hops & Ht & _);
    [reflexivity | reflexivity | reflexivity |].
  exists result, c'. rewrite Hd'. auto 10.
Defined.

Lemma replaceFlags_extra ctx :
  InsideConcatenation (flags (replaceFlags ctx BindFlags_InsideConcatenation)) = true.
Proof. reflexivity. Qed.

(** [{0{1}}]: outside a concatenation a bad expression with the one
    diagnostic ReplicationZeroOutsideConcat; as the first operand of a
    concatenation a void replication that leaves the width 0 and the flags as
    they were. *)
Lemma ReplicationExpression_zero_witness :
  (exists e,
     ReplicationExpression_fromSyntax (selfDetermined replaceFlags literalOrDataType)
       newCompilation noRange (OtherExpressionSyntax 1) (OtherExpressionSyntax 2)
       rootContext =
       Some (e, addError newCompilation ReplicationZeroOutsideConcat (rangeStart noRange)) /\
     bad e = true) /\
  (exists e,
     kind e = Replication /\ type e = getVoidType /\
     concatArgument (selfDetermined replaceFlags literalOrDataType) noRange rootContext
       {| errored := false; concatFlags := NoFlags; totalWidth := 0; buffer := [];
          concatCompilation := newCompilation |}
       (MultipleConcatenationExpressionSyntax noRange
          (OtherExpressionSyntax 1) (OtherExpressionSyntax 2)) =
       Some ({| errored := false; concatFlags := NoFlags; totalWidth := 0;
                buffer := [e]; concatCompilation := newCompilation |}, true)).
Proof.
  destruct (ReplicationExpression_zero replaceFlags literalOrDataType replaceFlags_extra
              newCompilation noRange (OtherExpressionSyntax 1) (OtherExpressionSyntax 2)
              rootContext noRange rootContext
              {| errored := false; concatFlags := NoFlags; totalWidth := 0; buffer := [];
                 concatCompilation := newCompilation |})
    as (Hbound & Hoperand & _).
  split.
  - destruct (Hbound (integerLiteral 0) newCompilation (integerLiteral 1) newCompilation
                {| svBitWidth := 32; svSigned := true; svBits := 0; svHasUnknown := false |})
      as [Houtside _]; try reflexivity.
    apply Houtside. reflexivity.
  - apply (Hoperand (integerLiteral 0) newCompilation (integerLiteral 1) newCompilation
             {| svBitWidth := 32; svSigned := true; svBits := 0; svHasUnknown := false |});
      reflexivity.
Defined.

(** [{0{int}}], a replication whose count is the constant 0 and whose operand
    is a data type.  The operand is a bad expression, so the replication is a
    bad expression before its count is looked at: outside a concatenation the
    only diagnostic is the operand's, and inside a concatenation the result
    is of the error type, not void. *)
Lemma ReplicationExpression_bad_operand_counterexample :
  integerConstant (integerLiteral 0) =
    Some {| svBitWidth := 32; svSigned := true; svBits := 0; svHasUnknown := false |} /\
  svIsZero {| svBitWidth := 32; svSigned := true; svBits := 0; svHasUnknown := false |} = true /\
  (exists e c',
     InsideConcatenation (flags rootContext) = false /\
     ReplicationExpression_fromSyntax (selfDetermined replaceFlags literalOrDataType)
       newCompilation noRange (OtherExpressionSyntax 1) (OtherExpressionSyntax 0)
       rootContext = Some (e, c') /\
     bad e = true /\ diagCodes (diags c') = [ExpectedExpression] /\
     ReplicationZeroOutsideConcat ∉ diagCodes (diags c')) /\
  (exists e c',
     InsideConcatenation
       (flags (replaceFlags rootContext BindFlags_InsideConcatenation)) = true /\
     ReplicationExpression_fromSyntax (selfDetermined replaceFlags literalOrDataType)
       newCompilation noRange (OtherExpressionSyntax 1) (OtherExpressionSyntax 0)
       (replaceFlags rootContext BindFlags_InsideConcatenation) = Some (e, c') /\
     isVoid (type e) = false /\ diagCodes (diags c') = [ExpectedExpression]).
Proof.
  split; [reflexivity |]. split; [reflexivity |]. split.
  - eexists _, _. split; [reflexivity |]. split; [reflexivity |].
    split; [reflexivity |]. split; [reflexivity |].
    simpl. rewrite list_elem_of_singleton. discriminate.
  - eexists _, _. repeat split.
Defined.

(** Three modules, one of them instantiated by another: the other two are the
    top-level instances, in the order of their names. *)
Lemma getRoot_top_level_witness :
  addSyntaxTrees newCompilation [threeModules] = Some threeModulesCompilation /\
  map instanceName (topInstances (getRoot threeModulesCompilation).1) = ["alpha"; "top"] /\
  Sorted nameLeq (topInstances (getRoot threeModulesCompilation).1) /\
  forall key definition,
    definitionMap threeModulesCompilation !! key = Some definition ->
    definitionKind definition = ModuleDeclaration ->
    (forall tree, tree ∈ [threeModules] ->
       definitionName definition ∉ treeInstantiationNames tree) ->
    exists i,
      instanceName i = definitionName definition /\ instanceDefinition i = key /\
      instancesOf key (topInstances (getRoot threeModulesCompilation).1) = [i] /\
      memberInstancesOf key (rootMembers (getRoot threeModulesCompilation).1) =
        [InstanceMember i].
Proof.
  assert (Hadd : addSyntaxTrees newCompilation [threeModules] =
                 Some threeModulesCompilation) by (vm_compute; reflexivity).
  split; [exact Hadd |]. split; [vm_compute; reflexivity |].
  exact (getRoot_top_level [threeModules] threeModulesCompilation Hadd).
Defined.

(** A lexer that stands on the final NUL of the buffer [;] NUL: three more
    calls give three EndOfFile tokens and leave it there. *)
Lemma lex_EndOfFile_absorbing_witness :
  exists tokens lx',
    lexMany noSubLexer noSubLexer noSubLexer noSubLexer noSubLexer noSubLexer
      (λ _, noSubLexer) isASCII7 oneMoreByte 3 LexerMode.Normal 0
      (lexerAt [";"%char; NUL] 1 [] 0) = Some (tokens, lx') /\
    map tokenKind tokens = [TokenKind.EndOfFile; TokenKind.EndOfFile; TokenKind.EndOfFile] /\
    sourceBuffer lx' = 1%nat /\ diagnostics lx' = [].
Proof.
  destruct (lex_EndOfFile_absorbing noSubLexer noSubLexer noSubLexer noSubLexer
              noSubLexer noSubLexer (λ _, noSubLexer) isASCII7 oneMoreByte 0
              (lexerAt [";"%char; NUL] 1 [] 0) 3)
    as (tokens & lx' & Hlex & _ & _ & _ & Hposition & _ & Hdiagnostics).
  - reflexivity.
  - reflexivity.
  - exists tokens, lx'. split; [exact Hlex |].
    split; [| split; [exact Hposition | exact Hdiagnostics]].
    vm_compute in Hlex. injection Hlex as <- _. reflexivity.
Defined.

(** The buffer of one unprintable character before [;], with [maxErrors] 0:
    the first call reports the character, which is one diagnostic too many,
    and returns EndOfFile with the rest of the buffer as disabled text. *)
Lemma lex_error_cap_witness :
  exists tok lx',
    punctuationLex LexerMode.Normal 0 (lexerAt ["001"%char; ";"%char; NUL] 0 [] 0) =
      Some (tok, lx') /\
    tokenKind tok = TokenKind.EndOfFile /\
    diagCodes (diagnostics lx') = [NonPrintableChar; TooManyLexerErrors] /\
    sourceBuffer lx' = 2%nat /\
    trivia (tokenInfo tok) =
      [{| triviaKind := TriviaKind.DisabledText;
          triviaText := ["001"%char; ";"%char] |}].
Proof.
  edestruct (proj1 (lex_error_cap noSubLexer noSubLexer noSubLexer noSubLexer
                      noSubLexer noSubLexer (λ _, noSubLexer) isASCII7 oneMoreByte
                      LexerMode.Normal 0 (lexerAt ["001"%char; ";"%char; NUL] 0 [] 0)))
    as (tok & lx' & Hlex & Hkind & Hdiagnostics & Hposition & _ & Htrivia).
  - discriminate.
  - reflexivity.
  - reflexivity.
  - discriminate.
  - simpl. lia.
  - exists tok, lx'. rewrite Hdiagnostics, Hposition, Htrivia.
    repeat split; try assumption.
Defined.

(** Two calls that return a token other than EndOfFile although the
    diagnostics already number more than [maxErrors], and report nothing: a
    directive-mode call that meets the end of the line, and a call in
    include-file-name mode. *)
Lemma lex_error_cap_counterexample :
  (maxErrors (lexerAt [LF; ";"%char; NUL] 0 [earlierError] 0) <
   length (diagnostics (lexerAt [LF; ";"%char; NUL] 0 [earlierError] 0)))%nat /\
  (exists tok lx',
     punctuationLex LexerMode.Directive 0 (lexerAt [LF; ";"%char; NUL] 0 [earlierError] 0) =
       Some (tok, lx') /\
     tokenKind tok = TokenKind.EndOfDirective /\
     diagnostics lx' = [earlierError] /\ sourceBuffer lx' = 1%nat) /\
  (exists tok lx',
     punctuationLex LexerMode.IncludeFileName 0
       (lexerAt ["<"%char; "a"%char; ">"%char; NUL] 0 [earlierError] 0) = Some (tok, lx') /\
     tokenKind tok = TokenKind.IncludeFileName /\
     rawText (tokenInfo tok) = ["<"%char; "a"%char; ">"%char] /\
     diagnostics lx' = [earlierError] /\ sourceBuffer lx' = 3%nat).
Proof.
  split; [simpl; lia |].
  split; eexists _, _; (split; [vm_compute; reflexivity |]); repeat split.
Defined.


(** ** Runs of the binders *)

Lemma wfType_24 t w : getBitWidth t = w -> 0 < w < 16777216 -> wfType t.
Proof. intros <- H _. now apply validWidth_24. Qed.

(** [~a] for [a : bit [7:0]] is a single two-state bit; [~1.5] is rejected. *)
Lemma UnaryExpression_typing_witness :
  (exists e,
     UnaryExpression_fromSyntax sampleBinder vectorCompilation UnaryBitwiseNotExpression
       operatorLocation noRange (OtherExpressionSyntax 0) rootContext =
       Some (e, vectorCompilation) /\
     bad e = false /\ getBitWidth (type e) = 1) /\
  (exists e c,
     UnaryExpression_fromSyntax sampleBinder vectorCompilation UnaryBitwiseNotExpression
       operatorLocation noRange (OtherExpressionSyntax 3) rootContext = Some (e, c) /\
     bad e = true /\ diagCodes (diags c) = [BadUnaryExpression]).
Proof.
  split.
  - destruct (UnaryExpression_typing sampleBinder vectorCompilation
                UnaryBitwiseNotExpression operatorLocation noRange
                (OtherExpressionSyntax 0) rootContext
                (namedValue (bitVector 1 8)) vectorCompilation)
      as (e & c2 & He & Hbad & Hok & _); [reflexivity.. |].
    destruct (Hok eq_refl) as (-> & _ & _ & _ & Hbit).
    exists e. split; [exact He |]. split; [exact Hbad |]. now apply Hbit.
  - destruct (UnaryExpression_typing sampleBinder vectorCompilation
                UnaryBitwiseNotExpression operatorLocation noRange
                (OtherExpressionSyntax 3) rootContext realLiteral vectorCompilation)
      as (e & c2 & He & Hbad & _ & Hno); [reflexivity.. |].
    exists e, c2. split; [exact He |]. split; [exact Hbad |].
    unfold diagCodes. now rewrite (Hno eq_refl).
Defined.

(** [7++]: a literal is not an lvalue. *)
Lemma UnaryExpression_postfix_typing_witness :
  exists e c,
    UnaryExpression_fromPostfixSyntax sampleBinder vectorCompilation operatorLocation
      noRange (OtherExpressionSyntax 13) rootContext = Some (e, c) /\
    bad e = true /\ diagCodes (diags c) = [ExpressionNotAssignable].
Proof.
  destruct (UnaryExpression_postfix_typing sampleBinder vectorCompilation operatorLocation
              noRange (OtherExpressionSyntax 13) rootContext
              (integerLiteral 7) vectorCompilation)
    as (e & c2 & He & Hbad & _ & Hno); [reflexivity.. |].
  exists e, c2. split; [exact He |]. split; [exact Hbad |].
  unfold diagCodes. now rewrite (Hno eq_refl).
Defined.

Lemma cacheOk_vectorCompilation : cacheOk vectorCompilation.
Proof. apply vectorCompilation_types. Qed.

Lemma diags_vectorCompilation : diags vectorCompilation = [].
Proof. apply vectorCompilation_types. Qed.

(** [a / b] for [a : bit [7:0]] and [b : bit [15:0]]: sixteen bits,
    four-state, unsigned. *)
Lemma BinaryExpression_integral_arithmetic_witness :
  exists e c,
    BinaryExpression_fromSyntax widenTo numericCompatible (λ _, false) (λ _ _, false)
      (λ _, false) sampleBinder vectorCompilation DivideExpression operatorLocation
      noRange (OtherExpressionSyntax 0) (OtherExpressionSyntax 1) rootContext =
      Some (e, c) /\
    bad e = false /\ diags c = [] /\
    getBitWidth (type e) = 16 /\ isSigned (type e) = false /\ isFourState (type e) = true.
Proof.
  destruct (BinaryExpression_integral_arithmetic BITWIDTH_BITS_24 widenTo numericCompatible
              (λ _, false) (λ _ _, false) (λ _, false) sampleBinder vectorCompilation
              DivideExpression operatorLocation noRange
              (OtherExpressionSyntax 0) (OtherExpressionSyntax 1) rootContext
              (namedValue (bitVector 1 8)) vectorCompilation
              (namedValue (bitVector 2 16)) vectorCompilation)
    as (e & c & He & Hbad & _ & _ & Hd & _ & _ & Hw & Hs & H4);
    [reflexivity | reflexivity | reflexivity | reflexivity | reflexivity | reflexivity
    | apply validWidth_24; vm_compute; split; reflexivity
    | apply validWidth_24; vm_compute; split; reflexivity
    | apply cacheOk_vectorCompilation | reflexivity |].
  exists e, c. rewrite Hd, Hw, Hs, H4. repeat split; auto.
Defined.

(** [a << l] for [a : bit [7:0]] and [l : logic]: eight bits, four-state. *)
Lemma BinaryExpression_shift_witness :
  exists e c,
    BinaryExpression_fromSyntax widenTo numericCompatible (λ _, false) (λ _ _, false)
      (λ _, false) sampleBinder vectorCompilation LogicalShiftLeftExpression
      operatorLocation noRange (OtherExpressionSyntax 0) (OtherExpressionSyntax 2)
      rootContext = Some (e, c) /\
    bad e = false /\ getBitWidth (type e) = 8 /\ isFourState (type e) = true.
Proof.
  destruct (BinaryExpression_shift BITWIDTH_BITS_24 widenTo numericCompatible
              (λ _, false) (λ _ _, false) (λ _, false) sampleBinder vectorCompilation
              LogicalShiftLeftExpression operatorLocation noRange
              (OtherExpressionSyntax 0) (OtherExpressionSyntax 2) rootContext
              (namedValue (bitVector 1 8)) vectorCompilation
              (namedValue getLogicType) vectorCompilation)
    as (e & c & He & Hbad & _ & _ & _ & _ & _ & _ & Hw & _ & H4);
    [reflexivity | reflexivity | reflexivity | reflexivity | reflexivity | reflexivity
    | apply validWidth_24; vm_compute; split; reflexivity
    | apply cacheOk_vectorCompilation | reflexivity |].
  exists e, c. rewrite Hw, H4. repeat split; auto.
Defined.

Lemma widenTo_total c e t : is_Some (widenTo c e t).
Proof. unfold widenTo. eauto. Qed.

(** [a === l] is a two-state bit although [l] is four-state; [a == l] is
    [logic]. *)
Lemma BinaryExpression_comparison_witness :
  (exists e c,
     BinaryExpression_fromSyntax widenTo numericCompatible (λ _, false) (λ _ _, false)
       (λ _, false) sampleBinder vectorCompilation CaseEqualityExpression
       operatorLocation noRange (OtherExpressionSyntax 0) (OtherExpressionSyntax 2)
       rootContext = Some (e, c) /\
     bad e = false /\ type e = getBitType) /\
  (exists e c,
     BinaryExpression_fromSyntax widenTo numericCompatible (λ _, false) (λ _ _, false)
       (λ _, false) sampleBinder vectorCompilation EqualityExpression
       operatorLocation noRange (OtherExpressionSyntax 0) (OtherExpressionSyntax 2)
       rootContext = Some (e, c) /\
     bad e = false /\ type e = getLogicType).
Proof.
  split.
  - destruct (BinaryExpression_comparison BITWIDTH_BITS_24 widenTo numericCompatible
                (λ _, false) (λ _ _, false) (λ _, false) sampleBinder vectorCompilation
                CaseEqualityExpression operatorLocation noRange
                (OtherExpressionSyntax 0) (OtherExpressionSyntax 2) rootContext
                (namedValue (bitVector 1 8)) vectorCompilation
                (namedValue getLogicType) vectorCompilation)
      as (e & c & He & Hbad & _ & Ht & _);
      [reflexivity | reflexivity | reflexivity | reflexivity | reflexivity | reflexivity
      | apply (wfType_24 _ 8); [reflexivity | lia]
      | apply (wfType_24 _ 1); [reflexivity | lia]
      | apply cacheOk_vectorCompilation | apply widenTo_total | reflexivity |].
    exists e, c. auto.
  - destruct (BinaryExpression_comparison BITWIDTH_BITS_24 widenTo numericCompatible
                (λ _, false) (λ _ _, false) (λ _, false) sampleBinder vectorCompilation
                EqualityExpression operatorLocation noRange
                (OtherExpressionSyntax 0) (OtherExpressionSyntax 2) rootContext
                (namedValue (bitVector 1 8)) vectorCompilation
                (namedValue getLogicType) vectorCompilation)
      as (e & c & He & Hbad & _ & Ht & _);
      [reflexivity | reflexivity | reflexivity | reflexivity | reflexivity | reflexivity
      | apply (wfType_24 _ 8); [reflexivity | lia]
      | apply (wfType_24 _ 1); [reflexivity | lia]
      | apply cacheOk_vectorCompilation | apply widenTo_total | reflexivity |].
    exists e, c. auto.
Defined.

(** [a ** 1.5] for [a : bit [7:0]]: eight bits, four-state. *)
Lemma BinaryExpression_power_witness :
  exists e c,
    BinaryExpression_fromSyntax widenTo numericCompatible (λ _, false) (λ _ _, false)
      (λ _, false) sampleBinder vectorCompilation PowerExpression
      operatorLocation noRange (OtherExpressionSyntax 0) (OtherExpressionSyntax 3)
      rootContext = Some (e, c) /\
    bad e = false /\ getBitWidth (type e) = 8 /\ isFourState (type e) = true.
Proof.
  destruct (BinaryExpression_power BITWIDTH_BITS_24 widenTo numericCompatible
              (λ _, false) (λ _ _, false) (λ _, false) sampleBinder vectorCompilation
              operatorLocation noRange
              (OtherExpressionSyntax 0) (OtherExpressionSyntax 3) rootContext
              (namedValue (bitVector 1 8)) vectorCompilation
              realLiteral vectorCompilation)
    as (e & c & He & Hbad & _ & _ & _ & _ & Hint);
    [reflexivity | reflexivity | reflexivity | reflexivity | reflexivity | reflexivity
    | apply (wfType_24 _ 8); [reflexivity | lia]
    | apply cacheOk_vectorCompilation |].
  destruct (Hint eq_refl) as (Hw & _ & H4).
  exists e, c. rewrite Hw, H4. repeat split; auto.
Defined.

(** [1.5 % a]: [%] takes integral operands only. *)
Lemma BinaryExpression_rejects_witness :
  exists e c,
    BinaryExpression_fromSyntax widenTo numericCompatible (λ _, false) (λ _ _, false)
      (λ _, false) sampleBinder vectorCompilation ModExpression
      operatorLocation noRange (OtherExpressionSyntax 3) (OtherExpressionSyntax 0)
      rootContext = Some (e, c) /\
    bad e = true /\
    diags c = [{| diagCode := BadBinaryExpression; diagLocation := operatorLocation |}].
Proof.
  destruct (BinaryExpression_rejects BITWIDTH_BITS_24 widenTo numericCompatible
              (λ _, false) (λ _ _, false) (λ _, false) sampleBinder vectorCompilation
              ModExpression operatorLocation noRange
              (OtherExpressionSyntax 3) (OtherExpressionSyntax 0) rootContext
              realLiteral vectorCompilation
              (namedValue (bitVector 1 8)) vectorCompilation)
    as (e & c & He & Hbad & Hd);
    [reflexivity | reflexivity | reflexivity | reflexivity
    | intros H; discriminate H
    | apply (wfType_24 _ 8); [reflexivity | lia]
    | apply cacheOk_vectorCompilation | reflexivity | reflexivity |].
  exists e, c. rewrite Hd, diags_vectorCompilation. auto.
Defined.

(** [a = b] for [a : bit [7:0]] and [b : bit [15:0]]: the right side is
    truncated to the type of [a]; [7 = b] is not assignable. *)
Lemma AssignmentExpression_checks_witness :
  (exists e c,
     AssignmentExpression_fromSyntax widenTo numericCompatible numericCompatible
       sampleBinder sampleBinder vectorCompilation operatorLocation noRange
       (OtherExpressionSyntax 0) (OtherExpressionSyntax 1) rootContext = Some (e, c) /\
     bad e = false /\ type e = bitVector 1 8 /\
     operands e = [namedValue (bitVector 1 8);
                   convert IntTruncation (bitVector 1 8) (namedValue (bitVector 2 16))]) /\
  (exists e,
     AssignmentExpression_fromSyntax widenTo numericCompatible numericCompatible
       sampleBinder sampleBinder vectorCompilation operatorLocation noRange
       (OtherExpressionSyntax 13) (OtherExpressionSyntax 1) rootContext =
       Some (e, addError vectorCompilation ExpressionNotAssignable operatorLocation) /\
     bad e = true).
Proof.
  split.
  - destruct (AssignmentExpression_checks BITWIDTH_BITS_24 widenTo numericCompatible
                numericCompatible sampleBinder sampleBinder vectorCompilation
                operatorLocation noRange (OtherExpressionSyntax 0) (OtherExpressionSyntax 1)
                rootContext (namedValue (bitVector 1 8)) vectorCompilation
                (namedValue (bitVector 2 16)) vectorCompilation)
      as (_ & _ & Hok); [reflexivity.. |].
    destruct Hok as (rt & c3 & Hb & _ & Hrest);
      [reflexivity | reflexivity | reflexivity | reflexivity
      | apply validWidth_24; vm_compute; split; reflexivity
      | apply validWidth_24; vm_compute; split; reflexivity
      | apply cacheOk_vectorCompilation |].
    assert (Hrt : getBitWidth rt = 16).
    { vm_compute in Hb. injection Hb as <- _. reflexivity. }
    destruct (Hrest (namedValue (bitVector 2 16)) c3) as (e & He & Hbad & _ & Ht & Hops).
    { unfold widenTo. rewrite Hrt. reflexivity. }
    { reflexivity. }
    exists e, c3. auto.
  - destruct (AssignmentExpression_checks BITWIDTH_BITS_24 widenTo numericCompatible
                numericCompatible sampleBinder sampleBinder vectorCompilation
                operatorLocation noRange (OtherExpressionSyntax 13) (OtherExpressionSyntax 1)
                rootContext (integerLiteral 7) vectorCompilation
                (namedValue (bitVector 2 16)) vectorCompilation)
      as (Hno & _); [reflexivity.. |].
    exact (Hno eq_refl).
Defined.

(** [b[3]] for [b : bit [15:0]] is a [bit]; [l[3]] for the scalar [l] is
    rejected. *)
Lemma ElementSelectExpression_typing_witness :
  (exists e,
     ElementSelectExpression_fromSyntax sampleBinder vectorCompilation
       (namedValue (bitVector 2 16)) (OtherExpressionSyntax 9) noRange noRange
       rootContext = Some (e, vectorCompilation) /\
     type e = getBitType) /\
  (exists e,
     ElementSelectExpression_fromSyntax sampleBinder vectorCompilation
       (namedValue getLogicType) (OtherExpressionSyntax 9) noRange noRange
       rootContext =
       Some (e, addError vectorCompilation CannotIndexScalar (rangeStart noRange)) /\
     bad e = true).
Proof.
  split.
  - destruct (ElementSelectExpression_typing sampleBinder vectorCompilation
                (namedValue (bitVector 2 16)) (OtherExpressionSyntax 9) noRange noRange
                rootContext (integerLiteral 3) vectorCompilation)
      as (e & c2 & He & _ & _ & _ & Hok); [reflexivity.. |].
    destruct (Hok eq_refl eq_refl eq_refl) as (-> & _ & _ & Hel & _).
    exists e. split; [exact He |]. exact (Hel _ _ _ eq_refl).
  - destruct (ElementSelectExpression_typing sampleBinder vectorCompilation
                (namedValue getLogicType) (OtherExpressionSyntax 9) noRange noRange
                rootContext (integerLiteral 3) vectorCompilation)
      as (e & c2 & He & _ & Hscalar & _); [reflexivity.. |].
    destruct (Hscalar eq_refl) as (Hbad & ->).
    exists e. auto.
Defined.

(** [{a, b}] for [a : bit [7:0]] and [b : bit [15:0]] has 24 bits; [{}] fails
    the assertion of [getType]. *)
Lemma ConcatenationExpression_typing_witness :
  (exists e c,
     ConcatenationExpression_fromSyntax sampleBinder vectorCompilation noRange
       [OtherExpressionSyntax 0; OtherExpressionSyntax 1] rootContext = Some (e, c) /\
     bad e = false /\ getBitWidth (type e) = 24 /\ isFourState (type e) = false) /\
  ConcatenationExpression_fromSyntax sampleBinder vectorCompilation noRange []
    rootContext = None.
Proof.
  split.
  - destruct (ConcatenationExpression_typing BITWIDTH_BITS_24 sampleBinder vectorCompilation
                noRange [OtherExpressionSyntax 0; OtherExpressionSyntax 1] rootContext
                [namedValue (bitVector 1 8); namedValue (bitVector 2 16)] vectorCompilation)
      as [Hok _].
    + reflexivity.
    + repeat (apply List.Forall2_cons; [split; [reflexivity | right; reflexivity] |]).
      apply List.Forall2_nil.
    + vm_compute. reflexivity.
    + apply cacheOk_vectorCompilation.
    + destruct Hok as (e & c & He & Hbad & _ & _ & _ & Hw & _ & H4).
      { apply validWidth_24. vm_compute. split; reflexivity. }
      exists e, c. rewrite Hw, H4. repeat split; auto.
  - destruct (ConcatenationExpression_typing BITWIDTH_BITS_24 sampleBinder vectorCompilation
                noRange [] rootContext [] vectorCompilation) as [_ Hzero].
    + reflexivity.
    + apply List.Forall2_nil.
    + vm_compute. reflexivity.
    + apply cacheOk_vectorCompilation.
    + exact (Hzero eq_refl).
Defined.

(** [{a, int, b}]: the data type is a bad expression, the loop ends there and
    [b] is not bound. *)
Lemma ConcatenationExpression_stops_witness :
  exists e,
    ConcatenationExpression_fromSyntax sampleBinder vectorCompilation noRange
      [OtherExpressionSyntax 0; OtherExpressionSyntax 5; OtherExpressionSyntax 1]
      rootContext =
      Some (e, addError vectorCompilation ExpectedExpression (rangeStart noRange)) /\
    bad e = true.
Proof.
  destruct (ConcatenationExpression_stops sampleBinder vectorCompilation noRange
              [OtherExpressionSyntax 0] rootContext [namedValue (bitVector 1 8)]
              vectorCompilation (OtherExpressionSyntax 5) (badExpr None)
              (addError vectorCompilation ExpectedExpression (rangeStart noRange))
              [OtherExpressionSyntax 1]) as [Hbad _].
  - reflexivity.
  - apply List.Forall2_cons;
      [split; [reflexivity | right; reflexivity] | apply List.Forall2_nil].
  - vm_compute. reflexivity.
  - reflexivity.
  - exact (Hbad eq_refl).
Defined.

(** [{2{a}}] for [a : bit [7:0]] has sixteen bits. *)
Lemma ReplicationExpression_count_witness :
  exists e c,
    ReplicationExpression_fromSyntax sampleBinder vectorCompilation noRange
      (OtherExpressionSyntax 8) (OtherExpressionSyntax 0) rootContext = Some (e, c) /\
    bad e = false /\ getBitWidth (type e) = 16 /\ isSigned (type e) = false.
Proof.
  destruct (ReplicationExpression_count BITWIDTH_BITS_24 sampleBinder vectorCompilation
              noRange (OtherExpressionSyntax 8) (OtherExpressionSyntax 0) rootContext
              (integerLiteral 2) vectorCompilation (namedValue (bitVector 1 8))
              vectorCompilation
              {| svBitWidth := 32; svSigned := true; svBits := 2; svHasUnknown := false |})
    as (_ & _ & Hok); [reflexivity.. |].
  destruct Hok as (e & c & He & Hbad & _ & _ & _ & Hw & Hs & _).
  - reflexivity.
  - reflexivity.
  - discriminate.
  - apply validWidth_24. vm_compute. split; reflexivity.
  - apply cacheOk_vectorCompilation.
  - exists e, c. rewrite Hw. auto.
Defined.

(** The empty string literal has eight bits, [ab] sixteen. *)
Lemma literal_types_witness :
  (exists e c,
     StringLiteral_fromSyntax vectorCompilation "" noRange = Some (e, c) /\
     getBitWidth (type e) = 8) /\
  (exists e c,
     StringLiteral_fromSyntax vectorCompilation "ab" noRange = Some (e, c) /\
     getBitWidth (type e) = 16).
Proof.
  destruct (literal_types BITWIDTH_BITS_24 vectorCompilation noRange
              cacheOk_vectorCompilation) as (_ & _ & Hstring).
  split.
  - destruct (Hstring "") as (e & c & He & _ & _ & _ & Hw & _).
    { apply validWidth_24. vm_compute. split; reflexivity. }
    exists e, c. auto.
  - destruct (Hstring "ab") as (e & c & He & _ & _ & _ & Hw & _).
    { apply validWidth_24. vm_compute. split; reflexivity. }
    exists e, c. auto.
Defined.

Lemma vectorOk_spilledVector : vectorOk spilledVector.
Proof. unfold vectorOk. simpl. lia. Qed.

Lemma vectorOk_fullVector : vectorOk fullVector.
Proof. unfold vectorOk. simpl. lia. Qed.

Lemma operations_keep_storage_witness :
  exists v',
    applyOps (SmallVectorSized 2) sampleOps = Some v' /\
    (vectorOk v' /\ capacity (SmallVectorSized (T := Z) 2) <= capacity v' /\
     (isSmall v' = true -> isSmall (SmallVectorSized (T := Z) 2) = true) /\
     (isSmall v' = true -> capacity v' = capacity (SmallVectorSized (T := Z) 2))).
Proof.
  eexists. split; [vm_compute; reflexivity |].
  apply (operations_keep_storage (SmallVectorSized 2) sampleOps).
  - apply vectorOk_fresh. lia.
  - vm_compute. reflexivity.
Defined.

Lemma append_back_pop_witness :
  exists v' v'',
    append fullVector 7 = Some v' /\ back v' = Some 7 /\ size v' = size fullVector + 1 /\
    (forall i, 0 <= i < size fullVector -> at_ v' i = at_ fullVector i) /\
    (size fullVector <> 0 -> front v' = front fullVector) /\
    pop v' = Some v'' /\ data_ v'' = data_ fullVector /\ size v'' = size fullVector /\
    copy v' = copy fullVector ++ [7].
Proof.
  apply (append_back_pop fullVector 7).
  - apply vectorOk_fullVector.
  - simpl. lia.
Defined.

Lemma append_growth_witness :
  exists v k,
    applyOps (SmallVectorSized 2) (OpAppend <$> [10; 20; 30; 40; 50]) = Some v /\
    vectorOk v /\ data_ v = [10; 20; 30; 40; 50] /\ size v = 5 /\
    capacity v = 2 * 2 ^ k /\ 0 <= k /\
    (k = 0 \/ 2 * 2 ^ (k - 1) < 5) /\ 5 <= capacity v /\
    isSmall v = bool_decide (5 <= 2).
Proof.
  apply (append_growth (T := Z) 2 [10; 20; 30; 40; 50]).
  - lia.
  - simpl. lia.
Defined.

Lemma appendRange_exact_fit_witness :
  (size fullVector + 3 < 2 ^ 32 ->
   exists v',
     appendRange true fullVector [7; 8; 9] = Some v' /\ vectorOk v' /\
     data_ v' = data_ fullVector ++ [7; 8; 9] /\ size v' = size fullVector + 3 /\
     capacity v' = Z.max (capacity fullVector) (size fullVector + 3) /\
     isSmall v' = isSmall fullVector && bool_decide (size fullVector + 3 <= capacity fullVector)) /\
  (2 ^ 32 <= size fullVector + 3 -> appendIterator fullVector [7; 8; 9] = None).
Proof.
  apply (appendRange_exact_fit true fullVector [7; 8; 9]).
  apply vectorOk_fullVector.
Defined.

Lemma move_construction_witness :
  exists v rest,
    moveFrom true 8 spilledVector = Some (v, rest) /\
    data_ v = data_ spilledVector /\ size v = size spilledVector /\
    vectorOk v /\ vectorOk rest /\
    (isSmall spilledVector = true ->
       rest = spilledVector /\ isSmall v = bool_decide (size spilledVector <= 8) /\
       capacity v = Z.max 8 (size spilledVector)) /\
    (isSmall spilledVector = false ->
       isSmall v = false /\ capacity v = capacity spilledVector /\
       size rest = 0 /\ capacity rest = 0 /\
       forall item, exists rest',
         append rest item = Some rest' /\ data_ rest' = [item] /\ capacity rest' = 4).
Proof.
  apply (move_construction true 8 spilledVector).
  - apply vectorOk_spilledVector.
  - lia.
Defined.

Lemma inBuffer_sampleLexer : inBuffer sampleLexer.
Proof. unfold inBuffer. split; [reflexivity | vm_compute; lia]. Qed.

Lemma inBuffer_quotedLexer : inBuffer quotedLexer.
Proof. unfold inBuffer. split; [reflexivity | vm_compute; lia]. Qed.

Lemma lexTrivia_covers_witness :
  exists eod triviaBuffer lx',
    lexTrivia (lexerFuel sampleLexer) [] false sampleLexer = Some (eod, triviaBuffer, lx') /\
    inBuffer lx' /\ lexedFrom sampleLexer lx' /\
    triviaTexts triviaBuffer =
      sourceText sampleLexer (sourceBuffer sampleLexer) (sourceBuffer lx') /\
    Forall (λ t : Trivia, triviaText t <> []) triviaBuffer /\
    (false = false -> eod = false) /\
    (eod = false -> exists c, peek lx' = Some c /\ isBlank c = false /\
                       (c = NUL -> false = false)).
Proof. apply (lexTrivia_covers false sampleLexer). apply inBuffer_sampleLexer. Defined.

Lemma lexIncludeFileName_forms_witness :
  (forall name stop rest',
     "<"%char = QUOTE \/ "<"%char = "<"%char ->
     chars "a.svh>" ++ [LF; NUL] = name ++ stop :: rest' ->
     let closing := if bool_decide ("<"%char = "<"%char) then ">"%char else "<"%char in
     Forall (λ c, c <> NUL /\ isNewline c = false /\ c <> closing) name ->
     (stop = closing ->
        exists lx',
          lexIncludeFileName noSubLexer includeLexer =
            Some ({| tokenKind := TokenKind.IncludeFileName;
                     tokenInfo :=
                       {| trivia := [{| triviaKind := TriviaKind.Whitespace;
                                        triviaText := [" "%char] |}];
                          rawText := "<"%char :: name ++ [closing];
                          location := {| locBuffer := 1; locOffset := 1 |};
                          missing := false;
                          extra := Some (ExtraText ("<"%char :: name ++ [closing])) |} |},
                  lx') /\
          sourceBuffer lx' = (1 + length name + 2)%nat /\
          diagnostics lx' = []) /\
     (stop = NUL \/ isNewline stop = true ->
        exists lx',
          lexIncludeFileName noSubLexer includeLexer =
            Some ({| tokenKind := TokenKind.IncludeFileName;
                     tokenInfo :=
                       {| trivia := [{| triviaKind := TriviaKind.Whitespace;
                                        triviaText := [" "%char] |}];
                          rawText := "<"%char :: name;
                          location := {| locBuffer := 1; locOffset := 1 |};
                          missing := false;
                          extra := Some (ExtraText ("<"%char :: name)) |} |}, lx') /\
          sourceBuffer lx' = (1 + length name + 1)%nat /\
          diagnostics lx' =
            [] ++ [{| diagCode := ExpectedIncludeFileName;
                      diagLocation := {| locBuffer := 1; locOffset := 1 |} |}])) /\
  ("<"%char <> QUOTE -> "<"%char <> "<"%char -> "<"%char <> "`"%char ->
     exists lx',
       lexIncludeFileName noSubLexer includeLexer =
         Some ({| tokenKind := TokenKind.IncludeFileName;
                  tokenInfo :=
                    {| trivia := [{| triviaKind := TriviaKind.Whitespace;
                                     triviaText := [" "%char] |}];
                       rawText := [];
                       location := {| locBuffer := 1; locOffset := 1 |};
                       missing := true; extra := None |} |}, lx') /\
       sourceBuffer lx' = 1%nat /\
       diagnostics lx' =
         [] ++ [{| diagCode := ExpectedIncludeFileName;
                   diagLocation := {| locBuffer := 1; locOffset := 1 |} |}]).
Proof.
  apply (lexIncludeFileName_forms noSubLexer includeLexer [" "%char] "<"%char
           (chars "a.svh>" ++ [LF; NUL])).
  - reflexivity.
  - repeat constructor.
  - reflexivity.
Defined.

Lemma lexStringLiteral_decodes_witness :
  exists lx',
    stringLex emptyInfo (lexerAt quotedText 2 [] 8) =
      Some (TokenKind.StringLiteral,
            setExtra emptyInfo (ExtraText ["a"%char; TAB; "b"%char]), lx') /\
    scannedFrom (lexerAt quotedText 2 [] 8) lx' /\
    (QUOTE = QUOTE -> sourceBuffer lx' = 7%nat /\ diagnostics lx' = []) /\
    (QUOTE <> QUOTE ->
       sourceBuffer lx' = 6%nat /\
       diagnostics lx' =
         [] ++ [{| diagCode := ExpectedClosingQuote;
                   diagLocation := {| locBuffer := 1; locOffset := 6 |} |}]).
Proof.
  apply (lexStringLiteral_decodes (λ _, false) (λ _, false) (λ _, 0) (λ _, 0) emptyInfo
           (lexerAt quotedText 2 [] 8)
           [PlainChar "a"%char; EscapedChar "t"%char; PlainChar "b"%char]
           QUOTE (chars ") ;" ++ [NUL])).
  - reflexivity.
  - repeat constructor.
  - left. reflexivity.
Defined.

(** ** Runs of the lexer with its sub-lexers *)

Lemma runTables_keywords keywordVersion text :
  getKeywordTable (LexerTables := runTables) keywordVersion text <> Some TokenKind.EndOfFile.
Proof. simpl. case_bool_decide; discriminate. Qed.

Lemma runTables_systemKeywords text :
  getSystemKeywordKind (LexerTables := runTables) text <> TokenKind.EndOfFile.
Proof. simpl. case_bool_decide; discriminate. Qed.

Lemma runTables_digits c :
  startsNumber c = true -> isDecimalDigit (LexerTables := runTables) c = true.
Proof.
  destruct c as [[] [] [] [] [] [] [] []]; vm_compute; intros H;
    first [reflexivity | discriminate H].
Qed.

Lemma inBuffer_lineLexer : inBuffer lineLexer.
Proof. unfold inBuffer. split; [reflexivity | vm_compute; lia]. Qed.

Lemma sequencesFit_lineText : sequencesFit isASCII7 oneMoreByte lineText.
Proof.
  intros p c Hp Hc.
  assert (Hlt : (p < 48)%nat) by (apply lookup_lt_Some in Hp; exact Hp).
  do 48 (destruct p as [| p];
         [injection Hp as <-; first [discriminate Hc | vm_compute; lia] |]).
  lia.
Qed.

Lemma lexEach_covers_text_witness :
  exists toks lx',
    Lexer_lexEach (tables := runTables) lineCalls lineLexer = Some (toks, lx') /\
    (inBuffer lx' /\ lexedFrom lineLexer lx' /\
     concat (tokenText <$> toks) =
       sourceText lineLexer (sourceBuffer lineLexer) (sourceBuffer lx')).
Proof.
  eexists _, _. split; [vm_compute; reflexivity |].
  apply (lexEach_covers_text (tables := runTables) runTables_keywords
           runTables_systemKeywords eq_refl runTables_digits lineCalls lineLexer).
  - apply inBuffer_lineLexer.
  - exact sequencesFit_lineText.
  - vm_compute. reflexivity.
Defined.

Lemma lexMany_normal_shape_witness :
  exists toks lx' body eofs,
    Lexer_lexMany (tables := runTables) 24 LexerMode.Normal 0 lineLexer = Some (toks, lx') /\
    toks = body ++ eofs /\
    (length body <= sourceEnd lineLexer - 1 - sourceBuffer lineLexer)%nat /\
    Forall (λ tok : Token TokenExtra, tokenKind tok <> TokenKind.EndOfFile) body /\
    Forall (λ tok : Token TokenExtra, tokenKind tok = TokenKind.EndOfFile) eofs /\
    Forall (λ tok : Token TokenExtra,
              trivia (tokenInfo tok) = [] /\ rawText (tokenInfo tok) = []) (tail eofs) /\
    (eofs <> [] -> sourceBuffer lx' = (sourceEnd lineLexer - 1)%nat).
Proof.
  eexists _, _.
  assert (Hrun : Lexer_lexMany (tables := runTables) 24 LexerMode.Normal 0 lineLexer =
                 Some _) by (vm_compute; reflexivity).
  destruct (lexMany_normal_shape (tables := runTables) runTables_keywords
              runTables_systemKeywords eq_refl runTables_digits
              24 0%nat lineLexer _ _ inBuffer_lineLexer sequencesFit_lineText Hrun)
    as (body & eofs & H).
  exists body, eofs. split; [exact Hrun | exact H].
Defined.


(** ** The compilation: types, definitions and trees *)


(** With 24 bits for the width in the key, the unsigned vector of
    [8 + 2 ^ 24] bits is answered with the signed vector of 8 bits. *)
Lemma getType_width_overflow_witness :
  exists t c1,
    getType (svint := svint24) newCompilation 8 SignedFlag = Some (t, c1) /\
    getType c1 16777224 NoFlags = Some (t, c1) /\
    getBitWidth t = 8 /\ isSigned t = true.
Proof.
  apply (getType_width_overflow (svint := svint24) BITWIDTH_BITS_24 newCompilation 8
           (ScalarType Bit true)).
  - apply cacheOk_new.
  - apply validWidth_24. lia.
  - reflexivity.
Defined.

(** A definition made in one compilation unit is found from another one, and
    its two parameters without initializers are reported. *)
Lemma addDefinition_getDefinition_witness :
  let c' := addDefinition newCompilation ModuleDeclaration parameterHeader parameterBody
              firstUnit in
  exists definition,
    getDefinition c' "m" [secondUnit; rootScope] = Some (Some definition) /\
    definitionName definition = "m" /\
    paramName <$> definitionParameters definition = ["p"; "q"] /\
    diagCodes (diags c') = [LocalParamNoInitializer; BodyParamNoInitializer].
Proof.
  destruct (addDefinition_getDefinition newCompilation ModuleDeclaration parameterHeader
              parameterBody firstUnit [secondUnit] rootScope [])
    as (definition & _ & _ & _ & _ & _ & _ & Hkey & _ & Hget).
  - reflexivity.
  - constructor; [| constructor]. split; [vm_compute; reflexivity | discriminate].
  - exists (default definition
              (definitionMap newCompilation !! definitionKey (headerName parameterHeader)
                                                 firstUnit)).
    split; [exact Hget |].
    assert (E : Some (default definition
                        (definitionMap newCompilation !!
                           definitionKey (headerName parameterHeader) firstUnit)) =
                definitionMap (addDefinition newCompilation ModuleDeclaration parameterHeader
                                 parameterBody firstUnit) !! ("m", rootAddr))
      by (symmetry; exact Hkey).
    vm_compute in E. injection E as ->. vm_compute. repeat split.
Defined.

(** Two trees of one source manager are both accepted. *)
Lemma addSyntaxTrees_same_manager_witness :
  finalized newCompilation = false /\
  exists c',
    addSyntaxTrees newCompilation [threeModules; extraModule] = Some c' /\
    syntaxTrees c' = [threeModules; extraModule] /\
    sourceManager c' = Some 0%nat.
Proof.
  split; [reflexivity |].
  destruct (addSyntaxTrees_same_manager [threeModules; extraModule] newCompilation eq_refl)
    as (Hiff & Hres).
  destruct (proj2 Hiff) as (c' & Hadd).
  - repeat constructor.
  - exists c'. destruct (Hres c' Hadd) as (_ & Hm & Ht & _).
    split; [exact Hadd |]. split; [exact Ht | exact Hm].
Defined.
